(** * SigViewer: the FLIRT [.sig] decoder of [sigparser/flirtparser.cpp]

    A shallow embedding of the parser (bit-stream reader, header decoder,
    pattern-tree walker, node decoder, leaf and module decoder, hex
    rendering) together with the properties stated for it; and of what
    surrounds it: the flattened function list, the display helpers, the
    gzip wrapper, and the part of the viewer ([mainwindow.cpp]) that loads
    a file and fills the functions table.

    Conventions.
    - A [QByteArray] is a [list byte]; a fixed-width unsigned integer is a
      [Z] with the truncation written out ([u8], [u16], [u32], [u64]).
    - A [QString] is a [string]; [QString::fromLatin1] is
      [string_of_list_byte].
    - A function that takes [ParseState &st] takes the state and returns
      the new one.  The decoders that return [bool] and fill a local
      object return an [option]: every caller of such a decoder returns
      [false] at once on a [false] result and the half-filled local is
      dropped, so [None] carries no state.
    - The leaf and tree decoders append to [result.modules] and write
      [result.errorMessage] before they fail, so they return both in
      every case.
    - The loops that run until a flag byte says stop are written by
      recursion on a count of steps taken from the bytes that remain;
      the lemmas [*_runs] show that this count is never used up. *)

From Stdlib Require Import ZArith List String Ascii Bool Lia DecimalString.
From Stdlib Require HexadecimalString.
From Stdlib.Strings Require Import Byte.
Import ListNotations.
Open Scope Z_scope.

(** ** Machine integers and bytes *)

Definition u8  (z : Z) : Z := z mod 2 ^ 8.
Definition u16 (z : Z) : Z := z mod 2 ^ 16.
Definition u32 (z : Z) : Z := z mod 2 ^ 32.
Definition u64 (z : Z) : Z := z mod 2 ^ 64.

(** [static_cast<quint8>(c)] for a [char] of a byte array. *)
Definition byteVal (b : byte) : Z := Z.of_N (Byte.to_N b).

(** [static_cast<char>(v)] for an integer value. *)
Definition toChar (z : Z) : byte :=
  match Byte.of_N (Z.to_N (u8 z)) with
  | Some b => b
  | None => x00
  end.

(** [a[i]] read as [quint8]. *)
Definition at_ (a : list byte) (i : Z) : Z := byteVal (nth (Z.to_nat i) a x00).

(** [a.mid(p, n)] *)
Definition mid (a : list byte) (p n : Z) : list byte :=
  firstn (Z.to_nat n) (skipn (Z.to_nat p) a).

(** [(x & m) != 0], the truth value of a masked flag. *)
Definition hasBit (x m : Z) : bool := negb (Z.land x m =? 0).

(** ** Constants of flirtparser.h *)

Definition IDASIG_FEATURE_COMPRESSED : Z := 0x10.
Definition IDASIG_PARSE_MORE_PUBLIC_NAMES : Z := 0x01.
Definition IDASIG_PARSE_READ_TAIL_BYTES : Z := 0x02.
Definition IDASIG_PARSE_READ_REFERENCED_FUNCTIONS : Z := 0x04.
Definition IDASIG_PARSE_MORE_MODULES_WITH_SAME_CRC : Z := 0x08.
Definition IDASIG_PARSE_MORE_MODULES : Z := 0x10.
Definition IDASIG_FUNCTION_LOCAL : Z := 0x02.
Definition IDASIG_FUNCTION_UNRESOLVED_COLLISION : Z := 0x08.
Definition FLIRT_NAME_MAX : Z := 1024.

(** ** Data model of flirtparser.h

    Field names are the source's; where two structs share a field name the
    later one carries a prefix ([tb_], [rf_], [h_]), and [FlirtModule::length]
    is [moduleLength]. *)

Record FlirtFunction := mkFunction {
  name : string;
  offset : Z;
  isLocal : bool;
  isCollision : bool
}.

Record FlirtTailByte := mkTailByte {
  tb_offset : Z;
  tb_value : Z
}.

Record FlirtRefFunction := mkRefFunction {
  rf_offset : Z;
  rf_name : string;
  negativeOffset : bool
}.

Record FlirtPatternNode := mkNode {
  patternBytes : list byte;
  variantMask : list byte
}.

Record FlirtModule := mkModule {
  patternPath : list FlirtPatternNode;
  crcLength : Z;
  crc16 : Z;
  moduleLength : Z;
  publicFunctions : list FlirtFunction;
  tailBytes : list FlirtTailByte;
  referencedFunctions : list FlirtRefFunction
}.

Record FlirtHeader := mkHeader {
  h_version : Z;
  arch : Z;
  fileTypes : Z;
  osTypes : Z;
  appTypes : Z;
  features : Z;
  oldNFunctions : Z;
  h_crc16 : Z;
  ctype : list byte;
  libraryNameLen : Z;
  ctypesCrc16 : Z;
  nFunctions : Z;
  patternSize : Z;
  unknownV10 : Z
}.

Record FlirtResult := mkResult {
  success : bool;
  errorMessage : string;
  libraryName : string;
  header : FlirtHeader;
  modules : list FlirtModule
}.

Record ParseState := mkState {
  body : list byte;
  pos : Z;
  version : Z;
  eof : bool;
  err : bool
}.

(** [st.body.size()] *)
Definition size (st : ParseState) : Z := Z.of_nat (List.length (body st)).

Definition setPos (st : ParseState) (p : Z) : ParseState :=
  mkState (body st) p (version st) (eof st) (err st).
Definition setEof (st : ParseState) (e : bool) : ParseState :=
  mkState (body st) (pos st) (version st) e (err st).
Definition setVersion (st : ParseState) (v : Z) : ParseState :=
  mkState (body st) (pos st) v (eof st) (err st).

(** [st.eof || st.err], the test the decoders make after a read. *)
Definition stopped (st : ParseState) : bool := eof st || err st.

(** ** The bit-stream reader *)

Definition readByte (st : ParseState) : Z * ParseState :=
  if eof st || err st || (size st <=? pos st)
  then (0, setEof st (size st <=? pos st))
  else (at_ (body st) (pos st), setPos st (pos st + 1)).

Definition readShortBE (st : ParseState) : Z * ParseState :=
  let (r, st1) := readByte st in
  let (b, st2) := readByte st1 in
  (u16 (Z.lor (Z.shiftl r 8) b), st2).

Definition readWordBE (st : ParseState) : Z * ParseState :=
  let (r, st1) := readShortBE st in
  let (s, st2) := readShortBE st1 in
  (u32 (Z.lor (Z.shiftl r 16) s), st2).

Definition readMultipleBytes (st : ParseState) : Z * ParseState :=
  let (r, st1) := readByte st in
  if negb (Z.land r 0x80 =? 0x80) then (r, st1)
  else if negb (Z.land r 0xc0 =? 0xc0) then
    let (b, st2) := readByte st1 in
    (u32 (Z.lor (Z.shiftl (Z.land r 0x7f) 8) b), st2)
  else if negb (Z.land r 0xe0 =? 0xe0) then
    let (b, st2) := readByte st1 in
    let r1 := u32 (Z.lor (Z.shiftl (Z.land r 0x3f) 24) (Z.shiftl b 16)) in
    let (s, st3) := readShortBE st2 in
    (u32 (Z.lor r1 s), st3)
  else readWordBE st1.

Definition readMax2Bytes (st : ParseState) : Z * ParseState :=
  let (r, st1) := readByte st in
  if hasBit r 0x80 then
    let (b, st2) := readByte st1 in
    (u16 (Z.lor (Z.shiftl (Z.land r 0x7f) 8) b), st2)
  else (r, st1).

(** The five primitives of the reader, to speak of "any primitive". *)
Inductive primitive := Byte_ | U16be | U32be | Max2 | Multi.

Definition invoke (p : primitive) (st : ParseState) : Z * ParseState :=
  match p with
  | Byte_ => readByte st
  | U16be => readShortBE st
  | U32be => readWordBE st
  | Max2 => readMax2Bytes st
  | Multi => readMultipleBytes st
  end.

(** The values returned by a sequence of reads made one after the other. *)
Fixpoint invokeAll (ps : list primitive) (st : ParseState) : list Z :=
  match ps with
  | [] => []
  | p :: ps' => let (v, st') := invoke p st in v :: invokeAll ps' st'
  end.

(** ** Hex rendering *)

Definition hexDigit (d : Z) : ascii :=
  nth (Z.to_nat d) (list_ascii_of_string "0123456789ABCDEF") "0"%char.

(** [QString("%1").arg(v, 2, 16, QChar('0')).toUpper()] for a [quint8]. *)
Definition hexByte (v : Z) : string :=
  String (hexDigit (v / 16)) (String (hexDigit (v mod 16)) EmptyString).

(** [variantMask[i]] taken as a truth value, guarded by [i < variantMask.size()]. *)
Definition isVariant (n : FlirtPatternNode) (i : nat) : bool :=
  (Z.of_nat i <? Z.of_nat (List.length (variantMask n)))
  && negb (at_ (variantMask n) (Z.of_nat i) =? 0).

(** What one turn of the loop of [toHexString] appends. *)
Definition hexCell (n : FlirtPatternNode) (i : nat) : string :=
  if isVariant n i then ".."%string
  else hexByte (at_ (patternBytes n) (Z.of_nat i)).

Definition toHexString (n : FlirtPatternNode) : string :=
  String.concat "" (map (hexCell n) (seq 0 (List.length (patternBytes n)))).

Definition isEmpty (s : string) : bool :=
  match s with EmptyString => true | _ => false end.

Definition patternPathHex (m : FlirtModule) : string :=
  fold_left
    (fun out n => ((if isEmpty out then out else out ++ " ") ++ toHexString n)%string)
    (patternPath m) ""%string.

(** ** Magic and version gate *)

Definition IDASGN : list byte := list_byte_of_string "IDASGN".

Fixpoint bytesEq (a b : list byte) : bool :=
  match a, b with
  | [], [] => true
  | x :: a', y :: b' => Byte.eqb x y && bytesEq a' b'
  | _, _ => false
  end.

(** [data.left(6) != "IDASGN"] is [negb (isMagic data)]. *)
Definition isMagic (data : list byte) : bool := bytesEq (firstn 6 data) IDASGN.

(** [isFlirt(data, outVersion)]: the returned flag, and the value written
    through [outVersion] when the function gets as far as writing it. *)
Definition isFlirt (data : list byte) : bool * option Z :=
  if Z.of_nat (List.length data) <? 7 then (false, None)
  else if negb (isMagic data) then (false, None)
  else
    let v := at_ data 6 in
    ((5 <=? v) && (v <=? 10), Some v).

(** ** Header decoder *)

(** [QString::arg] of a non-negative integer: its decimal digits. *)
Definition decimal (v : Z) : string := NilZero.string_of_uint (N.to_uint (Z.to_N v)).

Definition setError (r : FlirtResult) (msg : string) : FlirtResult :=
  mkResult (success r) msg (libraryName r) (header r) (modules r).
Definition setHeader (r : FlirtResult) (h : FlirtHeader) : FlirtResult :=
  mkResult (success r) (errorMessage r) (libraryName r) h (modules r).
Definition setLibraryName (r : FlirtResult) (s : string) : FlirtResult :=
  mkResult (success r) (errorMessage r) s (header r) (modules r).

Definition setNFunctions (h : FlirtHeader) (v : Z) : FlirtHeader :=
  mkHeader (h_version h) (arch h) (fileTypes h) (osTypes h) (appTypes h)
    (features h) (oldNFunctions h) (h_crc16 h) (ctype h) (libraryNameLen h)
    (ctypesCrc16 h) v (patternSize h) (unknownV10 h).
Definition setPatternSize (h : FlirtHeader) (v : Z) : FlirtHeader :=
  mkHeader (h_version h) (arch h) (fileTypes h) (osTypes h) (appTypes h)
    (features h) (oldNFunctions h) (h_crc16 h) (ctype h) (libraryNameLen h)
    (ctypesCrc16 h) (nFunctions h) v (unknownV10 h).
Definition setUnknownV10 (h : FlirtHeader) (v : Z) : FlirtHeader :=
  mkHeader (h_version h) (arch h) (fileTypes h) (osTypes h) (appTypes h)
    (features h) (oldNFunctions h) (h_crc16 h) (ctype h) (libraryNameLen h)
    (ctypesCrc16 h) (nFunctions h) (patternSize h) v.

(** The little-endian and big-endian fields the header reads by indexing
    [st.body] directly. *)
Definition le16 (a : list byte) (p : Z) : Z :=
  u16 (Z.lor (at_ a p) (Z.shiftl (at_ a (p + 1)) 8)).
Definition le32 (a : list byte) (p : Z) : Z :=
  u32 (Z.lor (Z.lor (Z.lor (at_ a p) (Z.shiftl (at_ a (p + 1)) 8))
                    (Z.shiftl (at_ a (p + 2)) 16))
             (Z.shiftl (at_ a (p + 3)) 24)).
Definition be16 (a : list byte) (p : Z) : Z :=
  u16 (Z.lor (Z.shiftl (at_ a p) 8) (at_ a (p + 1))).

(** The part of [parseHeader] after the fixed 30 bytes: the fields that
    depend on the version.  [inl] is [errorMessage = msg; return false],
    with the reader state and the header as they are left. *)
Definition parseHeaderExt (st : ParseState) (h : FlirtHeader)
  : (string * ParseState * FlirtHeader) + (ParseState * FlirtHeader) :=
  if 6 <=? version st then
    if size st <? pos st + 4
      then inl ("Truncated v6/v7 header"%string, st, h)
    else
      let h := setNFunctions h (le32 (body st) (pos st)) in
      let st := setPos st (pos st + 4) in
      if 8 <=? version st then
        if size st <? pos st + 2
          then inl ("Truncated v8/v9 header"%string, st, h)
        else
          let h := setPatternSize h (be16 (body st) (pos st)) in
          let st := setPos st (pos st + 2) in
          if 10 <=? version st then
            if size st <? pos st + 2
              then inl ("Truncated v10 header"%string, st, h)
            else
              let h := setUnknownV10 h (be16 (body st) (pos st)) in
              inr (setPos st (pos st + 2), h)
          else inr (st, h)
      else inr (st, h)
  else inr (st, h).

Definition parseHeader (st : ParseState) (result : FlirtResult)
  : bool * ParseState * FlirtResult :=
  if size st <? 7 then (false, st, setError result "File too short")
  else if negb (isMagic (body st)) then
    (false, st, setError result "Invalid magic (not IDASGN)")
  else
    let st := setPos (setVersion st (at_ (body st) 6)) 7 in
    if (version st <? 5) || (10 <? version st) then
      (false, st,
       setError result ("Unsupported FLIRT version " ++ decimal (version st)))
    else if size st <? pos st + 30 then
      (false, st, setError result "Truncated v5 header")
    else
      let h0 := header result in
      let (arch_, st) := readByte st in
      let fileTypes_ := le32 (body st) (pos st) in
      let st := setPos st (pos st + 4) in
      let osTypes_ := le16 (body st) (pos st) in
      let st := setPos st (pos st + 2) in
      let appTypes_ := le16 (body st) (pos st) in
      let st := setPos st (pos st + 2) in
      let features_ := le16 (body st) (pos st) in
      let st := setPos st (pos st + 2) in
      let oldNFunctions_ := le16 (body st) (pos st) in
      let st := setPos st (pos st + 2) in
      let crc16_ := le16 (body st) (pos st) in
      let st := setPos st (pos st + 2) in
      let ctype_ := mid (body st) (pos st) 12 in
      let st := setPos st (pos st + 12) in
      let (libraryNameLen_, st) := readByte st in
      let ctypesCrc16_ := le16 (body st) (pos st) in
      let st := setPos st (pos st + 2) in
      let h := mkHeader (version st) arch_ fileTypes_ osTypes_ appTypes_
                 features_ oldNFunctions_ crc16_ ctype_ libraryNameLen_
                 ctypesCrc16_ (nFunctions h0) (patternSize h0) (unknownV10 h0) in
      match parseHeaderExt st h with
      | inl (msg, st, h) => (false, st, setError (setHeader result h) msg)
      | inr (st, h) =>
          let result := setHeader result h in
          if size st <? pos st + libraryNameLen h then
            (false, st, setError result "Truncated library name")
          else
            (true, setPos st (pos st + libraryNameLen h),
             setLibraryName result
               (string_of_list_byte (mid (body st) (pos st) (libraryNameLen h))))
      end.

(** ** Node decoder *)

Definition readNodeLength (st : ParseState) : option (Z * ParseState) :=
  if stopped st then None else Some (readByte st).

(** The two halves of the 64-bit mask are read left to right, high half
    first. *)
Definition readNodeVariantMask (st : ParseState) (nodeLen : Z)
  : option (Z * ParseState) :=
  let checked (r : Z * ParseState) :=
    if negb (eof (snd r)) && negb (err (snd r)) then Some r else None in
  if nodeLen <? 16 then checked (readMax2Bytes st)
  else if nodeLen <=? 32 then checked (readMultipleBytes st)
  else if nodeLen <=? 64 then
    let (hi, st1) := readMultipleBytes st in
    let (lo, st2) := readMultipleBytes st1 in
    checked (u64 (Z.lor (Z.shiftl hi 32) lo), st2)
  else None.

(** The [for] loop of [readNodeBytes]: [n] bytes are still to be filled and
    [bit] is the mask bit of the next one.  The two arrays are returned
    from the current index on. *)
Fixpoint nodeBytesLoop (n : nat) (bit variantMask : Z) (st : ParseState)
  : option (list byte * list byte * ParseState) :=
  match n with
  | O => Some ([], [], st)
  | S n' =>
      if hasBit variantMask bit then
        match nodeBytesLoop n' (Z.shiftr bit 1) variantMask st with
        | Some (pb, vm, st') => Some (x00 :: pb, x01 :: vm, st')
        | None => None
        end
      else if stopped st then None
      else
        let (b, st1) := readByte st in
        match nodeBytesLoop n' (Z.shiftr bit 1) variantMask st1 with
        | Some (pb, vm, st') => Some (toChar b :: pb, x00 :: vm, st')
        | None => None
        end
  end.

Definition readNodeBytes (st : ParseState) (nodeLen variantMask : Z)
  : option (FlirtPatternNode * ParseState) :=
  if (63 <? nodeLen) || (nodeLen <=? 0) then None
  else
    match nodeBytesLoop (Z.to_nat nodeLen) (Z.shiftl 1 (nodeLen - 1))
            variantMask st with
    | Some (pb, vm, st') => Some (mkNode pb vm, st')
    | None => None
    end.

(** ** Leaf and module decoder *)

(** The count of steps given to a loop that starts in state [st]: one more
    than the number of bytes that remain. *)
Definition remaining (st : ParseState) : nat := Z.to_nat (size st - pos st).
Definition stepsFor (st : ParseState) : nat := S (remaining st).

(** How a counted loop ends: with a value and a state, with [return false],
    or with its count used up. *)
Inductive run (A : Type) : Type :=
| Done (a : A) (st : ParseState)
| Failed
| Starved.
Arguments Done {A} a st.
Arguments Failed {A}.
Arguments Starved {A}.

(** [st.version >= 9 ? readMultipleBytes(st) : readMax2Bytes(st)], the read
    used for every length, delta and offset of a module. *)
Definition readOffset (st : ParseState) : Z * ParseState :=
  if 9 <=? version st then readMultipleBytes st else readMax2Bytes st.

Definition setModuleLength (m : FlirtModule) (v : Z) : FlirtModule :=
  mkModule (patternPath m) (crcLength m) (crc16 m) v
    (publicFunctions m) (tailBytes m) (referencedFunctions m).
Definition addPublicFunction (m : FlirtModule) (f : FlirtFunction) : FlirtModule :=
  mkModule (patternPath m) (crcLength m) (crc16 m) (moduleLength m)
    (publicFunctions m ++ [f]) (tailBytes m) (referencedFunctions m).
Definition addTailByte (m : FlirtModule) (t : FlirtTailByte) : FlirtModule :=
  mkModule (patternPath m) (crcLength m) (crc16 m) (moduleLength m)
    (publicFunctions m) (tailBytes m ++ [t]) (referencedFunctions m).
Definition addReferencedFunction (m : FlirtModule) (r : FlirtRefFunction)
  : FlirtModule :=
  mkModule (patternPath m) (crcLength m) (crc16 m) (moduleLength m)
    (publicFunctions m) (tailBytes m) (referencedFunctions m ++ [r]).

(** The [while] loop that collects a function name.  [room] is
    [FLIRT_NAME_MAX - nameBytes.size()]; the loop ends when [currentByte] is
    below 0x20 or when no room is left, and hands back [currentByte]. *)
Fixpoint nameLoop (room : nat) (currentByte : Z) (nameBytes : list byte)
  (st : ParseState) : option (list byte * Z * ParseState) :=
  match room with
  | O => Some (nameBytes, currentByte, st)
  | S room' =>
      if 0x20 <=? currentByte then
        let (c, st1) := readByte st in
        if stopped st1 then None
        else nameLoop room' c (nameBytes ++ [toChar currentByte]) st1
      else Some (nameBytes, currentByte, st)
  end.

(** The optional attribute byte before a name: the two attribute flags, the
    first byte of the name, and the state. *)
Definition readAttributes (currentByte : Z) (st : ParseState)
  : option (bool * bool * Z * ParseState) :=
  if currentByte <? 0x20 then
    let (c, st1) := readByte st in
    if stopped st1 then None
    else Some (hasBit currentByte IDASIG_FUNCTION_LOCAL,
               hasBit currentByte IDASIG_FUNCTION_UNRESOLVED_COLLISION,
               c, st1)
  else Some (false, false, currentByte, st).

(** One turn of the [do] loop of [readModulePublicFunctions]: the function
    read, the byte that ended its name, and the state.  [offset_] is the
    local [offset] of the source, the running offset on entry. *)
Definition readPublicFunction (st : ParseState) (offset_ : Z)
  : option (FlirtFunction * Z * ParseState) :=
  let (delta, st1) := readOffset st in
  let offset_ := u32 (offset_ + delta) in
  if stopped st1 then None
  else
    let (currentByte, st2) := readByte st1 in
    if stopped st2 then None
    else
      match readAttributes currentByte st2 with
      | None => None
      | Some (loc, col, c, st3) =>
          match nameLoop (Z.to_nat FLIRT_NAME_MAX) c [] st3 with
          | None => None
          | Some (nameBytes, flags, st4) =>
              Some (mkFunction (string_of_list_byte nameBytes) offset_ loc col,
                    flags, st4)
          end
      end.

Fixpoint publicFunctionsLoop (steps : nat) (st : ParseState) (offset_ : Z)
  (mod_ : FlirtModule) : run (FlirtModule * Z) :=
  match steps with
  | O => Starved
  | S steps' =>
      match readPublicFunction st offset_ with
      | None => Failed
      | Some (f, flags, st') =>
          let mod_ := addPublicFunction mod_ f in
          if hasBit flags IDASIG_PARSE_MORE_PUBLIC_NAMES
          then publicFunctionsLoop steps' st' (offset f) mod_
          else Done (mod_, flags) st'
      end
  end.

Definition readModulePublicFunctions (st : ParseState) (mod_ : FlirtModule)
  : option (FlirtModule * Z * ParseState) :=
  match publicFunctionsLoop (stepsFor st) st 0 mod_ with
  | Done r st' => Some (r, st')
  | _ => None
  end.

Fixpoint tailBytesLoop (count : nat) (st : ParseState) (mod_ : FlirtModule)
  : option (FlirtModule * ParseState) :=
  match count with
  | O => Some (mod_, st)
  | S count' =>
      let (off, st1) := readOffset st in
      if stopped st1 then None
      else
        let (v, st2) := readByte st1 in
        if stopped st2 then None
        else tailBytesLoop count' st2 (addTailByte mod_ (mkTailByte off v))
  end.

(** [int count = (st.version >= 8) ? readByte(st) : 1;] *)
Definition readCount (st : ParseState) : Z * ParseState :=
  if 8 <=? version st then readByte st else (1, st).

Definition readModuleTailBytes (st : ParseState) (mod_ : FlirtModule)
  : option (FlirtModule * ParseState) :=
  let (count, st1) := readCount st in
  if stopped st1 then None
  else tailBytesLoop (Z.to_nat count) st1 mod_.

(** The loop that reads the [nameLen] bytes of a referenced name. *)
Fixpoint refNameLoop (n : nat) (st : ParseState) (nameBytes : list byte)
  : option (list byte * ParseState) :=
  match n with
  | O => Some (nameBytes, st)
  | S n' =>
      let (b, st1) := readByte st in
      if stopped st1 then None
      else refNameLoop n' st1 (nameBytes ++ [toChar b])
  end.

(** [nameLen = readByte(st)], replaced by [readMultipleBytes(st)] when it is 0. *)
Definition readNameLen (st : ParseState) : option (Z * ParseState) :=
  let (nameLen, st1) := readByte st in
  if stopped st1 then None
  else if nameLen =? 0 then
    let (nameLen, st2) := readMultipleBytes st1 in
    if stopped st2 then None else Some (nameLen, st2)
  else Some (nameLen, st1).

Definition readReferencedFunction (st : ParseState)
  : option (FlirtRefFunction * ParseState) :=
  let (off, st1) := readOffset st in
  if stopped st1 then None
  else
    match readNameLen st1 with
    | None => None
    | Some (nameLen, st2) =>
        if FLIRT_NAME_MAX <=? nameLen then None
        else
          match refNameLoop (Z.to_nat nameLen) st2 [] with
          | None => None
          | Some (nameBytes, st3) =>
              if (0 <? Z.of_nat (List.length nameBytes))
                 && (byteVal (last nameBytes x01) =? 0)
              then Some (mkRefFunction off
                           (string_of_list_byte (removelast nameBytes)) true,
                         st3)
              else Some (mkRefFunction off (string_of_list_byte nameBytes) false,
                         st3)
          end
    end.

Fixpoint referencedFunctionsLoop (count : nat) (st : ParseState)
  (mod_ : FlirtModule) : option (FlirtModule * ParseState) :=
  match count with
  | O => Some (mod_, st)
  | S count' =>
      match readReferencedFunction st with
      | None => None
      | Some (rf, st1) =>
          referencedFunctionsLoop count' st1 (addReferencedFunction mod_ rf)
      end
  end.

Definition readModuleReferencedFunctions (st : ParseState) (mod_ : FlirtModule)
  : option (FlirtModule * ParseState) :=
  let (count, st1) := readCount st in
  if stopped st1 then None
  else referencedFunctionsLoop (Z.to_nat count) st1 mod_.

(** The body of the inner [do] loop of [parseLeaf] up to (not including)
    [modulesOut.append(mod)]: the module, the flags byte that ended its
    public-function list, and the state. *)
Definition parseModule (st : ParseState) (path : list FlirtPatternNode)
  (crcLength crc16 : Z) : option (FlirtModule * Z * ParseState) :=
  let mod_ := mkModule path crcLength crc16 0 [] [] [] in
  let (len, st1) := readOffset st in
  let mod_ := setModuleLength mod_ len in
  if stopped st1 then None
  else
    match readModulePublicFunctions st1 mod_ with
    | None => None
    | Some (mod_, flags, st2) =>
        match (if hasBit flags IDASIG_PARSE_READ_TAIL_BYTES
               then readModuleTailBytes st2 mod_ else Some (mod_, st2)) with
        | None => None
        | Some (mod_, st3) =>
            match (if hasBit flags IDASIG_PARSE_READ_REFERENCED_FUNCTIONS
                   then readModuleReferencedFunctions st3 mod_
                   else Some (mod_, st3)) with
            | None => None
            | Some (mod_, st4) => Some (mod_, flags, st4)
            end
        end
    end.

(** The inner [do] loop of [parseLeaf]: the modules that share one CRC. *)
Fixpoint sameCrcLoop (steps : nat) (st : ParseState)
  (path : list FlirtPatternNode) (crcLength crc16 : Z)
  (modulesOut : list FlirtModule) : list FlirtModule * run Z :=
  match steps with
  | O => (modulesOut, Starved)
  | S steps' =>
      match parseModule st path crcLength crc16 with
      | None => (modulesOut, Failed)
      | Some (mod_, flags, st') =>
          let modulesOut := modulesOut ++ [mod_] in
          if hasBit flags IDASIG_PARSE_MORE_MODULES_WITH_SAME_CRC
          then sameCrcLoop steps' st' path crcLength crc16 modulesOut
          else (modulesOut, Done flags st')
      end
  end.

(** The outer [do] loop of [parseLeaf]: one CRC block per turn. *)
Fixpoint leafLoop (steps : nat) (st : ParseState)
  (path : list FlirtPatternNode) (modulesOut : list FlirtModule)
  : list FlirtModule * run unit :=
  match steps with
  | O => (modulesOut, Starved)
  | S steps' =>
      let (crcLength, st1) := readByte st in
      if stopped st1 then (modulesOut, Failed)
      else
        let (crc16, st2) := readShortBE st1 in
        if stopped st2 then (modulesOut, Failed)
        else
          match sameCrcLoop (stepsFor st2) st2 path crcLength crc16 modulesOut with
          | (modulesOut, Done flags st3) =>
              if hasBit flags IDASIG_PARSE_MORE_MODULES
              then leafLoop steps' st3 path modulesOut
              else (modulesOut, Done tt st3)
          | (modulesOut, Failed) => (modulesOut, Failed)
          | (modulesOut, Starved) => (modulesOut, Starved)
          end
  end.

(** [parseLeaf]: the modules list as it is left, and the state when the
    function returns [true]. *)
Definition parseLeaf (st : ParseState) (path : list FlirtPatternNode)
  (modulesOut : list FlirtModule) : list FlirtModule * option ParseState :=
  match leafLoop (stepsFor st) st path modulesOut with
  | (out, Done _ st') => (out, Some st')
  | (out, _) => (out, None)
  end.

(** ** Pattern-tree walker *)

(** What [parseTree] leaves behind: [result.modules], [result.errorMessage],
    and how the call ended. *)
Record TreeOut := mkTreeOut {
  t_modules : list FlirtModule;
  t_error : string;
  t_end : run unit
}.

(** One pattern node: length, variant mask, bytes. *)
Definition readNode (st : ParseState) : option (FlirtPatternNode * ParseState) :=
  match readNodeLength st with
  | None => None
  | Some (nodeLen, st1) =>
      match readNodeVariantMask st1 nodeLen with
      | None => None
      | Some (variantMask, st2) => readNodeBytes st2 nodeLen variantMask
      end
  end.

(** [parseTreeSteps] is [parseTree]; [treeChildren] is its [for] loop from
    index [i] on.  Both count their steps on the same counter. *)
Fixpoint parseTreeSteps (steps : nat) (st : ParseState)
  (path : list FlirtPatternNode) (modulesOut : list FlirtModule)
  (errorMessage : string) {struct steps} : TreeOut :=
  match steps with
  | O => mkTreeOut modulesOut errorMessage Starved
  | S steps' =>
      let (treeNodes, st1) := readMultipleBytes st in
      if stopped st1 then mkTreeOut modulesOut "Unexpected EOF in tree" Failed
      else if treeNodes =? 0 then
        match parseLeaf st1 path modulesOut with
        | (out, Some st') => mkTreeOut out errorMessage (Done tt st')
        | (out, None) => mkTreeOut out errorMessage Failed
        end
      else treeChildren steps' 0 treeNodes st1 path modulesOut errorMessage
  end
with treeChildren (steps : nat) (i treeNodes : Z) (st : ParseState)
  (path : list FlirtPatternNode) (modulesOut : list FlirtModule)
  (errorMessage : string) {struct steps} : TreeOut :=
  match steps with
  | O => mkTreeOut modulesOut errorMessage Starved
  | S steps' =>
      if i <? treeNodes then
        match readNode st with
        | None => mkTreeOut modulesOut errorMessage Failed
        | Some (node, st1) =>
            let childPath := path ++ [node] in
            match parseTreeSteps steps' st1 childPath modulesOut errorMessage with
            | mkTreeOut out e (Done _ st2) =>
                treeChildren steps' (i + 1) treeNodes st2 path out e
            | other => other
            end
        end
      else mkTreeOut modulesOut errorMessage (Done tt st)
  end.

Definition parseTree (st : ParseState) (path : list FlirtPatternNode)
  (modulesOut : list FlirtModule) (errorMessage : string) : TreeOut :=
  parseTreeSteps (stepsFor st) st path modulesOut errorMessage.

(** ** The entry point *)

(** [inflate] is [decompressZlib] of a build with zlib ([Some f], with
    [f body windowBits] the inflated bytes, empty on failure) and [None] for
    a build without it. *)
Definition Inflater : Type := option (list byte -> Z -> list byte).

Definition emptyHeader : FlirtHeader :=
  mkHeader 0 0 0 0 0 0 0 0 [] 0 0 0 0 0.
Definition emptyResult : FlirtResult :=
  mkResult false "" "" emptyHeader [].

(** The decompression gate of [parse]: the state the tree is read from, or
    the error message. *)
Definition decompressionGate (inflate : Inflater) (st : ParseState)
  (result : FlirtResult) : string + ParseState :=
  if hasBit (features (header result)) IDASIG_FEATURE_COMPRESSED then
    match inflate with
    | Some decompressZlib =>
        let body_ := skipn (Z.to_nat (pos st)) (body st) in
        let windowBits :=
          if (version st =? 5) || (version st =? 6) then -15 else 15 in
        let decompressed := decompressZlib body_ windowBits in
        match decompressed with
        | [] => inl "FLIRT decompression failed"%string
        | _ => inr (mkState decompressed 0 (version st) false false)
        end
    | None =>
        inl "Compressed .sig requires zlib (build without ZLIB found)"%string
    end
  else inr st.

(** The end of [parse]: the result once [parseTree] has returned, with the
    modules and the message it left in [result]. *)
Definition afterTree (result : FlirtResult) (t : TreeOut) : FlirtResult :=
  match t_end t with
  | Done _ _ =>
      mkResult true (t_error t) (libraryName result) (header result)
        (t_modules t)
  | _ =>
      mkResult (success result)
        (if isEmpty (t_error t)
         then "Parse error in signature tree"%string else t_error t)
        (libraryName result) (header result) (t_modules t)
  end.

Definition parse (inflate : Inflater) (data : list byte) : FlirtResult :=
  let result := emptyResult in
  let st := mkState data 0 0 false false in
  let (flirt, outVersion) := isFlirt data in
  let st := match outVersion with Some v => setVersion st v | None => st end in
  if negb flirt then setError result "Not a valid FLIRT .sig file"
  else
    match parseHeader st result with
    | (false, _, result) => result
    | (true, st, result) =>
        match decompressionGate inflate st result with
        | inl msg => setError result msg
        | inr st =>
            afterTree result
              (parseTree st [] (modules result) (errorMessage result))
        end
    end.

(** ** The flattened function list *)

(** [FlirtResult::FunctionEntry].  The two pointers point into
    [result.modules]; an entry holds what they point to. *)
Record FunctionEntry := mkEntry {
  moduleIndex : Z;
  module : FlirtModule;
  function : FlirtFunction
}.

(** The loop of [allFunctions] from module index [mi] on. *)
Fixpoint allFunctionsFrom (mi : Z) (ms : list FlirtModule) : list FunctionEntry :=
  match ms with
  | [] => []
  | mod_ :: ms' =>
      map (mkEntry mi mod_) (publicFunctions mod_)
      ++ allFunctionsFrom (mi + 1) ms'
  end.

Definition allFunctions (r : FlirtResult) : list FunctionEntry :=
  allFunctionsFrom 0 (modules r).

(** ** Display helpers *)

(** [QString::arg(v, fieldWidth, 16, fillChar)] of a non-negative integer:
    its lowercase hexadecimal digits, padded on the left up to
    [fieldWidth]. *)
Definition hexLower (v : Z) : string :=
  HexadecimalString.NilZero.string_of_uint (N.to_hex_uint (Z.to_N v)).
Definition padLeft (fieldWidth : nat) (fillChar : ascii) (s : string) : string :=
  (string_of_list_ascii (repeat fillChar (fieldWidth - String.length s)) ++ s)%string.
Definition argHex (v : Z) (fieldWidth : nat) (fillChar : ascii) : string :=
  padLeft fieldWidth fillChar (hexLower v).

Definition archToString (arch_ : Z) : string :=
  match arch_ with
  | 0 => "386"
  | 7 => "68K"
  | 12 => "MIPS"
  | 13 => "ARM"
  | 15 => "PPC"
  | 18 => "SH"
  | 19 => "NET"
  | 23 => "SPARC"
  | 31 => "IA64"
  | 58 => "MSP430"
  | 60 => "DALVIK"
  | _ => "ARCH_" ++ decimal arch_
  end%string.

(** [if (x & m) s << label;] *)
Definition flagged (x m : Z) (label : string) : list string :=
  if hasBit x m then [label] else [].

(** [if (s.isEmpty()) s << fallback; return s.join(",");] *)
Definition joinOr (s : list string) (fallback : string) : string :=
  String.concat "," (match s with [] => [fallback] | _ => s end).

Definition fileTypesToString (ft : Z) : string :=
  joinOr (flagged ft 0x04 "BIN" ++ flagged ft 0x400 "COFF"
          ++ flagged ft 0x800 "PE" ++ flagged ft 0x4000 "ELF")
         ("0x" ++ argHex ft 8 " ").

Definition osTypesToString (ot : Z) : string :=
  joinOr (flagged ot 0x01 "MSDOS" ++ flagged ot 0x02 "WIN"
          ++ flagged ot 0x10 "UNIX")
         ("0x" ++ argHex ot 4 " ").

Definition appTypesToString (at__ : Z) : string :=
  joinOr (flagged at__ 0x04 "EXE" ++ flagged at__ 0x08 "DLL"
          ++ flagged at__ 0x100 "32_BIT" ++ flagged at__ 0x200 "64_BIT")
         ("0x" ++ argHex at__ 4 " ").

Definition featuresToString (f : Z) : string :=
  joinOr (flagged f 0x10 "COMPRESSED") "none".

(** ** Gzip wrapper *)

(** [decompressGzip]: with zlib, [decompressZlib(gzipData, 15 + 16)] for an
    input that starts with the gzip magic; empty otherwise. *)
Definition decompressGzip (inflate : Inflater) (gzipData : list byte) : list byte :=
  match inflate with
  | Some decompressZlib =>
      if (Z.of_nat (List.length gzipData) <? 2)
         || negb (at_ gzipData 0 =? 0x1f) || negb (at_ gzipData 1 =? 0x8b)
      then []
      else decompressZlib gzipData (15 + 16)
  | None => []
  end.

(** ** The viewer: loading a file and filling the table (mainwindow.cpp) *)

(** [clearSig] leaves [m_result] a default-constructed result. *)
Definition clearSig : FlirtResult := mkResult false "" "" emptyHeader [].

(** One row of the functions table, column by column. *)
Definition functionRow (e : FunctionEntry) : list string :=
  [decimal (moduleIndex e);
   name (function e);
   ("0x" ++ argHex (offset (function e)) 0 " ")%string;
   if isLocal (function e) then "Y"%string else ""%string;
   if isCollision (function e) then "!"%string else ""%string;
   patternPathHex (module e)].

(** The rows [refreshFunctionsTable] puts in the table. *)
Definition functionRows (m_result : FlirtResult) : list (list string) :=
  if negb (success m_result) then []
  else map functionRow (allFunctions m_result).

(** [loadSigFile(path)].  [opened] is the content of the file, [None] when
    it cannot be opened; [endsWithSigGz] is
    [path.endsWith(".sig.gz", Qt::CaseInsensitive)].  The function returns
    its [bool], the [m_result] it leaves, and the text of the warning box
    it shows, if any. *)
Definition loadSigFile (inflate : Inflater) (m_result : FlirtResult)
  (path : string) (opened : option (list byte)) (endsWithSigGz : bool)
  : bool * FlirtResult * option string :=
  match opened with
  | None => (false, m_result, Some ("Cannot open file: " ++ path)%string)
  | Some data =>
      let data := if endsWithSigGz then decompressGzip inflate data else data in
      if endsWithSigGz && (match data with [] => true | _ => false end)
      then (false, m_result, Some "Failed to decompress .sig.gz file."%string)
      else
        let result := parse inflate data in
        if negb (success result)
        then (false, clearSig, Some ("Parse error: " ++ errorMessage result)%string)
        else (true, result, None)
  end.

(** ** Definitions used to state the properties *)

(** The reader's flag is sound when [eof] is only set at the end of the
    body.  Every read leaves it so. *)
Definition eofSound (st : ParseState) : Prop :=
  eof st = true -> size st <= pos st.

(** [!(st.eof || st.err)] *)
Definition live (st : ParseState) : Prop := stopped st = false.

(** What every read keeps and changes: the body, the version and [err] stay,
    the position only moves forward and not past the end, and an [eof] that
    is set stays set. *)
Record extends (st st' : ParseState) : Prop := mkExtends {
  ext_body : body st' = body st;
  ext_version : version st' = version st;
  ext_err : err st' = err st;
  ext_pos : pos st <= pos st';
  ext_bound : pos st <= size st -> pos st' <= size st;
  ext_sound : eofSound st -> eofSound st';
  ext_sticky : eofSound st -> eof st = true -> eof st' = true
}.

(** What a read that leaves the reader live has done: it started live and
    moved the position forward, within the body. *)
Definition advanced (st st' : ParseState) : Prop :=
  live st /\ pos st < pos st' /\ pos st' <= size st /\ size st' = size st.

(** A read that is followed by a passed [eof || err] test has moved on. *)
Definition progressed (st st' : ParseState) : Prop :=
  extends st st' /\ pos st < pos st' /\ pos st' <= size st.

(** A reader at the start of [a], at version [v]. *)
Definition startState (a : list byte) (v : Z) : ParseState :=
  mkState a 0 v false false.

(** The documented [multi] scheme as an encoder: one byte when the top bit
    is clear, two bytes under a prefix 0x80..0xbf, four bytes under a prefix
    0xc0..0xdf that carries the top payload bits, and otherwise a prefix
    byte 0xe0..0xff that carries nothing, followed by four big-endian
    bytes.  [pad] supplies the five free bits of that last prefix. *)
Definition encodeMulti (pad v : Z) : list byte :=
  if v <? 0x80 then [toChar v]
  else if v <? 0x4000 then
    [toChar (Z.lor 0x80 (Z.shiftr v 8)); toChar (Z.land v 0xff)]
  else if v <? 0x20000000 then
    [toChar (Z.lor 0xc0 (Z.shiftr v 24)); toChar (Z.land (Z.shiftr v 16) 0xff);
     toChar (Z.land (Z.shiftr v 8) 0xff); toChar (Z.land v 0xff)]
  else
    [toChar (Z.lor 0xe0 (Z.land pad 0x1f)); toChar (Z.land (Z.shiftr v 24) 0xff);
     toChar (Z.land (Z.shiftr v 16) 0xff); toChar (Z.land (Z.shiftr v 8) 0xff);
     toChar (Z.land v 0xff)].

Definition multiSamples : list Z :=
  [0; 0x7f; 0x80; 0x7fff; 0x8000; 0x3fffff; 0x400000; 0xffffffff].

(** The version byte of an input, when it has one. *)
Definition versionByte (data : list byte) : option Z :=
  option_map byteVal (nth_error data 6).

(** The deltas of a public-function list, as they are written in the input
    from state [st] on: the value read at the start of each function
    record, as a [multi] from version 9 on and as a [max2] before, for as
    long as the flags byte asks for another. *)
Fixpoint deltasLoop (steps : nat) (st : ParseState) : list Z :=
  match steps with
  | O => []
  | S steps' =>
      match readPublicFunction st 0 with
      | None => []
      | Some (_, flags, st') =>
          fst (if 9 <=? version st
               then readMultipleBytes st else readMax2Bytes st)
          :: (if hasBit flags IDASIG_PARSE_MORE_PUBLIC_NAMES
              then deltasLoop steps' st' else [])
      end
  end.

Definition publicDeltas (st : ParseState) : list Z := deltasLoop (stepsFor st) st.

(** [m] is what the module decoder returns, with the flags byte [flags], when
    it is run at version [ver] from some reader state, on some path and
    under some CRC pair.  [stF], [stT] and [stR] are the reader states at
    which the module's public-function list, its tail-byte block and its
    referenced-function block start (the last two are where the blocks
    would start when the flags do not ask for them). *)
Definition moduleRun (ver : Z) (m : FlirtModule) (flags : Z)
  (stF stT stR : ParseState) : Prop :=
  exists st path crcLength crc16 st' m1 m2,
    version st = ver
    /\ parseModule st path crcLength crc16 = Some (m, flags, st')
    /\ stF = snd (readOffset st)
    /\ readModulePublicFunctions stF
         (setModuleLength (mkModule path crcLength crc16 0 [] [] [])
            (fst (readOffset st)))
       = Some (m1, flags, stT)
    /\ (if hasBit flags IDASIG_PARSE_READ_TAIL_BYTES
        then readModuleTailBytes stT m1 else Some (m1, stT)) = Some (m2, stR)
    /\ (if hasBit flags IDASIG_PARSE_READ_REFERENCED_FUNCTIONS
        then readModuleReferencedFunctions stR m2 else Some (m2, stR))
       = Some (m, st').

(** The running sums [acc + d0], [acc + d0 + d1], ... *)
Fixpoint runningSums (acc : Z) (ds : list Z) : list Z :=
  match ds with
  | [] => []
  | d :: ds' => (acc + d) :: runningSums (acc + d) ds'
  end.

(** Non-strictly increasing. *)
Fixpoint nondecreasing (l : list Z) : Prop :=
  match l with
  | [] => True
  | x :: l' => match l' with [] => True | y :: _ => x <= y end /\ nondecreasing l'
  end.

(** The length of a node, and the sum of the lengths along a path. *)
Definition nodeLen (n : FlirtPatternNode) : nat := List.length (patternBytes n).
Definition pathLen (p : list FlirtPatternNode) : nat :=
  fold_right (fun n acc => (nodeLen n + acc)%nat) 0%nat p.

(** A node as [readNodeBytes] builds it: both arrays of the same length,
    between 1 and 63. *)
Definition nodeShaped (n : FlirtPatternNode) : Prop :=
  List.length (variantMask n) = nodeLen n /\ (1 <= nodeLen n <= 63)%nat.

(** The value of an uppercase hexadecimal digit. *)
Definition hexDigitValue (c : ascii) : option Z :=
  let fix find (l : list ascii) (k : Z) : option Z :=
    match l with
    | [] => None
    | x :: l' => if Ascii.eqb x c then Some k else find l' (k + 1)
    end in
  find (list_ascii_of_string "0123456789ABCDEF") 0.

(** A [.sig] input with an all-zero header of version [v] (no features, an
    empty library name) followed by the bytes [tree]. *)
Definition headerExtra (v : Z) : Z :=
  (if 6 <=? v then 4 else 0) + (if 8 <=? v then 2 else 0)
  + (if 10 <=? v then 2 else 0).
Definition sigFile (v : Z) (tree : list Z) : list byte :=
  IDASGN ++ [toChar v] ++ repeat x00 (Z.to_nat (30 + headerExtra v))
  ++ map toChar tree.

(** The width and the value of a [multi] field in arithmetic, by its first
    byte [b0] and the four bytes after it. *)
Definition multiWidth (b0 : Z) : Z :=
  if b0 <? 0x80 then 1 else if b0 <? 0xc0 then 2
  else if b0 <? 0xe0 then 4 else 5.
Definition multiValue (b0 b1 b2 b3 b4 : Z) : Z :=
  if b0 <? 0x80 then b0
  else if b0 <? 0xc0 then (b0 - 0x80) * 2 ^ 8 + b1
  else if b0 <? 0xe0 then (b0 - 0xc0) * 2 ^ 24 + b1 * 2 ^ 16 + b2 * 2 ^ 8 + b3
  else b1 * 2 ^ 24 + b2 * 2 ^ 16 + b3 * 2 ^ 8 + b4.

(** The same for a [max2] field. *)
Definition max2Width (b0 : Z) : Z := if b0 <? 0x80 then 1 else 2.
Definition max2Value (b0 b1 : Z) : Z :=
  if b0 <? 0x80 then b0 else (b0 - 0x80) * 2 ^ 8 + b1.

(** The byte at distance [k] from the reader's position. *)
Definition peek (st : ParseState) (k : Z) : Z := at_ (body st) (pos st + k).

(** The header of a body laid out by offset: the 37 fixed bytes, the fields
    the version adds, and the library name. *)
Definition headerSize (data : list byte) : Z :=
  37 + headerExtra (at_ data 6) + at_ data 34.
Definition headerOf (data : list byte) : FlirtHeader :=
  let v := at_ data 6 in
  mkHeader v (at_ data 7) (le32 data 8) (le16 data 12) (le16 data 14)
    (le16 data 16) (le16 data 18) (le16 data 20) (mid data 22 12)
    (at_ data 34) (le16 data 35)
    (if 6 <=? v then le32 data 37 else 0)
    (if 8 <=? v then be16 data 41 else 0)
    (if 10 <=? v then be16 data 43 else 0).
Definition libraryNameOf (data : list byte) : string :=
  string_of_list_byte (mid data (37 + headerExtra (at_ data 6)) (at_ data 34)).

(** An input with an all-zero header of version [v] but for bit 0x10 of
    [features], followed by the bytes [rest]. *)
Definition sigFileCompressed (v : Z) (rest : list Z) : list byte :=
  IDASGN ++ [toChar v] ++ repeat x00 9 ++ [x10]
  ++ repeat x00 (Z.to_nat (20 + headerExtra v)) ++ map toChar rest.

(** The largest value [readOffset] returns at version [ver]. *)
Definition offsetMax (ver : Z) : Z := if 9 <=? ver then 0xffffffff else 0x7fff.

(** The shape of what the module decoder stores: a function name has at
    most 1024 bytes, none below 0x20; a tail byte is a byte; a referenced
    name with its dropped NUL has at most 1023 bytes, and ends with a NUL
    only when [negativeOffset] is set; offsets and lengths are within the
    range of the read of their version. *)
Definition functionShaped (f : FlirtFunction) : Prop :=
  (String.length (name f) <= 1024)%nat
  /\ Forall (fun b => 0x20 <= byteVal b) (list_byte_of_string (name f))
  /\ 0 <= offset f <= 0xffffffff.

Definition tailByteShaped (ver : Z) (t : FlirtTailByte) : Prop :=
  0 <= tb_offset t <= offsetMax ver /\ 0 <= tb_value t <= 255.

Definition refFunctionShaped (ver : Z) (r : FlirtRefFunction) : Prop :=
  0 <= rf_offset r <= offsetMax ver
  /\ (String.length (rf_name r) + (if negativeOffset r then 1 else 0)
      <= 1023)%nat
  /\ (negativeOffset r = false ->
      last (list_byte_of_string (rf_name r)) x01 <> x00).

Definition moduleShaped (ver : Z) (m : FlirtModule) : Prop :=
  0 <= crcLength m <= 255 /\ 0 <= crc16 m <= 0xffff
  /\ 0 <= moduleLength m <= offsetMax ver
  /\ publicFunctions m <> []
  /\ Forall functionShaped (publicFunctions m)
  /\ Forall (tailByteShaped ver) (tailBytes m)
  /\ Forall (refFunctionShaped ver) (referencedFunctions m).

(** [p] is the start of [l]. *)
Definition startsWith {A : Type} (p l : list A) : Prop := exists s, l = p ++ s.

(** The fields of a module that the three block decoders leave alone. *)
Definition sameScalars (m m' : FlirtModule) : Prop :=
  patternPath m' = patternPath m /\ crcLength m' = crcLength m
  /\ crc16 m' = crc16 m /\ moduleLength m' = moduleLength m.

(** The bytes of a node at the positions its mask leaves concrete, in
    order. *)
Definition concreteBytes (n : FlirtPatternNode) : list byte :=
  map fst (filter (fun p => byteVal (snd p) =? 0)
             (combine (patternBytes n) (variantMask n))).

(** A node as the node decoder stores it: a mask of 0s and 1s as long as
    the bytes, and 0 at the variant positions. *)
Definition nodeCanonical (n : FlirtPatternNode) : Prop :=
  List.length (variantMask n) = List.length (patternBytes n)
  /\ forall i, (i < List.length (patternBytes n))%nat ->
       (nth i (variantMask n) x00 = x00
        \/ nth i (variantMask n) x00 = x01 /\ nth i (patternBytes n) x00 = x00).

(** The architecture codes, as [quint8] values. *)
Definition archCodes : list Z := map Z.of_nat (seq 0 256).

(** No two codes of [l] have the same display name. *)
Definition distinctNames (l : list Z) : bool :=
  forallb (fun a =>
    forallb (fun b => implb (String.eqb (archToString a) (archToString b))
                        (a =? b)) l) l.

(** Two readers that read the same bytes [tree] at the same distance from
    where they start, each inside a body of its own: [st] after the bytes
    [own], [st'] after the bytes [pre] and before the bytes [extra]. *)
Definition embedded (own pre tree extra : list byte) (st st' : ParseState)
  : Prop :=
  eofSound st
  /\ body st = own ++ tree /\ body st' = pre ++ tree ++ extra
  /\ Z.of_nat (List.length own) <= pos st
  /\ pos st' - Z.of_nat (List.length pre) = pos st - Z.of_nat (List.length own)
  /\ version st' = version st /\ eof st' = eof st /\ err st' = err st.

(** The texts [parse] can leave in [errorMessage]. *)
Definition parseMessages : list string :=
  [""; "Not a valid FLIRT .sig file"; "Truncated v5 header";
   "Truncated v6/v7 header"; "Truncated v8/v9 header"; "Truncated v10 header";
   "Truncated library name";
   "Compressed .sig requires zlib (build without ZLIB found)";
   "FLIRT decompression failed"; "Unexpected EOF in tree";
   "Parse error in signature tree"]%string.

(** ** The module starts of a walk *)

(** A module start: the reader state at which the inner loop of
    [parseLeaf] begins a module, before the module's length field, with the
    path and the CRC pair the module is created with. *)
Record Emission := mkEmission {
  e_state : ParseState;
  e_path : list FlirtPatternNode;
  e_crcLength : Z;
  e_crc16 : Z
}.

(** The module starts of the inner loop of [parseLeaf] from [st] on, in the
    order of the walk: one for each turn whose module is decoded
    completely, up to the turn that fails or is the last; and how the loop
    ends. *)
Fixpoint sameCrcTrace (steps : nat) (st : ParseState)
  (path : list FlirtPatternNode) (crcLength crc16 : Z)
  : list Emission * run Z :=
  match steps with
  | O => ([], Starved)
  | S steps' =>
      match parseModule st path crcLength crc16 with
      | None => ([], Failed)
      | Some (_, flags, st') =>
          let em := mkEmission st path crcLength crc16 in
          if hasBit flags IDASIG_PARSE_MORE_MODULES_WITH_SAME_CRC
          then let (tr, r) := sameCrcTrace steps' st' path crcLength crc16 in
               (em :: tr, r)
          else ([em], Done flags st')
      end
  end.

(** The same for the outer loop of [parseLeaf]: each turn reads a CRC pair
    from the input and gives the module starts of its inner loop. *)
Fixpoint leafTrace (steps : nat) (st : ParseState)
  (path : list FlirtPatternNode) : list Emission * run unit :=
  match steps with
  | O => ([], Starved)
  | S steps' =>
      let (crcLength, st1) := readByte st in
      if stopped st1 then ([], Failed)
      else
        let (crc16, st2) := readShortBE st1 in
        if stopped st2 then ([], Failed)
        else
          match sameCrcTrace (stepsFor st2) st2 path crcLength crc16 with
          | (tr, Done flags st3) =>
              if hasBit flags IDASIG_PARSE_MORE_MODULES
              then let (tr', r) := leafTrace steps' st3 path in (tr ++ tr', r)
              else (tr, Done tt st3)
          | (tr, Failed) => (tr, Failed)
          | (tr, Starved) => (tr, Starved)
          end
  end.

(** The same for [parseTree] and for its [for] loop from index [i] on: the
    module starts of the leaves, in the order the walk reaches them, up to
    the first step that fails. *)
Fixpoint treeTrace (steps : nat) (st : ParseState)
  (path : list FlirtPatternNode) {struct steps} : list Emission * run unit :=
  match steps with
  | O => ([], Starved)
  | S steps' =>
      let (treeNodes, st1) := readMultipleBytes st in
      if stopped st1 then ([], Failed)
      else if treeNodes =? 0 then
        match leafTrace (stepsFor st1) st1 path with
        | (tr, Done _ st') => (tr, Done tt st')
        | (tr, _) => (tr, Failed)
        end
      else childrenTrace steps' 0 treeNodes st1 path
  end
with childrenTrace (steps : nat) (i treeNodes : Z) (st : ParseState)
  (path : list FlirtPatternNode) {struct steps} : list Emission * run unit :=
  match steps with
  | O => ([], Starved)
  | S steps' =>
      if i <? treeNodes then
        match readNode st with
        | None => ([], Failed)
        | Some (node, st1) =>
            match treeTrace steps' st1 (path ++ [node]) with
            | (tr, Done _ st2) =>
                let (tr', r) :=
                  childrenTrace steps' (i + 1) treeNodes st2 path in
                (tr ++ tr', r)
            | other => other
            end
        end
      else ([], Done tt st)
  end.

(** The reader state [parse] reads the tree from, for an input with which
    it gets that far: the input itself after its header, or, when
    [features] has bit 0x10 and the build has zlib, the inflated bytes from
    their start.  The version is byte 6 of the input in both cases. *)
Definition treeStart (inflate : Inflater) (data : list byte)
  : option ParseState :=
  if fst (isFlirt data) && (headerSize data <=? Z.of_nat (List.length data))
  then
    if hasBit (le16 data 16) IDASIG_FEATURE_COMPRESSED then
      match inflate with
      | Some decompressZlib =>
          match decompressZlib (skipn (Z.to_nat (headerSize data)) data)
                  (if (at_ data 6 =? 5) || (at_ data 6 =? 6) then -15 else 15)
          with
          | [] => None
          | decompressed => Some (startState decompressed (at_ data 6))
          end
      | None => None
      end
    else Some (mkState data (headerSize data) (at_ data 6) false false)
  else None.

(** The module starts of the whole input, and how the walk ends. *)
Definition parseWalk (inflate : Inflater) (data : list byte)
  : list Emission * run unit :=
  match treeStart inflate data with
  | Some st0 => treeTrace (stepsFor st0) st0 []
  | None => ([], Failed)
  end.

Definition parseTrace (inflate : Inflater) (data : list byte) : list Emission :=
  fst (parseWalk inflate data).

(** [m] is the module decoded from the module start [em], with the flags
    byte [flags].  [stT] and [stR] are the reader states at which the
    module's tail-byte block and its referenced-function block start (where
    they would start, when the flags do not ask for them), and [st'] is the
    state after the module. *)
Definition decodedAt (em : Emission) (m : FlirtModule) (flags : Z)
  (stT stR st' : ParseState) : Prop :=
  parseModule (e_state em) (e_path em) (e_crcLength em) (e_crc16 em)
  = Some (m, flags, st')
  /\ exists m1 m2,
       readModulePublicFunctions (snd (readOffset (e_state em)))
         (setModuleLength
            (mkModule (e_path em) (e_crcLength em) (e_crc16 em) 0 [] [] [])
            (fst (readOffset (e_state em))))
       = Some (m1, flags, stT)
       /\ (if hasBit flags IDASIG_PARSE_READ_TAIL_BYTES
           then readModuleTailBytes stT m1 else Some (m1, stT))
          = Some (m2, stR)
       /\ (if hasBit flags IDASIG_PARSE_READ_REFERENCED_FUNCTIONS
           then readModuleReferencedFunctions stR m2 else Some (m2, stR))
          = Some (m, st').

(** The modules decoded at a list of module starts. *)
Definition emitted (tr : list Emission) : list FlirtModule :=
  flat_map
    (fun em =>
       match parseModule (e_state em) (e_path em) (e_crcLength em)
               (e_crc16 em) with
       | Some (m, _, _) => [m]
       | None => []
       end) tr.

(** Every module start of a walk from [st] is a state of the same reader
    further on, and the module decoder succeeds there. *)
Definition startedFrom (st : ParseState) (em : Emission) : Prop :=
  extends st (e_state em)
  /\ exists m flags st',
       parseModule (e_state em) (e_path em) (e_crcLength em) (e_crc16 em)
       = Some (m, flags, st').

(** * Properties *)

(** ** Bytes *)

Lemma byteVal_range (b : byte) : 0 <= byteVal b <= 255.
Proof.
  unfold byteVal. pose proof (Byte.to_N_bounded b). lia.
Qed.

Lemma toChar_byteVal (b : byte) : toChar (byteVal b) = b.
Proof.
  unfold toChar, u8, byteVal.
  pose proof (Byte.to_N_bounded b).
  rewrite Z.mod_small by lia.
  rewrite N2Z.id, Byte.of_to_N. reflexivity.
Qed.

Lemma byteVal_toChar (z : Z) : 0 <= z <= 255 -> byteVal (toChar z) = z.
Proof.
  intros Hz. unfold toChar, u8, byteVal.
  rewrite Z.mod_small by lia.
  destruct (Byte.of_N (Z.to_N z)) as [b|] eqn:E.
  - apply Byte.to_of_N in E. rewrite E. lia.
  - apply Byte.of_N_None_iff in E. lia.
Qed.

Lemma at_range (a : list byte) (i : Z) : 0 <= at_ a i <= 255.
Proof. apply byteVal_range. Qed.

(** ** The reader *)

Lemma extends_refl (st : ParseState) : extends st st.
Proof. constructor; auto; lia. Qed.

Lemma extends_trans (a b c : ParseState) :
  extends a b -> extends b c -> extends a c.
Proof.
  intros [B1 V1 E1 P1 U1 S1 K1] [B2 V2 E2 P2 U2 S2 K2].
  assert (Hsz : size b = size a) by (unfold size; now rewrite B1).
  constructor; try congruence; try lia; auto.
Qed.

Lemma extends_size (st st' : ParseState) : extends st st' -> size st' = size st.
Proof. intros [B _ _ _ _ _ _]. unfold size. now rewrite B. Qed.

Lemma readByte_exhausted (st : ParseState) :
  size st <= pos st -> readByte st = (0, setEof st true).
Proof.
  intros H. unfold readByte.
  assert (E : (size st <=? pos st) = true) by (apply Z.leb_le; exact H).
  rewrite E, !orb_true_r. reflexivity.
Qed.

Lemma readByte_cases (st : ParseState) :
  (readByte st = (0, setEof st (size st <=? pos st))
   /\ (eof st = true \/ err st = true \/ size st <= pos st))
  \/ (readByte st = (at_ (body st) (pos st), setPos st (pos st + 1))
      /\ eof st = false /\ err st = false /\ pos st < size st).
Proof.
  unfold readByte.
  destruct (eof st) eqn:Ee; [left; auto|].
  destruct (err st) eqn:Er; [left; auto|].
  destruct (size st <=? pos st) eqn:Es; simpl.
  - left. apply Z.leb_le in Es. auto.
  - right. apply Z.leb_gt in Es. auto.
Qed.

Lemma readByte_extends (st st' : ParseState) (v : Z) :
  readByte st = (v, st') -> extends st st'.
Proof.
  intros E. destruct (readByte_cases st) as [[R H]|[R (He & Hr & Hp)]];
    rewrite R in E; inversion E; subst; clear E.
  - constructor; simpl; auto; try lia.
    + intros _ Hs. unfold size in *; simpl in *. apply Z.leb_le in Hs. exact Hs.
    + intros Hs He. apply Z.leb_le. apply Hs. exact He.
  - constructor; simpl; auto; try lia.
    intros _ Hs. simpl in Hs. congruence.
Qed.

(** After any [readByte] the flag is sound, whatever the state was. *)
Lemma readByte_sound (st st' : ParseState) (v : Z) :
  readByte st = (v, st') -> eofSound st'.
Proof.
  intros E. destruct (readByte_cases st) as [[R H]|[R (He & Hr & Hp)]];
    rewrite R in E; inversion E; subst; clear E; intros Hs; simpl in Hs.
  - apply Z.leb_le in Hs. exact Hs.
  - congruence.
Qed.

Lemma readByte_value (st st' : ParseState) (v : Z) :
  readByte st = (v, st') -> 0 <= v <= 255.
Proof.
  intros E. destruct (readByte_cases st) as [[R H]|[R _]];
    rewrite R in E; inversion E; subst; [lia | apply at_range].
Qed.

(** A read that leaves the reader live has taken one byte of the body. *)
Lemma readByte_live (st st' : ParseState) (v : Z) :
  readByte st = (v, st') -> eofSound st -> live st' ->
  live st /\ pos st < size st /\ v = at_ (body st) (pos st)
  /\ st' = setPos st (pos st + 1).
Proof.
  intros E Hs Hl. unfold live, stopped in *.
  destruct (readByte_cases st) as [[R H]|[R (He & Hr & Hp)]];
    rewrite R in E; inversion E; subst; clear E.
  - exfalso. simpl in Hl. apply orb_false_elim in Hl. destruct Hl as [Hl1 Hl2].
    apply Z.leb_gt in Hl1.
    destruct H as [H|[H|H]]; [specialize (Hs H); lia | congruence | lia].
  - rewrite He, Hr. auto.
Qed.

Lemma live_back (st st' : ParseState) :
  extends st st' -> eofSound st -> live st' -> live st.
Proof.
  intros X Hs Hl. unfold live, stopped in *.
  apply orb_false_elim in Hl. destruct Hl as [Hl1 Hl2].
  destruct (eof st) eqn:Ee.
  - rewrite (ext_sticky _ _ X Hs Ee) in Hl1. discriminate.
  - rewrite <- (ext_err _ _ X), Hl2. reflexivity.
Qed.

Lemma readByte_advanced (st st' : ParseState) (v : Z) :
  readByte st = (v, st') -> eofSound st -> live st' -> advanced st st'.
Proof.
  intros E Hs Hl. destruct (readByte_live _ _ _ E Hs Hl) as (L & P & _ & S).
  subst st'. unfold advanced. simpl. repeat split; auto; lia.
Qed.

Lemma advanced_extends (a b c : ParseState) :
  advanced a b -> extends b c -> advanced a c.
Proof.
  intros (L & P & U & Z) X. pose proof (extends_size _ _ X) as Hsz.
  pose proof (ext_pos _ _ X). pose proof (ext_bound _ _ X).
  unfold advanced. repeat split; auto; lia.
Qed.

(** Name the result of the first [readByte] in the hypothesis [E] and
    record what is known of it. *)
Ltac read_in E :=
  match type of E with
  | context [readByte ?s] =>
      let v := fresh "v" in
      let s' := fresh "st" in
      let R := fresh "R" in
      destruct (readByte s) as [v s'] eqn:R;
      pose proof (readByte_extends _ _ _ R);
      pose proof (readByte_sound _ _ _ R)
  end.

Lemma readShortBE_unfold (st : ParseState) :
  exists r st1 b st2,
    readByte st = (r, st1) /\ readByte st1 = (b, st2)
    /\ readShortBE st = (u16 (Z.lor (Z.shiftl r 8) b), st2).
Proof.
  unfold readShortBE.
  destruct (readByte st) as [r st1] eqn:R1.
  destruct (readByte st1) as [b st2] eqn:R2.
  exists r, st1, b, st2. auto.
Qed.

Lemma readShortBE_extends (st st' : ParseState) (v : Z) :
  readShortBE st = (v, st') -> extends st st'.
Proof.
  intros E. destruct (readShortBE_unfold st) as (r & st1 & b & st2 & R1 & R2 & R).
  rewrite R in E. inversion E; subst.
  eapply extends_trans; eapply readByte_extends; eauto.
Qed.

Lemma readShortBE_sound (st st' : ParseState) (v : Z) :
  readShortBE st = (v, st') -> eofSound st'.
Proof.
  intros E. destruct (readShortBE_unfold st) as (r & st1 & b & st2 & R1 & R2 & R).
  rewrite R in E. inversion E; subst. eapply readByte_sound; eauto.
Qed.

Lemma readShortBE_advanced (st st' : ParseState) (v : Z) :
  readShortBE st = (v, st') -> eofSound st -> live st' -> advanced st st'.
Proof.
  intros E Hs Hl. destruct (readShortBE_unfold st) as (r & st1 & b & st2 & R1 & R2 & R).
  rewrite R in E. inversion E; subst.
  pose proof (readByte_extends _ _ _ R2) as X2.
  pose proof (readByte_sound _ _ _ R1) as S1.
  eapply advanced_extends; [|exact X2].
  eapply readByte_advanced; eauto. eapply live_back; eauto.
Qed.

Lemma readWordBE_unfold (st : ParseState) :
  exists r st1 s st2,
    readShortBE st = (r, st1) /\ readShortBE st1 = (s, st2)
    /\ readWordBE st = (u32 (Z.lor (Z.shiftl r 16) s), st2).
Proof.
  unfold readWordBE.
  destruct (readShortBE st) as [r st1] eqn:R1.
  destruct (readShortBE st1) as [s st2] eqn:R2.
  exists r, st1, s, st2. auto.
Qed.

Lemma readWordBE_extends (st st' : ParseState) (v : Z) :
  readWordBE st = (v, st') -> extends st st'.
Proof.
  intros E. destruct (readWordBE_unfold st) as (r & st1 & b & st2 & R1 & R2 & R).
  rewrite R in E. inversion E; subst.
  eapply extends_trans; eapply readShortBE_extends; eauto.
Qed.

Lemma readWordBE_sound (st st' : ParseState) (v : Z) :
  readWordBE st = (v, st') -> eofSound st'.
Proof.
  intros E. destruct (readWordBE_unfold st) as (r & st1 & b & st2 & R1 & R2 & R).
  rewrite R in E. inversion E; subst. eapply readShortBE_sound; eauto.
Qed.

Lemma readMax2Bytes_extends (st st' : ParseState) (v : Z) :
  readMax2Bytes st = (v, st') -> extends st st'.
Proof.
  unfold readMax2Bytes. intros E. read_in E.
  destruct (hasBit v0 128); [read_in E|]; inversion E; subst; auto.
  eapply extends_trans; eauto.
Qed.

Lemma readMax2Bytes_sound (st st' : ParseState) (v : Z) :
  readMax2Bytes st = (v, st') -> eofSound st'.
Proof.
  unfold readMax2Bytes. intros E. read_in E.
  destruct (hasBit v0 128); [read_in E|]; inversion E; subst; auto.
Qed.

Lemma readMax2Bytes_advanced (st st' : ParseState) (v : Z) :
  readMax2Bytes st = (v, st') -> eofSound st -> live st' -> advanced st st'.
Proof.
  unfold readMax2Bytes. intros E Hs Hl. read_in E.
  destruct (hasBit v0 128); [read_in E|]; inversion E; subst.
  - eapply advanced_extends; [|eassumption].
    eapply readByte_advanced; eauto. eapply live_back; eauto.
  - eapply readByte_advanced; eauto.
Qed.

Lemma readMultipleBytes_extends (st st' : ParseState) (v : Z) :
  readMultipleBytes st = (v, st') -> extends st st'.
Proof.
  unfold readMultipleBytes. intros E. read_in E.
  destruct (negb (Z.land v0 128 =? 128)); [inversion E; subst; auto|].
  destruct (negb (Z.land v0 192 =? 192)).
  { read_in E. inversion E; subst. eapply extends_trans; eauto. }
  destruct (negb (Z.land v0 224 =? 224)).
  { read_in E. destruct (readShortBE st1) as [s st3] eqn:R1.
    inversion E; subst.
    eapply extends_trans; [eassumption|].
    eapply extends_trans; [eassumption|]. eapply readShortBE_extends; eauto. }
  eapply extends_trans; [eassumption|]. eapply readWordBE_extends; eauto.
Qed.

Lemma readMultipleBytes_sound (st st' : ParseState) (v : Z) :
  readMultipleBytes st = (v, st') -> eofSound st'.
Proof.
  unfold readMultipleBytes. intros E. read_in E.
  destruct (negb (Z.land v0 128 =? 128)); [inversion E; subst; auto|].
  destruct (negb (Z.land v0 192 =? 192)).
  { read_in E. inversion E; subst. auto. }
  destruct (negb (Z.land v0 224 =? 224)).
  { read_in E. destruct (readShortBE st1) as [s st3] eqn:R1.
    inversion E; subst. eapply readShortBE_sound; eauto. }
  eapply readWordBE_sound; eauto.
Qed.

Lemma readMultipleBytes_advanced (st st' : ParseState) (v : Z) :
  readMultipleBytes st = (v, st') -> eofSound st -> live st' -> advanced st st'.
Proof.
  intros E Hs Hl. pose proof E as E0. unfold readMultipleBytes in E. read_in E.
  assert (X : extends st0 st').
  { destruct (negb (Z.land v0 128 =? 128));
      [inversion E; subst; apply extends_refl|].
    destruct (negb (Z.land v0 192 =? 192)).
    { read_in E. inversion E; subst. auto. }
    destruct (negb (Z.land v0 224 =? 224)).
    { read_in E. destruct (readShortBE st1) as [s st3] eqn:R1.
      inversion E; subst.
      eapply extends_trans; [eassumption|]. eapply readShortBE_extends; eauto. }
    eapply readWordBE_extends; eauto. }
  eapply advanced_extends; [|exact X].
  eapply readByte_advanced; eauto. eapply live_back; eauto.
Qed.

(** ** The reader saturates *)

Lemma readShortBE_exhausted (st : ParseState) :
  size st <= pos st -> readShortBE st = (0, setEof st true).
Proof.
  intros H.
  assert (H' : size (setEof st true) <= pos (setEof st true)) by exact H.
  unfold readShortBE. rewrite (readByte_exhausted st H).
  rewrite (readByte_exhausted _ H'). reflexivity.
Qed.

Lemma readWordBE_exhausted (st : ParseState) :
  size st <= pos st -> readWordBE st = (0, setEof st true).
Proof.
  intros H.
  assert (H' : size (setEof st true) <= pos (setEof st true)) by exact H.
  unfold readWordBE. rewrite (readShortBE_exhausted st H).
  rewrite (readShortBE_exhausted _ H'). reflexivity.
Qed.

Lemma invoke_exhausted (p : primitive) (st : ParseState) :
  size st <= pos st -> invoke p st = (0, setEof st true).
Proof.
  intros H. destruct p; simpl.
  - apply readByte_exhausted; exact H.
  - apply readShortBE_exhausted; exact H.
  - apply readWordBE_exhausted; exact H.
  - unfold readMax2Bytes. rewrite (readByte_exhausted st H). reflexivity.
  - unfold readMultipleBytes. rewrite (readByte_exhausted st H). reflexivity.
Qed.

Lemma invoke_extends (p : primitive) (st st' : ParseState) (v : Z) :
  invoke p st = (v, st') -> extends st st'.
Proof.
  destruct p; simpl;
    eauto using readByte_extends, readShortBE_extends, readWordBE_extends,
      readMax2Bytes_extends, readMultipleBytes_extends.
Qed.

Lemma invoke_sound (p : primitive) (st st' : ParseState) (v : Z) :
  invoke p st = (v, st') -> eofSound st'.
Proof.
  destruct p; simpl;
    eauto using readByte_sound, readShortBE_sound, readWordBE_sound,
      readMax2Bytes_sound, readMultipleBytes_sound.
Qed.

Lemma invokeAll_exhausted (ps : list primitive) (st : ParseState) :
  size st <= pos st -> Forall (fun v => v = 0) (invokeAll ps st).
Proof.
  revert st. induction ps as [|p ps IH]; intros st H; simpl.
  - constructor.
  - rewrite (invoke_exhausted p st H). constructor; [reflexivity|].
    apply IH. exact H.
Qed.

(** C8. The reader saturates.  In every reader state, a primitive invoked
    with the position at or past the end of the body returns 0, sets [eof]
    and leaves the position where it was; whenever a primitive leaves [eof]
    set, every read made afterwards returns 0; and a position within the
    body stays within the body. *)
Theorem reader_saturating (st : ParseState) (p : primitive) :
  (size st <= pos st ->
   fst (invoke p st) = 0 /\ eof (snd (invoke p st)) = true
   /\ pos (snd (invoke p st)) = pos st)
  /\ (eof (snd (invoke p st)) = true ->
      forall ps, Forall (fun v => v = 0) (invokeAll ps (snd (invoke p st))))
  /\ (pos st <= size st -> pos (snd (invoke p st)) <= size (snd (invoke p st))).
Proof.
  split; [|split].
  - intros H. rewrite (invoke_exhausted p st H). simpl. auto.
  - destruct (invoke p st) as [v st'] eqn:E. simpl. intros He ps.
    apply invokeAll_exhausted. apply (invoke_sound _ _ _ _ E). exact He.
  - destruct (invoke p st) as [v st'] eqn:E. simpl. intros H.
    pose proof (invoke_extends _ _ _ _ E) as X.
    rewrite (extends_size _ _ X). apply (ext_bound _ _ X H).
Qed.

Lemma reader_saturating_witness :
  let st := mkState [x2a; x80] 2 9 false false in
  (fst (invoke Multi st) = 0 /\ eof (snd (invoke Multi st)) = true
   /\ pos (snd (invoke Multi st)) = 2)
  /\ Forall (fun v => v = 0) (invokeAll [U32be; Byte_; Max2] (snd (invoke Multi st)))
  /\ pos (snd (invoke Multi st)) <= size (snd (invoke Multi st)).
Proof.
  intros st. destruct (reader_saturating st Multi) as (A & B & C).
  split; [|split].
  - apply A. vm_compute. discriminate.
  - apply B. reflexivity.
  - apply C. vm_compute. discriminate.
Defined.

(** ** The [multi] encoding *)

Lemma readByte_at (st : ParseState) :
  eof st = false -> err st = false -> pos st < size st ->
  readByte st = (at_ (body st) (pos st), setPos st (pos st + 1)).
Proof.
  intros He Hr Hp. unfold readByte. rewrite He, Hr.
  assert (E : (size st <=? pos st) = false) by (apply Z.leb_gt; exact Hp).
  rewrite E. reflexivity.
Qed.

Lemma land_31_range (pad : Z) : 0 <= Z.land pad 31 < 32.
Proof.
  split.
  - apply Z.land_nonneg. right. lia.
  - change 31 with (Z.ones 5). rewrite Z.land_ones by lia.
    apply Z.mod_pos_bound. reflexivity.
Qed.

(** *** The round trip on every 32-bit value *)

(** The three tests of [readMultipleBytes] on a byte, as comparisons. *)
Lemma prefix_tests (r : Z) :
  0 <= r <= 255 ->
  (Z.land r 0x80 =? 0x80) = (0x80 <=? r)
  /\ (Z.land r 0xc0 =? 0xc0) = (0xc0 <=? r)
  /\ (Z.land r 0xe0 =? 0xe0) = (0xe0 <=? r).
Proof.
  intros Hr.
  assert (Hc : exists n : nat, (n < 256)%nat /\ r = Z.of_nat n)
    by (exists (Z.to_nat r); lia).
  destruct Hc as (n & Hn & ->). clear Hr.
  do 256 (destruct n as [|n]; [vm_compute; auto|]).
  lia.
Qed.

Lemma land_shifted_low (a b n : Z) :
  0 <= n -> 0 <= b < 2 ^ n -> Z.land (a * 2 ^ n) b = 0.
Proof.
  intros Hn Hb. apply Z.bits_inj'. intros i Hi.
  rewrite Z.land_spec, Z.bits_0.
  destruct (Z.lt_ge_cases i n) as [Hlt|Hge].
  - rewrite Z.mul_pow2_bits_low by exact Hlt. reflexivity.
  - assert (H : Z.testbit b i = false).
    { destruct (Z.eq_dec b 0) as [->|Hb0]; [apply Z.bits_0|].
      apply Z.bits_above_log2; [lia|].
      apply Z.log2_lt_pow2; [lia|].
      apply Z.lt_le_trans with (2 ^ n); [lia|].
      apply Z.pow_le_mono_r; lia. }
    rewrite H. apply andb_false_r.
Qed.

(** Bits that do not overlap add up. *)
Lemma lor_shiftl_add (a b n : Z) :
  0 <= n -> 0 <= b < 2 ^ n -> Z.lor (Z.shiftl a n) b = a * 2 ^ n + b.
Proof.
  intros Hn Hb. rewrite Z.shiftl_mul_pow2 by exact Hn.
  rewrite <- Z.lxor_lor, <- Z.add_nocarry_lxor;
    try reflexivity; apply land_shifted_low; assumption.
Qed.

Lemma lor_const_add (c a n q : Z) :
  c = Z.shiftl a n -> 0 <= n -> 0 <= q < 2 ^ n -> Z.lor c q = c + q.
Proof.
  intros -> Hn Hq. rewrite lor_shiftl_add by assumption.
  rewrite Z.shiftl_mul_pow2 by exact Hn. reflexivity.
Qed.

Lemma land_low (x n : Z) : 0 <= n -> Z.land x (Z.ones n) = x mod 2 ^ n.
Proof. intros Hn. apply Z.land_ones. exact Hn. Qed.

Lemma readByte_in (a : list byte) (p ver : Z) :
  0 <= p < Z.of_nat (List.length a) ->
  readByte (mkState a p ver false false)
  = (at_ a p, mkState a (p + 1) ver false false).
Proof. intros H. apply readByte_at; [reflexivity | reflexivity | exact (proj2 H)]. Qed.

(** The decoder on the bytes of each of the four forms. *)
Lemma multi_form1 (x0 : byte) (ver : Z) :
  byteVal x0 < 0x80 ->
  readMultipleBytes (startState [x0] ver)
  = (byteVal x0, mkState [x0] 1 ver false false).
Proof.
  intros H. destruct (prefix_tests (byteVal x0) (byteVal_range x0)) as (T1 & _).
  unfold readMultipleBytes, startState.
  rewrite readByte_in by (simpl; lia).
  change (at_ [x0] 0) with (byteVal x0). rewrite T1.
  assert (E : (128 <=? byteVal x0) = false) by (apply Z.leb_gt; exact H).
  rewrite E. reflexivity.
Qed.

Lemma multi_form2 (x0 x1 : byte) (ver : Z) :
  0x80 <= byteVal x0 < 0xc0 ->
  readMultipleBytes (startState [x0; x1] ver)
  = (u32 (Z.lor (Z.shiftl (Z.land (byteVal x0) 0x7f) 8) (byteVal x1)),
     mkState [x0; x1] 2 ver false false).
Proof.
  intros H. destruct (prefix_tests (byteVal x0) (byteVal_range x0)) as (T1 & T2 & _).
  unfold readMultipleBytes, startState.
  rewrite readByte_in by (simpl; lia).
  change (at_ [x0; x1] 0) with (byteVal x0). rewrite T1, T2.
  assert (E1 : (128 <=? byteVal x0) = true) by (apply Z.leb_le; lia).
  assert (E2 : (192 <=? byteVal x0) = false) by (apply Z.leb_gt; lia).
  rewrite E1, E2. cbn [negb].
  rewrite readByte_in by (simpl; lia). reflexivity.
Qed.

Lemma multi_form3 (x0 x1 x2 x3 : byte) (ver : Z) :
  0xc0 <= byteVal x0 < 0xe0 ->
  readMultipleBytes (startState [x0; x1; x2; x3] ver)
  = (u32 (Z.lor (u32 (Z.lor (Z.shiftl (Z.land (byteVal x0) 0x3f) 24)
                            (Z.shiftl (byteVal x1) 16)))
                (u16 (Z.lor (Z.shiftl (byteVal x2) 8) (byteVal x3)))),
     mkState [x0; x1; x2; x3] 4 ver false false).
Proof.
  intros H.
  destruct (prefix_tests (byteVal x0) (byteVal_range x0)) as (T1 & T2 & T3).
  unfold readMultipleBytes, startState.
  rewrite readByte_in by (simpl; lia).
  change (at_ [x0; x1; x2; x3] 0) with (byteVal x0). rewrite T1, T2, T3.
  assert (E1 : (128 <=? byteVal x0) = true) by (apply Z.leb_le; lia).
  assert (E2 : (192 <=? byteVal x0) = true) by (apply Z.leb_le; lia).
  assert (E3 : (224 <=? byteVal x0) = false) by (apply Z.leb_gt; lia).
  rewrite E1, E2, E3. cbn [negb].
  rewrite readByte_in by (simpl; lia).
  unfold readShortBE. rewrite !readByte_in by (simpl; lia). reflexivity.
Qed.

Lemma multi_form4 (x0 x1 x2 x3 x4 : byte) (ver : Z) :
  0xe0 <= byteVal x0 ->
  readMultipleBytes (startState [x0; x1; x2; x3; x4] ver)
  = (u32 (Z.lor (Z.shiftl (u16 (Z.lor (Z.shiftl (byteVal x1) 8) (byteVal x2))) 16)
                (u16 (Z.lor (Z.shiftl (byteVal x3) 8) (byteVal x4)))),
     mkState [x0; x1; x2; x3; x4] 5 ver false false).
Proof.
  intros H.
  destruct (prefix_tests (byteVal x0) (byteVal_range x0)) as (T1 & T2 & T3).
  unfold readMultipleBytes, startState.
  rewrite readByte_in by (simpl; lia).
  change (at_ [x0; x1; x2; x3; x4] 0) with (byteVal x0). rewrite T1, T2, T3.
  assert (E1 : (128 <=? byteVal x0) = true) by (apply Z.leb_le; lia).
  assert (E2 : (192 <=? byteVal x0) = true) by (apply Z.leb_le; lia).
  assert (E3 : (224 <=? byteVal x0) = true) by (apply Z.leb_le; lia).
  rewrite E1, E2, E3. cbn [negb].
  unfold readWordBE, readShortBE. rewrite !readByte_in by (simpl; lia).
  reflexivity.
Qed.

(** A big-endian pair of bytes is its value. *)
Lemma be_pair (hi lo : Z) :
  0 <= hi <= 255 -> 0 <= lo <= 255 ->
  u16 (Z.lor (Z.shiftl hi 8) lo) = hi * 256 + lo.
Proof.
  intros Hh Hl. rewrite lor_shiftl_add by (change (2 ^ 8) with 256; lia).
  change (2 ^ 8) with 256. unfold u16. apply Z.mod_small.
  change (2 ^ 16) with 65536. lia.
Qed.

Lemma low_byte (x : Z) : Z.land x 0xff = x mod 256.
Proof. change 255 with (Z.ones 8). apply land_low. lia. Qed.

Lemma low_byte_range (x : Z) : 0 <= Z.land x 0xff <= 255.
Proof. rewrite low_byte. pose proof (Z.mod_pos_bound x 256 eq_refl). lia. Qed.

(** The encoder and the decoder agree on every 32-bit value. *)
Lemma multi_roundtrip (pad ver v : Z) :
  0 <= v < 2 ^ 32 ->
  readMultipleBytes (startState (encodeMulti pad v) ver)
  = (v, mkState (encodeMulti pad v)
          (Z.of_nat (List.length (encodeMulti pad v))) ver false false).
Proof.
  intros Hv. change (2 ^ 32) with 4294967296 in Hv. unfold encodeMulti.
  destruct (Z.ltb_spec v 0x80) as [H1|H1].
  { rewrite multi_form1; rewrite byteVal_toChar by lia; [reflexivity | lia]. }
  destruct (Z.ltb_spec v 0x4000) as [H2|H2].
  { assert (Q : 0 <= Z.shiftr v 8 < 2 ^ 6).
    { rewrite Z.shiftr_div_pow2 by lia. change (2 ^ 8) with 256.
      change (2 ^ 6) with 64. Z.div_mod_to_equations. lia. }
    assert (R : Z.lor 0x80 (Z.shiftr v 8) = 0x80 + Z.shiftr v 8).
    { apply (lor_const_add 0x80 1 7); [reflexivity | lia |].
      change (2 ^ 7) with 128. change (2 ^ 6) with 64 in Q. lia. }
    change (2 ^ 6) with 64 in Q. pose proof (low_byte_range v) as B.
    rewrite multi_form2; rewrite !byteVal_toChar by lia; try lia.
    f_equal. rewrite R.
    change 127 with (Z.ones 7). rewrite land_low by lia.
    rewrite lor_shiftl_add by (change (2 ^ 8) with 256; lia).
    rewrite low_byte, Z.shiftr_div_pow2 by lia.
    rewrite Z.shiftr_div_pow2 in Q by lia.
    change (2 ^ 8) with 256 in *. change (2 ^ 7) with 128.
    unfold u32. rewrite Z.mod_small; change (2 ^ 32) with 4294967296;
      Z.div_mod_to_equations; lia. }
  destruct (Z.ltb_spec v 0x20000000) as [H3|H3].
  { assert (Q : 0 <= Z.shiftr v 24 < 32).
    { rewrite Z.shiftr_div_pow2 by lia. change (2 ^ 24) with 16777216.
      Z.div_mod_to_equations. lia. }
    assert (R : Z.lor 0xc0 (Z.shiftr v 24) = 0xc0 + Z.shiftr v 24).
    { apply (lor_const_add 0xc0 3 6); [reflexivity | lia |].
      change (2 ^ 6) with 64. lia. }
    pose proof (low_byte_range v) as B0.
    pose proof (low_byte_range (Z.shiftr v 8)) as B1.
    pose proof (low_byte_range (Z.shiftr v 16)) as B2.
    rewrite multi_form3; rewrite !byteVal_toChar by lia; try lia.
    f_equal. rewrite R, be_pair by assumption.
    change 63 with (Z.ones 6). rewrite land_low by lia.
    rewrite (Z.shiftl_mul_pow2 (Z.land (Z.shiftr v 16) 255) 16) by lia.
    rewrite lor_shiftl_add.
    2: lia.
    2:{ change (2 ^ 16) with 65536. change (2 ^ 24) with 16777216. lia. }
    rewrite !low_byte, !Z.shiftr_div_pow2 by lia.
    rewrite Z.shiftr_div_pow2 in Q by lia.
    change (2 ^ 6) with 64. change (2 ^ 8) with 256. change (2 ^ 16) with 65536.
    change (2 ^ 24) with 16777216 in *.
    assert (U1 : u32 ((192 + v / 16777216) mod 64 * 16777216
                      + v / 65536 mod 256 * 65536)
                 = v / 16777216 * 16777216 + v / 65536 mod 256 * 65536).
    { unfold u32. change (2 ^ 32) with 4294967296.
      rewrite Z.mod_small; Z.div_mod_to_equations; lia. }
    rewrite U1.
    assert (U2 : v / 16777216 * 16777216 + v / 65536 mod 256 * 65536
                 = (v / 65536) * 2 ^ 16).
    { change (2 ^ 16) with 65536. Z.div_mod_to_equations. lia. }
    rewrite U2, <- Z.shiftl_mul_pow2 by lia.
    rewrite lor_shiftl_add.
    2: lia.
    2:{ change (2 ^ 16) with 65536. Z.div_mod_to_equations. lia. }
    change (2 ^ 16) with 65536.
    unfold u32. change (2 ^ 32) with 4294967296.
    rewrite Z.mod_small; Z.div_mod_to_equations; lia. }
  { pose proof (land_31_range pad) as Q.
    assert (R : Z.lor 0xe0 (Z.land pad 0x1f) = 0xe0 + Z.land pad 0x1f).
    { apply (lor_const_add 0xe0 7 5); [reflexivity | lia |].
      change (2 ^ 5) with 32. lia. }
    pose proof (low_byte_range v) as B0.
    pose proof (low_byte_range (Z.shiftr v 8)) as B1.
    pose proof (low_byte_range (Z.shiftr v 16)) as B2.
    pose proof (low_byte_range (Z.shiftr v 24)) as B3.
    rewrite multi_form4; rewrite !byteVal_toChar by lia; try lia.
    f_equal. rewrite !be_pair by assumption.
    rewrite lor_shiftl_add.
    2: lia.
    2:{ change (2 ^ 16) with 65536. lia. }
    rewrite !low_byte, !Z.shiftr_div_pow2 by lia.
    change (2 ^ 8) with 256. change (2 ^ 16) with 65536.
    change (2 ^ 24) with 16777216.
    unfold u32. change (2 ^ 32) with 4294967296.
    rewrite Z.mod_small; Z.div_mod_to_equations; lia. }
Qed.

(** C2. For each of the eight sample integers, the bytes of the documented
    [multi] encoding, read by [readMultipleBytes] from their start, give the
    integer back, with every byte taken and [eof] not set; this whatever the
    five free bits of a discarded prefix are.  (The samples are instances of
    [multi_roundtrip], which holds for every 32-bit value.) *)
Theorem multi_roundtrip_samples (pad ver : Z) :
  Forall
    (fun v =>
       readMultipleBytes (startState (encodeMulti pad v) ver)
       = (v, mkState (encodeMulti pad v)
               (Z.of_nat (List.length (encodeMulti pad v))) ver false false))
    multiSamples.
Proof.
  unfold multiSamples.
  repeat (apply Forall_cons;
          [apply multi_roundtrip; change (2 ^ 32) with 4294967296; lia|]).
  apply Forall_nil.
Qed.

(** ** The magic and version gate *)

Lemma bytesEq_eq (a b : list byte) : bytesEq a b = true <-> a = b.
Proof.
  revert b. induction a as [|x a IH]; intros [|y b]; simpl; split; intros H;
    try reflexivity; try discriminate.
  - apply andb_prop in H. destruct H as [H1 H2].
    apply Byte.byte_dec_bl in H1. apply IH in H2. congruence.
  - inversion H; subst. apply andb_true_intro. split.
    + apply Byte.byte_dec_lb. reflexivity.
    + apply IH. reflexivity.
Qed.

Lemma isMagic_eq (data : list byte) : isMagic data = true <-> firstn 6 data = IDASGN.
Proof. apply bytesEq_eq. Qed.

Lemma versionByte_at (data : list byte) :
  7 <= Z.of_nat (List.length data) -> versionByte data = Some (at_ data 6).
Proof.
  intros H. unfold versionByte, at_.
  change (Z.to_nat 6) with 6%nat.
  rewrite (nth_error_nth' data x00) by lia. reflexivity.
Qed.

Lemma versionByte_some (data : list byte) (v : Z) :
  versionByte data = Some v ->
  7 <= Z.of_nat (List.length data) /\ v = at_ data 6.
Proof.
  intros H. assert (L : (6 < List.length data)%nat).
  { apply nth_error_Some. unfold versionByte in H.
    destruct (nth_error data 6); [discriminate | discriminate]. }
  split; [lia|]. rewrite versionByte_at in H by lia. congruence.
Qed.

(** What [isFlirt] accepts. *)
Lemma isFlirt_true (data : list byte) :
  fst (isFlirt data) = true ->
  firstn 6 data = IDASGN
  /\ exists v, versionByte data = Some v /\ 5 <= v <= 10
               /\ snd (isFlirt data) = Some v.
Proof.
  unfold isFlirt.
  destruct (Z.of_nat (List.length data) <? 7) eqn:L; [discriminate|].
  destruct (isMagic data) eqn:M; [|discriminate]. simpl.
  intros H. apply andb_prop in H. destruct H as [H1 H2].
  apply Z.leb_le in H1, H2. apply Z.ltb_ge in L.
  split; [apply isMagic_eq; exact M|].
  exists (at_ data 6). rewrite versionByte_at by lia. auto.
Qed.

(** What [parse] returns when [isFlirt] says no. *)
Lemma parse_not_flirt (inflate : Inflater) (data : list byte) :
  fst (isFlirt data) = false ->
  parse inflate data = setError emptyResult "Not a valid FLIRT .sig file".
Proof.
  intros H. unfold parse. destruct (isFlirt data) as [flirt outVersion].
  simpl in H. subst flirt. reflexivity.
Qed.

Lemma isFlirt_rejects (data : list byte) :
  firstn 6 data <> IDASGN
  \/ (forall v, versionByte data = Some v -> v < 5 \/ 10 < v) ->
  fst (isFlirt data) = false.
Proof.
  intros H. destruct (fst (isFlirt data)) eqn:E; [|reflexivity].
  destruct (isFlirt_true data E) as (M & v & V & R & _).
  destruct H as [H|H]; [contradiction|]. specialize (H v V). lia.
Qed.

(** C1. An input whose first six bytes are not [IDASGN], or whose seventh
    byte is outside 5..10 (or missing), is refused: [parse] returns a result
    with [success == false]. *)
Theorem parse_gate (inflate : Inflater) (data : list byte) :
  firstn 6 data <> IDASGN
  \/ (forall v, versionByte data = Some v -> v < 5 \/ 10 < v) ->
  success (parse inflate data) = false.
Proof.
  intros H. rewrite (parse_not_flirt inflate data (isFlirt_rejects data H)).
  reflexivity.
Qed.

Lemma parse_gate_witness :
  success (parse None (list_byte_of_string "IDASGX" ++ [x05])) = false
  /\ success (parse None (sigFile 11 [0])) = false.
Proof.
  split.
  - apply parse_gate. left. vm_compute. discriminate.
  - apply parse_gate. right. intros v V. vm_compute in V.
    inversion V; subst. right. reflexivity.
Defined.

(** The claim that a bad version is reported as "Unsupported FLIRT version N"
    fails: on [IDASGN] followed by the version byte 4 the message of [parse]
    is another one, with or without an inflater. *)
Lemma unsupported_version_message_counterexample :
  let data := IDASGN ++ [x04] in
  firstn 6 data = IDASGN /\ versionByte data = Some 4
  /\ errorMessage (parse None data) <> "Unsupported FLIRT version 4"%string
  /\ errorMessage (parse (Some (fun a _ => a)) data)
     <> "Unsupported FLIRT version 4"%string.
Proof.
  vm_compute. repeat split; discriminate.
Qed.

(** The header decoder run on its own, on a body with the magic and a
    version outside 5..10. *)
Lemma parseHeader_unsupported (st : ParseState) (result : FlirtResult) (v : Z) :
  firstn 6 (body st) = IDASGN -> versionByte (body st) = Some v ->
  v < 5 \/ 10 < v ->
  fst (fst (parseHeader st result)) = false
  /\ errorMessage (snd (parseHeader st result))
     = ("Unsupported FLIRT version " ++ decimal v)%string.
Proof.
  intros M V R. apply versionByte_some in V. destruct V as [L V].
  unfold parseHeader.
  assert (E1 : (size st <? 7) = false) by (apply Z.ltb_ge; exact L).
  rewrite E1. apply isMagic_eq in M. rewrite M. simpl negb. cbv iota.
  cbn [version setPos setVersion]. rewrite <- V.
  assert (E2 : ((v <? 5) || (10 <? v)) = true).
  { apply orb_true_iff. destruct R; [left; apply Z.ltb_lt | right; apply Z.ltb_lt]; lia. }
  rewrite E2. simpl. auto.
Qed.

(** C6, as the code has it.  An input with the magic and a version byte
    outside 5..10 is stopped by [isFlirt] before the header is decoded:
    [parse] fails with "Not a valid FLIRT .sig file".  The message
    "Unsupported FLIRT version N" is what [parseHeader] reports for such a
    body when it is run on it. *)
Theorem parse_unsupported_version (inflate : Inflater) (data : list byte) (v : Z) :
  firstn 6 data = IDASGN -> versionByte data = Some v -> v < 5 \/ 10 < v ->
  success (parse inflate data) = false
  /\ errorMessage (parse inflate data) = "Not a valid FLIRT .sig file"%string
  /\ errorMessage (snd (parseHeader (startState data 0) emptyResult))
     = ("Unsupported FLIRT version " ++ decimal v)%string.
Proof.
  intros M V R.
  assert (G : fst (isFlirt data) = false).
  { apply isFlirt_rejects. right. intros w W. congruence. }
  rewrite (parse_not_flirt inflate data G). repeat split.
  apply (parseHeader_unsupported (startState data 0) emptyResult v M V R).
Qed.

Lemma parse_unsupported_version_witness :
  let data := IDASGN ++ [x0b] in
  success (parse None data) = false
  /\ errorMessage (parse None data) = "Not a valid FLIRT .sig file"%string
  /\ errorMessage (snd (parseHeader (startState data 0) emptyResult))
     = "Unsupported FLIRT version 11"%string.
Proof.
  intros data. apply (parse_unsupported_version None data 11).
  - reflexivity.
  - reflexivity.
  - right. reflexivity.
Defined.

(** ** Slices of the body *)

Lemma skipn_nth_cons (a : list byte) (p : nat) :
  (p < List.length a)%nat -> skipn p a = nth p a x00 :: skipn (S p) a.
Proof.
  revert a. induction p as [|p IH]; intros [|x a] H; simpl in *; try lia.
  - reflexivity.
  - apply IH. lia.
Qed.

Lemma mid_cons (a : list byte) (p n : Z) :
  0 <= p < Z.of_nat (List.length a) -> 0 <= n ->
  toChar (at_ a p) :: mid a (p + 1) n = mid a p (n + 1).
Proof.
  intros Hp Hn. unfold mid, at_. rewrite toChar_byteVal.
  replace (Z.to_nat (n + 1)) with (S (Z.to_nat n)) by lia.
  replace (Z.to_nat (p + 1)) with (S (Z.to_nat p)) by lia.
  rewrite (skipn_nth_cons a (Z.to_nat p)) by lia. reflexivity.
Qed.

Lemma mid_zero (a : list byte) (p : Z) : mid a p 0 = [].
Proof. reflexivity. Qed.

Lemma mid_length (a : list byte) (p n : Z) :
  0 <= p -> 0 <= n -> p + n <= Z.of_nat (List.length a) ->
  List.length (mid a p n) = Z.to_nat n.
Proof.
  intros Hp Hn H. unfold mid. rewrite length_firstn, length_skipn. lia.
Qed.

Lemma at_mid (a : list byte) (p n i : Z) :
  0 <= p -> 0 <= i < n -> at_ (mid a p n) i = at_ a (p + i).
Proof.
  intros Hp Hi. unfold at_, mid. f_equal.
  rewrite nth_firstn.
  assert (E : (Z.to_nat i <? Z.to_nat n)%nat = true) by (apply Nat.ltb_lt; lia).
  rewrite E. rewrite nth_skipn. f_equal. lia.
Qed.

Lemma at_app_l (a b : list byte) (i : Z) :
  0 <= i < Z.of_nat (List.length a) -> at_ (a ++ b) i = at_ a i.
Proof. intros H. unfold at_. rewrite app_nth1 by lia. reflexivity. Qed.

Lemma at_app_r (a b : list byte) (i : Z) :
  Z.of_nat (List.length a) <= i ->
  at_ (a ++ b) i = at_ b (i - Z.of_nat (List.length a)).
Proof.
  intros H. unfold at_. rewrite app_nth2 by lia. do 2 f_equal. lia.
Qed.

Lemma at_cons_S (x : byte) (a : list byte) (i : Z) :
  0 < i -> at_ (x :: a) i = at_ a (i - 1).
Proof.
  intros H. unfold at_. replace (Z.to_nat i) with (S (Z.to_nat (i - 1))) by lia.
  reflexivity.
Qed.

Lemma at_repeat_x00 (n : nat) (i : Z) : at_ (repeat x00 n) i = 0.
Proof.
  unfold at_. destruct (Nat.lt_ge_cases (Z.to_nat i) n) as [H|H].
  - rewrite nth_repeat_lt by exact H. reflexivity.
  - rewrite nth_overflow by (rewrite repeat_length; exact H). reflexivity.
Qed.

Lemma readByte_setPos (st : ParseState) :
  live st -> pos st < size st ->
  readByte st = (at_ (body st) (pos st), setPos st (pos st + 1))
  /\ live (setPos st (pos st + 1)).
Proof.
  intros L H. unfold live, stopped in *. apply orb_false_elim in L.
  destruct L as [He Hr]. split.
  - apply readByte_at; assumption.
  - simpl. rewrite He, Hr. reflexivity.
Qed.

(** ** Variant-mask geometry *)

Lemma pow2_land_distinct (b c : Z) :
  0 <= b -> 0 <= c -> b <> c -> Z.land (Z.shiftl 1 b) (Z.shiftl 1 c) = 0.
Proof.
  intros Hb Hc Hne. rewrite !Z.shiftl_1_l.
  apply Z.bits_inj'. intros n Hn.
  rewrite Z.land_spec, !Z.pow2_bits_eqb, Z.bits_0 by assumption.
  destruct (Z.eqb_spec b n), (Z.eqb_spec c n); try reflexivity. lia.
Qed.

Lemma hasBit_same (b : Z) : 0 <= b -> hasBit (Z.shiftl 1 b) (Z.shiftl 1 b) = true.
Proof.
  intros Hb. unfold hasBit. rewrite Z.land_diag, Z.shiftl_1_l.
  assert (0 < 2 ^ b) by (apply Z.pow_pos_nonneg; lia).
  destruct (Z.eqb_spec (2 ^ b) 0); [lia | reflexivity].
Qed.

Lemma hasBit_distinct (b c : Z) :
  0 <= b -> 0 <= c -> b <> c -> hasBit (Z.shiftl 1 b) (Z.shiftl 1 c) = false.
Proof.
  intros Hb Hc Hne. unfold hasBit. rewrite pow2_land_distinct by assumption.
  reflexivity.
Qed.

Lemma shiftr_bit (c : Z) : 0 < c -> Z.shiftr (Z.shiftl 1 c) 1 = Z.shiftl 1 (c - 1).
Proof. intros H. apply Z.shiftr_shiftl_l. lia. Qed.

(** The loop on a stretch of the mask that has no variant bit: the bytes
    are taken from the body in order. *)
Lemma nodeBytesLoop_concrete (n : nat) :
  forall (bit mask : Z) (st : ParseState),
    (forall j : nat, (j < n)%nat -> hasBit mask (Z.shiftr bit (Z.of_nat j)) = false) ->
    live st -> 0 <= pos st -> pos st + Z.of_nat n <= size st ->
    nodeBytesLoop n bit mask st
    = Some (mid (body st) (pos st) (Z.of_nat n), repeat x00 n,
            setPos st (pos st + Z.of_nat n)).
Proof.
  induction n as [|n IH]; intros bit mask st Hb L H0 H.
  - simpl. rewrite Z.add_0_r. destruct st; reflexivity.
  - cbn [nodeBytesLoop]. rewrite Nat2Z.inj_succ, <- Z.add_1_r in *.
    assert (B0 : hasBit mask bit = false).
    { rewrite <- (Z.shiftr_0_r bit). apply (Hb 0%nat). lia. }
    rewrite B0, L.
    destruct (readByte_setPos st L) as [R L1]; [lia|]. rewrite R.
    rewrite IH; try assumption.
    + cbn [body pos setPos repeat]. rewrite mid_cons by (unfold size in H; lia).
      replace (pos st + 1 + Z.of_nat n) with (pos st + (Z.of_nat n + 1)) by lia.
      reflexivity.
    + intros j Hj. rewrite Z.shiftr_shiftr by lia.
      replace (1 + Z.of_nat j) with (Z.of_nat (S j)) by lia. apply Hb. lia.
    + simpl. lia.
    + unfold size in *. simpl. lia.
Qed.

Lemma setPos_setPos (st : ParseState) (p q : Z) :
  setPos (setPos st p) q = setPos st q.
Proof. reflexivity. Qed.

(** The loop on a mask with the single bit [b], over [a] bytes before the
    variant one and [b] after it. *)
Lemma nodeBytesLoop_one_variant (a : nat) :
  forall (b : nat) (st : ParseState),
    live st -> 0 <= pos st -> pos st + Z.of_nat a + Z.of_nat b <= size st ->
    nodeBytesLoop (a + S b) (Z.shiftl 1 (Z.of_nat (a + b))) (Z.shiftl 1 (Z.of_nat b)) st
    = Some (mid (body st) (pos st) (Z.of_nat a)
              ++ x00 :: mid (body st) (pos st + Z.of_nat a) (Z.of_nat b),
            repeat x00 a ++ x01 :: repeat x00 b,
            setPos st (pos st + Z.of_nat a + Z.of_nat b)).
Proof.
  induction a as [|a IH]; intros b st L H0 H.
  - cbn [Nat.add nodeBytesLoop]. rewrite hasBit_same by lia.
    rewrite nodeBytesLoop_concrete; try assumption; try lia.
    + cbn [repeat app Z.of_nat]. rewrite mid_zero, !Z.add_0_r. reflexivity.
    + intros j Hj. rewrite Z.shiftr_shiftr by lia.
      rewrite Z.shiftr_shiftl_l by lia.
      apply hasBit_distinct; lia.
  - cbn [Nat.add nodeBytesLoop].
    rewrite hasBit_distinct by lia. rewrite L.
    destruct (readByte_setPos st L) as [R L1]; [lia|]. rewrite R.
    rewrite shiftr_bit by lia.
    replace (Z.of_nat (S (a + b)) - 1) with (Z.of_nat (a + b)) by lia.
    rewrite IH; try assumption.
    + cbn [body pos setPos repeat app]. rewrite setPos_setPos.
      replace (Z.of_nat (S a)) with (Z.of_nat a + 1) by lia.
      rewrite <- mid_cons by (unfold size in H; lia).
      cbn [app].
      replace (pos st + 1 + Z.of_nat a) with (pos st + (Z.of_nat a + 1)) by lia.
      reflexivity.
    + simpl. lia.
    + unfold size in *. simpl. lia.
Qed.

(** C4. A node of length [L] (1..63) decoded under a mask with the single
    bit [k] (below [L]), from a live reader that holds the [L - 1] concrete
    bytes: the decoder succeeds, both arrays have length [L], index
    [L - 1 - k] is variant (mask entry 1, stored byte 0), every other index
    is concrete (mask entry 0) and holds the next byte of the stream in
    order, and the reader has moved [L - 1] bytes on. *)
Theorem node_variant_geometry (st : ParseState) (L k : Z) :
  1 <= L <= 63 -> 0 <= k < L -> live st -> 0 <= pos st ->
  pos st + (L - 1) <= size st ->
  exists node,
    readNodeBytes st L (Z.shiftl 1 k) = Some (node, setPos st (pos st + (L - 1)))
    /\ Z.of_nat (List.length (patternBytes node)) = L
    /\ Z.of_nat (List.length (variantMask node)) = L
    /\ at_ (variantMask node) (L - 1 - k) = 1
    /\ at_ (patternBytes node) (L - 1 - k) = 0
    /\ forall i, 0 <= i < L -> i <> L - 1 - k ->
         at_ (variantMask node) i = 0
         /\ at_ (patternBytes node) i
            = at_ (body st) (pos st + (if i <? L - 1 - k then i else i - 1)).
Proof.
  intros HL Hk Lv H0 H.
  set (a := Z.to_nat (L - 1 - k)). set (b := Z.to_nat k).
  assert (Ha : Z.of_nat a = L - 1 - k) by (unfold a; lia).
  assert (Hb : Z.of_nat b = k) by (unfold b; lia).
  assert (R : readNodeBytes st L (Z.shiftl 1 k)
              = Some (mkNode
                        (mid (body st) (pos st) (Z.of_nat a)
                           ++ x00 :: mid (body st) (pos st + Z.of_nat a) (Z.of_nat b))
                        (repeat x00 a ++ x01 :: repeat x00 b),
                      setPos st (pos st + (L - 1)))).
  { unfold readNodeBytes.
    assert (E : ((63 <? L) || (L <=? 0)) = false).
    { apply orb_false_iff. split; [apply Z.ltb_ge | apply Z.leb_gt]; lia. }
    rewrite E.
    replace (Z.to_nat L) with (a + S b)%nat by lia.
    replace (Z.shiftl 1 (L - 1)) with (Z.shiftl 1 (Z.of_nat (a + b)))
      by (f_equal; lia).
    replace (Z.shiftl 1 k) with (Z.shiftl 1 (Z.of_nat b)) by (f_equal; lia).
    rewrite nodeBytesLoop_one_variant by (assumption || lia).
    replace (pos st + Z.of_nat a + Z.of_nat b) with (pos st + (L - 1)) by lia.
    reflexivity. }
  eexists. split; [exact R|].
  cbn [patternBytes variantMask].
  assert (Lm : List.length (mid (body st) (pos st) (Z.of_nat a)) = a).
  { rewrite mid_length; unfold size in *; lia. }
  assert (Ln : List.length (mid (body st) (pos st + Z.of_nat a) (Z.of_nat b)) = b).
  { rewrite mid_length; unfold size in *; lia. }
  split; [rewrite length_app; cbn [List.length]; lia|].
  split; [rewrite length_app, !repeat_length; cbn [List.length];
          rewrite repeat_length; lia|].
  split.
  { rewrite at_app_r by (rewrite repeat_length; lia).
    rewrite repeat_length. replace (L - 1 - k - Z.of_nat a) with 0 by lia.
    reflexivity. }
  split.
  { rewrite at_app_r by lia. rewrite Lm.
    replace (L - 1 - k - Z.of_nat a) with 0 by lia. reflexivity. }
  intros i Hi Hne. destruct (Z.ltb_spec i (L - 1 - k)) as [Hlt|Hge].
  - split.
    + rewrite at_app_l by (rewrite repeat_length; lia). apply at_repeat_x00.
    + rewrite at_app_l by lia. apply at_mid; lia.
  - split.
    + rewrite at_app_r by (rewrite repeat_length; lia). rewrite repeat_length.
      rewrite at_cons_S by lia. apply at_repeat_x00.
    + rewrite at_app_r by lia. rewrite Lm. rewrite at_cons_S by lia.
      rewrite at_mid by lia. f_equal. lia.
Qed.

Lemma node_variant_geometry_witness :
  exists node,
    readNodeBytes (startState [xaa; xbb; xcc] 5) 4 (Z.shiftl 1 2)
    = Some (node, setPos (startState [xaa; xbb; xcc] 5) 3)
    /\ patternBytes node = [xaa; x00; xbb; xcc]
    /\ variantMask node = [x00; x01; x00; x00].
Proof.
  destruct (node_variant_geometry (startState [xaa; xbb; xcc] 5) 4 2)
    as (node & R & _); try (vm_compute; intuition discriminate).
  exists node. split; [exact R|].
  vm_compute in R. inversion R. split; reflexivity.
Defined.

(** A stream one byte short: the last concrete byte is the saturated 0 and
    the decoder still returns a node, with [eof] set, so the tree walker
    fails at its next read. *)
Example readNodeBytes_short_stream :
  readNodeBytes (startState [xaa] 5) 3 (Z.shiftl 1 2)
  = Some (mkNode [x00; xaa; x00] [x01; x00; x00],
          mkState [xaa] 1 5 true false).
Proof. reflexivity. Qed.

(** ** Hex rendering *)

Lemma string_length_append (s t : string) :
  String.length (s ++ t) = (String.length s + String.length t)%nat.
Proof. induction s as [|c s IH]; simpl; [reflexivity | now rewrite IH]. Qed.

Lemma string_append_nil_r (s : string) : (s ++ "")%string = s.
Proof. induction s as [|c s IH]; simpl; [reflexivity | now rewrite IH]. Qed.

Lemma concat_empty_cons (x : string) (xs : list string) :
  String.concat "" (x :: xs) = (x ++ String.concat "" xs)%string.
Proof.
  destruct xs as [|y xs]; simpl; [now rewrite string_append_nil_r | reflexivity].
Qed.

Lemma hexCell_length (n : FlirtPatternNode) (i : nat) :
  String.length (hexCell n i) = 2%nat.
Proof. unfold hexCell. destruct (isVariant n i); reflexivity. Qed.

Lemma cells_length (cells : list string) :
  Forall (fun c => String.length c = 2%nat) cells ->
  String.length (String.concat "" cells) = (2 * List.length cells)%nat.
Proof.
  induction 1 as [|c cells Hc _ IH]; [reflexivity|].
  rewrite concat_empty_cons, string_length_append, Hc, IH. simpl. lia.
Qed.

Lemma cells_substring (cells : list string) :
  Forall (fun c => String.length c = 2%nat) cells ->
  forall i, (i < List.length cells)%nat ->
  substring (2 * i) 2 (String.concat "" cells) = nth i cells ""%string.
Proof.
  induction 1 as [|c cells Hc _ IH]; intros i Hi; [simpl in Hi; lia|].
  rewrite concat_empty_cons.
  destruct c as [|a [|b [|]]]; try discriminate.
  destruct i as [|i].
  - simpl. destruct (String.concat "" cells); reflexivity.
  - replace (2 * S i)%nat with (S (S (2 * i))) by lia.
    cbn [append substring nth]. apply IH. simpl in Hi. lia.
Qed.

Lemma hexCells_shape (n : FlirtPatternNode) (l : list nat) :
  Forall (fun c => String.length c = 2%nat) (map (hexCell n) l).
Proof.
  induction l; simpl; constructor; [apply hexCell_length | assumption].
Qed.

Lemma toHexString_length (n : FlirtPatternNode) :
  String.length (toHexString n) = (2 * nodeLen n)%nat.
Proof.
  unfold toHexString. rewrite cells_length by apply hexCells_shape.
  rewrite length_map, length_seq. reflexivity.
Qed.

(** The two characters at byte position [i] of a rendered node. *)
Lemma toHexString_cell (n : FlirtPatternNode) (i : nat) :
  (i < nodeLen n)%nat -> substring (2 * i) 2 (toHexString n) = hexCell n i.
Proof.
  intros Hi. unfold toHexString.
  rewrite cells_substring;
    [|apply hexCells_shape | rewrite length_map, length_seq; exact Hi].
  rewrite (nth_indep _ ""%string (hexCell n 0%nat))
    by (rewrite length_map, length_seq; exact Hi).
  rewrite map_nth, seq_nth by exact Hi. reflexivity.
Qed.

Lemma hexDigit_value (d : Z) :
  0 <= d < 16 -> hexDigitValue (hexDigit d) = Some d.
Proof.
  intros H.
  assert (Hc : exists k : nat, (k < 16)%nat /\ d = Z.of_nat k)
    by (exists (Z.to_nat d); lia).
  destruct Hc as (k & Hk & ->).
  do 16 (destruct k as [|k]; [reflexivity|]). lia.
Qed.

Lemma hexDigit_not_dot (d : Z) : hexDigit d <> "."%char.
Proof.
  unfold hexDigit. generalize (Z.to_nat d). intros k.
  do 17 (destruct k as [|k]; [discriminate|]). discriminate.
Qed.

(** [hexByte] writes the two uppercase hexadecimal digits of a byte, high
    digit first. *)
Lemma hexByte_digits (v : Z) :
  0 <= v <= 255 ->
  exists a b, hexByte v = String a (String b EmptyString)
              /\ hexDigitValue a = Some (v / 16)
              /\ hexDigitValue b = Some (v mod 16).
Proof.
  intros H. exists (hexDigit (v / 16)), (hexDigit (v mod 16)).
  split; [reflexivity|]. split; apply hexDigit_value.
  - split; [apply Z.div_pos; lia | apply Z.div_lt_upper_bound; lia].
  - apply Z.mod_pos_bound. lia.
Qed.

Lemma hexByte_not_dots (v : Z) : hexByte v <> ".."%string.
Proof.
  unfold hexByte. intros H. inversion H as [[H1 H2]].
  exact (hexDigit_not_dot _ H1).
Qed.

(** [..] stands at a byte position exactly when the byte is variant. *)
Lemma hexCell_dots (n : FlirtPatternNode) (i : nat) :
  hexCell n i = ".."%string <-> isVariant n i = true.
Proof.
  unfold hexCell. destruct (isVariant n i); split; intros H;
    try reflexivity; try discriminate.
  exfalso. exact (hexByte_not_dots _ H).
Qed.

(** ** The cap on the length of a function name *)


Lemma readOffset_extends (st st' : ParseState) (v : Z) :
  readOffset st = (v, st') -> extends st st'.
Proof.
  unfold readOffset. destruct (9 <=? version st);
    eauto using readMultipleBytes_extends, readMax2Bytes_extends.
Qed.

Lemma readOffset_sound (st st' : ParseState) (v : Z) :
  readOffset st = (v, st') -> eofSound st'.
Proof.
  unfold readOffset. destruct (9 <=? version st);
    eauto using readMultipleBytes_sound, readMax2Bytes_sound.
Qed.

Lemma readOffset_advanced (st st' : ParseState) (v : Z) :
  readOffset st = (v, st') -> eofSound st -> live st' -> advanced st st'.
Proof.
  unfold readOffset. destruct (9 <=? version st);
    eauto using readMultipleBytes_advanced, readMax2Bytes_advanced.
Qed.

Lemma string_of_list_byte_length (l : list byte) :
  String.length (string_of_list_byte l) = List.length l.
Proof.
  unfold string_of_list_byte.
  induction l as [|b l IH]; simpl; [reflexivity | now rewrite IH].
Qed.





(** ** The module decoders only read on *)

Lemma nameLoop_extends (room : nat) :
  forall c acc st nb fl st',
    nameLoop room c acc st = Some (nb, fl, st') -> extends st st'.
Proof.
  induction room as [|room IH]; intros c acc st nb fl st' H; simpl in H.
  - inversion H; subst. apply extends_refl.
  - destruct (32 <=? c).
    + destruct (readByte st) as [c' st1] eqn:R.
      destruct (stopped st1); [discriminate|].
      eapply extends_trans; [eapply readByte_extends; eauto | eapply IH; eauto].
    + inversion H; subst. apply extends_refl.
Qed.

Lemma readAttributes_extends (c : Z) (st : ParseState) loc col c' st' :
  readAttributes c st = Some (loc, col, c', st') -> extends st st'.
Proof.
  unfold readAttributes. intros H. destruct (c <? 32).
  - destruct (readByte st) as [x st1] eqn:R. destruct (stopped st1); [discriminate|].
    inversion H; subst. eapply readByte_extends; eauto.
  - inversion H; subst. apply extends_refl.
Qed.

Lemma progressed_extends (a b c : ParseState) :
  progressed a b -> extends b c -> progressed a c.
Proof.
  intros (X & P & U) Y. pose proof (extends_size _ _ X).
  pose proof (ext_pos _ _ Y). pose proof (ext_bound _ _ Y).
  split; [eapply extends_trans; eauto|]. lia.
Qed.

Lemma extends_progressed (a b c : ParseState) :
  extends a b -> progressed b c -> progressed a c.
Proof.
  intros X (Y & P & U). pose proof (extends_size _ _ X).
  pose proof (ext_pos _ _ X).
  split; [eapply extends_trans; eauto|]. lia.
Qed.

Lemma progressed_remaining (st st' : ParseState) :
  progressed st st' -> (remaining st' < remaining st)%nat.
Proof.
  intros (X & P & U). unfold remaining. rewrite (extends_size _ _ X). lia.
Qed.

Lemma extends_remaining (st st' : ParseState) :
  extends st st' -> (remaining st' <= remaining st)%nat.
Proof.
  intros X. unfold remaining. rewrite (extends_size _ _ X).
  pose proof (ext_pos _ _ X). lia.
Qed.

Lemma advanced_progressed (st st' : ParseState) :
  extends st st' -> advanced st st' -> progressed st st'.
Proof. intros X (L & P & U & Z). split; [exact X|]. lia. Qed.

Lemma readByte_progressed (st st' : ParseState) (v : Z) :
  readByte st = (v, st') -> eofSound st -> stopped st' = false ->
  progressed st st'.
Proof.
  intros R S L. apply advanced_progressed.
  - eapply readByte_extends; eauto.
  - eapply readByte_advanced; eauto.
Qed.

Lemma readMultipleBytes_progressed (st st' : ParseState) (v : Z) :
  readMultipleBytes st = (v, st') -> eofSound st -> stopped st' = false ->
  progressed st st'.
Proof.
  intros R S L. apply advanced_progressed.
  - eapply readMultipleBytes_extends; eauto.
  - eapply readMultipleBytes_advanced; eauto.
Qed.

Lemma readPublicFunction_progressed st off f flags st' :
  readPublicFunction st off = Some (f, flags, st') -> progressed st st'.
Proof.
  unfold readPublicFunction. intros H.
  destruct (readOffset st) as [delta st1] eqn:R1.
  destruct (stopped st1) eqn:L1; [discriminate|].
  destruct (readByte st1) as [c st2] eqn:R2.
  destruct (stopped st2) eqn:L2; [discriminate|].
  destruct (readAttributes c st2) as [[[[loc col] c1] st3]|] eqn:R3; [|discriminate].
  destruct (nameLoop (Z.to_nat FLIRT_NAME_MAX) c1 [] st3) as [[[nb fl] st4]|] eqn:R4;
    [|discriminate].
  inversion H; subst.
  pose proof (readOffset_sound _ _ _ R1) as S1.
  eapply progressed_extends.
  - eapply extends_progressed; [eapply readOffset_extends; eauto|].
    eapply readByte_progressed; eauto.
  - eapply extends_trans; [eapply readAttributes_extends; eauto|].
    eapply nameLoop_extends; eauto.
Qed.

Lemma publicFunctionsLoop_extends (steps : nat) :
  forall st off m r st',
    publicFunctionsLoop steps st off m = Done r st' -> progressed st st'.
Proof.
  induction steps as [|steps IH]; intros st off m r st' H; simpl in H;
    [discriminate|].
  destruct (readPublicFunction st off) as [[[f flags] st1]|] eqn:R; [|discriminate].
  pose proof (readPublicFunction_progressed _ _ _ _ _ R) as P.
  destruct (hasBit flags IDASIG_PARSE_MORE_PUBLIC_NAMES).
  - destruct P as (X & P1 & P2).
    eapply extends_progressed; [exact X|]. eapply IH; eauto.
  - inversion H; subst. exact P.
Qed.

Lemma readModulePublicFunctions_progressed st m m' flags st' :
  readModulePublicFunctions st m = Some (m', flags, st') -> progressed st st'.
Proof.
  unfold readModulePublicFunctions. intros H.
  destruct (publicFunctionsLoop (stepsFor st) st 0 m) as [r st1| |] eqn:R;
    try discriminate.
  inversion H; subst. eapply publicFunctionsLoop_extends; eauto.
Qed.

Lemma readCount_extends st c st' : readCount st = (c, st') -> extends st st'.
Proof.
  unfold readCount. destruct (8 <=? version st); intros H.
  - eapply readByte_extends; eauto.
  - inversion H; subst. apply extends_refl.
Qed.

Lemma tailBytesLoop_extends (count : nat) :
  forall st m m' st', tailBytesLoop count st m = Some (m', st') -> extends st st'.
Proof.
  induction count as [|count IH]; intros st m m' st' H; simpl in H.
  - inversion H; subst. apply extends_refl.
  - destruct (readOffset st) as [off st1] eqn:R1.
    destruct (stopped st1); [discriminate|].
    destruct (readByte st1) as [v st2] eqn:R2.
    destruct (stopped st2); [discriminate|].
    eapply extends_trans; [eapply readOffset_extends; eauto|].
    eapply extends_trans; [eapply readByte_extends; eauto|].
    eapply IH; eauto.
Qed.

Lemma readModuleTailBytes_extends st m m' st' :
  readModuleTailBytes st m = Some (m', st') -> extends st st'.
Proof.
  unfold readModuleTailBytes. intros H.
  destruct (readCount st) as [c st1] eqn:R. destruct (stopped st1); [discriminate|].
  eapply extends_trans; [eapply readCount_extends; eauto|].
  eapply tailBytesLoop_extends; eauto.
Qed.

Lemma refNameLoop_extends (n : nat) :
  forall st acc nb st', refNameLoop n st acc = Some (nb, st') -> extends st st'.
Proof.
  induction n as [|n IH]; intros st acc nb st' H; simpl in H.
  - inversion H; subst. apply extends_refl.
  - destruct (readByte st) as [b st1] eqn:R. destruct (stopped st1); [discriminate|].
    eapply extends_trans; [eapply readByte_extends; eauto | eapply IH; eauto].
Qed.

Lemma readNameLen_extends st n st' :
  readNameLen st = Some (n, st') -> extends st st'.
Proof.
  unfold readNameLen. intros H.
  destruct (readByte st) as [b st1] eqn:R. destruct (stopped st1); [discriminate|].
  destruct (b =? 0).
  - destruct (readMultipleBytes st1) as [k st2] eqn:R2.
    destruct (stopped st2); [discriminate|]. inversion H; subst.
    eapply extends_trans;
      [eapply readByte_extends; eauto | eapply readMultipleBytes_extends; eauto].
  - inversion H; subst. eapply readByte_extends; eauto.
Qed.

Lemma readReferencedFunction_extends st rf st' :
  readReferencedFunction st = Some (rf, st') -> extends st st'.
Proof.
  unfold readReferencedFunction. intros H.
  destruct (readOffset st) as [off st1] eqn:R1.
  destruct (stopped st1); [discriminate|].
  destruct (readNameLen st1) as [[n st2]|] eqn:R2; [|discriminate].
  destruct (FLIRT_NAME_MAX <=? n); [discriminate|].
  destruct (refNameLoop (Z.to_nat n) st2 []) as [[nb st3]|] eqn:R3; [|discriminate].
  assert (X : extends st st3).
  { eapply extends_trans; [eapply readOffset_extends; eauto|].
    eapply extends_trans; [eapply readNameLen_extends; eauto|].
    eapply refNameLoop_extends; eauto. }
  destruct ((0 <? Z.of_nat (List.length nb)) && (byteVal (last nb x01) =? 0));
    inversion H; subst; exact X.
Qed.

Lemma referencedFunctionsLoop_extends (count : nat) :
  forall st m m' st',
    referencedFunctionsLoop count st m = Some (m', st') -> extends st st'.
Proof.
  induction count as [|count IH]; intros st m m' st' H; simpl in H.
  - inversion H; subst. apply extends_refl.
  - destruct (readReferencedFunction st) as [[rf st1]|] eqn:R; [|discriminate].
    eapply extends_trans; [eapply readReferencedFunction_extends; eauto|].
    eapply IH; eauto.
Qed.

Lemma readModuleReferencedFunctions_extends st m m' st' :
  readModuleReferencedFunctions st m = Some (m', st') -> extends st st'.
Proof.
  unfold readModuleReferencedFunctions. intros H.
  destruct (readCount st) as [c st1] eqn:R. destruct (stopped st1); [discriminate|].
  eapply extends_trans; [eapply readCount_extends; eauto|].
  eapply referencedFunctionsLoop_extends; eauto.
Qed.

(** ** One module *)

Lemma parseModule_stages st path cl crc m flags st' :
  parseModule st path cl crc = Some (m, flags, st') ->
  (exists stT stR, moduleRun (version st) m flags (snd (readOffset st)) stT stR)
  /\ progressed st st'.
Proof.
  intros H. pose proof H as H0. unfold parseModule in H.
  destruct (readOffset st) as [len st1] eqn:R1.
  destruct (stopped st1) eqn:L1; [discriminate|].
  destruct (readModulePublicFunctions st1 _) as [[[m1 fl] st2]|] eqn:R2;
    [|discriminate].
  destruct (if hasBit fl IDASIG_PARSE_READ_TAIL_BYTES
            then readModuleTailBytes st2 m1 else Some (m1, st2))
    as [[m2 st3]|] eqn:R3; [|discriminate].
  destruct (if hasBit fl IDASIG_PARSE_READ_REFERENCED_FUNCTIONS
            then readModuleReferencedFunctions st3 m2 else Some (m2, st3))
    as [[m3 st4]|] eqn:R4; [|discriminate].
  inversion H; subst. split.
  - exists st2, st3, st, path, cl, crc, st', m1, m2.
    rewrite R1. cbn [fst snd]. repeat split; assumption.
  - pose proof (readOffset_extends _ _ _ R1) as X1.
    pose proof (readModulePublicFunctions_progressed _ _ _ _ _ R2) as P2.
    eapply extends_progressed; [exact X1|].
    eapply progressed_extends; [exact P2|].
    eapply extends_trans.
    + destruct (hasBit flags IDASIG_PARSE_READ_TAIL_BYTES).
      * eapply readModuleTailBytes_extends; eauto.
      * inversion R3; subst. apply extends_refl.
    + destruct (hasBit flags IDASIG_PARSE_READ_REFERENCED_FUNCTIONS).
      * eapply readModuleReferencedFunctions_extends; eauto.
      * inversion R4; subst. apply extends_refl.
Qed.

(** *** What each block decoder does to the module *)

Lemma publicFunctionsLoop_fields (steps : nat) :
  forall st off m m' flags st',
    publicFunctionsLoop steps st off m = Done (m', flags) st' ->
    patternPath m' = patternPath m /\ tailBytes m' = tailBytes m
    /\ referencedFunctions m' = referencedFunctions m.
Proof.
  induction steps as [|steps IH]; intros st off m m' flags st' H; simpl in H;
    [discriminate|].
  destruct (readPublicFunction st off) as [[[f fl] st1]|]; [|discriminate].
  destruct (hasBit fl IDASIG_PARSE_MORE_PUBLIC_NAMES).
  - apply IH in H. exact H.
  - inversion H; subst. auto.
Qed.

Lemma tailBytesLoop_fields (count : nat) :
  forall st m m' st',
    tailBytesLoop count st m = Some (m', st') ->
    patternPath m' = patternPath m /\ publicFunctions m' = publicFunctions m
    /\ referencedFunctions m' = referencedFunctions m
    /\ List.length (tailBytes m') = (List.length (tailBytes m) + count)%nat.
Proof.
  induction count as [|count IH]; intros st m m' st' H; simpl in H.
  - inversion H; subst. repeat split; lia.
  - destruct (readOffset st) as [off st1]. destruct (stopped st1); [discriminate|].
    destruct (readByte st1) as [v st2]. destruct (stopped st2); [discriminate|].
    apply IH in H. cbn [patternPath publicFunctions referencedFunctions tailBytes
                        addTailByte] in H.
    rewrite length_app in H. simpl in H.
    destruct H as (A & B & C & D). repeat split; try assumption. lia.
Qed.

Lemma referencedFunctionsLoop_fields (count : nat) :
  forall st m m' st',
    referencedFunctionsLoop count st m = Some (m', st') ->
    patternPath m' = patternPath m /\ publicFunctions m' = publicFunctions m
    /\ tailBytes m' = tailBytes m
    /\ List.length (referencedFunctions m')
       = (List.length (referencedFunctions m) + count)%nat.
Proof.
  induction count as [|count IH]; intros st m m' st' H; simpl in H.
  - inversion H; subst. repeat split; lia.
  - destruct (readReferencedFunction st) as [[rf st1]|]; [|discriminate].
    apply IH in H. cbn [patternPath publicFunctions referencedFunctions tailBytes
                        addReferencedFunction] in H.
    rewrite length_app in H. simpl in H.
    destruct H as (A & B & C & D). repeat split; try assumption. lia.
Qed.

(** The count a tail-byte or referenced-function block is read with: 1
    before version 8, the byte at the reader from version 8 on. *)
Lemma readCount_value (st : ParseState) :
  fst (readCount st) = if 8 <=? version st then fst (readByte st) else 1.
Proof. unfold readCount. destruct (8 <=? version st); reflexivity. Qed.

Lemma readModuleTailBytes_fields st m m' st' :
  readModuleTailBytes st m = Some (m', st') ->
  patternPath m' = patternPath m /\ publicFunctions m' = publicFunctions m
  /\ referencedFunctions m' = referencedFunctions m
  /\ List.length (tailBytes m')
     = (List.length (tailBytes m) + Z.to_nat (fst (readCount st)))%nat.
Proof.
  unfold readModuleTailBytes. intros H.
  destruct (readCount st) as [c st1]. destruct (stopped st1); [discriminate|].
  apply tailBytesLoop_fields in H. exact H.
Qed.

Lemma readModuleReferencedFunctions_fields st m m' st' :
  readModuleReferencedFunctions st m = Some (m', st') ->
  patternPath m' = patternPath m /\ publicFunctions m' = publicFunctions m
  /\ tailBytes m' = tailBytes m
  /\ List.length (referencedFunctions m')
     = (List.length (referencedFunctions m) + Z.to_nat (fst (readCount st)))%nat.
Proof.
  unfold readModuleReferencedFunctions. intros H.
  destruct (readCount st) as [c st1]. destruct (stopped st1); [discriminate|].
  apply referencedFunctionsLoop_fields in H. exact H.
Qed.

(** What a module run says of the module's three lists and of its path. *)
Lemma moduleRun_fields ver m flags stF stT stR :
  moduleRun ver m flags stF stT stR ->
  version stF = ver /\ version stT = ver /\ version stR = ver
  /\ List.length (tailBytes m)
     = (if hasBit flags IDASIG_PARSE_READ_TAIL_BYTES
        then Z.to_nat (fst (readCount stT)) else 0%nat)
  /\ List.length (referencedFunctions m)
     = (if hasBit flags IDASIG_PARSE_READ_REFERENCED_FUNCTIONS
        then Z.to_nat (fst (readCount stR)) else 0%nat)
  /\ exists m0 m1,
       publicFunctions m0 = []
       /\ readModulePublicFunctions stF m0 = Some (m1, flags, stT)
       /\ publicFunctions m = publicFunctions m1.
Proof.
  intros (st & path & cl & crc & st' & m1 & m2 & V & PM & EF & RF & RT & RR).
  destruct (readOffset st) as [len st1] eqn:R1. cbn [fst snd] in *. subst stF.
  pose proof (readOffset_extends _ _ _ R1) as X1.
  pose proof (readModulePublicFunctions_progressed _ _ _ _ _ RF) as (X2 & _).
  assert (F1 : patternPath m1 = path /\ tailBytes m1 = []
               /\ referencedFunctions m1 = []).
  { unfold readModulePublicFunctions in RF.
    destruct (publicFunctionsLoop _ _ _ _) as [[r fl] s1| |] eqn:RL;
      try discriminate.
    inversion RF; subst. apply publicFunctionsLoop_fields in RL. exact RL. }
  destruct F1 as (F1p & F1t & F1r).
  assert (F2 : extends stT stR /\ publicFunctions m2 = publicFunctions m1
               /\ referencedFunctions m2 = []
               /\ List.length (tailBytes m2)
                  = (if hasBit flags IDASIG_PARSE_READ_TAIL_BYTES
                     then Z.to_nat (fst (readCount stT)) else 0%nat)).
  { destruct (hasBit flags IDASIG_PARSE_READ_TAIL_BYTES).
    - pose proof (readModuleTailBytes_extends _ _ _ _ RT).
      apply readModuleTailBytes_fields in RT.
      destruct RT as (A & B & C & D). rewrite F1t in D. simpl in D.
      split; [assumption|]. split; [congruence|]. split; [congruence|]. lia.
    - inversion RT; subst. rewrite F1t.
      split; [apply extends_refl|]. auto. }
  destruct F2 as (X3 & F2p & F2r & F2t).
  assert (F3 : publicFunctions m = publicFunctions m2
               /\ tailBytes m = tailBytes m2
               /\ List.length (referencedFunctions m)
                  = (if hasBit flags IDASIG_PARSE_READ_REFERENCED_FUNCTIONS
                     then Z.to_nat (fst (readCount stR)) else 0%nat)).
  { destruct (hasBit flags IDASIG_PARSE_READ_REFERENCED_FUNCTIONS).
    - apply readModuleReferencedFunctions_fields in RR.
      destruct RR as (A & B & C & D). rewrite F2r in D. simpl in D.
      repeat split; assumption.
    - inversion RR; subst. rewrite F2r. repeat split; reflexivity. }
  destruct F3 as (F3p & F3t & F3r).
  pose proof (ext_version _ _ X1). pose proof (ext_version _ _ X2).
  pose proof (ext_version _ _ X3).
  repeat split; try congruence.
  eexists _, m1. split; [|split; [exact RF | congruence]]. reflexivity.
Qed.

(** ** The counted loops are never cut short

    Each loop is given [stepsFor st] steps, one more than the bytes that
    remain, and each turn that goes on takes at least one byte.  This holds
    from every reader state. *)

Lemma publicFunctionsLoop_runs (steps : nat) :
  forall st off m,
    (remaining st < steps)%nat -> publicFunctionsLoop steps st off m <> Starved.
Proof.
  induction steps as [|steps IH]; intros st off m Hr; [lia|]. simpl.
  destruct (readPublicFunction st off) as [[[f flags] st1]|] eqn:R;
    [|discriminate].
  pose proof (readPublicFunction_progressed _ _ _ _ _ R) as P.
  destruct (hasBit flags IDASIG_PARSE_MORE_PUBLIC_NAMES); [|discriminate].
  apply IH. pose proof (progressed_remaining _ _ P). lia.
Qed.

(** [readModulePublicFunctions] is [None] only when the source returns
    [false]. *)
Lemma readModulePublicFunctions_runs st m :
  publicFunctionsLoop (stepsFor st) st 0 m <> Starved.
Proof. apply publicFunctionsLoop_runs. unfold stepsFor. lia. Qed.

Lemma sameCrcLoop_done (steps : nat) :
  forall st path cl crc out out' flags st',
    sameCrcLoop steps st path cl crc out = (out', Done flags st') ->
    progressed st st'.
Proof.
  induction steps as [|steps IH]; intros st path cl crc out out' flags st' H;
    simpl in H; [discriminate|].
  destruct (parseModule st path cl crc) as [[[m fl] st1]|] eqn:R; [|discriminate].
  destruct (parseModule_stages _ _ _ _ _ _ _ R) as [_ P].
  destruct (hasBit fl IDASIG_PARSE_MORE_MODULES_WITH_SAME_CRC).
  - destruct P as (X & P1 & P2).
    eapply extends_progressed; [exact X|]. eapply IH; eauto.
  - inversion H; subst. exact P.
Qed.

Lemma sameCrcLoop_runs (steps : nat) :
  forall st path cl crc out,
    (remaining st < steps)%nat ->
    snd (sameCrcLoop steps st path cl crc out) <> Starved.
Proof.
  induction steps as [|steps IH]; intros st path cl crc out Hr; [lia|]. simpl.
  destruct (parseModule st path cl crc) as [[[m fl] st1]|] eqn:R;
    [|discriminate].
  destruct (parseModule_stages _ _ _ _ _ _ _ R) as [_ P].
  destruct (hasBit fl IDASIG_PARSE_MORE_MODULES_WITH_SAME_CRC); [|discriminate].
  apply IH. pose proof (progressed_remaining _ _ P). lia.
Qed.

Lemma readShortBE_progressed (st st' : ParseState) (v : Z) :
  readShortBE st = (v, st') -> eofSound st -> stopped st' = false ->
  progressed st st'.
Proof.
  intros R S L. apply advanced_progressed.
  - eapply readShortBE_extends; eauto.
  - eapply readShortBE_advanced; eauto.
Qed.

(** The head of a CRC block: a byte and a big-endian short, both read with
    the test passed. *)
Lemma crc_head_progressed st cl st1 crc st2 :
  readByte st = (cl, st1) -> readShortBE st1 = (crc, st2) ->
  stopped st2 = false -> progressed st st2.
Proof.
  intros R1 R2 L2.
  eapply extends_progressed; [eapply readByte_extends; eauto|].
  eapply readShortBE_progressed; eauto. eapply readByte_sound; eauto.
Qed.

Lemma leafLoop_done (steps : nat) :
  forall st path out out' u st',
    leafLoop steps st path out = (out', Done u st') -> progressed st st'.
Proof.
  induction steps as [|steps IH]; intros st path out out' u st' H;
    cbn [leafLoop] in H; [discriminate|].
  destruct (readByte st) as [cl st1] eqn:R1.
  destruct (stopped st1) eqn:L1; [discriminate|].
  destruct (readShortBE st1) as [crc st2] eqn:R2.
  destruct (stopped st2) eqn:L2; [discriminate|].
  pose proof (crc_head_progressed _ _ _ _ _ R1 R2 L2) as P2.
  destruct (sameCrcLoop (stepsFor st2) st2 path cl crc out) as [out1 [fl st3| |]] eqn:R3;
    try discriminate.
  pose proof (sameCrcLoop_done _ _ _ _ _ _ _ _ _ R3) as P3.
  assert (P : progressed st st3)
    by (eapply progressed_extends; [exact P2 | exact (proj1 P3)]).
  destruct (hasBit fl IDASIG_PARSE_MORE_MODULES).
  - destruct P as (X & Q1 & Q2).
    eapply extends_progressed; [exact X|]. eapply IH; eauto.
  - inversion H; subst. exact P.
Qed.

Lemma leafLoop_runs (steps : nat) :
  forall st path out,
    (remaining st < steps)%nat -> snd (leafLoop steps st path out) <> Starved.
Proof.
  induction steps as [|steps IH]; intros st path out Hr; [lia|].
  cbn [leafLoop].
  destruct (readByte st) as [cl st1] eqn:R1.
  destruct (stopped st1) eqn:L1; [discriminate|].
  destruct (readShortBE st1) as [crc st2] eqn:R2.
  destruct (stopped st2) eqn:L2; [discriminate|].
  pose proof (crc_head_progressed _ _ _ _ _ R1 R2 L2) as P2.
  pose proof (sameCrcLoop_runs (stepsFor st2) st2 path cl crc out) as N.
  destruct (sameCrcLoop (stepsFor st2) st2 path cl crc out) as [out1 [fl st3| |]] eqn:R3;
    try discriminate.
  - pose proof (sameCrcLoop_done _ _ _ _ _ _ _ _ _ R3) as P3.
    destruct (hasBit fl IDASIG_PARSE_MORE_MODULES); [|discriminate].
    apply IH.
    pose proof (progressed_remaining _ _ P2).
    pose proof (progressed_remaining _ _ P3). lia.
  - exfalso. apply N; [unfold stepsFor; lia | reflexivity].
Qed.

Lemma parseLeaf_done st path out out' st' :
  parseLeaf st path out = (out', Some st') -> progressed st st'.
Proof.
  unfold parseLeaf. intros H.
  destruct (leafLoop (stepsFor st) st path out) as [o [u s| |]] eqn:R;
    try discriminate.
  inversion H; subst. eapply leafLoop_done; eauto.
Qed.

(** [parseLeaf] is [None] only when the source returns [false]. *)
Lemma parseLeaf_runs st path out :
  snd (leafLoop (stepsFor st) st path out) <> Starved.
Proof. apply leafLoop_runs. unfold stepsFor. lia. Qed.

(** *** Nodes *)

Lemma nodeBytesLoop_shape (n : nat) :
  forall bit mask st pb vm st',
    nodeBytesLoop n bit mask st = Some (pb, vm, st') ->
    extends st st' /\ List.length pb = n /\ List.length vm = n.
Proof.
  induction n as [|n IH]; intros bit mask st pb vm st' H; simpl in H.
  - inversion H; subst. auto using extends_refl.
  - destruct (hasBit mask bit).
    + destruct (nodeBytesLoop n (Z.shiftr bit 1) mask st) as [[[pb1 vm1] st1]|] eqn:R;
        [|discriminate].
      inversion H; subst. apply IH in R. destruct R as (X & A & B).
      simpl. auto.
    + destruct (stopped st); [discriminate|].
      destruct (readByte st) as [b st1] eqn:R1.
      destruct (nodeBytesLoop n (Z.shiftr bit 1) mask st1) as [[[pb1 vm1] st2]|] eqn:R;
        [|discriminate].
      inversion H; subst. apply IH in R. destruct R as (X & A & B).
      split; [|simpl; auto].
      eapply extends_trans; [eapply readByte_extends; eauto | exact X].
Qed.

Lemma readNodeBytes_shape st len mask node st' :
  readNodeBytes st len mask = Some (node, st') ->
  extends st st' /\ nodeShaped node.
Proof.
  unfold readNodeBytes. intros H.
  destruct ((63 <? len) || (len <=? 0)) eqn:E; [discriminate|].
  apply orb_false_elim in E. destruct E as [E1 E2].
  apply Z.ltb_ge in E1. apply Z.leb_gt in E2.
  destruct (nodeBytesLoop _ _ _ _) as [[[pb vm] st1]|] eqn:R; [|discriminate].
  inversion H; subst. apply nodeBytesLoop_shape in R. destruct R as (X & A & B).
  split; [exact X|]. unfold nodeShaped, nodeLen. simpl. lia.
Qed.

Lemma readNodeVariantMask_progressed st len mask st' :
  readNodeVariantMask st len = Some (mask, st') -> eofSound st ->
  progressed st st'.
Proof.
  unfold readNodeVariantMask. intros H S.
  assert (C : forall (r : Z * ParseState) v s,
             (if negb (eof (snd r)) && negb (err (snd r)) then Some r else None)
             = Some (v, s) -> r = (v, s) /\ stopped s = false).
  { intros [v0 s0] v s E. simpl in E.
    destruct (eof s0) eqn:A, (err s0) eqn:B; simpl in E; inversion E; subst.
    split; [reflexivity|]. unfold stopped. rewrite A, B. reflexivity. }
  destruct (len <? 16).
  { apply C in H. destruct H as [R L].
    apply advanced_progressed;
      [eapply readMax2Bytes_extends | eapply readMax2Bytes_advanced]; eauto. }
  destruct (len <=? 32).
  { apply C in H. destruct H as [R L].
    eapply readMultipleBytes_progressed; eauto. }
  destruct (len <=? 64); [|discriminate].
  destruct (readMultipleBytes st) as [hi st1] eqn:R1.
  destruct (readMultipleBytes st1) as [lo st2] eqn:R2.
  apply C in H. destruct H as [R L]. inversion R; subst.
  pose proof (readMultipleBytes_extends _ _ _ R1) as X1.
  pose proof (readMultipleBytes_extends _ _ _ R2) as X2.
  eapply progressed_extends; [|exact X2].
  eapply readMultipleBytes_progressed; eauto.
  apply (live_back _ _ X2 (ext_sound _ _ X1 S) L).
Qed.

(** A node that is decoded has taken at least the byte of its mask. *)
Lemma readNode_progressed st node st' :
  readNode st = Some (node, st') -> progressed st st' /\ nodeShaped node.
Proof.
  unfold readNode, readNodeLength. intros H.
  destruct (stopped st); [discriminate|].
  destruct (readByte st) as [len st1] eqn:R1.
  destruct (readNodeVariantMask st1 len) as [[mask st2]|] eqn:R2; [|discriminate].
  pose proof (readByte_extends _ _ _ R1) as X1.
  pose proof (readNodeVariantMask_progressed _ _ _ _ R2 (readByte_sound _ _ _ R1))
    as P2.
  apply readNodeBytes_shape in H. destruct H as [X3 N].
  split; [|exact N].
  eapply extends_progressed; [exact X1|].
  eapply progressed_extends; eauto.
Qed.

(** A tree-node count that is not 0 has been read from the body. *)
Lemma readMultipleBytes_nonzero st v st' :
  readMultipleBytes st = (v, st') -> v <> 0 -> progressed st st'.
Proof.
  intros E Hv. pose proof (readMultipleBytes_extends _ _ _ E) as X.
  split; [exact X|].
  unfold readMultipleBytes in E.
  destruct (readByte_cases st) as [[R H]|[R (He & Hr & Hp)]]; rewrite R in E.
  - exfalso. apply Hv. simpl in E. inversion E. reflexivity.
  - assert (X1 : extends (setPos st (pos st + 1)) st').
    { destruct (negb (Z.land (at_ (body st) (pos st)) 128 =? 128));
        [inversion E; subst; apply extends_refl|].
      destruct (negb (Z.land (at_ (body st) (pos st)) 192 =? 192)).
      { destruct (readByte (setPos st (pos st + 1))) as [b st2] eqn:R2.
        inversion E; subst. eapply readByte_extends; eauto. }
      destruct (negb (Z.land (at_ (body st) (pos st)) 224 =? 224)).
      { destruct (readByte (setPos st (pos st + 1))) as [b st2] eqn:R2.
        destruct (readShortBE st2) as [s st3] eqn:R3. inversion E; subst.
        eapply extends_trans;
          [eapply readByte_extends; eauto | eapply readShortBE_extends; eauto]. }
      eapply readWordBE_extends; eauto. }
    pose proof (ext_pos _ _ X1) as P1. pose proof (ext_bound _ _ X1) as B1.
    unfold size in *. simpl in P1, B1. lia.
Qed.

(** ** The tree walk *)

Lemma tree_done (steps : nat) :
  (forall st path out e u st',
     t_end (parseTreeSteps steps st path out e) = Done u st' -> extends st st')
  /\ (forall i n st path out e u st',
        t_end (treeChildren steps i n st path out e) = Done u st' ->
        extends st st').
Proof.
  induction steps as [|steps [IHt IHc]]; split.
  - intros st path out e u st' H. discriminate.
  - intros i n st path out e u st' H. discriminate.
  - intros st path out e u st' H. cbn [parseTreeSteps] in H.
    destruct (readMultipleBytes st) as [treeNodes st1] eqn:R1.
    destruct (stopped st1) eqn:L1; [discriminate|].
    pose proof (readMultipleBytes_extends _ _ _ R1) as X1.
    eapply extends_trans; [exact X1|].
    destruct (treeNodes =? 0).
    + destruct (parseLeaf st1 path out) as [o [s|]] eqn:R2; [|discriminate].
      simpl in H. inversion H; subst.
      exact (proj1 (parseLeaf_done _ _ _ _ _ R2)).
    + eapply IHc; eauto.
  - intros i n st path out e u st' H. cbn [treeChildren] in H.
    destruct (i <? n).
    + destruct (readNode st) as [[node st1]|] eqn:R1; [|discriminate].
      destruct (readNode_progressed _ _ _ R1) as [P1 _].
      destruct (parseTreeSteps steps st1 (path ++ [node]) out e)
        as [o e1 [u1 st2| |]] eqn:R2; try discriminate.
      assert (X2 : extends st1 st2).
      { apply (IHt st1 (path ++ [node]) out e u1 st2). rewrite R2. reflexivity. }
      eapply extends_trans; [exact (proj1 P1)|].
      eapply extends_trans; [exact X2|]. eapply IHc; eauto.
    + simpl in H. inversion H; subst. apply extends_refl.
Qed.

Lemma tree_runs (steps : nat) :
  (forall st path out e,
     (remaining st < steps)%nat ->
     t_end (parseTreeSteps steps st path out e) <> Starved)
  /\ (forall i n st path out e,
        (remaining st < steps)%nat ->
        t_end (treeChildren steps i n st path out e) <> Starved).
Proof.
  induction steps as [|steps [IHt IHc]]; split; try (intros; lia).
  - intros st path out e Hr. cbn [parseTreeSteps].
    destruct (readMultipleBytes st) as [treeNodes st1] eqn:R1.
    destruct (stopped st1) eqn:L1; [discriminate|].
    destruct (Z.eqb_spec treeNodes 0) as [E0|E0].
    + destruct (parseLeaf st1 path out) as [o [s|]]; discriminate.
    + pose proof (readMultipleBytes_nonzero _ _ _ R1 E0) as P1.
      pose proof (progressed_remaining _ _ P1).
      apply IHc. lia.
  - intros i n st path out e Hr. cbn [treeChildren].
    destruct (i <? n); [|discriminate].
    destruct (readNode st) as [[node st1]|] eqn:R1; [|discriminate].
    destruct (readNode_progressed _ _ _ R1) as [P1 _].
    pose proof (progressed_remaining _ _ P1).
    assert (Hr1 : (remaining st1 < steps)%nat) by lia.
    pose proof (IHt st1 (path ++ [node]) out e Hr1) as N.
    destruct (parseTreeSteps steps st1 (path ++ [node]) out e)
      as [o e1 [u1 st2| |]] eqn:R2; try discriminate.
    + assert (X2 : extends st1 st2).
      { apply (proj1 (tree_done steps) st1 (path ++ [node]) out e u1 st2).
        rewrite R2. reflexivity. }
      pose proof (extends_remaining _ _ X2).
      apply IHc. lia.
    + exfalso. apply N. reflexivity.
Qed.

(** [parseTree] never ends for want of steps: when it does not return
    [true] it has returned [false]. *)
Lemma parseTree_runs st path out e :
  t_end (parseTree st path out e) <> Starved.
Proof.
  unfold parseTree. apply (proj1 (tree_runs (stepsFor st))).
  unfold stepsFor. lia.
Qed.

(** ** Where the emitted modules come from *)

Lemma parseModule_path st path cl crc m flags st' :
  parseModule st path cl crc = Some (m, flags, st') -> patternPath m = path.
Proof.
  unfold parseModule. intros H.
  destruct (readOffset st) as [len st1].
  destruct (stopped st1); [discriminate|].
  destruct (readModulePublicFunctions st1 _) as [[[m1 fl] st2]|] eqn:R2;
    [|discriminate].
  assert (F1 : patternPath m1 = path).
  { unfold readModulePublicFunctions in R2.
    destruct (publicFunctionsLoop _ _ _ _) as [[r f] s1| |] eqn:RL;
      try discriminate.
    inversion R2; subst. apply publicFunctionsLoop_fields in RL.
    destruct RL as (A & _). exact A. }
  destruct (if hasBit fl IDASIG_PARSE_READ_TAIL_BYTES
            then readModuleTailBytes st2 m1 else Some (m1, st2))
    as [[m2 st3]|] eqn:R3; [|discriminate].
  assert (F2 : patternPath m2 = path).
  { destruct (hasBit fl IDASIG_PARSE_READ_TAIL_BYTES).
    - apply readModuleTailBytes_fields in R3. destruct R3 as (A & _). congruence.
    - inversion R3; congruence. }
  destruct (if hasBit fl IDASIG_PARSE_READ_REFERENCED_FUNCTIONS
            then readModuleReferencedFunctions st3 m2 else Some (m2, st3))
    as [[m3 st4]|] eqn:R4; [|discriminate].
  inversion H as [[Hm Hf Hs]]. rewrite <- Hm. clear H Hm Hf Hs.
  destruct (hasBit fl IDASIG_PARSE_READ_REFERENCED_FUNCTIONS).
  - apply readModuleReferencedFunctions_fields in R4. destruct R4 as (A & _).
    congruence.
  - inversion R4; congruence.
Qed.

Section Emitted.

(** A property [PM] that every run of the module decoder at version [ver]
    on a path of well-shaped nodes gives to its module: every module the
    leaf and tree decoders append has it. *)
Variable ver : Z.
Variable PM : FlirtModule -> Prop.
Hypothesis PM_intro :
  forall st path cl crc m flags st',
    version st = ver -> Forall nodeShaped path ->
    parseModule st path cl crc = Some (m, flags, st') -> PM m.

Lemma sameCrcLoop_emitted (steps : nat) :
  forall st path cl crc out,
    version st = ver -> Forall nodeShaped path ->
    Forall PM out -> Forall PM (fst (sameCrcLoop steps st path cl crc out)).
Proof.
  induction steps as [|steps IH]; intros st path cl crc out V N F;
    cbn [sameCrcLoop]; [exact F|].
  destruct (parseModule st path cl crc) as [[[m fl] st1]|] eqn:R; [|exact F].
  assert (F' : Forall PM (out ++ [m])).
  { apply Forall_app. split; [exact F|]. constructor; [|constructor].
    eapply PM_intro; eauto. }
  destruct (parseModule_stages _ _ _ _ _ _ _ R) as [_ (X & _)].
  destruct (hasBit fl IDASIG_PARSE_MORE_MODULES_WITH_SAME_CRC); [|exact F'].
  apply IH; auto. rewrite (ext_version _ _ X). exact V.
Qed.

Lemma leafLoop_emitted (steps : nat) :
  forall st path out,
    version st = ver -> Forall nodeShaped path ->
    Forall PM out -> Forall PM (fst (leafLoop steps st path out)).
Proof.
  induction steps as [|steps IH]; intros st path out V N F;
    cbn [leafLoop]; [exact F|].
  destruct (readByte st) as [cl st1] eqn:R1.
  destruct (stopped st1) eqn:L1; [exact F|].
  destruct (readShortBE st1) as [crc st2] eqn:R2.
  destruct (stopped st2) eqn:L2; [exact F|].
  pose proof (readByte_extends _ _ _ R1) as X1.
  pose proof (readShortBE_extends _ _ _ R2) as X2.
  assert (V2 : version st2 = ver)
    by (rewrite (ext_version _ _ X2), (ext_version _ _ X1); exact V).
  pose proof (sameCrcLoop_emitted (stepsFor st2) st2 path cl crc out V2 N F)
    as F1.
  destruct (sameCrcLoop (stepsFor st2) st2 path cl crc out)
    as [out1 [fl st3| |]] eqn:R3; try exact F1.
  pose proof (sameCrcLoop_done _ _ _ _ _ _ _ _ _ R3) as (X3 & _).
  destruct (hasBit fl IDASIG_PARSE_MORE_MODULES); [|exact F1].
  apply IH; auto. rewrite (ext_version _ _ X3). exact V2.
Qed.

Lemma parseLeaf_emitted st path out :
  version st = ver -> Forall nodeShaped path ->
  Forall PM out -> Forall PM (fst (parseLeaf st path out)).
Proof.
  intros V N F. unfold parseLeaf.
  pose proof (leafLoop_emitted (stepsFor st) st path out V N F) as F1.
  destruct (leafLoop (stepsFor st) st path out) as [o [u s| |]]; exact F1.
Qed.

Lemma tree_emitted (steps : nat) :
  (forall st path out e,
     version st = ver -> Forall nodeShaped path -> Forall PM out ->
     Forall PM (t_modules (parseTreeSteps steps st path out e)))
  /\ (forall i n st path out e,
        version st = ver -> Forall nodeShaped path -> Forall PM out ->
        Forall PM (t_modules (treeChildren steps i n st path out e))).
Proof.
  induction steps as [|steps [IHt IHc]]; split;
    try (intros; assumption).
  - intros st path out e V N F. cbn [parseTreeSteps].
    destruct (readMultipleBytes st) as [treeNodes st1] eqn:R1.
    destruct (stopped st1) eqn:L1; [exact F|].
    pose proof (readMultipleBytes_extends _ _ _ R1) as X1.
    assert (V1 : version st1 = ver) by (rewrite (ext_version _ _ X1); exact V).
    destruct (treeNodes =? 0).
    + pose proof (parseLeaf_emitted st1 path out V1 N F) as F1.
      destruct (parseLeaf st1 path out) as [o [s|]]; exact F1.
    + apply IHc; assumption.
  - intros i n st path out e V N F. cbn [treeChildren].
    destruct (i <? n); [|exact F].
    destruct (readNode st) as [[node st1]|] eqn:R1; [|exact F].
    destruct (readNode_progressed _ _ _ R1) as [(X1 & _) N1].
    assert (V1 : version st1 = ver) by (rewrite (ext_version _ _ X1); exact V).
    assert (N' : Forall nodeShaped (path ++ [node])).
    { apply Forall_app. split; [exact N|]. constructor; [exact N1|constructor]. }
    pose proof (IHt st1 (path ++ [node]) out e V1 N' F) as F1.
    destruct (parseTreeSteps steps st1 (path ++ [node]) out e)
      as [o e1 [u1 st2| |]] eqn:R2; try exact F1.
    assert (X2 : extends st1 st2).
    { apply (proj1 (tree_done steps) st1 (path ++ [node]) out e u1 st2).
      rewrite R2. reflexivity. }
    apply IHc; auto. rewrite (ext_version _ _ X2). exact V1.
Qed.

Lemma parseTree_emitted st e :
  version st = ver -> Forall PM (t_modules (parseTree st [] [] e)).
Proof.
  intros V. unfold parseTree.
  apply (proj1 (tree_emitted (stepsFor st))); auto.
Qed.

End Emitted.

(** ** The header decoder and the decompression gate *)

Lemma eofSound_setPos (st : ParseState) (k : Z) :
  eofSound st -> 0 <= k -> eofSound (setPos st (pos st + k)).
Proof. unfold eofSound, size. simpl. intros H Hk He. specialize (H He). lia. Qed.

Lemma parseHeaderExt_spec (st : ParseState) (h : FlirtHeader) :
  eofSound st ->
  match parseHeaderExt st h with
  | inl (msg, _, _) => msg <> ""%string
  | inr (st', h') =>
      eofSound st' /\ version st' = version st /\ body st' = body st
      /\ libraryNameLen h' = libraryNameLen h
  end.
Proof.
  intros S. unfold parseHeaderExt.
  destruct (6 <=? version st); [|auto].
  destruct (size st <? pos st + 4); [discriminate|].
  set (st1 := setPos st (pos st + 4)).
  assert (S1 : eofSound st1) by (apply eofSound_setPos; [exact S | lia]).
  change (version st1) with (version st).
  destruct (8 <=? version st); [|auto].
  destruct (size st1 <? pos st1 + 2); [discriminate|].
  set (st2 := setPos st1 (pos st1 + 2)).
  assert (S2 : eofSound st2) by (apply eofSound_setPos; [exact S1 | lia]).
  change (version st2) with (version st).
  destruct (10 <=? version st); [|auto].
  destruct (size st2 <? pos st2 + 2); [discriminate|].
  split; [|auto]. apply eofSound_setPos; [exact S2 | lia].
Qed.

(** What [parseHeader] leaves: the modules list and [success] are not
    touched; a [false] return comes with a message; a [true] return leaves
    the message as it was, a sound reader, and the version byte of the body
    (between 5 and 10) as the version. *)
Lemma parseHeader_spec (st : ParseState) (result : FlirtResult) :
  modules (snd (parseHeader st result)) = modules result
  /\ success (snd (parseHeader st result)) = success result
  /\ (fst (fst (parseHeader st result)) = false ->
      errorMessage (snd (parseHeader st result)) <> ""%string)
  /\ (fst (fst (parseHeader st result)) = true ->
      errorMessage (snd (parseHeader st result)) = errorMessage result
      /\ eofSound (snd (fst (parseHeader st result)))
      /\ version (snd (fst (parseHeader st result))) = at_ (body st) 6).
Proof.
  unfold parseHeader.
  destruct (size st <? 7); [simpl; repeat split; discriminate|].
  destruct (negb (isMagic (body st))); [simpl; repeat split; discriminate|].
  set (st0 := setPos (setVersion st (at_ (body st) 6)) 7).
  destruct ((version st0 <? 5) || (10 <? version st0));
    [simpl; repeat split; discriminate|].
  destruct (size st0 <? pos st0 + 30); [simpl; repeat split; discriminate|].
  destruct (readByte st0) as [arch_ st1] eqn:R1.
  pose proof (readByte_sound _ _ _ R1) as S1.
  pose proof (readByte_extends _ _ _ R1) as X1.
  set (st2 := setPos (setPos (setPos (setPos (setPos (setPos (setPos st1
                (pos st1 + 4)) _) _) _) _) _) _).
  destruct (readByte st2) as [len_ st3] eqn:R2.
  pose proof (readByte_sound _ _ _ R2) as S3.
  pose proof (readByte_extends _ _ _ R2) as X3.
  set (st4 := setPos st3 (pos st3 + 2)).
  assert (S4 : eofSound st4) by (apply eofSound_setPos; [exact S3 | lia]).
  assert (V4 : version st4 = at_ (body st) 6).
  { change (version st4) with (version st3). rewrite (ext_version _ _ X3).
    change (version st2) with (version st1). rewrite (ext_version _ _ X1).
    reflexivity. }
  match goal with
  | |- context [parseHeaderExt st4 ?h] =>
      pose proof (parseHeaderExt_spec st4 h S4) as E;
      destruct (parseHeaderExt st4 h) as [[[msg st5] h1]|[st5 h1]]
  end.
  - simpl. repeat split; try discriminate. intros _. exact E.
  - destruct E as (S5 & V5 & B5 & N5). simpl in N5.
    pose proof (readByte_value _ _ _ R2) as Hlen.
    destruct (size st5 <? pos st5 + libraryNameLen h1).
    + simpl. repeat split; discriminate.
    + simpl. split; [reflexivity|]. split; [reflexivity|].
      split; [discriminate|]. intros _. split; [reflexivity|].
      split; [|congruence].
      apply eofSound_setPos; [exact S5 | lia].
Qed.

(** ** The result of [parse] *)

(** The only message the tree walker writes. *)
Lemma tree_error (steps : nat) :
  (forall st path out e,
     t_error (parseTreeSteps steps st path out e) = e
     \/ t_error (parseTreeSteps steps st path out e)
        = "Unexpected EOF in tree"%string)
  /\ (forall i n st path out e,
        t_error (treeChildren steps i n st path out e) = e
        \/ t_error (treeChildren steps i n st path out e)
           = "Unexpected EOF in tree"%string).
Proof.
  induction steps as [|steps [IHt IHc]]; split; try (intros; left; reflexivity).
  - intros st path out e. cbn [parseTreeSteps].
    destruct (readMultipleBytes st) as [treeNodes st1].
    destruct (stopped st1); [right; reflexivity|].
    destruct (treeNodes =? 0).
    + destruct (parseLeaf st1 path out) as [o [s|]]; left; reflexivity.
    + apply IHc.
  - intros i n st path out e. cbn [treeChildren].
    destruct (i <? n); [|left; reflexivity].
    destruct (readNode st) as [[node st1]|]; [|left; reflexivity].
    pose proof (IHt st1 (path ++ [node]) out e) as E1.
    destruct (parseTreeSteps steps st1 (path ++ [node]) out e)
      as [o e1 [u1 st2| |]] eqn:R2; try exact E1.
    simpl in E1. destruct (IHc (i + 1) n st2 path o e1) as [E2|E2].
    + rewrite E2. exact E1.
    + right. exact E2.
Qed.

(** The three ways [parse] ends.  It fails before the tree walk, with a
    message and no module; or it walks the tree, at the version of the
    input, and the walk returns [true]: the result has [success] set and the
    modules of the walk; or the walk returns [false]: the result has
    [success] clear, a message, and the modules the walk had appended.  The
    walk never ends for want of steps. *)
Lemma parse_result (inflate : Inflater) (data : list byte) :
  (success (parse inflate data) = false
   /\ modules (parse inflate data) = []
   /\ errorMessage (parse inflate data) <> ""%string)
  \/ (exists st v,
        versionByte data = Some v /\ version st = v
        /\ modules (parse inflate data) = t_modules (parseTree st [] [] "")
        /\ ((exists u st', t_end (parseTree st [] [] "") = Done u st')
            /\ success (parse inflate data) = true
            /\ errorMessage (parse inflate data)
               = t_error (parseTree st [] [] "")
            \/ t_end (parseTree st [] [] "") = Failed
               /\ success (parse inflate data) = false
               /\ errorMessage (parse inflate data)
                  = (if isEmpty (t_error (parseTree st [] [] ""))
                     then "Parse error in signature tree"%string
                     else t_error (parseTree st [] [] "")))).
Proof.
  unfold parse.
  destruct (isFlirt data) as [flirt outVersion] eqn:EF.
  destruct flirt; [|left; simpl; repeat split; discriminate].
  destruct (isFlirt_true data) as (M & v & V & RV & OV);
    [rewrite EF; reflexivity|].
  rewrite EF in OV. simpl in OV. subst outVersion. cbn [negb].
  set (st0 := setVersion (mkState data 0 0 false false) v).
  destruct (parseHeader_spec st0 emptyResult) as (HM & HS & HF & HT).
  destruct (parseHeader st0 emptyResult) as [[ok st1] r1] eqn:EH.
  cbn [fst snd] in *.
  destruct ok.
  2:{ left. split; [exact HS|]. split; [exact HM|]. apply HF. reflexivity. }
  destruct (HT eq_refl) as (HE & S1 & V1). clear HF HT.
  assert (V1' : version st1 = v).
  { rewrite V1. apply versionByte_some in V. destruct V as [_ V].
    symmetry. exact V. }
  unfold decompressionGate.
  assert (T : forall st2, version st2 = v ->
    exists st v0,
      versionByte data = Some v0 /\ version st = v0
      /\ modules (afterTree r1 (parseTree st2 [] (modules r1) (errorMessage r1)))
         = t_modules (parseTree st [] [] "")
      /\ ((exists u st', t_end (parseTree st [] [] "") = Done u st')
          /\ success
               (afterTree r1 (parseTree st2 [] (modules r1) (errorMessage r1)))
             = true
          /\ errorMessage
               (afterTree r1 (parseTree st2 [] (modules r1) (errorMessage r1)))
             = t_error (parseTree st [] [] "")
          \/ t_end (parseTree st [] [] "") = Failed
             /\ success
                  (afterTree r1 (parseTree st2 [] (modules r1) (errorMessage r1)))
                = false
             /\ errorMessage
                  (afterTree r1 (parseTree st2 [] (modules r1) (errorMessage r1)))
                = (if isEmpty (t_error (parseTree st [] [] ""))
                   then "Parse error in signature tree"%string
                   else t_error (parseTree st [] [] "")))).
  { intros st2 V2. exists st2, v.
    rewrite HM, HE. cbn [modules errorMessage emptyResult].
    split; [exact V|]. split; [exact V2|].
    unfold afterTree. rewrite HS. cbn [success emptyResult].
    pose proof (parseTree_runs st2 [] [] ""%string) as N.
    destruct (t_end (parseTree st2 [] [] "")) as [u s| |]; simpl.
    - split; [reflexivity|]. left. eauto.
    - split; [reflexivity|]. right. auto.
    - exfalso. apply N. reflexivity. }
  destruct (hasBit (features (header r1)) IDASIG_FEATURE_COMPRESSED).
  - destruct inflate as [decompressZlib|].
    + destruct (decompressZlib _ _) as [|b dec] eqn:ED.
      * left. simpl. rewrite HS, HM. repeat split; discriminate.
      * right. apply T. exact V1'.
    + left. simpl. rewrite HS, HM. repeat split; discriminate.
  - right. apply T. assumption.
Qed.

(** ** Every emitted module comes from a run of the module decoder *)

Lemma parse_modules_run (inflate : Inflater) (data : list byte) :
  exists v,
    (modules (parse inflate data) <> [] -> versionByte data = Some v)
    /\ Forall
         (fun m =>
            Forall nodeShaped (patternPath m)
            /\ exists flags stF stT stR, moduleRun v m flags stF stT stR)
         (modules (parse inflate data)).
Proof.
  destruct (parse_result inflate data) as [(_ & M & _)|(st & v & V & Vs & M & _)].
  - exists 0. rewrite M. split; [congruence | constructor].
  - exists v. split; [intros _; exact V|]. rewrite M.
    apply (parseTree_emitted v); try assumption.
    intros st0 path cl crc m flags st' V0 N R. split.
    + rewrite (parseModule_path _ _ _ _ _ _ _ R). exact N.
    + destruct (parseModule_stages _ _ _ _ _ _ _ R) as [(stT & stR & MR) _].
      rewrite V0 in MR. eauto.
Qed.

(** ** Flag fidelity *)

(** The claim that a set bit 0x02 means a non-empty [tailBytes] fails from
    version 8 on: in this version-8 input the module's flags byte is 0x02
    and the count byte after it is 0; the parse succeeds and the module has
    no tail byte.  The module decoder is run again at the place of the
    module to show its flags byte. *)
Lemma flag_fidelity_counterexample :
  let data := sigFile 8 [0; 4; 0x12; 0x34; 5; 8; 0x66; 0x6f; 0x6f; 2; 0] in
  exists m st',
    success (parse None data) = true
    /\ modules (parse None data) = [m]
    /\ parseModule (mkState data 47 8 false false) [] 4 0x1234 = Some (m, 2, st')
    /\ hasBit 2 IDASIG_PARSE_READ_TAIL_BYTES = true
    /\ tailBytes m = [].
Proof.
  vm_compute. do 2 eexists. repeat split.
Qed.

(** ** Cumulative function offsets *)

Lemma u32_range (z : Z) : 0 <= u32 z < 2 ^ 32.
Proof. unfold u32. apply Z.mod_pos_bound. reflexivity. Qed.

Lemma u16_range (z : Z) : 0 <= u16 z < 2 ^ 32.
Proof.
  unfold u16. pose proof (Z.mod_pos_bound z (2 ^ 16) eq_refl).
  change (2 ^ 16) with 65536 in *. change (2 ^ 32) with 4294967296. lia.
Qed.

Lemma byte_in_u32 (st st' : ParseState) (v : Z) :
  readByte st = (v, st') -> 0 <= v < 2 ^ 32.
Proof.
  intros R. pose proof (readByte_value _ _ _ R).
  change (2 ^ 32) with 4294967296. lia.
Qed.

Lemma readWordBE_range (st : ParseState) : 0 <= fst (readWordBE st) < 2 ^ 32.
Proof.
  destruct (readWordBE_unfold st) as (r & st1 & s & st2 & _ & _ & R).
  rewrite R. apply u32_range.
Qed.

Lemma readMultipleBytes_range (st : ParseState) :
  0 <= fst (readMultipleBytes st) < 2 ^ 32.
Proof.
  unfold readMultipleBytes.
  destruct (readByte st) as [r st1] eqn:R1.
  destruct (negb (Z.land r 128 =? 128)); [exact (byte_in_u32 _ _ _ R1)|].
  destruct (negb (Z.land r 192 =? 192)).
  { destruct (readByte st1) as [b st2]. apply u32_range. }
  destruct (negb (Z.land r 224 =? 224)).
  { destruct (readByte st1) as [b st2]. destruct (readShortBE st2) as [s st3].
    apply u32_range. }
  apply readWordBE_range.
Qed.

Lemma readMax2Bytes_range (st : ParseState) :
  0 <= fst (readMax2Bytes st) < 2 ^ 32.
Proof.
  unfold readMax2Bytes.
  destruct (readByte st) as [r st1] eqn:R1.
  destruct (hasBit r 128); [|exact (byte_in_u32 _ _ _ R1)].
  destruct (readByte st1) as [b st2]. apply u16_range.
Qed.

(** A delta is a 32-bit unsigned value. *)
Lemma readOffset_range (st : ParseState) : 0 <= fst (readOffset st) < 2 ^ 32.
Proof.
  unfold readOffset. destruct (9 <=? version st);
    [apply readMultipleBytes_range | apply readMax2Bytes_range].
Qed.

(** The offset given to a function is the running offset plus the delta of
    its record, in 32 bits; the rest of the record does not depend on the
    running offset. *)
Lemma readPublicFunction_offset st off f flags st' :
  readPublicFunction st off = Some (f, flags, st') ->
  offset f = u32 (off + fst (readOffset st))
  /\ exists f0, readPublicFunction st 0 = Some (f0, flags, st').
Proof.
  unfold readPublicFunction. intros H.
  destruct (readOffset st) as [delta st1].
  destruct (stopped st1); [discriminate|].
  destruct (readByte st1) as [c st2].
  destruct (stopped st2); [discriminate|].
  destruct (readAttributes c st2) as [[[[loc col] c1] st3]|]; [|discriminate].
  destruct (nameLoop (Z.to_nat FLIRT_NAME_MAX) c1 [] st3) as [[[nb fl] st4]|];
    [|discriminate].
  inversion H; subst. simpl. split; [reflexivity|]. eexists. reflexivity.
Qed.

Lemma runningSums_u32 (ds : list Z) :
  forall a b, u32 a = u32 b ->
  map u32 (runningSums a ds) = map u32 (runningSums b ds).
Proof.
  induction ds as [|d ds IH]; intros a b H; [reflexivity|].
  assert (E : u32 (a + d) = u32 (b + d)).
  { unfold u32 in *. rewrite <- (Z.add_mod_idemp_l a), H, Z.add_mod_idemp_l;
      [reflexivity | discriminate | discriminate]. }
  simpl. rewrite E. f_equal. apply IH. exact E.
Qed.

Lemma u32_idem (z : Z) : u32 (u32 z) = u32 z.
Proof. unfold u32. apply Z.mod_mod. discriminate. Qed.

(** The loop of [readModulePublicFunctions] and the deltas of the input,
    turn by turn. *)
Lemma publicFunctionsLoop_offsets (steps : nat) :
  forall st off m m' flags st',
    publicFunctionsLoop steps st off m = Done (m', flags) st' ->
    exists fs,
      publicFunctions m' = publicFunctions m ++ fs
      /\ map offset fs = map u32 (runningSums off (deltasLoop steps st))
      /\ fs <> [].
Proof.
  induction steps as [|steps IH]; intros st off m m' flags st' H;
    cbn [publicFunctionsLoop deltasLoop] in *; [discriminate|].
  destruct (readPublicFunction st off) as [[[f fl] st1]|] eqn:R; [|discriminate].
  destruct (readPublicFunction_offset _ _ _ _ _ R) as (O & f0 & R0).
  rewrite R0.
  change (fst (if 9 <=? version st
               then readMultipleBytes st else readMax2Bytes st))
    with (fst (readOffset st)).
  destruct (hasBit fl IDASIG_PARSE_MORE_PUBLIC_NAMES).
  - destruct (IH _ _ _ _ _ _ H) as (fs & A & B & _).
    exists (f :: fs). cbn [publicFunctions addPublicFunction] in A.
    rewrite A, <- app_assoc. split; [reflexivity|]. split; [|discriminate].
    cbn [map runningSums]. rewrite B, O. f_equal.
    apply runningSums_u32. apply u32_idem.
  - inversion H; subst. exists [f]. split; [reflexivity|].
    split; [|discriminate]. simpl. rewrite O. reflexivity.
Qed.

Lemma deltasLoop_range (steps : nat) :
  forall st, Forall (fun d => 0 <= d < 2 ^ 32) (deltasLoop steps st).
Proof.
  induction steps as [|steps IH]; intros st; cbn [deltasLoop]; [constructor|].
  destruct (readPublicFunction st 0) as [[[f fl] st1]|]; [|constructor].
  constructor; [exact (readOffset_range st)|].
  destruct (hasBit fl IDASIG_PARSE_MORE_PUBLIC_NAMES); [apply IH | constructor].
Qed.

Lemma runningSums_nondecreasing (ds : list Z) :
  forall acc, Forall (fun d => 0 <= d < 2 ^ 32) ds ->
  nondecreasing (runningSums acc ds).
Proof.
  induction ds as [|d ds IH]; intros acc F; [exact I|].
  inversion F as [|? ? Hd F']; subst. cbn [runningSums nondecreasing].
  split; [|apply IH; exact F'].
  destruct ds as [|d2 ds]; [exact I|].
  inversion F' as [|? ? Hd2 ?]; subst. simpl. lia.
Qed.

(** While the sum of the deltas stays below 2^32 nothing wraps. *)
Lemma runningSums_exact (ds : list Z) :
  forall acc, 0 <= acc -> Forall (fun d => 0 <= d < 2 ^ 32) ds ->
  acc + fold_right Z.add 0 ds < 2 ^ 32 ->
  map u32 (runningSums acc ds) = runningSums acc ds.
Proof.
  induction ds as [|d ds IH]; intros acc Ha F Hs; [reflexivity|].
  inversion F as [|? ? Hd F']; subst. cbn [runningSums map fold_right] in *.
  assert (Hnn : 0 <= fold_right Z.add 0 ds).
  { clear -F'. induction F' as [|x l Hx _ IHl]; simpl; lia. }
  rewrite IH by (assumption || lia). f_equal.
  unfold u32. apply Z.mod_small. lia.
Qed.

Lemma runningSums_length (ds : list Z) :
  forall acc, List.length (runningSums acc ds) = List.length ds.
Proof. induction ds as [|d ds IH]; intros acc; simpl; [reflexivity | now rewrite IH]. Qed.

(** The claim that the offsets never decrease and equal the running sum of
    the deltas fails: in this version-9 input the two deltas of the module
    are 0xffffffff and 2, the parse succeeds, and the offsets are
    0xffffffff and 1. *)
Lemma cumulative_offsets_counterexample :
  let data :=
    sigFile 9 [0; 4; 0x12; 0x34; 5; 0xff; 0xff; 0xff; 0xff; 0xff; 0x61; 1;
               2; 0x62; 0] in
  exists m,
    success (parse None data) = true
    /\ modules (parse None data) = [m]
    /\ publicDeltas (mkState data 48 9 false false) = [0xffffffff; 2]
    /\ map offset (publicFunctions m) = [0xffffffff; 1]
    /\ ~ nondecreasing (map offset (publicFunctions m))
    /\ map offset (publicFunctions m) <> runningSums 0 [0xffffffff; 2].
Proof.
  intros data. eexists.
  split; [vm_compute; reflexivity|].
  split; [vm_compute; reflexivity|].
  split; [vm_compute; reflexivity|].
  split; [vm_compute; reflexivity|].
  split.
  - intros [H _]. vm_compute in H. apply H. reflexivity.
  - vm_compute. discriminate.
Qed.

(** ** Failure *)

(** The claim that a failed result carries no module fails: in this
    version-5 input the first module of the leaf is complete and its flags
    byte 0x08 announces a second one, which is missing; the parse fails and
    the result holds the first module. *)
Lemma failed_result_keeps_modules_counterexample :
  let data := sigFile 5 [0; 4; 0x12; 0x34; 5; 8; 0x66; 0x6f; 0x6f; 8] in
  success (parse None data) = false
  /\ errorMessage (parse None data) = "Parse error in signature tree"%string
  /\ List.length (modules (parse None data)) = 1%nat
  /\ modules (parse None data) <> [].
Proof.
  vm_compute. repeat split. discriminate.
Qed.

(** ** The rendered pattern path *)

Lemma substring_append_r (s1 s2 : string) (k n : nat) :
  substring (String.length s1 + k) n (s1 ++ s2) = substring k n s2.
Proof. induction s1 as [|c s1 IH]; simpl; [reflexivity | exact IH]. Qed.

Lemma substring_append_l (s1 s2 : string) :
  forall k n, (k + n <= String.length s1)%nat ->
  substring k n (s1 ++ s2) = substring k n s1.
Proof.
  induction s1 as [|c s1 IH]; intros k n H; simpl in H.
  - assert (k = 0%nat) by lia. assert (n = 0%nat) by lia. subst.
    destruct s2; reflexivity.
  - destruct k as [|k].
    + destruct n as [|n]; [reflexivity|]. simpl. f_equal. apply IH. lia.
    + simpl. apply IH. lia.
Qed.

(** [patternPathHex] puts one space between the renderings of consecutive
    nodes. *)
Lemma patternPathHex_fold (l : list FlirtPatternNode) :
  forall out,
    out <> ""%string ->
    String.length
      (fold_left
         (fun out n =>
            ((if isEmpty out then out else out ++ " ") ++ toHexString n)%string)
         l out)
    = (String.length out + List.length l + 2 * pathLen l)%nat.
Proof.
  induction l as [|n l IH]; intros out Hne; [simpl; lia|].
  cbn [fold_left]. destruct out as [|c out]; [congruence|]. cbn [isEmpty].
  rewrite IH by (simpl; discriminate).
  rewrite !string_length_append, toHexString_length. simpl. lia.
Qed.

Lemma patternPathHex_length (m : FlirtModule) :
  Forall nodeShaped (patternPath m) -> patternPath m <> [] ->
  String.length (patternPathHex m)
  = (2 * pathLen (patternPath m) + (List.length (patternPath m) - 1))%nat.
Proof.
  unfold patternPathHex. destruct (patternPath m) as [|n l]; [congruence|].
  intros F _. inversion F as [|? ? [_ Hn] _]; subst.
  cbn [fold_left isEmpty append].
  rewrite patternPathHex_fold.
  - rewrite toHexString_length. simpl. lia.
  - intros E. pose proof (toHexString_length n) as L. rewrite E in L.
    simpl in L. lia.
Qed.

Lemma isVariant_mask (n : FlirtPatternNode) (i : nat) :
  nodeShaped n -> (i < nodeLen n)%nat ->
  isVariant n i = negb (at_ (variantMask n) (Z.of_nat i) =? 0).
Proof.
  intros [L _] Hi. unfold isVariant.
  assert (E : (Z.of_nat i <? Z.of_nat (List.length (variantMask n))) = true)
    by (apply Z.ltb_lt; lia).
  rewrite E. reflexivity.
Qed.

(** * Further properties of the decoder *)

(** ** The values the reader returns *)

Lemma readByte_first (st : ParseState) :
  live st -> pos st < size st ->
  readByte st = (peek st 0, setPos st (pos st + 1)).
Proof.
  intros L H. unfold peek. rewrite Z.add_0_r.
  exact (proj1 (readByte_setPos st L H)).
Qed.

Lemma readByte_next (st : ParseState) (k k' : Z) :
  live st -> pos st + k < size st -> k' = k + 1 ->
  readByte (setPos st (pos st + k))
  = (peek st k, setPos st (pos st + k')).
Proof.
  intros L H ->. unfold live, stopped in L. apply orb_false_elim in L.
  destruct L as [He Hr].
  rewrite readByte_at; [|exact He|exact Hr|exact H].
  cbn [body pos setPos]. rewrite Z.add_assoc. reflexivity.
Qed.

Lemma peek_range (st : ParseState) (k : Z) : 0 <= peek st k <= 255.
Proof. apply at_range. Qed.

Lemma land_7f (r : Z) : 0 <= r -> Z.land r 0x7f = r mod 128.
Proof. intros _. change 127 with (Z.ones 7). apply Z.land_ones. lia. Qed.

Lemma land_3f (r : Z) : 0 <= r -> Z.land r 0x3f = r mod 64.
Proof. intros _. change 63 with (Z.ones 6). apply Z.land_ones. lia. Qed.

Lemma hasBit_80 (r : Z) : 0 <= r <= 255 -> hasBit r 0x80 = (0x80 <=? r).
Proof.
  intros Hr.
  assert (Hc : exists n : nat, (n < 256)%nat /\ r = Z.of_nat n)
    by (exists (Z.to_nat r); lia).
  destruct Hc as (n & Hn & ->). clear Hr.
  do 256 (destruct n as [|n]; [vm_compute; auto|]).
  lia.
Qed.

Lemma be_quad (b0 b1 b2 b3 : Z) :
  0 <= b0 <= 255 -> 0 <= b1 <= 255 -> 0 <= b2 <= 255 -> 0 <= b3 <= 255 ->
  u32 (Z.lor (Z.shiftl (u16 (Z.lor (Z.shiftl b0 8) b1)) 16)
             (u16 (Z.lor (Z.shiftl b2 8) b3)))
  = b0 * 2 ^ 24 + b1 * 2 ^ 16 + b2 * 2 ^ 8 + b3.
Proof.
  intros H0 H1 H2 H3. rewrite !be_pair by assumption.
  rewrite lor_shiftl_add by (change (2 ^ 16) with 65536; lia).
  unfold u32. change (2 ^ 32) with 4294967296. change (2 ^ 24) with 16777216.
  change (2 ^ 16) with 65536. change (2 ^ 8) with 256.
  rewrite Z.mod_small; lia.
Qed.

(** X1. readMultipleBytes, in arithmetic.  From a live reader that holds
    the whole field, the value is the first byte when it is below 0x80;
    14 bits under a prefix 0x80..0xbf; 29 bits under a prefix 0xc0..0xdf;
    and the four bytes after a prefix 0xe0..0xff, whose low five bits are
    dropped.  The position moves by 1, 2, 4 or 5 and no flag changes. *)
Theorem readMultipleBytes_decode (st : ParseState) :
  live st ->
  pos st + multiWidth (peek st 0) <= size st ->
  readMultipleBytes st
  = (multiValue (peek st 0) (peek st 1) (peek st 2) (peek st 3) (peek st 4),
     setPos st (pos st + multiWidth (peek st 0))).
Proof.
  intros L H.
  pose proof (peek_range st 0) as B0. pose proof (peek_range st 1) as B1.
  pose proof (peek_range st 2) as B2. pose proof (peek_range st 3) as B3.
  pose proof (peek_range st 4) as B4.
  destruct (prefix_tests (peek st 0) B0) as (T1 & T2 & T3).
  unfold multiWidth, multiValue in *.
  unfold readMultipleBytes.
  assert (H0 : pos st < size st)
    by (destruct (peek st 0 <? 128), (peek st 0 <? 192), (peek st 0 <? 224); lia).
  rewrite (readByte_first st L H0). rewrite T1, T2, T3.
  destruct (Z.ltb_spec (peek st 0) 128) as [C1|C1].
  { assert (E : (128 <=? peek st 0) = false) by (apply Z.leb_gt; exact C1).
    rewrite E. reflexivity. }
  assert (E1 : (128 <=? peek st 0) = true) by (apply Z.leb_le; exact C1).
  rewrite E1. cbn [negb].
  destruct (Z.ltb_spec (peek st 0) 192) as [C2|C2].
  { assert (E : (192 <=? peek st 0) = false) by (apply Z.leb_gt; exact C2).
    rewrite E. cbn [negb].
    rewrite (readByte_next st 1 2 L) by lia. f_equal.
    rewrite land_7f by lia.
    rewrite lor_shiftl_add by (change (2 ^ 8) with 256; lia).
    unfold u32. change (2 ^ 32) with 4294967296. change (2 ^ 8) with 256.
    rewrite Z.mod_small; Z.div_mod_to_equations; lia. }
  assert (E2 : (192 <=? peek st 0) = true) by (apply Z.leb_le; exact C2).
  rewrite E2. cbn [negb].
  destruct (Z.ltb_spec (peek st 0) 224) as [C3|C3].
  { assert (E : (224 <=? peek st 0) = false) by (apply Z.leb_gt; exact C3).
    rewrite E. cbn [negb].
    rewrite (readByte_next st 1 2 L) by lia.
    unfold readShortBE.
    rewrite (readByte_next st 2 3 L) by lia.
    rewrite (readByte_next st 3 4 L) by lia.
    f_equal. rewrite be_pair by assumption. rewrite land_3f by lia.
    rewrite (Z.shiftl_mul_pow2 (peek st 1) 16) by lia.
    rewrite lor_shiftl_add
      by (change (2 ^ 24) with 16777216; change (2 ^ 16) with 65536; lia).
    assert (M : peek st 0 mod 64 = peek st 0 - 192)
      by (Z.div_mod_to_equations; lia).
    rewrite M.
    assert (U1 : u32 ((peek st 0 - 192) * 2 ^ 24 + peek st 1 * 2 ^ 16)
                 = ((peek st 0 - 192) * 256 + peek st 1) * 2 ^ 16).
    { unfold u32. change (2 ^ 32) with 4294967296.
      change (2 ^ 24) with 16777216. change (2 ^ 16) with 65536.
      rewrite Z.mod_small; lia. }
    rewrite U1, <- Z.shiftl_mul_pow2 by lia.
    rewrite lor_shiftl_add by (change (2 ^ 16) with 65536; lia).
    unfold u32. change (2 ^ 32) with 4294967296.
    change (2 ^ 24) with 16777216. change (2 ^ 16) with 65536.
    change (2 ^ 8) with 256.
    rewrite Z.mod_small; lia. }
  assert (E3 : (224 <=? peek st 0) = true) by (apply Z.leb_le; exact C3).
  rewrite E3. cbn [negb].
  unfold readWordBE, readShortBE.
  rewrite (readByte_next st 1 2 L) by lia.
  rewrite (readByte_next st 2 3 L) by lia.
  rewrite (readByte_next st 3 4 L) by lia.
  rewrite (readByte_next st 4 5 L) by lia.
  f_equal. apply be_quad; assumption.
Qed.

Lemma readMultipleBytes_decode_witness :
  readMultipleBytes (startState [xc1; x02; x03; x04; x05] 9)
  = (0x1020304, mkState [xc1; x02; x03; x04; x05] 4 9 false false).
Proof.
  exact (readMultipleBytes_decode (startState [xc1; x02; x03; x04; x05] 9)
           eq_refl ltac:(vm_compute; discriminate)).
Defined.

(** X2. readMax2Bytes, in arithmetic.  From a live reader that holds the
    whole field the value is the first byte when it is below 0x80 and
    otherwise the 15 bits left of the two bytes; it is at most 0x7fff, and
    the position moves by 1 or 2. *)
Theorem readMax2Bytes_decode (st : ParseState) :
  live st ->
  pos st + max2Width (peek st 0) <= size st ->
  readMax2Bytes st
  = (max2Value (peek st 0) (peek st 1),
     setPos st (pos st + max2Width (peek st 0)))
  /\ 0 <= max2Value (peek st 0) (peek st 1) <= 0x7fff.
Proof.
  intros L H.
  pose proof (peek_range st 0) as B0. pose proof (peek_range st 1) as B1.
  unfold max2Width, max2Value in *. unfold readMax2Bytes.
  assert (H0 : pos st < size st) by (destruct (peek st 0 <? 128); lia).
  rewrite (readByte_first st L H0), hasBit_80 by exact B0.
  destruct (Z.ltb_spec (peek st 0) 128) as [C1|C1].
  - assert (E : (128 <=? peek st 0) = false) by (apply Z.leb_gt; exact C1).
    rewrite E. split; [reflexivity | lia].
  - assert (E : (128 <=? peek st 0) = true) by (apply Z.leb_le; exact C1).
    rewrite E. rewrite (readByte_next st 1 2 L) by lia.
    change (2 ^ 8) with 256. split; [|lia]. f_equal.
    rewrite land_7f by lia.
    rewrite lor_shiftl_add by (change (2 ^ 8) with 256; lia).
    unfold u16. change (2 ^ 16) with 65536. change (2 ^ 8) with 256.
    rewrite Z.mod_small; Z.div_mod_to_equations; lia.
Qed.

Lemma readMax2Bytes_decode_witness :
  readMax2Bytes (startState [xff; x10] 7)
  = (0x7f10, mkState [xff; x10] 2 7 false false)
  /\ 0 <= 0x7f10 <= 0x7fff.
Proof.
  exact (readMax2Bytes_decode (startState [xff; x10] 7)
           eq_refl ltac:(vm_compute; discriminate)).
Defined.

(** X3. The big-endian reads.  From a live reader with four bytes left
    [readWordBE] returns them as a big-endian number, and [readShortBE]
    the first two; with one byte left [readShortBE] returns that byte as
    the high byte over a zero low byte, stops at the end and sets [eof]:
    the missing byte reads as 0 and is not an error of its own. *)
Theorem big_endian_reads (st : ParseState) :
  live st ->
  (pos st + 4 <= size st ->
   readWordBE st
   = (peek st 0 * 2 ^ 24 + peek st 1 * 2 ^ 16 + peek st 2 * 2 ^ 8 + peek st 3,
      setPos st (pos st + 4)))
  /\ (pos st + 2 <= size st ->
      readShortBE st
      = (peek st 0 * 2 ^ 8 + peek st 1, setPos st (pos st + 2)))
  /\ (pos st + 1 = size st ->
      readShortBE st
      = (peek st 0 * 2 ^ 8, setEof (setPos st (size st)) true)).
Proof.
  intros L.
  pose proof (peek_range st 0) as B0. pose proof (peek_range st 1) as B1.
  pose proof (peek_range st 2) as B2. pose proof (peek_range st 3) as B3.
  split; [|split]; intros H.
  - unfold readWordBE, readShortBE.
    rewrite (readByte_first st L) by lia.
    rewrite (readByte_next st 1 2 L) by lia.
    rewrite (readByte_next st 2 3 L) by lia.
    rewrite (readByte_next st 3 4 L) by lia.
    f_equal. apply be_quad; assumption.
  - unfold readShortBE.
    rewrite (readByte_first st L) by lia.
    rewrite (readByte_next st 1 2 L) by lia.
    f_equal. apply be_pair; assumption.
  - unfold readShortBE.
    rewrite (readByte_first st L) by lia.
    assert (X : size (setPos st (pos st + 1)) <= pos (setPos st (pos st + 1))).
    { change (size st <= pos st + 1). lia. }
    rewrite (readByte_exhausted _ X).
    rewrite be_pair by lia. rewrite Z.add_0_r. rewrite H. reflexivity.
Qed.

Lemma big_endian_reads_witness :
  readShortBE (startState [x12] 5)
  = (0x1200, mkState [x12] 1 5 true false).
Proof.
  exact (proj2 (proj2 (big_endian_reads (startState [x12] 5) eq_refl)) eq_refl).
Defined.

(** ** The header, field by field *)

Ltac settle_tests :=
  repeat match goal with
  | |- context [?a <? ?b] =>
      first [ replace (a <? b) with true by (symmetry; apply Z.ltb_lt; lia)
            | replace (a <? b) with false by (symmetry; apply Z.ltb_ge; lia) ]
  | |- context [?a <=? ?b] =>
      first [ replace (a <=? b) with true by (symmetry; apply Z.leb_le; lia)
            | replace (a <=? b) with false by (symmetry; apply Z.leb_gt; lia) ]
  end.

Ltac header_steps :=
  repeat (settle_tests;
          cbn [body pos version eof err orb negb libraryNameLen setNFunctions setPatternSize
               setUnknownV10 setHeader setError setLibraryName header
               emptyResult emptyHeader nFunctions patternSize unknownV10
               h_version arch fileTypes osTypes appTypes features
               oldNFunctions h_crc16 ctype ctypesCrc16 success errorMessage
               libraryName modules fst snd]).

Lemma parseHeader_layout (data : list byte) :
  isMagic data = true -> 5 <= at_ data 6 <= 10 ->
  headerSize data <= Z.of_nat (List.length data) ->
  parseHeader (setVersion (mkState data 0 0 false false) (at_ data 6)) emptyResult
  = (true, mkState data (headerSize data) (at_ data 6) false false,
     setLibraryName (setHeader emptyResult (headerOf data)) (libraryNameOf data)).
Proof.
  intros M V H. unfold headerSize, headerOf, libraryNameOf, headerExtra in *.
  pose proof (at_range data 34) as B34.
  unfold parseHeader, parseHeaderExt, readByte, size, setVersion, setPos, setEof.
  cbn [body pos version eof err orb].
  rewrite M. cbn [negb].
  destruct (Z.leb_spec 6 (at_ data 6)) as [C6|C6];
    destruct (Z.leb_spec 8 (at_ data 6)) as [C8|C8];
    destruct (Z.leb_spec 10 (at_ data 6)) as [C10|C10];
    try lia; header_steps;
    change (7 + 1 + 4 + 2 + 2 + 2 + 2 + 2 + 12) with 34; header_steps;
    reflexivity.
Qed.

Lemma parseHeader_truncated (data : list byte) :
  isMagic data = true -> 5 <= at_ data 6 <= 10 ->
  7 <= Z.of_nat (List.length data) ->
  Z.of_nat (List.length data) < headerSize data ->
  exists st' r',
    parseHeader (setVersion (mkState data 0 0 false false) (at_ data 6))
      emptyResult = (false, st', r')
    /\ success r' = false /\ modules r' = []
    /\ errorMessage r'
       = (if Z.of_nat (List.length data) <? 37
          then "Truncated v5 header"%string
          else if (6 <=? at_ data 6) && (Z.of_nat (List.length data) <? 41)
          then "Truncated v6/v7 header"%string
          else if (8 <=? at_ data 6) && (Z.of_nat (List.length data) <? 43)
          then "Truncated v8/v9 header"%string
          else if (10 <=? at_ data 6) && (Z.of_nat (List.length data) <? 45)
          then "Truncated v10 header"%string
          else "Truncated library name"%string).
Proof.
  intros M V L H. unfold headerSize, headerExtra in *.
  pose proof (at_range data 34) as B34.
  unfold parseHeader, parseHeaderExt, readByte, size, setVersion, setPos, setEof.
  cbn [body pos version eof err orb].
  rewrite M. cbn [negb].
  destruct (Z.leb_spec 6 (at_ data 6)) as [C6|C6];
    destruct (Z.leb_spec 8 (at_ data 6)) as [C8|C8];
    destruct (Z.leb_spec 10 (at_ data 6)) as [C10|C10];
    try lia;
    destruct (Z.ltb_spec (Z.of_nat (List.length data)) 37) as [N1|N1];
    destruct (Z.ltb_spec (Z.of_nat (List.length data)) 41) as [N2|N2];
    try lia;
    destruct (Z.ltb_spec (Z.of_nat (List.length data)) 43) as [N3|N3];
    try lia;
    destruct (Z.ltb_spec (Z.of_nat (List.length data)) 45) as [N4|N4];
    try lia;
    header_steps;
    change (7 + 1 + 4 + 2 + 2 + 2 + 2 + 2 + 12) with 34; header_steps;
    (eexists; eexists; split; [reflexivity|]);
    cbn [success modules errorMessage setError setHeader emptyResult andb];
    auto.
Qed.

Lemma isFlirt_accepts (data : list byte) :
  fst (isFlirt data) = true ->
  isFlirt data = (true, Some (at_ data 6))
  /\ isMagic data = true /\ 5 <= at_ data 6 <= 10
  /\ 7 <= Z.of_nat (List.length data).
Proof.
  unfold isFlirt.
  destruct (Z.ltb_spec (Z.of_nat (List.length data)) 7) as [L|L];
    [discriminate|].
  destruct (isMagic data); [|discriminate]. cbn [negb fst].
  intros H. rewrite H. apply andb_prop in H. destruct H as [H1 H2].
  apply Z.leb_le in H1, H2. auto.
Qed.

(** What [parse] does once the header is read: the decompression gate and
    the tree walk, on the result that holds the header. *)
Lemma parse_after_header (inflate : Inflater) (data : list byte) :
  fst (isFlirt data) = true ->
  headerSize data <= Z.of_nat (List.length data) ->
  parse inflate data
  = let r1 := setLibraryName (setHeader emptyResult (headerOf data))
                (libraryNameOf data) in
    match decompressionGate inflate
            (mkState data (headerSize data) (at_ data 6) false false) r1 with
    | inl msg => setError r1 msg
    | inr st => afterTree r1 (parseTree st [] [] "")
    end.
Proof.
  intros F H. destruct (isFlirt_accepts data F) as (E & M & V & L).
  unfold parse. rewrite E. cbn [negb].
  rewrite (parseHeader_layout data M V H). reflexivity.
Qed.

(** X4. The header layout.  For an input that passes the gate and holds
    its whole header (37 bytes, then 4, 6 or 8 more for versions 6-7, 8-9
    and 10, then the library name), [parse] leaves in the result, whatever
    comes after: the version byte, [arch] from offset 7, the little-endian
    fields from offsets 8, 12, 14, 16, 18, 20 and 35, [ctype] from 22, the
    name length from 34, [nFunctions] (little-endian, offset 37),
    [patternSize] and [unknownV10] (big-endian, offsets 41 and 43) when the
    version has them and 0 otherwise; and as library name the
    [libraryNameLen] bytes that follow. *)
Theorem parse_header_fields (inflate : Inflater) (data : list byte) :
  fst (isFlirt data) = true ->
  headerSize data <= Z.of_nat (List.length data) ->
  header (parse inflate data) = headerOf data
  /\ libraryName (parse inflate data) = libraryNameOf data
  /\ Z.of_nat (String.length (libraryName (parse inflate data)))
     = libraryNameLen (header (parse inflate data)).
Proof.
  intros F H. rewrite (parse_after_header inflate data F H). cbv zeta.
  set (r1 := setLibraryName (setHeader emptyResult (headerOf data))
               (libraryNameOf data)).
  assert (A : forall r, header r = header r1 -> libraryName r = libraryName r1 ->
            header r = headerOf data /\ libraryName r = libraryNameOf data
            /\ Z.of_nat (String.length (libraryName r))
               = libraryNameLen (header r)).
  { intros r Hh Hn. rewrite Hh, Hn. subst r1.
    cbn [header libraryName setLibraryName setHeader].
    split; [reflexivity|]. split; [reflexivity|].
    unfold libraryNameOf, headerOf. cbn [libraryNameLen].
    rewrite string_of_list_byte_length.
    pose proof (at_range data 34) as B. unfold headerSize, headerExtra in H.
    unfold headerExtra.
    rewrite mid_length; [lia| | lia |];
      destruct (6 <=? at_ data 6), (8 <=? at_ data 6), (10 <=? at_ data 6); lia. }
  destruct (decompressionGate inflate _ r1) as [msg|st].
  - apply A; reflexivity.
  - apply A; unfold afterTree;
      destruct (t_end (parseTree st [] [] "")); reflexivity.
Qed.

Lemma parse_header_fields_witness :
  header (parse None (sigFile 10 [])) = headerOf (sigFile 10 [])
  /\ libraryName (parse None (sigFile 10 [])) = libraryNameOf (sigFile 10 [])
  /\ Z.of_nat (String.length (libraryName (parse None (sigFile 10 []))))
     = libraryNameLen (header (parse None (sigFile 10 []))).
Proof.
  apply (parse_header_fields None (sigFile 10 [])).
  - reflexivity.
  - vm_compute. discriminate.
Defined.

(** X5. A header that is cut short.  For an input that passes the gate and
    is shorter than its header, [parse] fails with no module and with the
    message of the first part that does not fit: the 37 fixed bytes, the
    field of versions 6 and up (4 bytes), of versions 8 and up (2 bytes),
    of version 10 (2 bytes), and last the library name. *)
Theorem parse_truncated_header (inflate : Inflater) (data : list byte) :
  fst (isFlirt data) = true ->
  Z.of_nat (List.length data) < headerSize data ->
  success (parse inflate data) = false
  /\ modules (parse inflate data) = []
  /\ errorMessage (parse inflate data)
     = (if Z.of_nat (List.length data) <? 37
        then "Truncated v5 header"%string
        else if (6 <=? at_ data 6) && (Z.of_nat (List.length data) <? 41)
        then "Truncated v6/v7 header"%string
        else if (8 <=? at_ data 6) && (Z.of_nat (List.length data) <? 43)
        then "Truncated v8/v9 header"%string
        else if (10 <=? at_ data 6) && (Z.of_nat (List.length data) <? 45)
        then "Truncated v10 header"%string
        else "Truncated library name"%string).
Proof.
  intros F H. destruct (isFlirt_accepts data F) as (E & M & V & L).
  destruct (parseHeader_truncated data M V L H) as (st' & r' & P & A).
  unfold parse. rewrite E. cbn [negb]. rewrite P. exact A.
Qed.

Lemma parse_truncated_header_witness :
  success (parse None (firstn 42 (sigFile 8 []))) = false
  /\ modules (parse None (firstn 42 (sigFile 8 []))) = []
  /\ errorMessage (parse None (firstn 42 (sigFile 8 [])))
     = "Truncated v8/v9 header"%string.
Proof.
  apply (parse_truncated_header None (firstn 42 (sigFile 8 []))).
  - reflexivity.
  - vm_compute. reflexivity.
Defined.

(** X6. Compressed bodies.  For an input that passes the gate, holds its
    whole header and has bit 0x10 of [features] set: a build without zlib
    fails with its own message; with zlib, the bytes after the header are
    inflated as raw deflate (window bits -15) for versions 5 and 6 and as a
    zlib stream (15) for the later ones; an empty output fails with
    "FLIRT decompression failed", and otherwise the tree is read from the
    start of the inflated bytes, at the version of the input, and decides
    the modules and the outcome.  No module is reported when the
    decompression fails. *)
Theorem parse_compressed (data : list byte) :
  fst (isFlirt data) = true ->
  headerSize data <= Z.of_nat (List.length data) ->
  hasBit (le16 data 16) IDASIG_FEATURE_COMPRESSED = true ->
  let rest := skipn (Z.to_nat (headerSize data)) data in
  let windowBits :=
    if (at_ data 6 =? 5) || (at_ data 6 =? 6) then -15 else 15 in
  (success (parse None data) = false /\ modules (parse None data) = []
   /\ errorMessage (parse None data)
      = "Compressed .sig requires zlib (build without ZLIB found)"%string)
  /\ (forall decompressZlib,
        decompressZlib rest windowBits = [] ->
        success (parse (Some decompressZlib) data) = false
        /\ modules (parse (Some decompressZlib) data) = []
        /\ errorMessage (parse (Some decompressZlib) data)
           = "FLIRT decompression failed"%string)
  /\ (forall decompressZlib,
        decompressZlib rest windowBits <> [] ->
        let t := parseTree
                   (startState (decompressZlib rest windowBits) (at_ data 6))
                   [] [] "" in
        modules (parse (Some decompressZlib) data) = t_modules t
        /\ (success (parse (Some decompressZlib) data) = true
            <-> exists u st', t_end t = Done u st')).
Proof.
  intros F H C rest windowBits.
  split; [|split].
  - rewrite (parse_after_header None data F H). cbv zeta.
    unfold decompressionGate. cbn [header setLibraryName setHeader].
    unfold headerOf. cbn [features]. rewrite C. auto.
  - intros f E. rewrite (parse_after_header (Some f) data F H). cbv zeta.
    unfold decompressionGate. cbn [header setLibraryName setHeader].
    unfold headerOf. cbn [features body pos version]. rewrite C.
    fold rest. fold windowBits. rewrite E. auto.
  - intros f E t. rewrite (parse_after_header (Some f) data F H). cbv zeta.
    unfold decompressionGate. cbn [header setLibraryName setHeader].
    unfold headerOf. cbn [features body pos version]. rewrite C.
    fold rest. fold windowBits.
    destruct (f rest windowBits) as [|b dec] eqn:D; [congruence|].
    fold (startState (b :: dec) (at_ data 6)).
    subst t. unfold afterTree.
    destruct (t_end (parseTree (startState (b :: dec) (at_ data 6)) [] [] ""))
      as [u s| |]; cbn [success modules setLibraryName setHeader emptyResult].
    + split; [reflexivity|]. split; [eauto | reflexivity].
    + split; [reflexivity|]. split; [discriminate | intros (u & s & X); discriminate].
    + split; [reflexivity|]. split; [discriminate | intros (u & s & X); discriminate].
Qed.

Lemma parse_compressed_witness :
  errorMessage (parse None (sigFileCompressed 7 [1; 2; 3]))
  = "Compressed .sig requires zlib (build without ZLIB found)"%string
  /\ errorMessage
       (parse (Some (fun _ _ => [])) (sigFileCompressed 7 [1; 2; 3]))
     = "FLIRT decompression failed"%string.
Proof.
  pose proof (parse_compressed (sigFileCompressed 7 [1; 2; 3]) eq_refl
                ltac:(vm_compute; discriminate) eq_refl) as H.
  cbv zeta in H. destruct H as ((_ & _ & A) & B & _).
  split; [exact A|].
  exact (proj2 (proj2 (B (fun _ _ => []) eq_refl))).
Defined.

(** X7. An input whose [features] field has bit 0x10 clear is parsed the
    same way with and without zlib. *)
Theorem parse_uncompressed_any_build (inflate1 inflate2 : Inflater)
  (data : list byte) :
  hasBit (le16 data 16) IDASIG_FEATURE_COMPRESSED = false ->
  parse inflate1 data = parse inflate2 data.
Proof.
  intros C.
  destruct (fst (isFlirt data)) eqn:F.
  - destruct (Z.le_gt_cases (headerSize data) (Z.of_nat (List.length data)))
      as [H|H].
    + rewrite !(parse_after_header _ data F H). cbv zeta.
      unfold decompressionGate. cbn [header setLibraryName setHeader].
      unfold headerOf. cbn [features]. rewrite C. reflexivity.
    + destruct (isFlirt_accepts data F) as (E & M & V & L).
      destruct (parseHeader_truncated data M V L) as (st' & r' & P & A);
        [lia|].
      unfold parse. rewrite E. cbn [negb]. rewrite P. reflexivity.
  - unfold parse. destruct (isFlirt data) as [flirt ov]. cbn [fst] in F.
    subst flirt. reflexivity.
Qed.

Lemma parse_uncompressed_any_build_witness :
  parse None (sigFile 7 [0; 0; 0; 0; 0; 65; 0])
  = parse (Some (fun _ _ => [])) (sigFile 7 [0; 0; 0; 0; 0; 65; 0]).
Proof.
  apply (parse_uncompressed_any_build None (Some (fun _ _ => []))
           (sigFile 7 [0; 0; 0; 0; 0; 65; 0])).
  reflexivity.
Defined.

(** ** The shape of the emitted modules *)

Lemma u16_max (z : Z) : 0 <= u16 z <= 0xffff.
Proof.
  unfold u16. pose proof (Z.mod_pos_bound z (2 ^ 16) eq_refl) as B.
  change (2 ^ 16) with 65536 in *. lia.
Qed.

Lemma readMax2Bytes_max (st : ParseState) : 0 <= fst (readMax2Bytes st) <= 0x7fff.
Proof.
  unfold readMax2Bytes.
  destruct (readByte st) as [r st1] eqn:R1.
  pose proof (readByte_value _ _ _ R1) as B.
  rewrite hasBit_80 by exact B.
  destruct (Z.leb_spec 128 r) as [C|C]; cbn [fst]; [|lia].
  destruct (readByte st1) as [b st2] eqn:R2.
  pose proof (readByte_value _ _ _ R2) as B2. cbn [fst].
  rewrite land_7f by lia.
  rewrite lor_shiftl_add by (change (2 ^ 8) with 256; lia).
  unfold u16. change (2 ^ 16) with 65536. change (2 ^ 8) with 256.
  rewrite Z.mod_small; Z.div_mod_to_equations; lia.
Qed.

Lemma readOffset_max (st : ParseState) :
  0 <= fst (readOffset st) <= offsetMax (version st).
Proof.
  unfold readOffset, offsetMax. destruct (9 <=? version st).
  - pose proof (readMultipleBytes_range st) as H.
    change (2 ^ 32) with 4294967296 in H. lia.
  - apply readMax2Bytes_max.
Qed.

Lemma nameLoop_shaped (room : nat) :
  forall c acc st nb fl st',
    nameLoop room c acc st = Some (nb, fl, st') -> 0 <= c <= 255 ->
    exists more,
      nb = acc ++ more /\ (List.length more <= room)%nat
      /\ Forall (fun b => 0x20 <= byteVal b) more.
Proof.
  induction room as [|room IH]; intros c acc st nb fl st' H Hc;
    cbn [nameLoop] in H.
  - inversion H; subst. exists []. rewrite app_nil_r. auto.
  - destruct (Z.leb_spec 32 c) as [C|C].
    + destruct (readByte st) as [c' st1] eqn:R.
      destruct (stopped st1); [discriminate|].
      destruct (IH _ _ _ _ _ _ H (readByte_value _ _ _ R)) as (more & E & L & F).
      exists (toChar c :: more). rewrite E, <- app_assoc. cbn [app].
      split; [reflexivity|]. split; [simpl; lia|].
      constructor; [rewrite byteVal_toChar by lia; exact C | exact F].
    + inversion H; subst. exists []. rewrite app_nil_r.
      split; [reflexivity|]. split; [simpl; lia | constructor].
Qed.

Lemma readPublicFunction_shaped st off f flags st' :
  readPublicFunction st off = Some (f, flags, st') -> functionShaped f.
Proof.
  unfold readPublicFunction. intros H.
  destruct (readOffset st) as [delta st1].
  destruct (stopped st1); [discriminate|].
  destruct (readByte st1) as [c st2] eqn:R2.
  destruct (stopped st2); [discriminate|].
  destruct (readAttributes c st2) as [[[[loc col] c'] st3]|] eqn:R3;
    [|discriminate].
  assert (Hc : 0 <= c' <= 255).
  { unfold readAttributes in R3. destruct (c <? 32).
    - destruct (readByte st2) as [x st2'] eqn:R.
      destruct (stopped st2'); [discriminate|].
      inversion R3; subst. exact (readByte_value _ _ _ R).
    - inversion R3; subst. exact (readByte_value _ _ _ R2). }
  destruct (nameLoop (Z.to_nat FLIRT_NAME_MAX) c' [] st3)
    as [[[nb fl] st4]|] eqn:R4; [|discriminate].
  inversion H; subst. clear H.
  destruct (nameLoop_shaped _ _ _ _ _ _ _ R4 Hc) as (more & E & L & F).
  cbn [app] in E. subst nb.
  unfold functionShaped. cbn [name offset].
  rewrite string_of_list_byte_length, list_byte_of_string_of_list_byte.
  split; [exact L|]. split; [exact F|].
  pose proof (u32_range (off + delta)) as U.
  change (2 ^ 32) with 4294967296 in U. lia.
Qed.

Lemma publicFunctionsLoop_shaped (steps : nat) :
  forall st off m m' flags st',
    publicFunctionsLoop steps st off m = Done (m', flags) st' ->
    sameScalars m m'
    /\ tailBytes m' = tailBytes m
    /\ referencedFunctions m' = referencedFunctions m
    /\ exists fs,
         publicFunctions m' = publicFunctions m ++ fs /\ fs <> []
         /\ Forall functionShaped fs.
Proof.
  induction steps as [|steps IH]; intros st off m m' flags st' H;
    cbn [publicFunctionsLoop] in H; [discriminate|].
  destruct (readPublicFunction st off) as [[[f fl] st1]|] eqn:R; [|discriminate].
  pose proof (readPublicFunction_shaped _ _ _ _ _ R) as Sf.
  destruct (hasBit fl IDASIG_PARSE_MORE_PUBLIC_NAMES).
  - apply IH in H. destruct H as (A & B & C & fs & E & _ & F).
    unfold sameScalars in *.
    cbn [addPublicFunction patternPath crcLength crc16 moduleLength
         tailBytes referencedFunctions publicFunctions] in *.
    split; [exact A|]. split; [exact B|]. split; [exact C|].
    exists (f :: fs). rewrite E, <- app_assoc.
    split; [reflexivity|]. split; [discriminate | constructor; assumption].
  - inversion H; subst. unfold sameScalars.
    cbn [addPublicFunction patternPath crcLength crc16 moduleLength
         tailBytes referencedFunctions publicFunctions].
    repeat split. exists [f].
    split; [reflexivity|]. split; [discriminate | constructor; auto].
Qed.

Lemma tailBytesLoop_shaped (count : nat) :
  forall st m m' st',
    tailBytesLoop count st m = Some (m', st') ->
    sameScalars m m'
    /\ publicFunctions m' = publicFunctions m
    /\ referencedFunctions m' = referencedFunctions m
    /\ exists ts,
         tailBytes m' = tailBytes m ++ ts
         /\ Forall (tailByteShaped (version st)) ts.
Proof.
  induction count as [|count IH]; intros st m m' st' H; cbn [tailBytesLoop] in H.
  - inversion H; subst. unfold sameScalars. repeat split.
    exists []. rewrite app_nil_r. auto.
  - destruct (readOffset st) as [off st1] eqn:R1.
    destruct (stopped st1); [discriminate|].
    destruct (readByte st1) as [v st2] eqn:R2.
    destruct (stopped st2); [discriminate|].
    pose proof (readOffset_extends _ _ _ R1) as X1.
    pose proof (readByte_extends _ _ _ R2) as X2.
    apply IH in H. destruct H as (A & B & C & ts & E & F).
    unfold sameScalars in *.
    cbn [addTailByte patternPath crcLength crc16 moduleLength
         tailBytes referencedFunctions publicFunctions] in *.
    split; [exact A|]. split; [exact B|]. split; [exact C|].
    exists (mkTailByte off v :: ts). rewrite E, <- app_assoc.
    split; [reflexivity|].
    rewrite (ext_version _ _ X2), (ext_version _ _ X1) in F.
    constructor; [|exact F].
    unfold tailByteShaped. cbn [tb_offset tb_value].
    pose proof (readOffset_max st) as O. rewrite R1 in O. cbn [fst] in O.
    split; [exact O | exact (readByte_value _ _ _ R2)].
Qed.

Lemma readCount_version st c st1 :
  readCount st = (c, st1) -> version st1 = version st /\ 0 <= c <= 255.
Proof.
  unfold readCount. destruct (8 <=? version st); intros H.
  - split; [exact (ext_version _ _ (readByte_extends _ _ _ H))
           | exact (readByte_value _ _ _ H)].
  - inversion H; subst. split; [reflexivity | lia].
Qed.

Lemma refNameLoop_length (n : nat) :
  forall st acc nb st',
    refNameLoop n st acc = Some (nb, st') ->
    List.length nb = (List.length acc + n)%nat.
Proof.
  induction n as [|n IH]; intros st acc nb st' H; cbn [refNameLoop] in H.
  - inversion H; subst. lia.
  - destruct (readByte st) as [b st1]. destruct (stopped st1); [discriminate|].
    apply IH in H. rewrite length_app in H. simpl in H. lia.
Qed.

Lemma readNameLen_range st n st' :
  readNameLen st = Some (n, st') -> 0 <= n.
Proof.
  unfold readNameLen. intros H.
  destruct (readByte st) as [n0 st1] eqn:R1.
  destruct (stopped st1); [discriminate|].
  destruct (n0 =? 0).
  - pose proof (readMultipleBytes_range st1) as B.
    destruct (readMultipleBytes st1) as [n1 st2].
    destruct (stopped st2); [discriminate|].
    inversion H; subst. cbn [fst] in B. lia.
  - inversion H; subst. pose proof (readByte_value _ _ _ R1). lia.
Qed.

Lemma readReferencedFunction_shaped st rf st' :
  readReferencedFunction st = Some (rf, st') ->
  refFunctionShaped (version st) rf.
Proof.
  unfold readReferencedFunction. intros H.
  pose proof (readOffset_max st) as O.
  destruct (readOffset st) as [off st1] eqn:R1. cbn [fst] in O.
  destruct (stopped st1); [discriminate|].
  destruct (readNameLen st1) as [[nameLen st2]|] eqn:R2; [|discriminate].
  pose proof (readNameLen_range _ _ _ R2) as N0.
  unfold FLIRT_NAME_MAX in H.
  destruct (Z.leb_spec 1024 nameLen) as [C|C]; [discriminate|].
  destruct (refNameLoop (Z.to_nat nameLen) st2 []) as [[nb st3]|] eqn:R3;
    [|discriminate].
  apply refNameLoop_length in R3. cbn [List.length] in R3.
  destruct ((0 <? Z.of_nat (List.length nb)) && (byteVal (last nb x01) =? 0))
    eqn:T; inversion H; subst; clear H; unfold refFunctionShaped;
    cbn [rf_offset rf_name negativeOffset];
    rewrite string_of_list_byte_length, list_byte_of_string_of_list_byte.
  - split; [exact O|]. split; [|discriminate].
    apply andb_prop in T. destruct T as [T _]. apply Z.ltb_lt in T.
    destruct nb as [|b nb]; [simpl in T; lia|].
    rewrite (app_removelast_last x01 (l := b :: nb)) in R3 by discriminate.
    rewrite length_app in R3. cbn [List.length] in R3. lia.
  - split; [exact O|]. split; [lia|]. intros _.
    apply andb_false_iff in T. destruct T as [T|T].
    + apply Z.ltb_ge in T. destruct nb; [discriminate | simpl in T; lia].
    + intros E. rewrite E in T. discriminate.
Qed.

Lemma referencedFunctionsLoop_shaped (count : nat) :
  forall st m m' st',
    referencedFunctionsLoop count st m = Some (m', st') ->
    sameScalars m m'
    /\ publicFunctions m' = publicFunctions m
    /\ tailBytes m' = tailBytes m
    /\ exists rs,
         referencedFunctions m' = referencedFunctions m ++ rs
         /\ Forall (refFunctionShaped (version st)) rs.
Proof.
  induction count as [|count IH]; intros st m m' st' H;
    cbn [referencedFunctionsLoop] in H.
  - inversion H; subst. unfold sameScalars. repeat split.
    exists []. rewrite app_nil_r. auto.
  - destruct (readReferencedFunction st) as [[rf st1]|] eqn:R; [|discriminate].
    pose proof (readReferencedFunction_shaped _ _ _ R) as Sr.
    pose proof (readReferencedFunction_extends _ _ _ R) as X.
    apply IH in H. destruct H as (A & B & C & rs & E & F).
    unfold sameScalars in *.
    cbn [addReferencedFunction patternPath crcLength crc16 moduleLength
         tailBytes referencedFunctions publicFunctions] in *.
    split; [exact A|]. split; [exact B|]. split; [exact C|].
    exists (rf :: rs). rewrite E, <- app_assoc.
    split; [reflexivity|].
    rewrite (ext_version _ _ X) in F. constructor; assumption.
Qed.

(** What one run of the module decoder gives its module. *)
Lemma parseModule_shaped st path cl crc m flags st' :
  0 <= cl <= 255 -> 0 <= crc <= 0xffff ->
  parseModule st path cl crc = Some (m, flags, st') ->
  moduleShaped (version st) m /\ patternPath m = path.
Proof.
  intros Hcl Hcrc H. unfold parseModule in H.
  pose proof (readOffset_max st) as O.
  destruct (readOffset st) as [len st1] eqn:R1. cbn [fst] in O.
  destruct (stopped st1); [discriminate|].
  pose proof (readOffset_extends _ _ _ R1) as X1.
  destruct (readModulePublicFunctions st1 _) as [[[m1 fl] st2]|] eqn:R2;
    [|discriminate].
  unfold readModulePublicFunctions in R2.
  destruct (publicFunctionsLoop _ _ _ _) as [[r f] s1| |] eqn:RL;
    try discriminate.
  inversion R2; subst r f s1. clear R2.
  pose proof (proj1 (publicFunctionsLoop_extends _ _ _ _ _ _ RL)) as X2.
  apply publicFunctionsLoop_shaped in RL.
  destruct RL as (S1 & T1 & F1 & fs & E1 & N1 & P1).
  unfold sameScalars in S1.
  cbn [setModuleLength patternPath crcLength crc16 moduleLength tailBytes
       referencedFunctions publicFunctions app] in *.
  destruct S1 as (Sp1 & Sc1 & Sr1 & Sl1).
  assert (V2 : version st2 = version st).
  { rewrite (ext_version _ _ X2), (ext_version _ _ X1). reflexivity. }
  destruct (if hasBit fl IDASIG_PARSE_READ_TAIL_BYTES
            then readModuleTailBytes st2 m1 else Some (m1, st2))
    as [[m2 st3]|] eqn:R3; [|discriminate].
  assert (A2 : sameScalars m1 m2 /\ publicFunctions m2 = publicFunctions m1
               /\ referencedFunctions m2 = referencedFunctions m1
               /\ Forall (tailByteShaped (version st)) (tailBytes m2)
               /\ version st3 = version st).
  { destruct (hasBit fl IDASIG_PARSE_READ_TAIL_BYTES).
    - pose proof (readModuleTailBytes_extends _ _ _ _ R3) as X3.
      unfold readModuleTailBytes in R3.
      destruct (readCount st2) as [c st2'] eqn:RC.
      destruct (readCount_version _ _ _ RC) as [VC _].
      destruct (stopped st2'); [discriminate|].
      apply tailBytesLoop_shaped in R3.
      destruct R3 as (A & B & C & ts & E & F).
      split; [exact A|]. split; [exact B|]. split; [exact C|].
      split; [|rewrite (ext_version _ _ X3); exact V2].
      rewrite E, T1. cbn [app]. rewrite VC, V2 in F. exact F.
    - inversion R3; subst. unfold sameScalars. repeat split.
      + rewrite T1. constructor.
      + exact V2. }
  destruct A2 as (S2 & P2 & F2 & T2 & V3).
  destruct (if hasBit fl IDASIG_PARSE_READ_REFERENCED_FUNCTIONS
            then readModuleReferencedFunctions st3 m2 else Some (m2, st3))
    as [[m3 st4]|] eqn:R4; [|discriminate].
  inversion H; subst m3 fl st4. clear H.
  assert (A3 : sameScalars m2 m /\ publicFunctions m = publicFunctions m2
               /\ tailBytes m = tailBytes m2
               /\ Forall (refFunctionShaped (version st))
                    (referencedFunctions m)).
  { destruct (hasBit flags IDASIG_PARSE_READ_REFERENCED_FUNCTIONS).
    - unfold readModuleReferencedFunctions in R4.
      destruct (readCount st3) as [c st3'] eqn:RC.
      destruct (readCount_version _ _ _ RC) as [VC _].
      destruct (stopped st3'); [discriminate|].
      apply referencedFunctionsLoop_shaped in R4.
      destruct R4 as (A & B & C & rs & E & F).
      split; [exact A|]. split; [exact B|]. split; [exact C|].
      rewrite E, F2, F1. cbn [app]. rewrite VC, V3 in F. exact F.
    - inversion R4; subst. unfold sameScalars. repeat split.
      rewrite F2, F1. constructor. }
  destruct A3 as (S3 & P3 & T3 & F3).
  unfold sameScalars in S2, S3.
  destruct S2 as (Sp2 & Sc2 & Sr2 & Sl2). destruct S3 as (Sp3 & Sc3 & Sr3 & Sl3).
  split; [|congruence].
  unfold moduleShaped.
  rewrite Sc3, Sc2, Sc1, Sr3, Sr2, Sr1, Sl3, Sl2, Sl1, P3, P2, E1, T3.
  repeat split; try lia; try assumption.
Qed.

(** ** Modules are only ever appended *)

Section Appended.

Variable ver : Z.

Lemma sameCrcLoop_appends (steps : nat) :
  forall st path cl crc out,
    version st = ver -> 0 <= cl <= 255 -> 0 <= crc <= 0xffff ->
    exists new,
      fst (sameCrcLoop steps st path cl crc out) = out ++ new
      /\ Forall (fun m => moduleShaped ver m /\ patternPath m = path) new
      /\ (forall fl st',
            snd (sameCrcLoop steps st path cl crc out) = Done fl st' ->
            new <> []).
Proof.
  induction steps as [|steps IH]; intros st path cl crc out V Hcl Hcrc;
    cbn [sameCrcLoop].
  - exists []. rewrite app_nil_r. cbn [fst snd].
    split; [reflexivity|]. split; [constructor | discriminate].
  - destruct (parseModule st path cl crc) as [[[m fl] st1]|] eqn:R.
    2:{ exists []. rewrite app_nil_r. cbn [fst snd].
        split; [reflexivity|]. split; [constructor | discriminate]. }
    pose proof (parseModule_shaped _ _ _ _ _ _ _ Hcl Hcrc R) as Sm.
    rewrite V in Sm.
    destruct (parseModule_stages _ _ _ _ _ _ _ R) as [_ (X & _)].
    destruct (hasBit fl IDASIG_PARSE_MORE_MODULES_WITH_SAME_CRC).
    + destruct (IH st1 path cl crc (out ++ [m])) as (new & E & F & N);
        [rewrite (ext_version _ _ X); exact V | exact Hcl | exact Hcrc |].
      exists (m :: new). rewrite E, <- app_assoc.
      split; [reflexivity|].
      split; [constructor; assumption | discriminate].
    + exists [m]. cbn [fst snd]. split; [reflexivity|].
      split; [constructor; auto | discriminate].
Qed.

Lemma leafLoop_appends (steps : nat) :
  forall st path out,
    version st = ver ->
    exists new,
      fst (leafLoop steps st path out) = out ++ new
      /\ Forall (fun m => moduleShaped ver m /\ patternPath m = path) new
      /\ (forall u st',
            snd (leafLoop steps st path out) = Done u st' -> new <> []).
Proof.
  induction steps as [|steps IH]; intros st path out V; cbn [leafLoop].
  - exists []. rewrite app_nil_r. cbn [fst snd].
    split; [reflexivity|]. split; [constructor | discriminate].
  - assert (Z0 : exists new : list FlirtModule,
               out = out ++ new
               /\ Forall (fun m => moduleShaped ver m /\ patternPath m = path) new)
      by (exists []; rewrite app_nil_r; split; [reflexivity | constructor]).
    destruct (readByte st) as [cl st1] eqn:R1.
    destruct (stopped st1) eqn:L1.
    { destruct Z0 as (new & E & F). exists new. cbn [fst snd].
      split; [exact E|]. split; [exact F | discriminate]. }
    destruct (readShortBE st1) as [crc st2] eqn:R2.
    destruct (stopped st2) eqn:L2.
    { destruct Z0 as (new & E & F). exists new. cbn [fst snd].
      split; [exact E|]. split; [exact F | discriminate]. }
    pose proof (readByte_extends _ _ _ R1) as X1.
    pose proof (readShortBE_extends _ _ _ R2) as X2.
    assert (V2 : version st2 = ver)
      by (rewrite (ext_version _ _ X2), (ext_version _ _ X1); exact V).
    assert (Hcrc : 0 <= crc <= 0xffff).
    { destruct (readShortBE_unfold st1) as (r & s1 & b & s2 & _ & _ & R).
      rewrite R in R2. inversion R2; subst. apply u16_max. }
    destruct (sameCrcLoop_appends (stepsFor st2) st2 path cl crc out V2
                (readByte_value _ _ _ R1) Hcrc) as (new1 & E1 & F1 & N1).
    destruct (sameCrcLoop (stepsFor st2) st2 path cl crc out)
      as [out1 [fl st3| |]] eqn:R3; cbn [fst snd] in *.
    + pose proof (sameCrcLoop_done _ _ _ _ _ _ _ _ _ R3) as (X3 & _).
      destruct (hasBit fl IDASIG_PARSE_MORE_MODULES).
      * destruct (IH st3 path out1) as (new2 & E2 & F2 & N2);
          [rewrite (ext_version _ _ X3); exact V2|].
        exists (new1 ++ new2). rewrite E2, E1, <- app_assoc.
        split; [reflexivity|].
        split; [apply Forall_app; auto|].
        intros u st' _ Hn. apply app_eq_nil in Hn. destruct Hn as [Hn _].
        exact (N1 fl st3 eq_refl Hn).
      * exists new1. cbn [fst snd]. split; [exact E1|].
        split; [exact F1|]. intros u st' _. exact (N1 fl st3 eq_refl).
    + exists new1. cbn [fst snd]. split; [exact E1|].
      split; [exact F1 | discriminate].
    + exists new1. cbn [fst snd]. split; [exact E1|].
      split; [exact F1 | discriminate].
Qed.

Lemma parseLeaf_appends st path out :
  version st = ver ->
  exists new,
    fst (parseLeaf st path out) = out ++ new
    /\ Forall (fun m => moduleShaped ver m /\ patternPath m = path) new
    /\ (forall st', snd (parseLeaf st path out) = Some st' -> new <> []).
Proof.
  intros V. unfold parseLeaf.
  destruct (leafLoop_appends (stepsFor st) st path out V) as (new & E & F & N).
  destruct (leafLoop (stepsFor st) st path out) as [o [u s| |]];
    cbn [fst snd] in *; exists new; (split; [exact E|]); (split; [exact F|]);
    try discriminate.
  intros st' _. exact (N u s eq_refl).
Qed.

Lemma tree_appends (steps : nat) :
  (forall st path out e,
     version st = ver ->
     exists new,
       t_modules (parseTreeSteps steps st path out e) = out ++ new
       /\ Forall (fun m => moduleShaped ver m
                           /\ startsWith path (patternPath m)) new
       /\ (forall u st',
             t_end (parseTreeSteps steps st path out e) = Done u st' ->
             new <> []
             /\ t_error (parseTreeSteps steps st path out e) = e))
  /\ (forall i n st path out e,
        version st = ver ->
        exists new,
          t_modules (treeChildren steps i n st path out e) = out ++ new
          /\ Forall (fun m => moduleShaped ver m
                              /\ startsWith path (patternPath m)) new
          /\ (forall u st',
                t_end (treeChildren steps i n st path out e) = Done u st' ->
                (i < n -> new <> [])
                /\ t_error (treeChildren steps i n st path out e) = e)).
Proof.
  assert (Z0 : forall (out : list FlirtModule) path,
             exists new : list FlirtModule,
               out = out ++ new
               /\ Forall (fun m => moduleShaped ver m
                                   /\ startsWith path (patternPath m)) new)
    by (intros out path; exists []; rewrite app_nil_r;
        split; [reflexivity | constructor]).
  induction steps as [|steps [IHt IHc]]; split.
  - intros st path out e V. cbn [parseTreeSteps t_modules t_end].
    destruct (Z0 out path) as (new & E & F). exists new.
    split; [exact E|]. split; [exact F | discriminate].
  - intros i n st path out e V. cbn [treeChildren t_modules t_end].
    destruct (Z0 out path) as (new & E & F). exists new.
    split; [exact E|]. split; [exact F | discriminate].
  - intros st path out e V. cbn [parseTreeSteps].
    pose proof (readMultipleBytes_range st) as B.
    destruct (readMultipleBytes st) as [treeNodes st1] eqn:R1. cbn [fst] in B.
    destruct (stopped st1) eqn:L1.
    { cbn [t_modules t_end]. destruct (Z0 out path) as (new & E & F).
      exists new. split; [exact E|]. split; [exact F | discriminate]. }
    pose proof (readMultipleBytes_extends _ _ _ R1) as X1.
    assert (V1 : version st1 = ver) by (rewrite (ext_version _ _ X1); exact V).
    destruct (Z.eqb_spec treeNodes 0) as [E0|E0].
    + destruct (parseLeaf_appends st1 path out V1) as (new & E & F & N).
      assert (F' : Forall (fun m => moduleShaped ver m
                                    /\ startsWith path (patternPath m)) new).
      { eapply Forall_impl; [|exact F]. intros m [A P]. split; [exact A|].
        exists []. rewrite app_nil_r. exact P. }
      destruct (parseLeaf st1 path out) as [o [s|]]; cbn [fst snd] in *;
        cbn [t_modules t_end t_error]; exists new; (split; [exact E|]);
        (split; [exact F'|]); try discriminate.
      intros u st' _. split; [exact (N s eq_refl) | reflexivity].
    + destruct (IHc 0 treeNodes st1 path out e V1) as (new & E & F & N).
      exists new. split; [exact E|]. split; [exact F|].
      intros u st' D. destruct (N u st' D) as [N1 N2].
      split; [apply N1; lia | exact N2].
  - intros i n st path out e V. cbn [treeChildren].
    destruct (Z.ltb_spec i n) as [C|C].
    2:{ cbn [t_modules t_end t_error]. destruct (Z0 out path) as (new & E & F).
        exists new. split; [exact E|]. split; [exact F|].
        intros u st' _. split; [lia | reflexivity]. }
    destruct (readNode st) as [[node st1]|] eqn:R1.
    2:{ cbn [t_modules t_end]. destruct (Z0 out path) as (new & E & F).
        exists new. split; [exact E|]. split; [exact F | discriminate]. }
    destruct (readNode_progressed _ _ _ R1) as [(X1 & _) _].
    assert (V1 : version st1 = ver) by (rewrite (ext_version _ _ X1); exact V).
    destruct (IHt st1 (path ++ [node]) out e V1) as (new1 & E1 & F1 & N1).
    assert (F1' : Forall (fun m => moduleShaped ver m
                                   /\ startsWith path (patternPath m)) new1).
    { eapply Forall_impl; [|exact F1]. intros m [A (s & P)]. split; [exact A|].
      exists ([node] ++ s). rewrite P, app_assoc. reflexivity. }
    destruct (parseTreeSteps steps st1 (path ++ [node]) out e)
      as [o e1 [u1 st2| |]] eqn:R2; cbn [t_modules t_end t_error] in *.
    + assert (X2 : extends st1 st2).
      { apply (proj1 (tree_done steps) st1 (path ++ [node]) out e u1 st2).
        rewrite R2. reflexivity. }
      destruct (N1 u1 st2 eq_refl) as [N1a N1b]. subst e1. subst o.
      destruct (IHc (i + 1) n st2 path (out ++ new1) e)
        as (new2 & E2 & F2 & N2);
        [rewrite (ext_version _ _ X2); exact V1|].
      exists (new1 ++ new2). rewrite E2, <- app_assoc.
      split; [reflexivity|]. split; [apply Forall_app; auto|].
      intros u st' D. destruct (N2 u st' D) as [_ N2b].
      split; [|exact N2b].
      intros _ Hn. apply app_eq_nil in Hn. destruct Hn as [Hn _]. auto.
    + exists new1. split; [exact E1|]. split; [exact F1' | discriminate].
    + exists new1. split; [exact E1|]. split; [exact F1' | discriminate].
Qed.

End Appended.

(** X8. The tree walker only appends, in the order it walks.  Whatever
    [parseTree] is given, the modules it leaves are those it was given
    followed by the new ones; the pattern path of every new module starts
    with the path the walker was called on; and when it returns [true] it
    has added at least one module and left the error message alone. *)
Theorem parseTree_appends (st : ParseState) (path : list FlirtPatternNode)
  (out : list FlirtModule) (e : string) :
  exists new,
    t_modules (parseTree st path out e) = out ++ new
    /\ Forall (fun m => startsWith path (patternPath m)) new
    /\ (forall u st',
          t_end (parseTree st path out e) = Done u st' ->
          new <> [] /\ t_error (parseTree st path out e) = e).
Proof.
  unfold parseTree.
  destruct (proj1 (tree_appends (version st) (stepsFor st)) st path out e
              eq_refl) as (new & E & F & N).
  exists new. split; [exact E|]. split; [|exact N].
  eapply Forall_impl; [|exact F]. intros m [_ P]. exact P.
Qed.

(** Every module of a result has the shape the module decoder gives, at
    the version of the input. *)
Lemma parse_modules_shaped (inflate : Inflater) (data : list byte) :
  Forall (moduleShaped (at_ data 6)) (modules (parse inflate data)).
Proof.
  destruct (parse_result inflate data)
    as [(_ & M & _)|(st & v & V & Vs & M & _)].
  - rewrite M. constructor.
  - rewrite M. apply versionByte_some in V. destruct V as [_ V]. subst v.
    unfold parseTree.
    destruct (proj1 (tree_appends (version st) (stepsFor st)) st [] [] ""%string
                eq_refl) as (new & E & F & _).
    rewrite E. cbn [app]. rewrite Vs in F.
    eapply Forall_impl; [|exact F]. intros m [A _]. exact A.
Qed.

(** X9. Every module [parse] reports, in a failed result too, has at least
    one public function; a function name has at most 1024 characters,
    none of them below 0x20, and may be empty; an offset is a 32-bit
    value. *)
Theorem emitted_public_functions (inflate : Inflater) (data : list byte) :
  Forall (fun m => publicFunctions m <> []
                   /\ Forall functionShaped (publicFunctions m))
    (modules (parse inflate data)).
Proof.
  eapply Forall_impl; [|exact (parse_modules_shaped inflate data)].
  intros m (_ & _ & _ & A & B & _). auto.
Qed.

(** X10. The ranges of what a module carries.  In every module [parse]
    reports, [crcLength] is a byte and [crc16] a 16-bit value; the module
    length and the offsets of the tail bytes and of the referenced
    functions are at most 0x7fff when the version of the input is below 9
    and 32-bit values otherwise; a tail byte's value is a byte. *)
Theorem emitted_field_ranges (inflate : Inflater) (data : list byte) :
  Forall (fun m =>
            0 <= crcLength m <= 255 /\ 0 <= crc16 m <= 0xffff
            /\ 0 <= moduleLength m <= offsetMax (at_ data 6)
            /\ Forall (tailByteShaped (at_ data 6)) (tailBytes m)
            /\ Forall (fun r => 0 <= rf_offset r <= offsetMax (at_ data 6))
                 (referencedFunctions m))
    (modules (parse inflate data)).
Proof.
  eapply Forall_impl; [|exact (parse_modules_shaped inflate data)].
  intros m (A & B & C & _ & _ & D & E).
  split; [exact A|]. split; [exact B|]. split; [exact C|]. split; [exact D|].
  eapply Forall_impl; [|exact E]. intros r (O & _). exact O.
Qed.

(** X11. Referenced names.  In every module [parse] reports, a referenced
    name together with the NUL that was dropped from it has at most 1023
    bytes, and a name whose [negativeOffset] is clear does not end with a
    NUL: the flag is set exactly by a trailing NUL, and only one is
    dropped. *)
Theorem emitted_referenced_names (inflate : Inflater) (data : list byte) :
  Forall (fun m =>
            Forall (fun r =>
                      (String.length (rf_name r)
                       + (if negativeOffset r then 1 else 0) <= 1023)%nat
                      /\ (negativeOffset r = false ->
                          last (list_byte_of_string (rf_name r)) x01 <> x00))
              (referencedFunctions m))
    (modules (parse inflate data)).
Proof.
  eapply Forall_impl; [|exact (parse_modules_shaped inflate data)].
  intros m (_ & _ & _ & _ & _ & _ & E).
  eapply Forall_impl; [|exact E]. intros r (_ & A). exact A.
Qed.

(** A successful parse is a tree walk that returned [true], on an input
    that passed the gate and holds its header. *)
Lemma parse_success_inv (inflate : Inflater) (data : list byte) :
  success (parse inflate data) = true ->
  fst (isFlirt data) = true
  /\ headerSize data <= Z.of_nat (List.length data)
  /\ exists st u st',
       t_end (parseTree st [] [] "") = Done u st'
       /\ modules (parse inflate data) = t_modules (parseTree st [] [] "")
       /\ errorMessage (parse inflate data)
          = t_error (parseTree st [] [] "").
Proof.
  intros S.
  assert (F : fst (isFlirt data) = true).
  { destruct (fst (isFlirt data)) eqn:F; [reflexivity|].
    unfold parse in S. destruct (isFlirt data) as [flirt ov].
    cbn [fst] in F. subst flirt. discriminate. }
  assert (H : headerSize data <= Z.of_nat (List.length data)).
  { destruct (Z.le_gt_cases (headerSize data) (Z.of_nat (List.length data)))
      as [H|H]; [exact H|].
    destruct (isFlirt_accepts data F) as (E & M & V & L).
    destruct (parseHeader_truncated data M V L) as (st' & r' & P & A & _);
      [lia|].
    unfold parse in S. rewrite E in S. cbn [negb] in S. rewrite P in S.
    congruence. }
  split; [exact F|]. split; [exact H|].
  rewrite (parse_after_header inflate data F H) in *. cbv zeta in *.
  destruct (decompressionGate inflate _ _) as [msg|st]; [discriminate|].
  exists st. unfold afterTree in *.
  destruct (t_end (parseTree st [] [] "")) as [u s| |] eqn:D;
    try discriminate.
  exists u, s. auto.
Qed.

(** A walk from the root that returns [true] has added a module and left
    the message empty. *)
Lemma parseTree_done_root st u st' :
  t_end (parseTree st [] [] "") = Done u st' ->
  t_modules (parseTree st [] [] "") <> []
  /\ t_error (parseTree st [] [] "") = ""%string.
Proof.
  unfold parseTree. intros D.
  destruct (proj1 (tree_appends (version st) (stepsFor st)) st [] [] ""%string
              eq_refl) as (new & E & _ & N).
  destruct (N u st' D) as [N1 N2]. rewrite E. auto.
Qed.

(** X12. What a successful result looks like.  When [parse] reports
    success the input passed the gate and holds its whole header, the
    error message is empty, and there is at least one module. *)
Theorem parse_success_shape (inflate : Inflater) (data : list byte) :
  success (parse inflate data) = true ->
  fst (isFlirt data) = true
  /\ headerSize data <= Z.of_nat (List.length data)
  /\ errorMessage (parse inflate data) = ""%string
  /\ modules (parse inflate data) <> [].
Proof.
  intros S.
  destruct (parse_success_inv inflate data S)
    as (F & H & st & u & st' & D & M & E).
  destruct (parseTree_done_root st u st' D) as [N1 N2].
  split; [exact F|]. split; [exact H|].
  rewrite E, M. auto.
Qed.

Lemma parse_success_shape_witness :
  let data := sigFile 5 [0; 4; 0x12; 0x34; 5; 8; 0x66; 0x6f; 0x6f; 0] in
  errorMessage (parse None data) = ""%string
  /\ modules (parse None data) <> [].
Proof.
  intros data.
  exact (proj2 (proj2 (parse_success_shape None data
                         ltac:(vm_compute; reflexivity)))).
Defined.

(** ** Pattern nodes under any variant mask *)

Lemma land_pow2 (m k : Z) :
  0 <= k -> Z.land m (2 ^ k) = if Z.testbit m k then 2 ^ k else 0.
Proof.
  intros Hk. apply Z.bits_inj'. intros n Hn.
  rewrite Z.land_spec, Z.pow2_bits_eqb by exact Hk.
  destruct (Z.eqb_spec k n) as [->|Hne].
  - destruct (Z.testbit m n) eqn:T.
    + rewrite Z.pow2_bits_true by exact Hn. reflexivity.
    + rewrite Z.bits_0. reflexivity.
  - rewrite andb_false_r. destruct (Z.testbit m k).
    + rewrite Z.pow2_bits_false by lia. reflexivity.
    + rewrite Z.bits_0. reflexivity.
Qed.

Lemma hasBit_pow2 (m k : Z) : 0 <= k -> hasBit m (2 ^ k) = Z.testbit m k.
Proof.
  intros Hk. unfold hasBit. rewrite land_pow2 by exact Hk.
  assert (0 < 2 ^ k) by (apply Z.pow_pos_nonneg; lia).
  destruct (Z.testbit m k); [|reflexivity].
  destruct (Z.eqb_spec (2 ^ k) 0); [lia | reflexivity].
Qed.

Lemma shiftr_pow2 (k : Z) : 0 < k -> Z.shiftr (2 ^ k) 1 = 2 ^ (k - 1).
Proof.
  intros H. rewrite <- !Z.shiftl_1_l. apply Z.shiftr_shiftl_l. lia.
Qed.

Lemma at_head (x : byte) (a : list byte) : at_ (x :: a) 0 = byteVal x.
Proof. reflexivity. Qed.

Lemma nodeBytesLoop_mask (n : nat) :
  forall bit mask st pb vm st',
    ((0 < n)%nat -> bit = 2 ^ (Z.of_nat n - 1)) ->
    nodeBytesLoop n bit mask st = Some (pb, vm, st') ->
    forall i, 0 <= i < Z.of_nat n ->
      at_ vm i = (if Z.testbit mask (Z.of_nat n - 1 - i) then 1 else 0)
      /\ (Z.testbit mask (Z.of_nat n - 1 - i) = true -> at_ pb i = 0).
Proof.
  induction n as [|n IH]; intros bit mask st pb vm st' Hb H i Hi; [lia|].
  cbn [nodeBytesLoop] in H.
  assert (B : bit = 2 ^ Z.of_nat n).
  { rewrite Hb by lia. f_equal. lia. }
  assert (Hb' : (0 < n)%nat -> Z.shiftr bit 1 = 2 ^ (Z.of_nat n - 1)).
  { intros Hn. rewrite B. apply shiftr_pow2. lia. }
  rewrite B, hasBit_pow2 in H by lia.
  replace (Z.of_nat (S n) - 1 - i) with (Z.of_nat n - i) by lia.
  destruct (Z.testbit mask (Z.of_nat n)) eqn:T.
  - destruct (nodeBytesLoop n (Z.shiftr (2 ^ Z.of_nat n) 1) mask st)
      as [[[pb1 vm1] st1]|] eqn:R; [|discriminate].
    inversion H; subst pb vm st1. clear H.
    destruct (Z.eq_dec i 0) as [->|Hne].
    + rewrite Z.sub_0_r, T, !at_head. split; [reflexivity | reflexivity].
    + rewrite !at_cons_S by lia. rewrite <- B in R.
      destruct (IH _ _ _ _ _ _ Hb' R (i - 1)) as [A1 A2]; [lia|].
      replace (Z.of_nat n - 1 - (i - 1)) with (Z.of_nat n - i) in * by lia.
      auto.
  - destruct (stopped st); [discriminate|].
    destruct (readByte st) as [b st1].
    destruct (nodeBytesLoop n (Z.shiftr (2 ^ Z.of_nat n) 1) mask st1)
      as [[[pb1 vm1] st2]|] eqn:R; [|discriminate].
    inversion H; subst pb vm st2. clear H.
    destruct (Z.eq_dec i 0) as [->|Hne].
    + rewrite Z.sub_0_r, T, !at_head. split; [reflexivity | discriminate].
    + rewrite !at_cons_S by lia. rewrite <- B in R.
      destruct (IH _ _ _ _ _ _ Hb' R (i - 1)) as [A1 A2]; [lia|].
      replace (Z.of_nat n - 1 - (i - 1)) with (Z.of_nat n - i) in * by lia.
      auto.
Qed.

Lemma nodeBytesLoop_stream (n : nat) :
  forall bit mask st pb vm st',
    nodeBytesLoop n bit mask st = Some (pb, vm, st') ->
    eofSound st -> 0 <= pos st -> live st' ->
    concreteBytes (mkNode pb vm) = mid (body st) (pos st) (pos st' - pos st)
    /\ pos st <= pos st'.
Proof.
  induction n as [|n IH]; intros bit mask st pb vm st' H S H0 L;
    cbn [nodeBytesLoop] in H.
  - inversion H; subst. rewrite Z.sub_diag. split; [reflexivity | lia].
  - destruct (hasBit mask bit).
    + destruct (nodeBytesLoop n (Z.shiftr bit 1) mask st)
        as [[[pb1 vm1] st1]|] eqn:R; [|discriminate].
      inversion H; subst pb vm st1. clear H.
      destruct (IH _ _ _ _ _ _ R S H0 L) as [A B].
      split; [|exact B]. rewrite <- A. reflexivity.
    + destruct (stopped st); [discriminate|].
      destruct (readByte st) as [b st1] eqn:R1.
      destruct (nodeBytesLoop n (Z.shiftr bit 1) mask st1)
        as [[[pb1 vm1] st2]|] eqn:R; [|discriminate].
      inversion H; subst pb vm st2. clear H.
      pose proof (readByte_sound _ _ _ R1) as S1.
      destruct (nodeBytesLoop_shape _ _ _ _ _ _ _ R) as (X & _ & _).
      pose proof (live_back _ _ X S1 L) as L1.
      destruct (readByte_live _ _ _ R1 S L1) as (_ & P & Eb & E1).
      subst st1 b.
      destruct (IH _ _ _ _ _ _ R S1) as [A B];
        [cbn [pos setPos]; lia | exact L|].
      cbn [pos setPos body] in A, B.
      split; [|lia].
      change (concreteBytes (mkNode (toChar (at_ (body st) (pos st)) :: pb1)
                               (x00 :: vm1)))
        with (toChar (at_ (body st) (pos st)) :: concreteBytes (mkNode pb1 vm1)).
      rewrite A.
      replace (pos st' - pos st) with (pos st' - (pos st + 1) + 1) by lia.
      apply mid_cons; [unfold size in P; lia | lia].
Qed.

Lemma nodeBytesLoop_agree (n : nat) :
  forall bit m1 m2 st,
    ((0 < n)%nat -> bit = 2 ^ (Z.of_nat n - 1)) ->
    (forall k, 0 <= k < Z.of_nat n -> Z.testbit m1 k = Z.testbit m2 k) ->
    nodeBytesLoop n bit m1 st = nodeBytesLoop n bit m2 st.
Proof.
  induction n as [|n IH]; intros bit m1 m2 st Hb Hk; [reflexivity|].
  cbn [nodeBytesLoop].
  assert (B : bit = 2 ^ Z.of_nat n).
  { rewrite Hb by lia. f_equal. lia. }
  assert (Hb' : (0 < n)%nat -> Z.shiftr bit 1 = 2 ^ (Z.of_nat n - 1)).
  { intros Hn. rewrite B. apply shiftr_pow2. lia. }
  assert (Hk' : forall k, 0 <= k < Z.of_nat n -> Z.testbit m1 k = Z.testbit m2 k)
    by (intros k Hk0; apply Hk; lia).
  assert (T : hasBit m1 bit = hasBit m2 bit).
  { rewrite B, !hasBit_pow2 by lia. apply Hk. lia. }
  rewrite T. destruct (hasBit m2 bit).
  - rewrite (IH _ m1 m2 st Hb' Hk'). reflexivity.
  - destruct (stopped st); [reflexivity|].
    destruct (readByte st) as [b st1].
    rewrite (IH _ m1 m2 st1 Hb' Hk'). reflexivity.
Qed.

(** X13. The geometry of a node under any variant mask.  When
    [readNodeBytes] returns a node of length [L], byte [i] of its mask is 1
    when bit [L - 1 - i] of [variantMask] is set and 0 otherwise, and a
    variant byte is stored as 0.  When the reader is left live, the
    concrete bytes are, in order, the bytes taken from the stream: one byte
    is consumed for each clear bit and none for a set one. *)
Theorem node_mask_geometry (st : ParseState) (L mask : Z)
  (node : FlirtPatternNode) (st' : ParseState) :
  readNodeBytes st L mask = Some (node, st') ->
  Z.of_nat (nodeLen node) = L
  /\ List.length (variantMask node) = nodeLen node
  /\ (forall i, 0 <= i < L ->
        at_ (variantMask node) i
        = (if Z.testbit mask (L - 1 - i) then 1 else 0)
        /\ (Z.testbit mask (L - 1 - i) = true ->
            at_ (patternBytes node) i = 0))
  /\ (eofSound st -> 0 <= pos st -> live st' ->
      concreteBytes node = mid (body st) (pos st) (pos st' - pos st)
      /\ pos st <= pos st').
Proof.
  unfold readNodeBytes. intros H.
  destruct ((63 <? L) || (L <=? 0)) eqn:E; [discriminate|].
  apply orb_false_elim in E. destruct E as [E1 E2].
  apply Z.ltb_ge in E1. apply Z.leb_gt in E2.
  destruct (nodeBytesLoop _ _ _ _) as [[[pb vm] st1]|] eqn:R; [|discriminate].
  inversion H; subst node st1. clear H.
  destruct (nodeBytesLoop_shape _ _ _ _ _ _ _ R) as (_ & A & B).
  unfold nodeLen. cbn [patternBytes variantMask].
  split; [lia|]. split; [congruence|]. split.
  - intros i Hi.
    assert (Hb : (0 < Z.to_nat L)%nat ->
                 Z.shiftl 1 (L - 1) = 2 ^ (Z.of_nat (Z.to_nat L) - 1)).
    { intros _. rewrite Z.shiftl_1_l. f_equal. lia. }
    destruct (nodeBytesLoop_mask _ _ _ _ _ _ _ Hb R i) as [M1 M2]; [lia|].
    replace (Z.of_nat (Z.to_nat L) - 1 - i) with (L - 1 - i) in * by lia.
    auto.
  - intros S H0 Lv. exact (nodeBytesLoop_stream _ _ _ _ _ _ _ R S H0 Lv).
Qed.

Lemma node_mask_geometry_witness :
  let st := startState [x41; x42; x43] 7 in
  let node := mkNode [x41; x00; x42; x00] [x00; x01; x00; x01] in
  let st' := mkState [x41; x42; x43] 2 7 false false in
  Z.of_nat (nodeLen node) = 4
  /\ List.length (variantMask node) = nodeLen node
  /\ (forall i, 0 <= i < 4 ->
        at_ (variantMask node) i = (if Z.testbit 5 (4 - 1 - i) then 1 else 0)
        /\ (Z.testbit 5 (4 - 1 - i) = true -> at_ (patternBytes node) i = 0))
  /\ (eofSound st -> 0 <= pos st -> live st' ->
      concreteBytes node = mid (body st) (pos st) (pos st' - pos st)
      /\ pos st <= pos st').
Proof.
  exact (node_mask_geometry (startState [x41; x42; x43] 7) 4 5
           (mkNode [x41; x00; x42; x00] [x00; x01; x00; x01])
           (mkState [x41; x42; x43] 2 7 false false) eq_refl).
Defined.

(** X14. Mask bits at or above the node length are never looked at: a
    node is decoded the same way from a mask and from its low [nodeLen]
    bits. *)
Theorem readNodeBytes_ignores_high_bits (st : ParseState) (L mask : Z) :
  readNodeBytes st L mask = readNodeBytes st L (mask mod 2 ^ L).
Proof.
  unfold readNodeBytes.
  destruct ((63 <? L) || (L <=? 0)) eqn:E; [reflexivity|].
  apply orb_false_elim in E. destruct E as [E1 E2].
  apply Z.ltb_ge in E1. apply Z.leb_gt in E2.
  rewrite (nodeBytesLoop_agree (Z.to_nat L) (Z.shiftl 1 (L - 1)) mask
             (mask mod 2 ^ L) st); [reflexivity| |].
  - intros _. rewrite Z.shiftl_1_l. f_equal. lia.
  - intros k Hk. rewrite Z.mod_pow2_bits_low by lia. reflexivity.
Qed.

(** ** The hex rendering *)

Lemma string_app_assoc (a b c : string) :
  ((a ++ b) ++ c)%string = (a ++ (b ++ c))%string.
Proof. induction a as [|x a IH]; simpl; [reflexivity | now rewrite IH]. Qed.

Lemma concat_space (x : string) (l : list string) :
  String.concat " " (x :: l)
  = (x ++ String.concat "" (map (fun s => " " ++ s) l))%string.
Proof.
  revert x. induction l as [|y l IH]; intros x.
  - simpl. now rewrite string_append_nil_r.
  - change (String.concat " " (x :: y :: l))
      with (x ++ " " ++ String.concat " " (y :: l))%string.
    rewrite IH. cbn [map]. rewrite concat_empty_cons, string_app_assoc.
    reflexivity.
Qed.

Lemma toHexString_nonempty (n : FlirtPatternNode) :
  patternBytes n <> [] -> toHexString n <> ""%string.
Proof.
  intros H E. pose proof (toHexString_length n) as L. rewrite E in L.
  unfold nodeLen in L. destruct (patternBytes n); [congruence | simpl in L; lia].
Qed.

Lemma patternPathHex_fold_join (l : list FlirtPatternNode) :
  forall out,
    out <> ""%string ->
    fold_left
      (fun out n =>
         ((if isEmpty out then out else out ++ " ") ++ toHexString n)%string)
      l out
    = (out ++ String.concat ""
                (map (fun s => " " ++ s) (map toHexString l)))%string.
Proof.
  induction l as [|n l IH]; intros out Hne.
  - simpl. now rewrite string_append_nil_r.
  - cbn [fold_left map]. destruct out as [|c out]; [congruence|].
    cbn [isEmpty]. rewrite IH by (simpl; discriminate).
    rewrite concat_empty_cons, !string_app_assoc. reflexivity.
Qed.

(** X15. [patternPathHex] is the renderings of the nodes joined by single
    spaces, for a path none of whose nodes is empty (the node decoder
    builds no empty node). *)
Theorem patternPathHex_join (m : FlirtModule) :
  Forall (fun n => patternBytes n <> []) (patternPath m) ->
  patternPathHex m = String.concat " " (map toHexString (patternPath m)).
Proof.
  unfold patternPathHex. destruct (patternPath m) as [|n l]; [reflexivity|].
  intros F. inversion F as [|? ? Hn _]; subst.
  cbn [fold_left isEmpty append map].
  rewrite patternPathHex_fold_join by (apply toHexString_nonempty; exact Hn).
  rewrite concat_space. reflexivity.
Qed.

Lemma patternPathHex_join_witness :
  patternPathHex
    (mkModule [mkNode [x41] [x00]; mkNode [x00; x42] [x01; x00]] 0 0 0 [] [] [])
  = "41 ..42"%string.
Proof.
  exact (patternPathHex_join
           (mkModule [mkNode [x41] [x00]; mkNode [x00; x42] [x01; x00]]
              0 0 0 [] [] [])
           ltac:(repeat constructor; discriminate)).
Defined.

Lemma byteVal_inj (a b : byte) : byteVal a = byteVal b -> a = b.
Proof.
  intros H. rewrite <- (toChar_byteVal a), <- (toChar_byteVal b), H.
  reflexivity.
Qed.

Lemma hexByte_inj (v w : Z) :
  0 <= v <= 255 -> 0 <= w <= 255 -> hexByte v = hexByte w -> v = w.
Proof.
  intros Hv Hw E.
  destruct (hexByte_digits v Hv) as (a & b & E1 & A1 & B1).
  destruct (hexByte_digits w Hw) as (a' & b' & E2 & A2 & B2).
  rewrite E1, E2 in E. inversion E; subst a' b'.
  assert (Q : v / 16 = w / 16) by congruence.
  assert (R : v mod 16 = w mod 16) by congruence.
  rewrite (Z.div_mod v 16), (Z.div_mod w 16) by lia. congruence.
Qed.

Lemma isVariant_nth (n : FlirtPatternNode) (i : nat) :
  List.length (variantMask n) = List.length (patternBytes n) ->
  (i < List.length (patternBytes n))%nat ->
  isVariant n i = negb (byteVal (nth i (variantMask n) x00) =? 0).
Proof.
  intros L Hi. unfold isVariant, at_. rewrite Nat2Z.id.
  assert (E : (Z.of_nat i <? Z.of_nat (List.length (variantMask n))) = true)
    by (apply Z.ltb_lt; lia).
  rewrite E. reflexivity.
Qed.

Lemma toHexString_canonical_inj (n1 n2 : FlirtPatternNode) :
  nodeCanonical n1 -> nodeCanonical n2 ->
  toHexString n1 = toHexString n2 -> n1 = n2.
Proof.
  intros [L1 C1] [L2 C2] E.
  assert (Ln : List.length (patternBytes n1) = List.length (patternBytes n2)).
  { pose proof (toHexString_length n1) as A.
    pose proof (toHexString_length n2) as B.
    rewrite E in A. unfold nodeLen in *. lia. }
  assert (Cell : forall i, (i < List.length (patternBytes n1))%nat ->
                           hexCell n1 i = hexCell n2 i).
  { intros i Hi. rewrite <- !toHexString_cell by (unfold nodeLen; lia).
    rewrite E. reflexivity. }
  assert (K : forall i, (i < List.length (patternBytes n1))%nat ->
              nth i (variantMask n1) x00 = nth i (variantMask n2) x00
              /\ nth i (patternBytes n1) x00 = nth i (patternBytes n2) x00).
  { intros i Hi. specialize (Cell i Hi).
    pose proof (isVariant_nth n1 i L1 Hi) as V1.
    pose proof (isVariant_nth n2 i L2 ltac:(lia)) as V2.
    unfold hexCell in Cell.
    destruct (C1 i Hi) as [M1|[M1 P1]];
      destruct (C2 i ltac:(lia)) as [M2|[M2 P2]];
      rewrite M1 in V1; rewrite M2 in V2;
      change (negb (byteVal x00 =? 0)) with false in *;
      change (negb (byteVal x01 =? 0)) with true in *;
      rewrite V1, V2 in Cell.
    - split; [congruence|]. apply byteVal_inj.
      apply hexByte_inj in Cell; [|apply at_range|apply at_range].
      unfold at_ in Cell. rewrite Nat2Z.id in Cell. exact Cell.
    - exfalso. exact (hexByte_not_dots _ Cell).
    - exfalso. symmetry in Cell. exact (hexByte_not_dots _ Cell).
    - split; congruence. }
  destruct n1 as [pb1 vm1], n2 as [pb2 vm2].
  cbn [patternBytes variantMask] in *. f_equal.
  - apply (nth_ext _ _ x00 x00); [exact Ln|]. intros i Hi. apply K. exact Hi.
  - apply (nth_ext _ _ x00 x00); [lia|]. intros i Hi. apply K. lia.
Qed.

Lemma nodeBytesLoop_canonical (n : nat) :
  forall bit mask st pb vm st',
    nodeBytesLoop n bit mask st = Some (pb, vm, st') ->
    forall i, (i < n)%nat ->
      nth i vm x00 = x00 \/ nth i vm x00 = x01 /\ nth i pb x00 = x00.
Proof.
  induction n as [|n IH]; intros bit mask st pb vm st' H i Hi; [lia|].
  cbn [nodeBytesLoop] in H. destruct (hasBit mask bit).
  - destruct (nodeBytesLoop n (Z.shiftr bit 1) mask st)
      as [[[pb1 vm1] st1]|] eqn:R; [|discriminate].
    inversion H; subst pb vm st1. clear H.
    destruct i as [|i]; [right; split; reflexivity|].
    cbn [nth]. apply (IH _ _ _ _ _ _ R). lia.
  - destruct (stopped st); [discriminate|].
    destruct (readByte st) as [b st1].
    destruct (nodeBytesLoop n (Z.shiftr bit 1) mask st1)
      as [[[pb1 vm1] st2]|] eqn:R; [|discriminate].
    inversion H; subst pb vm st2. clear H.
    destruct i as [|i]; [left; reflexivity|].
    cbn [nth]. apply (IH _ _ _ _ _ _ R). lia.
Qed.

Lemma readNodeBytes_canonical st L mask node st' :
  readNodeBytes st L mask = Some (node, st') -> nodeCanonical node.
Proof.
  unfold readNodeBytes. intros H.
  destruct ((63 <? L) || (L <=? 0)); [discriminate|].
  destruct (nodeBytesLoop _ _ _ _) as [[[pb vm] st1]|] eqn:R; [|discriminate].
  inversion H; subst node st1. clear H.
  destruct (nodeBytesLoop_shape _ _ _ _ _ _ _ R) as (_ & A & B).
  split; cbn [patternBytes variantMask]; [congruence|].
  intros i Hi. apply (nodeBytesLoop_canonical _ _ _ _ _ _ _ R). lia.
Qed.

(** X16. The hex rendering loses nothing.  Two nodes returned by
    [readNodeBytes] (from any states, lengths and masks) that render to
    the same text are the same node: the text gives back the length, the
    variant positions and the concrete bytes. *)
Theorem toHexString_faithful (st1 st2 : ParseState) (L1 L2 mask1 mask2 : Z)
  (n1 n2 : FlirtPatternNode) (st1' st2' : ParseState) :
  readNodeBytes st1 L1 mask1 = Some (n1, st1') ->
  readNodeBytes st2 L2 mask2 = Some (n2, st2') ->
  toHexString n1 = toHexString n2 -> n1 = n2.
Proof.
  intros H1 H2. apply toHexString_canonical_inj.
  - exact (readNodeBytes_canonical _ _ _ _ _ H1).
  - exact (readNodeBytes_canonical _ _ _ _ _ H2).
Qed.

Lemma toHexString_faithful_witness :
  mkNode [x41; x00] [x00; x01] = mkNode [x41; x00] [x00; x01].
Proof.
  exact (toHexString_faithful
           (startState [x41; x42] 7) (startState [x41] 9) 2 2 1 0xf1
           (mkNode [x41; x00] [x00; x01]) (mkNode [x41; x00] [x00; x01])
           (mkState [x41; x42] 1 7 false false)
           (mkState [x41] 1 9 false false)
           eq_refl eq_refl eq_refl).
Defined.

(** ** The flattened function list and the functions table *)

Lemma allFunctionsFrom_functions (ms : list FlirtModule) :
  forall mi,
    map function (allFunctionsFrom mi ms) = List.concat (map publicFunctions ms).
Proof.
  induction ms as [|m ms IH]; intros mi; [reflexivity|].
  cbn [allFunctionsFrom map List.concat]. rewrite map_app, map_map, IH.
  cbn [function]. rewrite map_id. reflexivity.
Qed.

Lemma allFunctionsFrom_entries (ms : list FlirtModule) :
  forall mi,
    Forall (fun e =>
              mi <= moduleIndex e
              /\ nth_error ms (Z.to_nat (moduleIndex e - mi)) = Some (module e)
              /\ In (function e) (publicFunctions (module e)))
      (allFunctionsFrom mi ms).
Proof.
  induction ms as [|m ms IH]; intros mi; [constructor|].
  cbn [allFunctionsFrom]. apply Forall_app. split.
  - apply Forall_forall. intros e He. apply in_map_iff in He.
    destruct He as (f & <- & Hf). cbn [moduleIndex module function].
    rewrite Z.sub_diag. split; [lia|]. split; [reflexivity | exact Hf].
  - eapply Forall_impl; [|exact (IH (mi + 1))].
    intros e (A & B & C). split; [lia|]. split; [|exact C].
    replace (Z.to_nat (moduleIndex e - mi))
      with (S (Z.to_nat (moduleIndex e - (mi + 1)))) by lia.
    exact B.
Qed.

Lemma allFunctionsFrom_sorted (ms : list FlirtModule) :
  forall mi, nondecreasing (map moduleIndex (allFunctionsFrom mi ms)).
Proof.
  assert (Cons : forall x l, Forall (fun y => x <= y) l -> nondecreasing l ->
                             nondecreasing (x :: l)).
  { intros x l F N. cbn [nondecreasing]. split; [|exact N].
    destruct l as [|y l]; [exact I|]. inversion F; assumption. }
  induction ms as [|m ms IH]; intros mi; [exact I|].
  cbn [allFunctionsFrom]. rewrite map_app, map_map. cbn [moduleIndex].
  assert (F : Forall (fun y => mi <= y)
                (map moduleIndex (allFunctionsFrom (mi + 1) ms))).
  { apply Forall_forall. intros y Hy. apply in_map_iff in Hy.
    destruct Hy as (e & <- & He).
    pose proof (allFunctionsFrom_entries ms (mi + 1)) as A.
    rewrite Forall_forall in A. destruct (A e He) as (B & _). lia. }
  induction (publicFunctions m) as [|f fs IHf]; [exact (IH (mi + 1))|].
  cbn [map app]. apply Cons; [|exact IHf].
  apply Forall_app. split; [|exact F].
  apply Forall_forall. intros y Hy. apply in_map_iff in Hy.
  destruct Hy as (? & <- & _). lia.
Qed.

(** X17. The flattened list.  [allFunctions] lists the public functions of
    the modules in module order and, within a module, in their own order;
    every entry carries the index of its module, the module at that index
    and a function of that module, and the indices never decrease. *)
Theorem allFunctions_entries (r : FlirtResult) :
  map function (allFunctions r) = List.concat (map publicFunctions (modules r))
  /\ Forall (fun e =>
               0 <= moduleIndex e
               /\ nth_error (modules r) (Z.to_nat (moduleIndex e))
                  = Some (module e)
               /\ In (function e) (publicFunctions (module e)))
       (allFunctions r)
  /\ nondecreasing (map moduleIndex (allFunctions r)).
Proof.
  unfold allFunctions. split; [apply allFunctionsFrom_functions|]. split.
  - eapply Forall_impl; [|exact (allFunctionsFrom_entries (modules r) 0)].
    intros e (A & B & C). rewrite Z.sub_0_r in B. auto.
  - apply allFunctionsFrom_sorted.
Qed.

Lemma allFunctionsFrom_length (ms : list FlirtModule) :
  forall mi,
    Forall (fun m => publicFunctions m <> []) ms ->
    (List.length ms <= List.length (allFunctionsFrom mi ms))%nat.
Proof.
  induction ms as [|m ms IH]; intros mi F; [simpl; lia|].
  inversion F as [|? ? Hm Fm]; subst.
  cbn [allFunctionsFrom]. rewrite length_app, length_map.
  specialize (IH (mi + 1) Fm).
  destruct (publicFunctions m); [congruence | simpl; lia].
Qed.

Lemma parse_rows (inflate : Inflater) (data : list byte) :
  success (parse inflate data) = true ->
  (1 <= List.length (modules (parse inflate data))
   <= List.length (functionRows (parse inflate data)))%nat.
Proof.
  intros S. unfold functionRows. rewrite S. cbn [negb].
  rewrite length_map. unfold allFunctions.
  destruct (parse_success_inv inflate data S)
    as (_ & _ & st & u & st' & D & M & _).
  assert (N : modules (parse inflate data) <> [])
    by (rewrite M; exact (proj1 (parseTree_done_root st u st' D))).
  split; [destruct (modules (parse inflate data)); [congruence | simpl; lia]|].
  apply allFunctionsFrom_length.
  eapply Forall_impl; [|exact (parse_modules_shaped inflate data)].
  intros m (_ & _ & _ & A & _). exact A.
Qed.

(** X18. The functions table after a parse.  The table built from the
    result of [parse] has a row exactly when the parse succeeded, and then
    it has at least one row for each module: the modules that a failed
    parse leaves in its result are not shown. *)
Theorem functionRows_parse (inflate : Inflater) (data : list byte) :
  (success (parse inflate data) = true
   <-> functionRows (parse inflate data) <> [])
  /\ (success (parse inflate data) = true ->
      (1 <= List.length (modules (parse inflate data))
       <= List.length (functionRows (parse inflate data)))%nat).
Proof.
  split; [|apply parse_rows]. split.
  - intros S E. pose proof (parse_rows inflate data S) as L.
    rewrite E in L. simpl in L. lia.
  - intros N. destruct (success (parse inflate data)) eqn:S; [reflexivity|].
    exfalso. apply N. unfold functionRows. rewrite S. reflexivity.
Qed.

(** ** Display helpers *)

Lemma forallb_range (P : Z -> bool) (a : Z) :
  forallb P archCodes = true -> 0 <= a <= 255 -> P a = true.
Proof.
  intros H Ha. rewrite forallb_forall in H. apply H.
  unfold archCodes. apply in_map_iff. exists (Z.to_nat a).
  split; [lia|]. apply in_seq. lia.
Qed.

(** X19. No two architecture codes are shown under the same name: on the
    256 values of [arch], [archToString] is one to one. *)
Theorem archToString_injective (a b : Z) :
  0 <= a <= 255 -> 0 <= b <= 255 ->
  archToString a = archToString b -> a = b.
Proof.
  intros Ha Hb E.
  assert (D : distinctNames archCodes = true) by (vm_compute; reflexivity).
  unfold distinctNames in D.
  pose proof (forallb_range _ a D Ha) as Da. cbv beta in Da.
  pose proof (forallb_range _ b Da Hb) as Dab. cbv beta in Dab.
  rewrite E, String.eqb_refl in Dab. simpl in Dab. apply Z.eqb_eq. exact Dab.
Qed.

Lemma archToString_injective_witness : 13 = 13.
Proof.
  exact (archToString_injective 13 13 ltac:(lia) ltac:(lia) eq_refl).
Defined.

Lemma hasBit_land (x k m : Z) :
  Z.land k m = m -> hasBit (Z.land x k) m = hasBit x m.
Proof.
  intros H. unfold hasBit. rewrite <- Z.land_assoc, H. reflexivity.
Qed.

(** X20. Unknown flag bits are shown only when no known bit is set.  When
    at least one of the bits a helper has a name for is set, its text is
    that of the known bits alone: the other bits of the field leave no
    trace in it. *)
Theorem flags_text_known_bits_only (ft ot at__ : Z) :
  (hasBit ft 0x04 || hasBit ft 0x400 || hasBit ft 0x800 || hasBit ft 0x4000
   = true ->
   fileTypesToString ft = fileTypesToString (Z.land ft 0x4c04))
  /\ (hasBit ot 0x01 || hasBit ot 0x02 || hasBit ot 0x10 = true ->
      osTypesToString ot = osTypesToString (Z.land ot 0x13))
  /\ (hasBit at__ 0x04 || hasBit at__ 0x08 || hasBit at__ 0x100
      || hasBit at__ 0x200 = true ->
      appTypesToString at__ = appTypesToString (Z.land at__ 0x30c)).
Proof.
  split; [|split]; intros H.
  - unfold fileTypesToString, flagged.
    rewrite !hasBit_land by reflexivity.
    destruct (hasBit ft 4), (hasBit ft 1024), (hasBit ft 2048),
      (hasBit ft 16384); try discriminate; reflexivity.
  - unfold osTypesToString, flagged.
    rewrite !hasBit_land by reflexivity.
    destruct (hasBit ot 1), (hasBit ot 2), (hasBit ot 16);
      try discriminate; reflexivity.
  - unfold appTypesToString, flagged.
    rewrite !hasBit_land by reflexivity.
    destruct (hasBit at__ 4), (hasBit at__ 8), (hasBit at__ 256),
      (hasBit at__ 512); try discriminate; reflexivity.
Qed.

Lemma flags_text_known_bits_only_witness :
  fileTypesToString 0x10800 = fileTypesToString (Z.land 0x10800 0x4c04).
Proof.
  exact (proj1 (flags_text_known_bits_only 0x10800 0 0) eq_refl).
Defined.

(** X21. In a build without zlib every input that parses is shown with
    "Features: none": a compressed input cannot succeed there. *)
Theorem featuresToString_without_zlib (data : list byte) :
  success (parse None data) = true ->
  featuresToString (features (header (parse None data))) = "none"%string.
Proof.
  intros S. destruct (parse_success_inv None data S) as (F & H & _).
  rewrite (parse_after_header None data F H) in *. cbv zeta in *.
  unfold decompressionGate in *.
  cbn [header setLibraryName setHeader] in *.
  destruct (hasBit (features (headerOf data)) IDASIG_FEATURE_COMPRESSED) eqn:C;
    [discriminate|].
  assert (E : features
                (header
                   (afterTree
                      (setLibraryName (setHeader emptyResult (headerOf data))
                         (libraryNameOf data))
                      (parseTree
                         (mkState data (headerSize data) (at_ data 6) false false)
                         [] [] "")))
              = features (headerOf data)).
  { unfold afterTree. destruct (t_end _); reflexivity. }
  rewrite E. unfold featuresToString, flagged.
  unfold IDASIG_FEATURE_COMPRESSED in C. rewrite C. reflexivity.
Qed.

Lemma featuresToString_without_zlib_witness :
  let data := sigFile 5 [0; 4; 0x12; 0x34; 5; 8; 0x66; 0x6f; 0x6f; 0] in
  featuresToString (features (header (parse None data))) = "none"%string.
Proof.
  intros data.
  exact (featuresToString_without_zlib data ltac:(vm_compute; reflexivity)).
Defined.

(** ** Loading a file *)

Lemma isMagic_first (data : list byte) : isMagic data = true -> at_ data 0 = 0x49.
Proof.
  intros M. apply isMagic_eq in M.
  destruct data as [|b data]; [discriminate|].
  unfold IDASGN in M. cbn [firstn] in M.
  change (list_byte_of_string "IDASGN") with [x49; x44; x41; x53; x47; x4e] in M.
  inversion M; subst. reflexivity.
Qed.

(** X22. A plain signature file under a [.sig.gz] name is not loaded.  An
    input that starts with the magic [IDASGN] is not a gzip stream; when
    the path ends in [.sig.gz] the loader reports the failed decompression,
    returns [false] and leaves the result on display as it was, without
    parsing the input. *)
Theorem loadSigFile_plain_file_named_gz (inflate : Inflater)
  (m_result : FlirtResult) (path : string) (data : list byte) :
  isMagic data = true ->
  loadSigFile inflate m_result path (Some data) true
  = (false, m_result, Some "Failed to decompress .sig.gz file."%string).
Proof.
  intros M. unfold loadSigFile, decompressGzip.
  rewrite (isMagic_first data M).
  destruct inflate as [f|]; [|reflexivity].
  change (negb (0x49 =? 0x1f)) with true.
  rewrite orb_true_r. reflexivity.
Qed.

Lemma loadSigFile_plain_file_named_gz_witness :
  loadSigFile None clearSig "a.sig.gz" (Some (sigFile 5 [0])) true
  = (false, clearSig, Some "Failed to decompress .sig.gz file."%string).
Proof.
  exact (loadSigFile_plain_file_named_gz None clearSig "a.sig.gz"
           (sigFile 5 [0]) eq_refl).
Defined.

(** X23. What the loader leaves on display.  When [loadSigFile] returns
    [true] it shows no warning and the result on display is a successful
    parse, with at least one module and at least one table row for each
    module.  When it returns [false] it shows a warning, and the result on
    display is either the one that was there (the file could not be opened
    or gunzipped) or the cleared one, with an empty table (the parse
    failed): modules of a failed parse are never put on display. *)
Theorem loadSigFile_display (inflate : Inflater) (m_result : FlirtResult)
  (path : string) (opened : option (list byte)) (endsWithSigGz : bool)
  (ok : bool) (shown : FlirtResult) (warning : option string) :
  loadSigFile inflate m_result path opened endsWithSigGz
  = (ok, shown, warning) ->
  (ok = true ->
   warning = None /\ success shown = true
   /\ (1 <= List.length (modules shown)
       <= List.length (functionRows shown))%nat)
  /\ (ok = false ->
      warning <> None
      /\ (shown = m_result
          \/ shown = clearSig /\ functionRows shown = []
             /\ exists data, opened = Some data)).
Proof.
  unfold loadSigFile.
  destruct opened as [data|].
  2:{ intros H. inversion H; subst. split; [discriminate|].
      intros _. split; [discriminate | left; reflexivity]. }
  set (data' := if endsWithSigGz then decompressGzip inflate data else data).
  destruct (endsWithSigGz && match data' with [] => true | _ => false end).
  { intros H. inversion H; subst. split; [discriminate|].
    intros _. split; [discriminate | left; reflexivity]. }
  destruct (success (parse inflate data')) eqn:S; cbn [negb];
    intros H; inversion H; subst.
  - split; [|discriminate]. intros _. split; [reflexivity|].
    split; [exact S|]. apply parse_rows. exact S.
  - split; [discriminate|]. intros _. split; [discriminate|].
    right. split; [reflexivity|]. split; [reflexivity|]. eauto.
Qed.

Lemma loadSigFile_display_witness :
  let data := sigFile 5 [0; 4; 0x12; 0x34; 5; 8; 0x66; 0x6f; 0x6f; 0] in
  (1 <= List.length (modules (parse None data))
   <= List.length (functionRows (parse None data)))%nat.
Proof.
  intros data.
  exact (proj2 (proj2 (proj1
           (loadSigFile_display None clearSig "a.sig" (Some data) false
              true (parse None data) None ltac:(vm_compute; reflexivity))
           eq_refl))).
Defined.

(** ** The decoder does not depend on what surrounds the bytes it reads *)

Section Embedded.

Variables own pre tree extra : list byte.

Lemma embedded_stopped st st' :
  embedded own pre tree extra st st' -> stopped st' = stopped st.
Proof.
  intros (_ & _ & _ & _ & _ & _ & E & R). unfold stopped. now rewrite E, R.
Qed.

Lemma embedded_version st st' :
  embedded own pre tree extra st st' -> version st' = version st.
Proof. intros (_ & _ & _ & _ & _ & V & _). exact V. Qed.

Lemma embedded_steps st st' :
  embedded own pre tree extra st st' -> (stepsFor st <= stepsFor st')%nat.
Proof.
  intros (_ & B & B' & P0 & P & _). unfold stepsFor, remaining, size.
  rewrite B, B', !length_app. lia.
Qed.

Lemma readByte_embedded st st' v st1 :
  readByte st = (v, st1) -> live st1 -> embedded own pre tree extra st st' ->
  exists st1',
    readByte st' = (v, st1') /\ embedded own pre tree extra st1 st1'.
Proof.
  intros R L1 (S & B & B' & P0 & P & V & E & Er).
  destruct (readByte_live _ _ _ R S L1) as (L & Hp & Hv & Hs).
  unfold live, stopped in L. apply orb_false_elim in L. destruct L as [Le Lr].
  unfold size in Hp. rewrite B, length_app in Hp.
  exists (setPos st' (pos st' + 1)). split.
  - rewrite readByte_at.
    + f_equal. rewrite Hv, B, B'.
      rewrite (at_app_r own) by lia. rewrite (at_app_r pre) by lia.
      rewrite at_app_l by lia. f_equal. lia.
    + congruence.
    + congruence.
    + unfold size. rewrite B', !length_app. lia.
  - subst st1. unfold embedded. cbn [body pos version eof err setPos].
    split; [intros X; cbn [eof setPos] in X; congruence|].
    split; [exact B|]. split; [exact B'|]. split; [lia|]. split; [lia|]. auto.
Qed.

Lemma readShortBE_embedded st st' v st1 :
  readShortBE st = (v, st1) -> live st1 -> embedded own pre tree extra st st' ->
  exists st1', readShortBE st' = (v, st1') /\ embedded own pre tree extra st1 st1'.
Proof.
  unfold readShortBE. intros H L W.
  destruct (readByte st) as [r s1] eqn:R1.
  destruct (readByte s1) as [b s2] eqn:R2.
  inversion H; subst v st1. clear H.
  assert (L1 : live s1)
    by (exact (live_back _ _ (readByte_extends _ _ _ R2)
                 (readByte_sound _ _ _ R1) L)).
  destruct (readByte_embedded _ _ _ _ R1 L1 W) as (s1' & R1' & W1).
  destruct (readByte_embedded _ _ _ _ R2 L W1) as (s2' & R2' & W2).
  exists s2'. rewrite R1', R2'. auto.
Qed.

Lemma readWordBE_embedded st st' v st1 :
  readWordBE st = (v, st1) -> live st1 -> embedded own pre tree extra st st' ->
  exists st1', readWordBE st' = (v, st1') /\ embedded own pre tree extra st1 st1'.
Proof.
  unfold readWordBE. intros H L W.
  destruct (readShortBE st) as [r s1] eqn:R1.
  destruct (readShortBE s1) as [b s2] eqn:R2.
  inversion H; subst v st1. clear H.
  assert (L1 : live s1)
    by (exact (live_back _ _ (readShortBE_extends _ _ _ R2)
                 (readShortBE_sound _ _ _ R1) L)).
  destruct (readShortBE_embedded _ _ _ _ R1 L1 W) as (s1' & R1' & W1).
  destruct (readShortBE_embedded _ _ _ _ R2 L W1) as (s2' & R2' & W2).
  exists s2'. rewrite R1', R2'. auto.
Qed.

Lemma readMax2Bytes_embedded st st' v st1 :
  readMax2Bytes st = (v, st1) -> live st1 -> embedded own pre tree extra st st' ->
  exists st1', readMax2Bytes st' = (v, st1') /\ embedded own pre tree extra st1 st1'.
Proof.
  unfold readMax2Bytes. intros H L W.
  destruct (readByte st) as [r s1] eqn:R1.
  destruct (hasBit r 128) eqn:T.
  - destruct (readByte s1) as [b s2] eqn:R2.
    inversion H; subst v st1. clear H.
    assert (L1 : live s1)
      by (exact (live_back _ _ (readByte_extends _ _ _ R2)
                   (readByte_sound _ _ _ R1) L)).
    destruct (readByte_embedded _ _ _ _ R1 L1 W) as (s1' & R1' & W1).
    destruct (readByte_embedded _ _ _ _ R2 L W1) as (s2' & R2' & W2).
    exists s2'. rewrite R1', T, R2'. auto.
  - inversion H; subst v st1. clear H.
    destruct (readByte_embedded _ _ _ _ R1 L W) as (s1' & R1' & W1).
    exists s1'. rewrite R1', T. auto.
Qed.

Lemma readMultipleBytes_embedded st st' v st1 :
  readMultipleBytes st = (v, st1) -> live st1 -> embedded own pre tree extra st st' ->
  exists st1', readMultipleBytes st' = (v, st1') /\ embedded own pre tree extra st1 st1'.
Proof.
  unfold readMultipleBytes. intros H L W.
  destruct (readByte st) as [r s1] eqn:R1.
  pose proof (readByte_sound _ _ _ R1) as S1.
  destruct (negb (Z.land r 128 =? 128)) eqn:T1.
  { inversion H; subst v st1. clear H.
    destruct (readByte_embedded _ _ _ _ R1 L W) as (s1' & R1' & W1).
    exists s1'. rewrite R1', T1. auto. }
  destruct (negb (Z.land r 192 =? 192)) eqn:T2.
  { destruct (readByte s1) as [b s2] eqn:R2.
    inversion H; subst v st1. clear H.
    assert (L1 : live s1)
      by (exact (live_back _ _ (readByte_extends _ _ _ R2) S1 L)).
    destruct (readByte_embedded _ _ _ _ R1 L1 W) as (s1' & R1' & W1).
    destruct (readByte_embedded _ _ _ _ R2 L W1) as (s2' & R2' & W2).
    exists s2'. rewrite R1', T1, T2, R2'. auto. }
  destruct (negb (Z.land r 224 =? 224)) eqn:T3.
  { destruct (readByte s1) as [b s2] eqn:R2.
    destruct (readShortBE s2) as [s s3] eqn:R3.
    inversion H; subst v st1. clear H.
    assert (L2 : live s2)
      by (exact (live_back _ _ (readShortBE_extends _ _ _ R3)
                   (readByte_sound _ _ _ R2) L)).
    assert (L1 : live s1)
      by (exact (live_back _ _ (readByte_extends _ _ _ R2) S1 L2)).
    destruct (readByte_embedded _ _ _ _ R1 L1 W) as (s1' & R1' & W1).
    destruct (readByte_embedded _ _ _ _ R2 L2 W1) as (s2' & R2' & W2).
    destruct (readShortBE_embedded _ _ _ _ R3 L W2) as (s3' & R3' & W3).
    exists s3'. rewrite R1', T1, T2, T3, R2', R3'. auto. }
  assert (L1 : live s1)
    by (exact (live_back _ _ (readWordBE_extends _ _ _ H) S1 L)).
  destruct (readByte_embedded _ _ _ _ R1 L1 W) as (s1' & R1' & W1).
  destruct (readWordBE_embedded _ _ _ _ H L W1) as (s2' & R2' & W2).
  exists s2'. rewrite R1', T1, T2, T3. auto.
Qed.

Lemma readOffset_embedded st st' v st1 :
  readOffset st = (v, st1) -> live st1 -> embedded own pre tree extra st st' ->
  exists st1', readOffset st' = (v, st1') /\ embedded own pre tree extra st1 st1'.
Proof.
  unfold readOffset. intros H L W. rewrite (embedded_version _ _ W).
  destruct (9 <=? version st);
    [exact (readMultipleBytes_embedded _ _ _ _ H L W)
    | exact (readMax2Bytes_embedded _ _ _ _ H L W)].
Qed.

Lemma readCount_embedded st st' v st1 :
  readCount st = (v, st1) -> live st1 -> embedded own pre tree extra st st' ->
  exists st1', readCount st' = (v, st1') /\ embedded own pre tree extra st1 st1'.
Proof.
  unfold readCount. intros H L W. rewrite (embedded_version _ _ W).
  destruct (8 <=? version st).
  - exact (readByte_embedded _ _ _ _ H L W).
  - inversion H; subst. exists st'. auto.
Qed.

(** From here on a read is followed by the test of [eof] and [err], which
    tells that the reader was left live. *)
Ltac follow lem R L W s R' W' :=
  destruct (lem _ _ _ _ R L W) as (s & R' & W');
  rewrite R', (embedded_stopped _ _ W'), L.

Lemma nameLoop_embedded (room : nat) :
  forall c acc st st' nb fl st1,
    nameLoop room c acc st = Some (nb, fl, st1) -> embedded own pre tree extra st st' ->
    exists st1',
      nameLoop room c acc st' = Some (nb, fl, st1')
      /\ embedded own pre tree extra st1 st1'.
Proof.
  induction room as [|room IH]; intros c acc st st' nb fl st1 H W;
    cbn [nameLoop] in *.
  - inversion H; subst. exists st'. auto.
  - destruct (32 <=? c).
    + destruct (readByte st) as [c' s1] eqn:R1.
      destruct (stopped s1) eqn:L1; [discriminate|].
      follow readByte_embedded R1 L1 W s1' R1' W1.
      exact (IH _ _ _ _ _ _ _ H W1).
    + inversion H; subst. exists st'. auto.
Qed.

Lemma readAttributes_embedded c st st' loc col c' st1 :
  readAttributes c st = Some (loc, col, c', st1) -> embedded own pre tree extra st st' ->
  exists st1',
    readAttributes c st' = Some (loc, col, c', st1')
    /\ embedded own pre tree extra st1 st1'.
Proof.
  unfold readAttributes. intros H W. destruct (c <? 32).
  - destruct (readByte st) as [x s1] eqn:R1.
    destruct (stopped s1) eqn:L1; [discriminate|].
    follow readByte_embedded R1 L1 W s1' R1' W1.
    inversion H; subst. exists s1'. auto.
  - inversion H; subst. exists st'. auto.
Qed.

Lemma readPublicFunction_embedded st st' off f fl st1 :
  readPublicFunction st off = Some (f, fl, st1) -> embedded own pre tree extra st st' ->
  exists st1',
    readPublicFunction st' off = Some (f, fl, st1')
    /\ embedded own pre tree extra st1 st1'.
Proof.
  unfold readPublicFunction. intros H W.
  destruct (readOffset st) as [delta s1] eqn:R1.
  destruct (stopped s1) eqn:L1; [discriminate|].
  follow readOffset_embedded R1 L1 W s1' R1' W1.
  destruct (readByte s1) as [c s2] eqn:R2.
  destruct (stopped s2) eqn:L2; [discriminate|].
  follow readByte_embedded R2 L2 W1 s2' R2' W2.
  destruct (readAttributes c s2) as [[[[loc col] c'] s3]|] eqn:R3;
    [|discriminate].
  destruct (readAttributes_embedded _ _ _ _ _ _ _ R3 W2) as (s3' & R3' & W3).
  rewrite R3'.
  destruct (nameLoop (Z.to_nat FLIRT_NAME_MAX) c' [] s3)
    as [[[nb fl'] s4]|] eqn:R4; [|discriminate].
  destruct (nameLoop_embedded _ _ _ _ _ _ _ _ R4 W3) as (s4' & R4' & W4).
  rewrite R4'. inversion H; subst. exists s4'. auto.
Qed.

Lemma publicFunctionsLoop_embedded (steps : nat) :
  forall st st' off m r st1 steps',
    publicFunctionsLoop steps st off m = Done r st1 ->
    embedded own pre tree extra st st' -> (steps <= steps')%nat ->
    exists st1',
      publicFunctionsLoop steps' st' off m = Done r st1'
      /\ embedded own pre tree extra st1 st1'.
Proof.
  induction steps as [|steps IH]; intros st st' off m r st1 steps' H W Hs;
    cbn [publicFunctionsLoop] in H; [discriminate|].
  destruct steps' as [|steps']; [lia|]. cbn [publicFunctionsLoop].
  destruct (readPublicFunction st off) as [[[f fl] s1]|] eqn:R; [|discriminate].
  destruct (readPublicFunction_embedded _ _ _ _ _ _ R W) as (s1' & R' & W1).
  rewrite R'.
  destruct (hasBit fl IDASIG_PARSE_MORE_PUBLIC_NAMES).
  - apply (IH _ _ _ _ _ _ _ H W1). lia.
  - inversion H; subst. exists s1'. auto.
Qed.

Lemma readModulePublicFunctions_embedded st st' m m1 fl st1 :
  readModulePublicFunctions st m = Some (m1, fl, st1) ->
  embedded own pre tree extra st st' ->
  exists st1',
    readModulePublicFunctions st' m = Some (m1, fl, st1')
    /\ embedded own pre tree extra st1 st1'.
Proof.
  unfold readModulePublicFunctions. intros H W.
  destruct (publicFunctionsLoop (stepsFor st) st 0 m) as [r s1| |] eqn:R;
    try discriminate.
  destruct (publicFunctionsLoop_embedded _ _ _ _ _ _ _ (stepsFor st') R W
              (embedded_steps _ _ W)) as (s1' & R' & W1).
  rewrite R'. inversion H; subst. exists s1'. auto.
Qed.

Lemma tailBytesLoop_embedded (count : nat) :
  forall st st' m m1 st1,
    tailBytesLoop count st m = Some (m1, st1) -> embedded own pre tree extra st st' ->
    exists st1',
      tailBytesLoop count st' m = Some (m1, st1')
      /\ embedded own pre tree extra st1 st1'.
Proof.
  induction count as [|count IH]; intros st st' m m1 st1 H W;
    cbn [tailBytesLoop] in *.
  - inversion H; subst. exists st'. auto.
  - destruct (readOffset st) as [off s1] eqn:R1.
    destruct (stopped s1) eqn:L1; [discriminate|].
    follow readOffset_embedded R1 L1 W s1' R1' W1.
    destruct (readByte s1) as [v s2] eqn:R2.
    destruct (stopped s2) eqn:L2; [discriminate|].
    follow readByte_embedded R2 L2 W1 s2' R2' W2.
    exact (IH _ _ _ _ _ H W2).
Qed.

Lemma readModuleTailBytes_embedded st st' m m1 st1 :
  readModuleTailBytes st m = Some (m1, st1) -> embedded own pre tree extra st st' ->
  exists st1',
    readModuleTailBytes st' m = Some (m1, st1')
    /\ embedded own pre tree extra st1 st1'.
Proof.
  unfold readModuleTailBytes. intros H W.
  destruct (readCount st) as [c s1] eqn:R1.
  destruct (stopped s1) eqn:L1; [discriminate|].
  follow readCount_embedded R1 L1 W s1' R1' W1.
  exact (tailBytesLoop_embedded _ _ _ _ _ _ H W1).
Qed.

Lemma refNameLoop_embedded (n : nat) :
  forall st st' acc nb st1,
    refNameLoop n st acc = Some (nb, st1) -> embedded own pre tree extra st st' ->
    exists st1',
      refNameLoop n st' acc = Some (nb, st1') /\ embedded own pre tree extra st1 st1'.
Proof.
  induction n as [|n IH]; intros st st' acc nb st1 H W; cbn [refNameLoop] in *.
  - inversion H; subst. exists st'. auto.
  - destruct (readByte st) as [b s1] eqn:R1.
    destruct (stopped s1) eqn:L1; [discriminate|].
    follow readByte_embedded R1 L1 W s1' R1' W1.
    exact (IH _ _ _ _ _ H W1).
Qed.

Lemma readNameLen_embedded st st' n st1 :
  readNameLen st = Some (n, st1) -> embedded own pre tree extra st st' ->
  exists st1', readNameLen st' = Some (n, st1') /\ embedded own pre tree extra st1 st1'.
Proof.
  unfold readNameLen. intros H W.
  destruct (readByte st) as [n0 s1] eqn:R1.
  destruct (stopped s1) eqn:L1; [discriminate|].
  follow readByte_embedded R1 L1 W s1' R1' W1.
  destruct (n0 =? 0).
  - destruct (readMultipleBytes s1) as [n1 s2] eqn:R2.
    destruct (stopped s2) eqn:L2; [discriminate|].
    follow readMultipleBytes_embedded R2 L2 W1 s2' R2' W2.
    inversion H; subst. exists s2'. auto.
  - inversion H; subst. exists s1'. auto.
Qed.

Lemma readReferencedFunction_embedded st st' rf st1 :
  readReferencedFunction st = Some (rf, st1) -> embedded own pre tree extra st st' ->
  exists st1',
    readReferencedFunction st' = Some (rf, st1')
    /\ embedded own pre tree extra st1 st1'.
Proof.
  unfold readReferencedFunction. intros H W.
  destruct (readOffset st) as [off s1] eqn:R1.
  destruct (stopped s1) eqn:L1; [discriminate|].
  follow readOffset_embedded R1 L1 W s1' R1' W1.
  destruct (readNameLen s1) as [[nameLen s2]|] eqn:R2; [|discriminate].
  destruct (readNameLen_embedded _ _ _ _ R2 W1) as (s2' & R2' & W2).
  rewrite R2'.
  destruct (FLIRT_NAME_MAX <=? nameLen); [discriminate|].
  destruct (refNameLoop (Z.to_nat nameLen) s2 []) as [[nb s3]|] eqn:R3;
    [|discriminate].
  destruct (refNameLoop_embedded _ _ _ _ _ _ R3 W2) as (s3' & R3' & W3).
  rewrite R3'.
  destruct ((0 <? Z.of_nat (List.length nb)) && (byteVal (last nb x01) =? 0));
    inversion H; subst; exists s3'; auto.
Qed.

Lemma referencedFunctionsLoop_embedded (count : nat) :
  forall st st' m m1 st1,
    referencedFunctionsLoop count st m = Some (m1, st1) ->
    embedded own pre tree extra st st' ->
    exists st1',
      referencedFunctionsLoop count st' m = Some (m1, st1')
      /\ embedded own pre tree extra st1 st1'.
Proof.
  induction count as [|count IH]; intros st st' m m1 st1 H W;
    cbn [referencedFunctionsLoop] in *.
  - inversion H; subst. exists st'. auto.
  - destruct (readReferencedFunction st) as [[rf s1]|] eqn:R1; [|discriminate].
    destruct (readReferencedFunction_embedded _ _ _ _ R1 W) as (s1' & R1' & W1).
    rewrite R1'. exact (IH _ _ _ _ _ H W1).
Qed.

Lemma readModuleReferencedFunctions_embedded st st' m m1 st1 :
  readModuleReferencedFunctions st m = Some (m1, st1) ->
  embedded own pre tree extra st st' ->
  exists st1',
    readModuleReferencedFunctions st' m = Some (m1, st1')
    /\ embedded own pre tree extra st1 st1'.
Proof.
  unfold readModuleReferencedFunctions. intros H W.
  destruct (readCount st) as [c s1] eqn:R1.
  destruct (stopped s1) eqn:L1; [discriminate|].
  follow readCount_embedded R1 L1 W s1' R1' W1.
  exact (referencedFunctionsLoop_embedded _ _ _ _ _ _ H W1).
Qed.

Lemma parseModule_embedded st st' path cl crc m fl st1 :
  parseModule st path cl crc = Some (m, fl, st1) ->
  embedded own pre tree extra st st' ->
  exists st1',
    parseModule st' path cl crc = Some (m, fl, st1')
    /\ embedded own pre tree extra st1 st1'.
Proof.
  unfold parseModule. intros H W.
  destruct (readOffset st) as [len s1] eqn:R1.
  destruct (stopped s1) eqn:L1; [discriminate|].
  follow readOffset_embedded R1 L1 W s1' R1' W1.
  destruct (readModulePublicFunctions s1 _) as [[[m1 fl1] s2]|] eqn:R2;
    [|discriminate].
  destruct (readModulePublicFunctions_embedded _ _ _ _ _ _ R2 W1)
    as (s2' & R2' & W2).
  rewrite R2'.
  destruct (hasBit fl1 IDASIG_PARSE_READ_TAIL_BYTES).
  - destruct (readModuleTailBytes s2 m1) as [[m2 s3]|] eqn:R3; [|discriminate].
    destruct (readModuleTailBytes_embedded _ _ _ _ _ R3 W2) as (s3' & R3' & W3).
    rewrite R3'.
    destruct (hasBit fl1 IDASIG_PARSE_READ_REFERENCED_FUNCTIONS).
    + destruct (readModuleReferencedFunctions s3 m2) as [[m3 s4]|] eqn:R4;
        [|discriminate].
      destruct (readModuleReferencedFunctions_embedded _ _ _ _ _ R4 W3)
        as (s4' & R4' & W4).
      rewrite R4'. inversion H; subst. exists s4'. auto.
    + inversion H; subst. exists s3'. auto.
  - destruct (hasBit fl1 IDASIG_PARSE_READ_REFERENCED_FUNCTIONS).
    + destruct (readModuleReferencedFunctions s2 m1) as [[m3 s4]|] eqn:R4;
        [|discriminate].
      destruct (readModuleReferencedFunctions_embedded _ _ _ _ _ R4 W2)
        as (s4' & R4' & W4).
      rewrite R4'. inversion H; subst. exists s4'. auto.
    + inversion H; subst. exists s2'. auto.
Qed.

Lemma sameCrcLoop_embedded (steps : nat) :
  forall st st' path cl crc out out1 fl st1 steps',
    sameCrcLoop steps st path cl crc out = (out1, Done fl st1) ->
    embedded own pre tree extra st st' -> (steps <= steps')%nat ->
    exists st1',
      sameCrcLoop steps' st' path cl crc out = (out1, Done fl st1')
      /\ embedded own pre tree extra st1 st1'.
Proof.
  induction steps as [|steps IH];
    intros st st' path cl crc out out1 fl st1 steps' H W Hs;
    cbn [sameCrcLoop] in H; [discriminate|].
  destruct steps' as [|steps']; [lia|]. cbn [sameCrcLoop].
  destruct (parseModule st path cl crc) as [[[m fl1] s1]|] eqn:R; [|discriminate].
  destruct (parseModule_embedded _ _ _ _ _ _ _ _ R W) as (s1' & R' & W1).
  rewrite R'.
  destruct (hasBit fl1 IDASIG_PARSE_MORE_MODULES_WITH_SAME_CRC).
  - apply (IH _ _ _ _ _ _ _ _ _ _ H W1). lia.
  - inversion H; subst. exists s1'. auto.
Qed.

Lemma leafLoop_embedded (steps : nat) :
  forall st st' path out out1 u st1 steps',
    leafLoop steps st path out = (out1, Done u st1) ->
    embedded own pre tree extra st st' -> (steps <= steps')%nat ->
    exists st1',
      leafLoop steps' st' path out = (out1, Done u st1')
      /\ embedded own pre tree extra st1 st1'.
Proof.
  induction steps as [|steps IH];
    intros st st' path out out1 u st1 steps' H W Hs;
    cbn [leafLoop] in H; [discriminate|].
  destruct steps' as [|steps']; [lia|]. cbn [leafLoop].
  destruct (readByte st) as [cl s1] eqn:R1.
  destruct (stopped s1) eqn:L1; [discriminate|].
  follow readByte_embedded R1 L1 W s1' R1' W1.
  destruct (readShortBE s1) as [crc s2] eqn:R2.
  destruct (stopped s2) eqn:L2; [discriminate|].
  follow readShortBE_embedded R2 L2 W1 s2' R2' W2.
  destruct (sameCrcLoop (stepsFor s2) s2 path cl crc out)
    as [out2 [fl s3| |]] eqn:R3; try discriminate.
  destruct (sameCrcLoop_embedded _ _ _ _ _ _ _ _ _ _ (stepsFor s2') R3 W2
              (embedded_steps _ _ W2)) as (s3' & R3' & W3).
  rewrite R3'.
  destruct (hasBit fl IDASIG_PARSE_MORE_MODULES).
  - apply (IH _ _ _ _ _ _ _ _ H W3). lia.
  - inversion H; subst. exists s3'. auto.
Qed.

Lemma parseLeaf_embedded st st' path out out1 st1 :
  parseLeaf st path out = (out1, Some st1) -> embedded own pre tree extra st st' ->
  exists st1',
    parseLeaf st' path out = (out1, Some st1') /\ embedded own pre tree extra st1 st1'.
Proof.
  unfold parseLeaf. intros H W.
  destruct (leafLoop (stepsFor st) st path out) as [o [u s| |]] eqn:R;
    try discriminate.
  destruct (leafLoop_embedded _ _ _ _ _ _ _ _ (stepsFor st') R W
              (embedded_steps _ _ W)) as (s' & R' & W1).
  rewrite R'. inversion H; subst. exists s'. auto.
Qed.

Lemma nodeBytesLoop_embedded (n : nat) :
  forall bit mask st st' pb vm st1,
    nodeBytesLoop n bit mask st = Some (pb, vm, st1) -> live st1 ->
    embedded own pre tree extra st st' ->
    exists st1',
      nodeBytesLoop n bit mask st' = Some (pb, vm, st1')
      /\ embedded own pre tree extra st1 st1'.
Proof.
  induction n as [|n IH]; intros bit mask st st' pb vm st1 H L W;
    cbn [nodeBytesLoop] in *.
  - inversion H; subst. exists st'. auto.
  - destruct (hasBit mask bit).
    + destruct (nodeBytesLoop n (Z.shiftr bit 1) mask st)
        as [[[pb1 vm1] s1]|] eqn:R; [|discriminate].
      inversion H; subst pb vm s1. clear H.
      destruct (IH _ _ _ _ _ _ _ R L W) as (s1' & R' & W1).
      rewrite R'. exists s1'. auto.
    + rewrite (embedded_stopped _ _ W).
      destruct (stopped st); [discriminate|].
      destruct (readByte st) as [b s1] eqn:R1.
      destruct (nodeBytesLoop n (Z.shiftr bit 1) mask s1)
        as [[[pb1 vm1] s2]|] eqn:R; [|discriminate].
      inversion H; subst pb vm s2. clear H.
      destruct (nodeBytesLoop_shape _ _ _ _ _ _ _ R) as (X & _ & _).
      pose proof (live_back _ _ X (readByte_sound _ _ _ R1) L) as L1.
      destruct (readByte_embedded _ _ _ _ R1 L1 W) as (s1' & R1' & W1).
      rewrite R1'.
      destruct (IH _ _ _ _ _ _ _ R L W1) as (s2' & R' & W2).
      rewrite R'. exists s2'. auto.
Qed.

Lemma readNodeVariantMask_embedded st st' len mask st1 :
  readNodeVariantMask st len = Some (mask, st1) -> embedded own pre tree extra st st' ->
  exists st1',
    readNodeVariantMask st' len = Some (mask, st1')
    /\ embedded own pre tree extra st1 st1'.
Proof.
  unfold readNodeVariantMask. intros H W.
  assert (C : forall (r : Z * ParseState) v s,
             (if negb (eof (snd r)) && negb (err (snd r)) then Some r else None)
             = Some (v, s) -> r = (v, s) /\ live s).
  { intros [v0 s0] v s E. cbn [snd] in E. unfold live, stopped.
    destruct (eof s0) eqn:E1; [discriminate|].
    destruct (err s0) eqn:E2; [discriminate|].
    inversion E; subst. rewrite E1, E2. auto. }
  assert (K : forall (v : Z) s s', live s -> embedded own pre tree extra s s' ->
             (if negb (eof (snd (v, s'))) && negb (err (snd (v, s')))
              then Some (v, s') else None) = Some (v, s')).
  { intros v s s' L Ws. cbn [snd].
    pose proof (embedded_stopped _ _ Ws) as Q. rewrite L in Q.
    unfold stopped in Q. apply orb_false_elim in Q. destruct Q as [Q1 Q2].
    rewrite Q1, Q2. reflexivity. }
  destruct (len <? 16).
  - apply C in H. destruct H as [R L].
    destruct (readMax2Bytes_embedded _ _ _ _ R L W) as (s1' & R' & W1).
    rewrite R'. exists s1'. split; [exact (K _ _ _ L W1) | exact W1].
  - destruct (len <=? 32).
    + apply C in H. destruct H as [R L].
      destruct (readMultipleBytes_embedded _ _ _ _ R L W) as (s1' & R' & W1).
      rewrite R'. exists s1'. split; [exact (K _ _ _ L W1) | exact W1].
    + destruct (len <=? 64); [|discriminate].
      destruct (readMultipleBytes st) as [hi s1] eqn:R1.
      destruct (readMultipleBytes s1) as [lo s2] eqn:R2.
      apply C in H. destruct H as [R L]. inversion R; subst mask st1. clear R.
      assert (L1 : live s1)
        by (exact (live_back _ _ (readMultipleBytes_extends _ _ _ R2)
                     (readMultipleBytes_sound _ _ _ R1) L)).
      destruct (readMultipleBytes_embedded _ _ _ _ R1 L1 W) as (s1' & R1' & W1).
      destruct (readMultipleBytes_embedded _ _ _ _ R2 L W1) as (s2' & R2' & W2).
      rewrite R1', R2'. exists s2'.
      split; [exact (K _ _ _ L W2) | exact W2].
Qed.

Lemma readNode_embedded st st' node st1 :
  readNode st = Some (node, st1) -> live st1 -> embedded own pre tree extra st st' ->
  exists st1',
    readNode st' = Some (node, st1') /\ embedded own pre tree extra st1 st1'.
Proof.
  unfold readNode, readNodeLength. intros H L W.
  rewrite (embedded_stopped _ _ W).
  destruct (stopped st); [discriminate|].
  destruct (readByte st) as [len s1] eqn:R1.
  destruct (readNodeVariantMask s1 len) as [[mask s2]|] eqn:R2; [|discriminate].
  pose proof (readByte_sound _ _ _ R1) as S1.
  destruct (readNodeVariantMask_progressed _ _ _ _ R2 S1) as (X2 & _).
  unfold readNodeBytes in H.
  destruct ((63 <? len) || (len <=? 0)) eqn:T; [discriminate|].
  destruct (nodeBytesLoop _ _ _ s2) as [[[pb vm] s3]|] eqn:R3; [|discriminate].
  inversion H; subst node st1. clear H.
  destruct (nodeBytesLoop_shape _ _ _ _ _ _ _ R3) as (X3 & _ & _).
  pose proof (live_back _ _ X3 (ext_sound _ _ X2 S1) L) as L2.
  pose proof (live_back _ _ X2 S1 L2) as L1.
  destruct (readByte_embedded _ _ _ _ R1 L1 W) as (s1' & R1' & W1).
  rewrite R1'.
  destruct (readNodeVariantMask_embedded _ _ _ _ _ R2 W1) as (s2' & R2' & W2).
  rewrite R2'. unfold readNodeBytes. rewrite T.
  destruct (nodeBytesLoop_embedded _ _ _ _ _ _ _ _ R3 L W2) as (s3' & R3' & W3).
  rewrite R3'. exists s3'. auto.
Qed.

Lemma tree_embedded (steps : nat) :
  (forall st st' path out e out1 e1 u st1 steps',
     parseTreeSteps steps st path out e = mkTreeOut out1 e1 (Done u st1) ->
     embedded own pre tree extra st st' -> (steps <= steps')%nat ->
     exists st1',
       parseTreeSteps steps' st' path out e = mkTreeOut out1 e1 (Done u st1')
       /\ embedded own pre tree extra st1 st1')
  /\ (forall i n st st' path out e out1 e1 u st1 steps',
        treeChildren steps i n st path out e = mkTreeOut out1 e1 (Done u st1) ->
        embedded own pre tree extra st st' -> (steps <= steps')%nat ->
        exists st1',
          treeChildren steps' i n st' path out e
          = mkTreeOut out1 e1 (Done u st1')
          /\ embedded own pre tree extra st1 st1').
Proof.
  induction steps as [|steps [IHt IHc]]; split.
  - intros st st' path out e out1 e1 u st1 steps' H. discriminate.
  - intros i n st st' path out e out1 e1 u st1 steps' H. discriminate.
  - intros st st' path out e out1 e1 u st1 steps' H W Hs.
    cbn [parseTreeSteps] in H.
    destruct steps' as [|steps']; [lia|]. cbn [parseTreeSteps].
    destruct (readMultipleBytes st) as [treeNodes s1] eqn:R1.
    destruct (stopped s1) eqn:L1; [discriminate|].
    follow readMultipleBytes_embedded R1 L1 W s1' R1' W1.
    destruct (treeNodes =? 0).
    + destruct (parseLeaf s1 path out) as [o [s|]] eqn:R2; [|discriminate].
      destruct (parseLeaf_embedded _ _ _ _ _ _ R2 W1) as (s2' & R2' & W2).
      rewrite R2'. inversion H; subst. exists s2'. auto.
    + apply (IHc _ _ _ _ _ _ _ _ _ _ _ _ H W1). lia.
  - intros i n st st' path out e out1 e1 u st1 steps' H W Hs.
    cbn [treeChildren] in H.
    destruct steps' as [|steps']; [lia|]. cbn [treeChildren].
    destruct (i <? n).
    + destruct (readNode st) as [[node s1]|] eqn:R1; [|discriminate].
      destruct (readNode_progressed _ _ _ R1) as [(X1 & _) _].
      destruct (parseTreeSteps steps s1 (path ++ [node]) out e)
        as [o e2 [u1 s2| |]] eqn:R2; try discriminate.
      assert (L1 : live s1).
      { destruct W as (S & _).
        pose proof (ext_sound _ _ X1 S) as S1.
        destruct steps as [|steps0]; [discriminate|].
        cbn [parseTreeSteps] in R2.
        destruct (readMultipleBytes s1) as [tn s1a] eqn:Ra.
        destruct (stopped s1a) eqn:La; [discriminate|].
        exact (live_back _ _ (readMultipleBytes_extends _ _ _ Ra) S1 La). }
      destruct (readNode_embedded _ _ _ _ R1 L1 W) as (s1' & R1' & W1).
      rewrite R1'.
      destruct (IHt _ _ _ _ _ _ _ _ _ steps' R2 W1 ltac:(lia))
        as (s2' & R2' & W2).
      rewrite R2'.
      apply (IHc _ _ _ _ _ _ _ _ _ _ _ _ H W2). lia.
    + inversion H; subst. exists st'. auto.
Qed.

End Embedded.

Lemma parseTree_embedded (own pre tree extra : list byte)
  st st' path out e u st1 :
  t_end (parseTree st path out e) = Done u st1 ->
  embedded own pre tree extra st st' ->
  exists st1',
    parseTree st' path out e
    = mkTreeOut (t_modules (parseTree st path out e))
        (t_error (parseTree st path out e)) (Done u st1')
    /\ embedded own pre tree extra st1 st1'.
Proof.
  unfold parseTree. intros D W.
  destruct (parseTreeSteps (stepsFor st) st path out e) as [o e1 en] eqn:R.
  cbn [t_end t_modules t_error] in *. subst en.
  exact (proj1 (tree_embedded own pre tree extra (stepsFor st))
           _ _ _ _ _ _ _ _ _ (stepsFor st') R W
           (embedded_steps own pre tree extra _ _ W)).
Qed.

(** X24. The tree decoder does not depend on where its bytes sit.  When
    [parseTree] returns [true] on a body read from its start, it returns
    [true] with the same modules and the same message on any body that
    holds those bytes after some others ([pre]) and before some others
    ([extra]), read from where they start; it stops at the same place in
    them, so it never reads [extra]. *)
Theorem parseTree_position_independent (pre extra tree : list byte) (v : Z)
  (path : list FlirtPatternNode) (out : list FlirtModule) (e : string)
  (u : unit) (st1 : ParseState) :
  t_end (parseTree (startState tree v) path out e) = Done u st1 ->
  exists st1',
    parseTree
      (mkState (pre ++ tree ++ extra) (Z.of_nat (List.length pre)) v false false)
      path out e
    = mkTreeOut (t_modules (parseTree (startState tree v) path out e))
        (t_error (parseTree (startState tree v) path out e)) (Done u st1')
    /\ pos st1' = Z.of_nat (List.length pre) + pos st1.
Proof.
  intros D.
  assert (W : embedded [] pre tree extra (startState tree v)
                (mkState (pre ++ tree ++ extra) (Z.of_nat (List.length pre)) v
                   false false)).
  { unfold embedded, startState, eofSound.
    cbn [body pos version eof err List.length app].
    split; [discriminate|]. split; [reflexivity|]. split; [reflexivity|].
    split; [lia|]. split; [lia|]. auto. }
  destruct (parseTree_embedded [] pre tree extra _ _ _ _ _ _ _ D W)
    as (st1' & R & W1).
  exists st1'. split; [exact R|].
  destruct W1 as (_ & _ & _ & _ & P & _). cbn [List.length] in P. lia.
Qed.

Lemma parseTree_position_independent_witness :
  let tree := map toChar [0; 4; 0x12; 0x34; 5; 8; 0x66; 0x6f; 0x6f; 0] in
  exists st1',
    parseTree (mkState ([x01; x02] ++ tree ++ [x03]) 2 5 false false) [] [] ""
    = mkTreeOut (t_modules (parseTree (startState tree 5) [] [] ""))
        (t_error (parseTree (startState tree 5) [] [] ""))
        (Done tt st1')
    /\ pos st1' = 2 + 10.
Proof.
  intros tree.
  exact (parseTree_position_independent [x01; x02] [x03] tree 5 [] [] "" tt
           (mkState tree 10 5 false false) ltac:(vm_compute; reflexivity)).
Defined.

(** *** Bytes after the tree, and the fields of the header *)

Lemma mid_app_l (a b : list byte) (p n : Z) :
  0 <= p -> 0 <= n -> p + n <= Z.of_nat (List.length a) ->
  mid (a ++ b) p n = mid a p n.
Proof.
  intros Hp Hn H. unfold mid.
  rewrite skipn_app, firstn_app, length_skipn.
  replace (Z.to_nat n - (List.length a - Z.to_nat p))%nat with 0%nat by lia.
  cbn [firstn]. rewrite app_nil_r. reflexivity.
Qed.

Lemma le16_app_l (a b : list byte) (p : Z) :
  0 <= p -> p + 2 <= Z.of_nat (List.length a) -> le16 (a ++ b) p = le16 a p.
Proof. intros Hp H. unfold le16. rewrite !at_app_l by lia. reflexivity. Qed.

Lemma be16_app_l (a b : list byte) (p : Z) :
  0 <= p -> p + 2 <= Z.of_nat (List.length a) -> be16 (a ++ b) p = be16 a p.
Proof. intros Hp H. unfold be16. rewrite !at_app_l by lia. reflexivity. Qed.

Lemma le32_app_l (a b : list byte) (p : Z) :
  0 <= p -> p + 4 <= Z.of_nat (List.length a) -> le32 (a ++ b) p = le32 a p.
Proof. intros Hp H. unfold le32. rewrite !at_app_l by lia. reflexivity. Qed.

Lemma isFlirt_app (data extra : list byte) :
  7 <= Z.of_nat (List.length data) -> isFlirt (data ++ extra) = isFlirt data.
Proof.
  intros L. unfold isFlirt, isMagic.
  rewrite firstn_app, length_app, at_app_l by lia.
  replace (6 - List.length data)%nat with 0%nat by lia.
  cbn [firstn]. rewrite app_nil_r.
  destruct (Z.ltb_spec (Z.of_nat (List.length data)) 7) as [C|C]; [lia|].
  destruct (Z.ltb_spec (Z.of_nat (List.length data + List.length extra)) 7)
    as [C'|C']; [lia | reflexivity].
Qed.

Lemma header_app (data extra : list byte) :
  5 <= at_ data 6 <= 10 ->
  headerSize data <= Z.of_nat (List.length data) ->
  headerSize (data ++ extra) = headerSize data
  /\ headerOf (data ++ extra) = headerOf data
  /\ libraryNameOf (data ++ extra) = libraryNameOf data.
Proof.
  intros V H. pose proof (at_range data 34) as B.
  assert (L : 37 <= Z.of_nat (List.length data)).
  { unfold headerSize, headerExtra in H.
    destruct (6 <=? at_ data 6), (8 <=? at_ data 6), (10 <=? at_ data 6); lia. }
  unfold headerSize, headerOf, libraryNameOf in *.
  rewrite !(at_app_l data extra) by lia.
  rewrite !le16_app_l, (le32_app_l data extra 8), (mid_app_l data extra 22)
    by lia.
  unfold headerExtra in *.
  destruct (Z.leb_spec 6 (at_ data 6)) as [C6|C6];
    destruct (Z.leb_spec 8 (at_ data 6)) as [C8|C8];
    destruct (Z.leb_spec 10 (at_ data 6)) as [C10|C10]; try lia;
    rewrite ?(le32_app_l data extra 37), ?be16_app_l, mid_app_l by lia;
    auto.
Qed.

Lemma headerSize_range (data : list byte) : 37 <= headerSize data.
Proof.
  unfold headerSize, headerExtra. pose proof (at_range data 34).
  destruct (6 <=? at_ data 6), (8 <=? at_ data 6), (10 <=? at_ data 6); lia.
Qed.

(** An uncompressed input that holds its header is parsed by the tree walk
    from the end of the header. *)
Lemma parse_uncompressed (inflate : Inflater) (data : list byte) :
  fst (isFlirt data) = true ->
  headerSize data <= Z.of_nat (List.length data) ->
  hasBit (le16 data 16) IDASIG_FEATURE_COMPRESSED = false ->
  parse inflate data
  = afterTree
      (setLibraryName (setHeader emptyResult (headerOf data))
         (libraryNameOf data))
      (parseTree (mkState data (headerSize data) (at_ data 6) false false)
         [] [] "").
Proof.
  intros F H C. rewrite (parse_after_header inflate data F H). cbv zeta.
  unfold decompressionGate. cbn [header setLibraryName setHeader].
  assert (Cf : hasBit (features (headerOf data)) IDASIG_FEATURE_COMPRESSED
               = false) by exact C.
  rewrite Cf. reflexivity.
Qed.

(** X25. Bytes after the tree are ignored.  When an input whose
    [features] has bit 0x10 clear parses successfully, the same input
    followed by any bytes parses to the same result. *)
Theorem parse_ignores_trailing_bytes (inflate : Inflater)
  (data extra : list byte) :
  success (parse inflate data) = true ->
  hasBit (le16 data 16) IDASIG_FEATURE_COMPRESSED = false ->
  parse inflate (data ++ extra) = parse inflate data.
Proof.
  intros S C.
  destruct (parse_success_inv inflate data S) as (F & H & _).
  destruct (isFlirt_accepts data F) as (E & M & V & L).
  destruct (header_app data extra V H) as (Hs & Ho & Hl).
  pose proof (headerSize_range data) as Hr.
  assert (F' : fst (isFlirt (data ++ extra)) = true)
    by (rewrite isFlirt_app by exact L; exact F).
  assert (H' : headerSize (data ++ extra)
               <= Z.of_nat (List.length (data ++ extra)))
    by (rewrite Hs, length_app; lia).
  assert (C' : hasBit (le16 (data ++ extra) 16) IDASIG_FEATURE_COMPRESSED
               = false) by (rewrite le16_app_l by lia; exact C).
  rewrite (parse_uncompressed inflate data F H C) in *.
  rewrite (parse_uncompressed inflate (data ++ extra) F' H' C').
  rewrite Hs, Ho, Hl, (at_app_l data extra 6) by lia.
  set (r1 := setLibraryName (setHeader emptyResult (headerOf data))
               (libraryNameOf data)) in *.
  set (st := mkState data (headerSize data) (at_ data 6) false false) in *.
  set (st' := mkState (data ++ extra) (headerSize data) (at_ data 6)
                false false).
  assert (W : embedded [] [] data extra st st').
  { unfold embedded, eofSound. subst st st'.
    cbn [body pos version eof err List.length app].
    split; [discriminate|]. split; [reflexivity|]. split; [reflexivity|].
    split; [lia|]. auto. }
  unfold afterTree in S |- *.
  destruct (t_end (parseTree st [] [] "")) as [u s1| |] eqn:D;
    try discriminate.
  destruct (parseTree_embedded [] [] data extra _ _ _ _ _ _ _ D W)
    as (s1' & R & _).
  rewrite R. cbn [t_end t_error t_modules]. reflexivity.
Qed.

Lemma parse_ignores_trailing_bytes_witness :
  let data := sigFile 5 [0; 4; 0x12; 0x34; 5; 8; 0x66; 0x6f; 0x6f; 0] in
  parse None (data ++ [xff; x00; x41]) = parse None data.
Proof.
  intros data.
  exact (parse_ignores_trailing_bytes None data [xff; x00; x41]
           ltac:(vm_compute; reflexivity) eq_refl).
Defined.

(** X30. The modules depend on the version and on the bytes after the
    header only.  When an uncompressed input parses successfully, every
    uncompressed input of the same version that passes the gate, holds its
    header and has after it the same bytes (followed by anything) parses
    successfully to the same modules: the architecture, the type fields,
    the CRC, the counts and the library name of the header are not used to
    decode the tree. *)
Theorem modules_from_version_and_tree (inflate : Inflater)
  (data data' extra : list byte) :
  success (parse inflate data) = true ->
  hasBit (le16 data 16) IDASIG_FEATURE_COMPRESSED = false ->
  fst (isFlirt data') = true ->
  headerSize data' <= Z.of_nat (List.length data') ->
  hasBit (le16 data' 16) IDASIG_FEATURE_COMPRESSED = false ->
  at_ data' 6 = at_ data 6 ->
  skipn (Z.to_nat (headerSize data')) data'
  = skipn (Z.to_nat (headerSize data)) data ++ extra ->
  success (parse inflate data') = true
  /\ modules (parse inflate data') = modules (parse inflate data).
Proof.
  intros S C F' H' C' V T.
  destruct (parse_success_inv inflate data S) as (F & H & _).
  pose proof (headerSize_range data) as Hr.
  pose proof (headerSize_range data') as Hr'.
  rewrite (parse_uncompressed inflate data F H C) in *.
  rewrite (parse_uncompressed inflate data' F' H' C').
  rewrite V.
  set (st := mkState data (headerSize data) (at_ data 6) false false) in *.
  set (st' := mkState data' (headerSize data') (at_ data 6) false false).
  assert (W : embedded (firstn (Z.to_nat (headerSize data)) data)
                (firstn (Z.to_nat (headerSize data')) data')
                (skipn (Z.to_nat (headerSize data)) data) extra st st').
  { unfold embedded, eofSound. subst st st'. cbn [body pos version eof err].
    rewrite !length_firstn.
    split; [discriminate|].
    split; [symmetry; apply firstn_skipn|].
    split; [rewrite <- T; symmetry; apply firstn_skipn|].
    split; [lia|]. split; [lia|]. auto. }
  unfold afterTree in S |- *.
  destruct (t_end (parseTree st [] [] "")) as [u s1| |] eqn:D;
    try discriminate.
  destruct (parseTree_embedded _ _ _ _ _ _ _ _ _ _ _ D W) as (s1' & R & _).
  rewrite R. cbn [t_end t_error t_modules success modules]. auto.
Qed.

Lemma modules_from_version_and_tree_witness :
  let tree := [0; 4; 0x12; 0x34; 5; 8; 0x66; 0x6f; 0x6f; 0] in
  let data := sigFile 5 tree in
  let data' :=
    IDASGN ++ [x05; x0d] ++ repeat xff 8 ++ [x00; x00] ++ repeat x07 16
    ++ [x03; x11; x22; x61; x62; x63] ++ map toChar tree ++ [x99] in
  success (parse None data') = true
  /\ modules (parse None data') = modules (parse None data).
Proof.
  intros tree data data'.
  exact (modules_from_version_and_tree None data data' [x99]
           ltac:(vm_compute; reflexivity) eq_refl eq_refl
           ltac:(vm_compute; discriminate) eq_refl eq_refl eq_refl).
Defined.

(** ** The byte that ends a function record, and the end of the loops *)

Lemma nameLoop_flags (room : nat) :
  forall c acc st nb fl st',
    nameLoop room c acc st = Some (nb, fl, st') -> 0 <= c <= 255 ->
    0 <= fl <= 255
    /\ ((List.length nb < List.length acc + room)%nat -> fl < 0x20).
Proof.
  induction room as [|room IH]; intros c acc st nb fl st' H Hc;
    cbn [nameLoop] in H.
  - inversion H; subst. split; [exact Hc | lia].
  - destruct (Z.leb_spec 32 c) as [C|C].
    + destruct (readByte st) as [c' st1] eqn:R.
      destruct (stopped st1); [discriminate|].
      destruct (IH _ _ _ _ _ _ H (readByte_value _ _ _ R)) as [A B].
      split; [exact A|]. intros L. apply B.
      rewrite length_app. simpl. lia.
    + inversion H; subst. split; [exact Hc | intros _; exact C].
Qed.

(** X26. The byte handed back as flags.  The byte that ends a function
    record is a byte of the input, and it is below 0x20 whenever the name
    is shorter than 1024 characters: only a name that fills the cap can be
    followed by a flags byte of 0x20 or more. *)
Theorem function_record_flags (st : ParseState) (off : Z) (f : FlirtFunction)
  (flags : Z) (st' : ParseState) :
  readPublicFunction st off = Some (f, flags, st') ->
  0 <= flags <= 255
  /\ ((String.length (name f) < 1024)%nat -> flags < 0x20).
Proof.
  unfold readPublicFunction. intros H.
  destruct (readOffset st) as [delta st1].
  destruct (stopped st1); [discriminate|].
  destruct (readByte st1) as [c st2] eqn:R2.
  destruct (stopped st2); [discriminate|].
  destruct (readAttributes c st2) as [[[[loc col] c'] st3]|] eqn:R3;
    [|discriminate].
  assert (Hc : 0 <= c' <= 255).
  { unfold readAttributes in R3. destruct (c <? 32).
    - destruct (readByte st2) as [x st2'] eqn:R.
      destruct (stopped st2'); [discriminate|].
      inversion R3; subst. exact (readByte_value _ _ _ R).
    - inversion R3; subst. exact (readByte_value _ _ _ R2). }
  destruct (nameLoop (Z.to_nat FLIRT_NAME_MAX) c' [] st3)
    as [[[nb fl] st4]|] eqn:R4; [|discriminate].
  inversion H; subst. clear H.
  destruct (nameLoop_flags _ _ _ _ _ _ _ R4 Hc) as [A B].
  split; [exact A|]. cbn [name]. rewrite string_of_list_byte_length.
  intros L. apply B. cbn [List.length]. unfold FLIRT_NAME_MAX.
  change (Z.to_nat 1024) with 1024%nat. lia.
Qed.

Lemma function_record_flags_witness :
  0 <= 5 <= 255 /\ ((3 < 1024)%nat -> 5 < 0x20).
Proof.
  exact (function_record_flags
           (startState [x08; x66; x6f; x6f; x05] 7) 0
           (mkFunction "foo" 8 false false) 5
           (mkState [x08; x66; x6f; x6f; x05] 5 7 false false) eq_refl).
Defined.

(** X27. Every loop of the decoder ends.  A turn of a loop that goes on
    has consumed at least one byte, so from any reader state the
    public-function loop, the two loops of [parseLeaf] and the tree walk
    end, with [true] or [false], within one more turn than bytes remain:
    the step counts of this development are never used up. *)
Theorem decoder_loops_end (st : ParseState) (path : list FlirtPatternNode)
  (out : list FlirtModule) (e : string) (off cl crc : Z) (m : FlirtModule) :
  publicFunctionsLoop (stepsFor st) st off m <> Starved
  /\ snd (sameCrcLoop (stepsFor st) st path cl crc out) <> Starved
  /\ snd (leafLoop (stepsFor st) st path out) <> Starved
  /\ t_end (parseTree st path out e) <> Starved.
Proof.
  assert (R : (remaining st < stepsFor st)%nat) by (unfold stepsFor; lia).
  split; [exact (publicFunctionsLoop_runs _ _ _ _ R)|].
  split; [exact (sameCrcLoop_runs _ _ _ _ _ _ R)|].
  split; [exact (leafLoop_runs _ _ _ _ R)|].
  apply parseTree_runs.
Qed.

(** ** A walk that returns [true] stayed inside the input *)

Lemma nameLoop_live (room : nat) :
  forall c acc st nb fl st',
    nameLoop room c acc st = Some (nb, fl, st') ->
    stopped st = false -> stopped st' = false.
Proof.
  induction room as [|room IH]; intros c acc st nb fl st' H L;
    cbn [nameLoop] in H.
  - inversion H; subst. exact L.
  - destruct (32 <=? c).
    + destruct (readByte st) as [c' st1].
      destruct (stopped st1) eqn:L1; [discriminate|].
      exact (IH _ _ _ _ _ _ H L1).
    + inversion H; subst. exact L.
Qed.

Lemma readPublicFunction_live st off f fl st' :
  readPublicFunction st off = Some (f, fl, st') -> stopped st' = false.
Proof.
  unfold readPublicFunction. intros H.
  destruct (readOffset st) as [delta st1].
  destruct (stopped st1); [discriminate|].
  destruct (readByte st1) as [c st2].
  destruct (stopped st2) eqn:L2; [discriminate|].
  destruct (readAttributes c st2) as [[[[loc col] c'] st3]|] eqn:R3;
    [|discriminate].
  assert (L3 : stopped st3 = false).
  { unfold readAttributes in R3. destruct (c <? 32).
    - destruct (readByte st2) as [x s]. destruct (stopped s) eqn:Ls;
        [discriminate|]. inversion R3; subst. exact Ls.
    - inversion R3; subst. exact L2. }
  destruct (nameLoop (Z.to_nat FLIRT_NAME_MAX) c' [] st3)
    as [[[nb fl'] st4]|] eqn:R4; [|discriminate].
  inversion H; subst. exact (nameLoop_live _ _ _ _ _ _ _ R4 L3).
Qed.

Lemma publicFunctionsLoop_live (steps : nat) :
  forall st off m r st',
    publicFunctionsLoop steps st off m = Done r st' -> stopped st' = false.
Proof.
  induction steps as [|steps IH]; intros st off m r st' H;
    cbn [publicFunctionsLoop] in H; [discriminate|].
  destruct (readPublicFunction st off) as [[[f fl] st1]|] eqn:R; [|discriminate].
  destruct (hasBit fl IDASIG_PARSE_MORE_PUBLIC_NAMES).
  - exact (IH _ _ _ _ _ H).
  - inversion H; subst. exact (readPublicFunction_live _ _ _ _ _ R).
Qed.

Lemma tailBytesLoop_live (count : nat) :
  forall st m m' st',
    tailBytesLoop count st m = Some (m', st') ->
    stopped st = false -> stopped st' = false.
Proof.
  induction count as [|count IH]; intros st m m' st' H L;
    cbn [tailBytesLoop] in H.
  - inversion H; subst. exact L.
  - destruct (readOffset st) as [off st1]. destruct (stopped st1); [discriminate|].
    destruct (readByte st1) as [v st2].
    destruct (stopped st2) eqn:L2; [discriminate|].
    exact (IH _ _ _ _ H L2).
Qed.

Lemma refNameLoop_live (n : nat) :
  forall st acc nb st',
    refNameLoop n st acc = Some (nb, st') ->
    stopped st = false -> stopped st' = false.
Proof.
  induction n as [|n IH]; intros st acc nb st' H L; cbn [refNameLoop] in H.
  - inversion H; subst. exact L.
  - destruct (readByte st) as [b st1].
    destruct (stopped st1) eqn:L1; [discriminate|].
    exact (IH _ _ _ _ H L1).
Qed.

Lemma readReferencedFunction_live st rf st' :
  readReferencedFunction st = Some (rf, st') -> stopped st' = false.
Proof.
  unfold readReferencedFunction, readNameLen. intros H.
  destruct (readOffset st) as [off st1]. destruct (stopped st1); [discriminate|].
  destruct (readByte st1) as [n0 st2].
  destruct (stopped st2) eqn:L2; [discriminate|].
  assert (K : forall n s, stopped s = false ->
             (if FLIRT_NAME_MAX <=? n then None
              else match refNameLoop (Z.to_nat n) s [] with
                   | Some (nameBytes, st3) =>
                       if (0 <? Z.of_nat (List.length nameBytes))
                          && (byteVal (last nameBytes x01) =? 0)
                       then Some (mkRefFunction off
                                    (string_of_list_byte (removelast nameBytes))
                                    true, st3)
                       else Some (mkRefFunction off
                                    (string_of_list_byte nameBytes) false, st3)
                   | None => None
                   end) = Some (rf, st') -> stopped st' = false).
  { intros n s Ls E. destruct (FLIRT_NAME_MAX <=? n); [discriminate|].
    destruct (refNameLoop (Z.to_nat n) s []) as [[nb s3]|] eqn:R3;
      [|discriminate].
    pose proof (refNameLoop_live _ _ _ _ _ R3 Ls) as L3.
    destruct ((0 <? Z.of_nat (List.length nb)) && (byteVal (last nb x01) =? 0));
      inversion E; subst; exact L3. }
  destruct (n0 =? 0).
  - destruct (readMultipleBytes st2) as [n1 st3].
    destruct (stopped st3) eqn:L3; [discriminate|].
    exact (K _ _ L3 H).
  - exact (K _ _ L2 H).
Qed.

Lemma referencedFunctionsLoop_live (count : nat) :
  forall st m m' st',
    referencedFunctionsLoop count st m = Some (m', st') ->
    stopped st = false -> stopped st' = false.
Proof.
  induction count as [|count IH]; intros st m m' st' H L;
    cbn [referencedFunctionsLoop] in H.
  - inversion H; subst. exact L.
  - destruct (readReferencedFunction st) as [[rf st1]|] eqn:R; [|discriminate].
    exact (IH _ _ _ _ H (readReferencedFunction_live _ _ _ R)).
Qed.

Lemma parseModule_live st path cl crc m fl st' :
  parseModule st path cl crc = Some (m, fl, st') -> stopped st' = false.
Proof.
  unfold parseModule. intros H.
  destruct (readOffset st) as [len st1]. destruct (stopped st1); [discriminate|].
  destruct (readModulePublicFunctions st1 _) as [[[m1 fl1] st2]|] eqn:R2;
    [|discriminate].
  assert (L2 : stopped st2 = false).
  { unfold readModulePublicFunctions in R2.
    destruct (publicFunctionsLoop _ _ _ _) as [r s| |] eqn:RL; try discriminate.
    inversion R2; subst. exact (publicFunctionsLoop_live _ _ _ _ _ _ RL). }
  destruct (if hasBit fl1 IDASIG_PARSE_READ_TAIL_BYTES
            then readModuleTailBytes st2 m1 else Some (m1, st2))
    as [[m2 st3]|] eqn:R3; [|discriminate].
  assert (L3 : stopped st3 = false).
  { destruct (hasBit fl1 IDASIG_PARSE_READ_TAIL_BYTES).
    - unfold readModuleTailBytes in R3. destruct (readCount st2) as [c s].
      destruct (stopped s) eqn:Ls; [discriminate|].
      exact (tailBytesLoop_live _ _ _ _ _ R3 Ls).
    - inversion R3; subst. exact L2. }
  destruct (if hasBit fl1 IDASIG_PARSE_READ_REFERENCED_FUNCTIONS
            then readModuleReferencedFunctions st3 m2 else Some (m2, st3))
    as [[m3 st4]|] eqn:R4; [|discriminate].
  inversion H; subst. clear H.
  destruct (hasBit fl IDASIG_PARSE_READ_REFERENCED_FUNCTIONS).
  - unfold readModuleReferencedFunctions in R4. destruct (readCount st3) as [c s].
    destruct (stopped s) eqn:Ls; [discriminate|].
    exact (referencedFunctionsLoop_live _ _ _ _ _ R4 Ls).
  - inversion R4; subst. exact L3.
Qed.

Lemma sameCrcLoop_live (steps : nat) :
  forall st path cl crc out out' fl st',
    sameCrcLoop steps st path cl crc out = (out', Done fl st') ->
    stopped st' = false.
Proof.
  induction steps as [|steps IH]; intros st path cl crc out out' fl st' H;
    cbn [sameCrcLoop] in H; [discriminate|].
  destruct (parseModule st path cl crc) as [[[m fl1] st1]|] eqn:R; [|discriminate].
  destruct (hasBit fl1 IDASIG_PARSE_MORE_MODULES_WITH_SAME_CRC).
  - exact (IH _ _ _ _ _ _ _ _ H).
  - inversion H; subst. exact (parseModule_live _ _ _ _ _ _ _ R).
Qed.

Lemma leafLoop_live (steps : nat) :
  forall st path out out' u st',
    leafLoop steps st path out = (out', Done u st') -> stopped st' = false.
Proof.
  induction steps as [|steps IH]; intros st path out out' u st' H;
    cbn [leafLoop] in H; [discriminate|].
  destruct (readByte st) as [cl st1]. destruct (stopped st1); [discriminate|].
  destruct (readShortBE st1) as [crc st2]. destruct (stopped st2); [discriminate|].
  destruct (sameCrcLoop (stepsFor st2) st2 path cl crc out)
    as [out1 [fl st3| |]] eqn:R3; try discriminate.
  destruct (hasBit fl IDASIG_PARSE_MORE_MODULES).
  - exact (IH _ _ _ _ _ _ H).
  - inversion H; subst. exact (sameCrcLoop_live _ _ _ _ _ _ _ _ _ R3).
Qed.

Lemma tree_live (steps : nat) :
  (forall st path out e u st',
     t_end (parseTreeSteps steps st path out e) = Done u st' ->
     stopped st' = false)
  /\ (forall i n st path out e u st',
        t_end (treeChildren steps i n st path out e) = Done u st' ->
        stopped st = false -> stopped st' = false).
Proof.
  induction steps as [|steps [IHt IHc]]; split.
  - intros st path out e u st' H. discriminate.
  - intros i n st path out e u st' H. discriminate.
  - intros st path out e u st' H. cbn [parseTreeSteps] in H.
    destruct (readMultipleBytes st) as [treeNodes st1].
    destruct (stopped st1) eqn:L1; [discriminate|].
    destruct (treeNodes =? 0).
    + unfold parseLeaf in H.
      destruct (leafLoop (stepsFor st1) st1 path out) as [o [u1 s| |]] eqn:R;
        try discriminate.
      cbn [t_end] in H. inversion H; subst.
      exact (leafLoop_live _ _ _ _ _ _ _ R).
    + exact (IHc _ _ _ _ _ _ _ _ H L1).
  - intros i n st path out e u st' H L. cbn [treeChildren] in H.
    destruct (i <? n).
    + destruct (readNode st) as [[node st1]|]; [|discriminate].
      destruct (parseTreeSteps steps st1 (path ++ [node]) out e)
        as [o e1 [u1 st2| |]] eqn:R2; try discriminate.
      assert (L2 : stopped st2 = false).
      { apply (IHt st1 (path ++ [node]) out e u1 st2). rewrite R2. reflexivity. }
      exact (IHc _ _ _ _ _ _ _ _ H L2).
    + cbn [t_end] in H. inversion H; subst. exact L.
Qed.

(** X28. Success is never built on a read past the end.  When a tree
    walk that starts from a sound reader returns [true], the reader is
    left live, at a position inside the body and beyond the one it
    started from: every byte the walk used was a byte of the input, none
    was the 0 of an exhausted reader. *)
Theorem parseTree_within_input (st : ParseState)
  (path : list FlirtPatternNode) (out : list FlirtModule) (e : string)
  (u : unit) (st' : ParseState) :
  t_end (parseTree st path out e) = Done u st' -> eofSound st ->
  live st /\ live st' /\ pos st < pos st' /\ pos st' <= size st.
Proof.
  intros D S.
  pose proof (proj1 (tree_live (stepsFor st)) st path out e u st' D) as L'.
  pose proof (proj1 (tree_done (stepsFor st)) st path out e u st' D) as X.
  split; [exact (live_back _ _ X S L')|]. split; [exact L'|].
  unfold parseTree, stepsFor in D. cbn [parseTreeSteps] in D.
  destruct (readMultipleBytes st) as [treeNodes st1] eqn:R1.
  destruct (stopped st1) eqn:L1; [discriminate|].
  destruct (readMultipleBytes_progressed _ _ _ R1 S L1) as (X1 & P1 & B1).
  pose proof (ext_pos _ _ X) as P. pose proof (ext_bound _ _ X) as B.
  assert (X2 : extends st1 st').
  { destruct (treeNodes =? 0).
    - destruct (parseLeaf st1 path out) as [o [s|]] eqn:R2; [|discriminate].
      cbn [t_end] in D. inversion D; subst.
      exact (proj1 (parseLeaf_done _ _ _ _ _ R2)).
    - exact (proj2 (tree_done (remaining st)) _ _ _ _ _ _ _ _ D). }
  pose proof (ext_pos _ _ X2). split; lia.
Qed.

Lemma parseTree_within_input_witness :
  let tree := map toChar [0; 4; 0x12; 0x34; 5; 8; 0x66; 0x6f; 0x6f; 0] in
  let st' := mkState tree 10 5 false false in
  live (startState tree 5) /\ live st'
  /\ pos (startState tree 5) < pos st' /\ pos st' <= size (startState tree 5).
Proof.
  intros tree st'.
  exact (parseTree_within_input (startState tree 5) [] [] "" tt st'
           ltac:(vm_compute; reflexivity) ltac:(discriminate)).
Defined.

(** ** The messages of [parse] *)

Lemma tree_message st :
  In (t_error (parseTree st [] [] ""))
    [""%string; "Unexpected EOF in tree"%string].
Proof.
  destruct (proj1 (tree_error (stepsFor st)) st [] [] ""%string) as [E|E];
    unfold parseTree; rewrite E; simpl; auto.
Qed.

(** X29. The messages of [parse].  Whatever the input and the build, the
    message [parse] leaves is one of eleven texts: empty, the gate's, the
    five truncation messages of the header, the two of the decompression
    step, and the two of the tree walk.  The other messages of
    [parseHeader] ("File too short", "Invalid magic (not IDASGN)",
    "Unsupported FLIRT version N") never come out of [parse]. *)
Theorem parse_messages (inflate : Inflater) (data : list byte) :
  In (errorMessage (parse inflate data)) parseMessages.
Proof.
  unfold parseMessages.
  destruct (fst (isFlirt data)) eqn:F.
  2:{ unfold parse. destruct (isFlirt data) as [flirt ov]. cbn [fst] in F.
      subst flirt. cbn [negb errorMessage setError]. right. left. reflexivity. }
  destruct (isFlirt_accepts data F) as (E & M & V & L).
  destruct (Z.le_gt_cases (headerSize data) (Z.of_nat (List.length data)))
    as [H|H].
  - rewrite (parse_after_header inflate data F H). cbv zeta.
    unfold decompressionGate. cbn [header setLibraryName setHeader].
    assert (T : forall r st,
              In (errorMessage (afterTree r (parseTree st [] [] "")))
                [""%string; "Unexpected EOF in tree"%string;
                 "Parse error in signature tree"%string]).
    { intros r st. unfold afterTree.
      pose proof (tree_message st) as Q.
      destruct (t_end (parseTree st [] [] "")); cbn [errorMessage];
        destruct Q as [Q|[Q|[]]]; rewrite <- Q; simpl; auto. }
    assert (T' : forall r st,
              In (errorMessage (afterTree r (parseTree st [] [] "")))
                parseMessages).
    { intros r st. destruct (T r st) as [Q|[Q|[Q|[]]]]; rewrite <- Q;
        unfold parseMessages; simpl; auto 12. }
    destruct (hasBit (features (headerOf data)) IDASIG_FEATURE_COMPRESSED).
    + destruct inflate as [f|].
      * destruct (f _ _) as [|b dec]; [simpl; auto 12 | apply T'].
      * simpl. auto 12.
    + apply T'.
  - destruct (parseHeader_truncated data M V L H) as (st' & r' & P & _ & _ & Q).
    unfold parse. rewrite E. cbn [negb]. rewrite P, Q.
    destruct (Z.of_nat (List.length data) <? 37); [simpl; auto 12|].
    destruct ((6 <=? at_ data 6) && (Z.of_nat (List.length data) <? 41));
      [simpl; auto 12|].
    destruct ((8 <=? at_ data 6) && (Z.of_nat (List.length data) <? 43));
      [simpl; auto 12|].
    destruct ((10 <=? at_ data 6) && (Z.of_nat (List.length data) <? 45));
      simpl; auto 12.
Qed.

(** ** The walk and its module starts *)

Lemma emitted_app (a b : list Emission) : emitted (a ++ b) = emitted a ++ emitted b.
Proof. unfold emitted. apply flat_map_app. Qed.

(** The inner loop of [parseLeaf] appends the modules decoded at its module
    starts, and ends as the trace says, whatever list it is given. *)
Lemma sameCrcLoop_trace (steps : nat) :
  forall st path cl crc out,
    sameCrcLoop steps st path cl crc out
    = (out ++ emitted (fst (sameCrcTrace steps st path cl crc)),
       snd (sameCrcTrace steps st path cl crc)).
Proof.
  induction steps as [|steps IH]; intros st path cl crc out;
    cbn [sameCrcLoop sameCrcTrace].
  - cbn [fst snd emitted flat_map]. rewrite app_nil_r. reflexivity.
  - destruct (parseModule st path cl crc) as [[[m fl] st1]|] eqn:R.
    2:{ cbn [fst snd emitted flat_map]. rewrite app_nil_r. reflexivity. }
    assert (E : forall tr,
               emitted (mkEmission st path cl crc :: tr) = m :: emitted tr).
    { intros tr. unfold emitted. cbn [flat_map e_state e_path e_crcLength e_crc16].
      rewrite R. reflexivity. }
    destruct (hasBit fl IDASIG_PARSE_MORE_MODULES_WITH_SAME_CRC).
    + rewrite IH.
      destruct (sameCrcTrace steps st1 path cl crc) as [tr r].
      cbn [fst snd]. rewrite E, <- app_assoc. reflexivity.
    + cbn [fst snd]. rewrite E. reflexivity.
Qed.

Lemma leafLoop_trace (steps : nat) :
  forall st path out,
    leafLoop steps st path out
    = (out ++ emitted (fst (leafTrace steps st path)),
       snd (leafTrace steps st path)).
Proof.
  induction steps as [|steps IH]; intros st path out;
    cbn [leafLoop leafTrace].
  - cbn [fst snd emitted flat_map]. rewrite app_nil_r. reflexivity.
  - destruct (readByte st) as [cl st1].
    destruct (stopped st1).
    { cbn [fst snd emitted flat_map]. rewrite app_nil_r. reflexivity. }
    destruct (readShortBE st1) as [crc st2].
    destruct (stopped st2).
    { cbn [fst snd emitted flat_map]. rewrite app_nil_r. reflexivity. }
    rewrite sameCrcLoop_trace.
    destruct (sameCrcTrace (stepsFor st2) st2 path cl crc) as [tr [fl st3| |]];
      cbn [fst snd]; try reflexivity.
    destruct (hasBit fl IDASIG_PARSE_MORE_MODULES); [|reflexivity].
    rewrite IH. destruct (leafTrace steps st3 path) as [tr' r].
    cbn [fst snd]. rewrite emitted_app, app_assoc. reflexivity.
Qed.

(** The tree walker appends the modules decoded at the module starts of
    the walk, and ends as the trace says, whatever list and message it is
    given. *)
Lemma tree_trace (steps : nat) :
  (forall st path out e,
     t_modules (parseTreeSteps steps st path out e)
     = out ++ emitted (fst (treeTrace steps st path))
     /\ t_end (parseTreeSteps steps st path out e)
        = snd (treeTrace steps st path))
  /\ (forall i n st path out e,
        t_modules (treeChildren steps i n st path out e)
        = out ++ emitted (fst (childrenTrace steps i n st path))
        /\ t_end (treeChildren steps i n st path out e)
           = snd (childrenTrace steps i n st path)).
Proof.
  induction steps as [|steps [IHt IHc]]; split.
  - intros st path out e. cbn. rewrite app_nil_r. auto.
  - intros i n st path out e. cbn. rewrite app_nil_r. auto.
  - intros st path out e. cbn [parseTreeSteps treeTrace].
    destruct (readMultipleBytes st) as [treeNodes st1].
    destruct (stopped st1).
    { cbn. rewrite app_nil_r. auto. }
    destruct (treeNodes =? 0); [|apply IHc].
    unfold parseLeaf. rewrite leafLoop_trace.
    destruct (leafTrace (stepsFor st1) st1 path) as [tr [u st2| |]];
      cbn [fst snd t_modules t_end]; auto.
  - intros i n st path out e. cbn [treeChildren childrenTrace].
    destruct (i <? n).
    2:{ cbn. rewrite app_nil_r. auto. }
    destruct (readNode st) as [[node st1]|].
    2:{ cbn. rewrite app_nil_r. auto. }
    destruct (IHt st1 (path ++ [node]) out e) as [M D].
    destruct (parseTreeSteps steps st1 (path ++ [node]) out e)
      as [o e1 r1]. cbn [t_modules t_end] in M, D. subst o r1.
    destruct (treeTrace steps st1 (path ++ [node])) as [tr [u st2| |]];
      cbn [fst snd t_modules t_end]; auto.
    destruct (IHc (i + 1) n st2 path (out ++ emitted tr) e1) as [M2 D2].
    destruct (childrenTrace steps (i + 1) n st2 path) as [tr' r].
    cbn [fst snd] in *. rewrite M2, D2, emitted_app, app_assoc. auto.
Qed.

Lemma parseTree_trace st path out e :
  t_modules (parseTree st path out e)
  = out ++ emitted (fst (treeTrace (stepsFor st) st path))
  /\ t_end (parseTree st path out e) = snd (treeTrace (stepsFor st) st path).
Proof. unfold parseTree. apply (proj1 (tree_trace (stepsFor st))). Qed.

Lemma startedFrom_back (a b : ParseState) (tr : list Emission) :
  extends a b -> Forall (startedFrom b) tr -> Forall (startedFrom a) tr.
Proof.
  intros X F. eapply Forall_impl; [|exact F].
  intros em [Y D]. split; [eapply extends_trans; eauto | exact D].
Qed.

Lemma sameCrcTrace_started (steps : nat) :
  forall st path cl crc,
    Forall (startedFrom st) (fst (sameCrcTrace steps st path cl crc)).
Proof.
  induction steps as [|steps IH]; intros st path cl crc;
    cbn [sameCrcTrace]; [constructor|].
  destruct (parseModule st path cl crc) as [[[m fl] st1]|] eqn:R;
    [|constructor].
  assert (S0 : startedFrom st (mkEmission st path cl crc)).
  { split; [apply extends_refl|]. cbn. eauto. }
  destruct (parseModule_stages _ _ _ _ _ _ _ R) as [_ (X & _)].
  destruct (hasBit fl IDASIG_PARSE_MORE_MODULES_WITH_SAME_CRC).
  - pose proof (IH st1 path cl crc) as F.
    destruct (sameCrcTrace steps st1 path cl crc) as [tr r]. cbn [fst] in *.
    constructor; [exact S0|]. exact (startedFrom_back _ _ _ X F).
  - cbn [fst]. constructor; [exact S0 | constructor].
Qed.

Lemma sameCrcTrace_done steps st path cl crc tr fl st' :
  sameCrcTrace steps st path cl crc = (tr, Done fl st') -> extends st st'.
Proof.
  intros H. pose proof (sameCrcLoop_trace steps st path cl crc []) as T.
  rewrite H in T. cbn [fst snd] in T.
  exact (proj1 (sameCrcLoop_done _ _ _ _ _ _ _ _ _ T)).
Qed.

Lemma leafTrace_done steps st path tr u st' :
  leafTrace steps st path = (tr, Done u st') -> extends st st'.
Proof.
  intros H. pose proof (leafLoop_trace steps st path []) as T.
  rewrite H in T. cbn [fst snd] in T.
  exact (proj1 (leafLoop_done _ _ _ _ _ _ _ T)).
Qed.

Lemma leafTrace_started (steps : nat) :
  forall st path, Forall (startedFrom st) (fst (leafTrace steps st path)).
Proof.
  induction steps as [|steps IH]; intros st path; cbn [leafTrace];
    [constructor|].
  destruct (readByte st) as [cl st1] eqn:R1.
  destruct (stopped st1); [constructor|].
  destruct (readShortBE st1) as [crc st2] eqn:R2.
  destruct (stopped st2); [constructor|].
  assert (X2 : extends st st2).
  { eapply extends_trans;
      [eapply readByte_extends | eapply readShortBE_extends]; eauto. }
  pose proof (sameCrcTrace_started (stepsFor st2) st2 path cl crc) as F1.
  apply (startedFrom_back _ _ _ X2) in F1.
  destruct (sameCrcTrace (stepsFor st2) st2 path cl crc)
    as [tr [fl st3| |]] eqn:R3; cbn [fst] in *; try exact F1.
  pose proof (sameCrcTrace_done _ _ _ _ _ _ _ _ R3) as X3.
  destruct (hasBit fl IDASIG_PARSE_MORE_MODULES); [|exact F1].
  pose proof (IH st3 path) as F2.
  destruct (leafTrace steps st3 path) as [tr' r]. cbn [fst] in *.
  apply Forall_app. split; [exact F1|].
  eapply startedFrom_back; [|exact F2]. eapply extends_trans; eauto.
Qed.

Lemma treeTrace_done steps st path tr u st' :
  treeTrace steps st path = (tr, Done u st') -> extends st st'.
Proof.
  intros H.
  destruct (proj1 (tree_trace steps) st path [] ""%string) as [_ D].
  rewrite H in D. cbn [snd] in D.
  exact (proj1 (tree_done steps) _ _ _ _ _ _ D).
Qed.

Lemma tree_started (steps : nat) :
  (forall st path, Forall (startedFrom st) (fst (treeTrace steps st path)))
  /\ (forall i n st path,
        Forall (startedFrom st) (fst (childrenTrace steps i n st path))).
Proof.
  induction steps as [|steps [IHt IHc]]; split; try (intros; constructor).
  - intros st path. cbn [treeTrace].
    destruct (readMultipleBytes st) as [treeNodes st1] eqn:R1.
    destruct (stopped st1); [constructor|].
    pose proof (readMultipleBytes_extends _ _ _ R1) as X1.
    destruct (treeNodes =? 0).
    + pose proof (leafTrace_started (stepsFor st1) st1 path) as F.
      apply (startedFrom_back _ _ _ X1) in F.
      destruct (leafTrace (stepsFor st1) st1 path) as [tr [u s| |]]; exact F.
    + exact (startedFrom_back _ _ _ X1 (IHc 0 treeNodes st1 path)).
  - intros i n st path. cbn [childrenTrace].
    destruct (i <? n); [|constructor].
    destruct (readNode st) as [[node st1]|] eqn:R1; [|constructor].
    destruct (readNode_progressed _ _ _ R1) as [(X1 & _) _].
    pose proof (IHt st1 (path ++ [node])) as F1.
    apply (startedFrom_back _ _ _ X1) in F1.
    destruct (treeTrace steps st1 (path ++ [node])) as [tr [u st2| |]] eqn:R2;
      cbn [fst] in *; try exact F1.
    pose proof (treeTrace_done _ _ _ _ _ _ R2) as X2.
    pose proof (IHc (i + 1) n st2 path) as F2.
    destruct (childrenTrace steps (i + 1) n st2 path) as [tr' r].
    cbn [fst] in *. apply Forall_app. split; [exact F1|].
    eapply startedFrom_back; [|exact F2].
    eapply extends_trans; eauto.
Qed.

(** The modules decoded at module starts where the decoder succeeds, one
    for one. *)
Lemma emitted_each (Q : Emission -> FlirtModule -> Prop) (tr : list Emission) :
  Forall
    (fun em =>
       exists m flags st',
         parseModule (e_state em) (e_path em) (e_crcLength em) (e_crc16 em)
         = Some (m, flags, st')
         /\ Q em m) tr ->
  Forall2 Q tr (emitted tr).
Proof.
  induction 1 as [|em tr (m & fl & st' & R & q) _ IH]; [constructor|].
  unfold emitted. cbn [flat_map]. rewrite R. constructor; assumption.
Qed.

(** What [parse] does with an input, by the state the tree is read from:
    with none, it fails before the walk, with a message of the gate, of the
    header or of the decompression and with no module; with one, it walks
    the tree from there. *)
Lemma parse_walk (inflate : Inflater) (data : list byte) :
  match treeStart inflate data with
  | Some st0 =>
      parse inflate data
      = afterTree
          (setLibraryName (setHeader emptyResult (headerOf data))
             (libraryNameOf data))
          (parseTree st0 [] [] "")
  | None =>
      success (parse inflate data) = false
      /\ modules (parse inflate data) = []
      /\ errorMessage (parse inflate data) <> ""%string
      /\ errorMessage (parse inflate data) <> "Unexpected EOF in tree"%string
      /\ errorMessage (parse inflate data)
         <> "Parse error in signature tree"%string
  end.
Proof.
  unfold treeStart. destruct (fst (isFlirt data)) eqn:F.
  - destruct (Z.leb_spec (headerSize data) (Z.of_nat (List.length data)))
      as [H|H]; cbn [andb].
    + rewrite (parse_after_header inflate data F H). cbv zeta.
      unfold decompressionGate. cbn [header setLibraryName setHeader].
      change (features (headerOf data)) with (le16 data 16).
      cbn [body pos version].
      destruct (hasBit (le16 data 16) IDASIG_FEATURE_COMPRESSED);
        [|reflexivity].
      destruct inflate as [f|].
      * destruct (f _ _) as [|b dec]; [|reflexivity].
        cbn. repeat split; discriminate.
      * cbn. repeat split; discriminate.
    + destruct (isFlirt_accepts data F) as (E & M & V & L).
      destruct (parseHeader_truncated data M V L H) as (st' & r' & P & A & B & C).
      unfold parse. rewrite E. cbn [negb]. rewrite P.
      split; [exact A|]. split; [exact B|]. rewrite C.
      destruct (Z.of_nat (List.length data) <? 37);
        [repeat split; discriminate|].
      destruct ((6 <=? at_ data 6) && (Z.of_nat (List.length data) <? 41));
        [repeat split; discriminate|].
      destruct ((8 <=? at_ data 6) && (Z.of_nat (List.length data) <? 43));
        [repeat split; discriminate|].
      destruct ((10 <=? at_ data 6) && (Z.of_nat (List.length data) <? 45));
        repeat split; discriminate.
  - cbn [andb]. unfold parse. destruct (isFlirt data) as [flirt ov].
    cbn [fst] in F. subst flirt. cbn. repeat split; discriminate.
Qed.

(** The state the tree is read from: live, at the version of the input,
    and, when the input is not compressed, over the bytes of the input,
    after the header. *)
Lemma treeStart_state (inflate : Inflater) (data : list byte) (st0 : ParseState) :
  treeStart inflate data = Some st0 ->
  version st0 = at_ data 6 /\ eof st0 = false /\ err st0 = false
  /\ (hasBit (le16 data 16) IDASIG_FEATURE_COMPRESSED = false ->
      st0 = mkState data (headerSize data) (at_ data 6) false false).
Proof.
  unfold treeStart.
  destruct (fst (isFlirt data) && _); [|discriminate].
  destruct (hasBit (le16 data 16) IDASIG_FEATURE_COMPRESSED).
  - destruct inflate as [f|]; [|discriminate].
    destruct (f _ _) as [|b dec]; [discriminate|].
    intros H. inversion H; subst. cbn. repeat split. discriminate.
  - intros H. inversion H; subst. cbn. auto.
Qed.

(** The result of [parse] and the walk of its input: the modules of the
    result are the modules decoded at the module starts of the walk, and
    [success] says whether the walk returned [true]. *)
Lemma parse_trace (inflate : Inflater) (data : list byte) :
  modules (parse inflate data) = emitted (parseTrace inflate data)
  /\ (success (parse inflate data) = true
      <-> exists u st', snd (parseWalk inflate data) = Done u st').
Proof.
  unfold parseTrace, parseWalk.
  pose proof (parse_walk inflate data) as W.
  destruct (treeStart inflate data) as [st0|].
  - rewrite W. destruct (parseTree_trace st0 [] [] ""%string) as [M D].
    rewrite <- D. unfold afterTree.
    destruct (t_end (parseTree st0 [] [] "")) as [u s| |];
      cbn [modules success setLibraryName setHeader emptyResult];
      (split; [exact M|]); split; try discriminate; eauto;
      intros (u' & s' & X); discriminate.
  - destruct W as (S & M & _). rewrite S, M. cbn [fst snd emitted flat_map].
    split; [reflexivity|]. split; [discriminate|].
    intros (u' & s' & X). discriminate.
Qed.

(** ** The flags byte of a module and the count bytes of its blocks *)

(** A read that is followed by a passed [eof || err] test has handed back
    the byte before the new position. *)
Lemma readByte_last (st st' : ParseState) (v : Z) :
  readByte st = (v, st') -> eofSound st -> stopped st' = false ->
  v = at_ (body st') (pos st' - 1) /\ v = at_ (body st) (pos st)
  /\ eofSound st'.
Proof.
  intros R S L. destruct (readByte_live _ _ _ R S L) as (_ & _ & V & E).
  subst st' v. cbn [body pos setPos].
  replace (pos st + 1 - 1) with (pos st) by lia.
  split; [reflexivity|]. split; [reflexivity|].
  exact (readByte_sound _ _ _ R).
Qed.

Lemma nameLoop_last (room : nat) :
  forall c acc st nb fl st',
    nameLoop room c acc st = Some (nb, fl, st') -> eofSound st ->
    c = at_ (body st) (pos st - 1) ->
    fl = at_ (body st') (pos st' - 1).
Proof.
  induction room as [|room IH]; intros c acc st nb fl st' H S C;
    cbn [nameLoop] in H.
  - inversion H; subst. reflexivity.
  - destruct (32 <=? c).
    + destruct (readByte st) as [c' st1] eqn:R.
      destruct (stopped st1) eqn:L; [discriminate|].
      destruct (readByte_last _ _ _ R S L) as (A & _ & S1).
      exact (IH _ _ _ _ _ _ H S1 A).
    + inversion H; subst. reflexivity.
Qed.

(** The byte handed back as flags by a function record is the byte of the
    body just before the place where the record ends. *)
Lemma readPublicFunction_last st off f fl st' :
  readPublicFunction st off = Some (f, fl, st') ->
  fl = at_ (body st') (pos st' - 1).
Proof.
  unfold readPublicFunction. intros H.
  destruct (readOffset st) as [delta st1] eqn:R1.
  destruct (stopped st1); [discriminate|].
  pose proof (readOffset_sound _ _ _ R1) as S1.
  destruct (readByte st1) as [c st2] eqn:R2.
  destruct (stopped st2) eqn:L2; [discriminate|].
  destruct (readByte_last _ _ _ R2 S1 L2) as (A2 & _ & S2).
  destruct (readAttributes c st2) as [[[[loc col] c1] st3]|] eqn:R3;
    [|discriminate].
  assert (A3 : c1 = at_ (body st3) (pos st3 - 1) /\ eofSound st3).
  { unfold readAttributes in R3. destruct (c <? 32).
    - destruct (readByte st2) as [x st2'] eqn:R.
      destruct (stopped st2') eqn:L; [discriminate|].
      inversion R3; subst.
      destruct (readByte_last _ _ _ R S2 L) as (A & _ & S3). auto.
    - inversion R3; subst. auto. }
  destruct A3 as [A3 S3].
  destruct (nameLoop (Z.to_nat FLIRT_NAME_MAX) c1 [] st3)
    as [[[nb fl'] st4]|] eqn:R4; [|discriminate].
  assert (E : fl' = fl /\ st4 = st') by (inversion H; auto).
  destruct E as [<- <-]. exact (nameLoop_last _ _ _ _ _ _ _ R4 S3 A3).
Qed.

Lemma publicFunctionsLoop_last (steps : nat) :
  forall st off m m' fl st',
    publicFunctionsLoop steps st off m = Done (m', fl) st' ->
    fl = at_ (body st') (pos st' - 1).
Proof.
  induction steps as [|steps IH]; intros st off m m' fl st' H;
    cbn [publicFunctionsLoop] in H; [discriminate|].
  destruct (readPublicFunction st off) as [[[f fl1] st1]|] eqn:R;
    [|discriminate].
  destruct (hasBit fl1 IDASIG_PARSE_MORE_PUBLIC_NAMES).
  - exact (IH _ _ _ _ _ _ H).
  - inversion H; subst. exact (readPublicFunction_last _ _ _ _ _ R).
Qed.

Lemma readModulePublicFunctions_last st m m' fl st' :
  readModulePublicFunctions st m = Some (m', fl, st') ->
  fl = at_ (body st') (pos st' - 1).
Proof.
  unfold readModulePublicFunctions. intros H.
  destruct (publicFunctionsLoop (stepsFor st) st 0 m) as [[r fl1] s1| |] eqn:RL;
    try discriminate.
  inversion H; subst. exact (publicFunctionsLoop_last _ _ _ _ _ _ _ RL).
Qed.

(** The count of a block that is read: 1 before version 8, and from version
    8 on the byte at the start of the block. *)
Lemma readCount_byte st c st1 :
  readCount st = (c, st1) -> eofSound st -> stopped st1 = false ->
  c = if 8 <=? version st then at_ (body st) (pos st) else 1.
Proof.
  unfold readCount. intros R S L. destruct (8 <=? version st).
  - exact (proj1 (proj2 (readByte_last _ _ _ R S L))).
  - inversion R; subst. reflexivity.
Qed.

Lemma readModuleTailBytes_count st m m' st' :
  readModuleTailBytes st m = Some (m', st') -> eofSound st ->
  fst (readCount st) = if 8 <=? version st then at_ (body st) (pos st) else 1.
Proof.
  unfold readModuleTailBytes. intros H S.
  destruct (readCount st) as [c st1] eqn:R.
  destruct (stopped st1) eqn:L; [discriminate|].
  exact (readCount_byte _ _ _ R S L).
Qed.

Lemma readModuleReferencedFunctions_count st m m' st' :
  readModuleReferencedFunctions st m = Some (m', st') -> eofSound st ->
  fst (readCount st) = if 8 <=? version st then at_ (body st) (pos st) else 1.
Proof.
  unfold readModuleReferencedFunctions. intros H S.
  destruct (readCount st) as [c st1] eqn:R.
  destruct (stopped st1) eqn:L; [discriminate|].
  exact (readCount_byte _ _ _ R S L).
Qed.

(** A module decoded at a module start, by stages: the states at which its
    two optional blocks start, the place of its flags byte, and the lengths
    of its two lists by the flags byte and the count bytes of the body. *)
Lemma decoded_stages (em : Emission) m flags st' :
  parseModule (e_state em) (e_path em) (e_crcLength em) (e_crc16 em)
  = Some (m, flags, st') ->
  exists stT stR,
    decodedAt em m flags stT stR st'
    /\ extends (e_state em) stT /\ extends stT stR /\ extends stR st'
    /\ pos (e_state em) < pos stT /\ pos st' <= size (e_state em)
    /\ flags = at_ (body (e_state em)) (pos stT - 1)
    /\ List.length (tailBytes m)
       = (if hasBit flags IDASIG_PARSE_READ_TAIL_BYTES
          then if 8 <=? version (e_state em)
               then Z.to_nat (at_ (body (e_state em)) (pos stT)) else 1%nat
          else 0%nat)
    /\ List.length (referencedFunctions m)
       = (if hasBit flags IDASIG_PARSE_READ_REFERENCED_FUNCTIONS
          then if 8 <=? version (e_state em)
               then Z.to_nat (at_ (body (e_state em)) (pos stR)) else 1%nat
          else 0%nat).
Proof.
  intros H. pose proof H as H0. unfold parseModule in H.
  destruct (readOffset (e_state em)) as [len st1] eqn:R1.
  destruct (stopped st1) eqn:L1; [discriminate|].
  destruct (readModulePublicFunctions st1 _) as [[[m1 fl] st2]|] eqn:R2;
    [|discriminate].
  destruct (if hasBit fl IDASIG_PARSE_READ_TAIL_BYTES
            then readModuleTailBytes st2 m1 else Some (m1, st2))
    as [[m2 st3]|] eqn:R3; [|discriminate].
  destruct (if hasBit fl IDASIG_PARSE_READ_REFERENCED_FUNCTIONS
            then readModuleReferencedFunctions st3 m2 else Some (m2, st3))
    as [[m3 st4]|] eqn:R4; [|discriminate].
  inversion H; subst m3 fl st4. clear H.
  pose proof (readOffset_extends _ _ _ R1) as X1.
  pose proof (readOffset_sound _ _ _ R1) as S1.
  pose proof (readModulePublicFunctions_progressed _ _ _ _ _ R2) as (X2 & P2 & _).
  pose proof (ext_sound _ _ X2 S1) as S2.
  assert (X3 : extends st2 st3).
  { destruct (hasBit flags IDASIG_PARSE_READ_TAIL_BYTES).
    - eapply readModuleTailBytes_extends; eauto.
    - inversion R3; subst. apply extends_refl. }
  pose proof (ext_sound _ _ X3 S2) as S3.
  assert (X4 : extends st3 st').
  { destruct (hasBit flags IDASIG_PARSE_READ_REFERENCED_FUNCTIONS).
    - eapply readModuleReferencedFunctions_extends; eauto.
    - inversion R4; subst. apply extends_refl. }
  assert (MR : moduleRun (version (e_state em)) m flags st1 st2 st3).
  { exists (e_state em), (e_path em), (e_crcLength em), (e_crc16 em), st', m1, m2.
    rewrite R1. cbn [fst snd]. repeat split; assumption. }
  destruct (moduleRun_fields _ _ _ _ _ _ MR) as (_ & VT & VR & LT & LR & _).
  pose proof (extends_trans _ _ _ X1 X2) as X12.
  pose proof (extends_trans _ _ _ X12 X3) as X13.
  destruct (parseModule_stages _ _ _ _ _ _ _ H0) as [_ (_ & _ & PB)].
  exists st2, st3. split.
  { split; [exact H0|]. exists m1, m2. rewrite R1. cbn [fst snd]. auto. }
  split; [exact X12|]. split; [exact X3|]. split; [exact X4|].
  split; [pose proof (ext_pos _ _ X1); lia|]. split; [exact PB|].
  split.
  { rewrite <- (ext_body _ _ X12).
    exact (readModulePublicFunctions_last _ _ _ _ _ R2). }
  split.
  - rewrite LT. destruct (hasBit flags IDASIG_PARSE_READ_TAIL_BYTES);
      [|reflexivity].
    rewrite (readModuleTailBytes_count _ _ _ _ R3 S2), VT, (ext_body _ _ X12).
    destruct (8 <=? version (e_state em)); reflexivity.
  - rewrite LR. destruct (hasBit flags IDASIG_PARSE_READ_REFERENCED_FUNCTIONS);
      [|reflexivity].
    rewrite (readModuleReferencedFunctions_count _ _ _ _ R4 S3), VR,
      (ext_body _ _ X13).
    destruct (8 <=? version (e_state em)); reflexivity.
Qed.

(** A successful parse has walked its input: the state the tree is read
    from, the version, and the module starts of the walk, each a state of
    the same reader at which the module decoder succeeds. *)
Lemma parse_success_walk (inflate : Inflater) (data : list byte) :
  success (parse inflate data) = true ->
  exists st0,
    treeStart inflate data = Some st0
    /\ versionByte data = Some (at_ data 6)
    /\ modules (parse inflate data) = emitted (parseTrace inflate data)
    /\ Forall (startedFrom st0) (parseTrace inflate data).
Proof.
  intros S. pose proof (parse_walk inflate data) as W.
  pose proof (proj1 (parse_trace inflate data)) as M.
  unfold parseTrace, parseWalk in *.
  destruct (treeStart inflate data) as [st0|] eqn:T.
  2:{ destruct W as (F & _). congruence. }
  exists st0. split; [reflexivity|].
  split.
  { destruct (parse_success_inv inflate data S) as (F & _).
    destruct (isFlirt_accepts data F) as (_ & _ & _ & L).
    apply versionByte_at. lia. }
  split.
  { exact M. }
  apply (proj1 (tree_started (stepsFor st0))).
Qed.

(** ** Flag fidelity, on the bytes of the input *)

(** C3, as the code has it.  A successful parse has read its tree from the
    state [st0]: the input itself after its header or, for a compressed
    input, the inflated bytes; and its modules are, one for one and in
    order, the modules decoded at the module starts of the walk of that
    body, at the version of the input.  For each of them the flags byte is
    the byte of that body just before [stT], the place where the
    public-function list of the module ends, and it decides the two lists:
    [tailBytes] is empty when bit 0x02 of that byte is clear, and when the
    bit is set it has as many entries as the block's count says, which is 1
    before version 8 and from version 8 on the byte of the body at [stT], a
    byte that may be 0.  So a non-empty [tailBytes] always means the bit
    was set, and before version 8 the converse holds too.  The same for bit
    0x04 and [referencedFunctions], with the count byte at [stR], where the
    tail-byte block ends. *)
Theorem flag_fidelity (inflate : Inflater) (data : list byte) :
  success (parse inflate data) = true ->
  exists v st0,
    versionByte data = Some v
    /\ treeStart inflate data = Some st0
    /\ (hasBit (le16 data 16) IDASIG_FEATURE_COMPRESSED = false ->
        st0 = mkState data (headerSize data) v false false)
    /\ Forall2
         (fun em m =>
            body (e_state em) = body st0 /\ version (e_state em) = v
            /\ pos st0 <= pos (e_state em)
            /\ exists flags stT stR st',
                 decodedAt em m flags stT stR st'
                 /\ pos (e_state em) < pos stT /\ pos stT <= pos stR
                 /\ pos stR <= pos st' /\ pos st' <= size st0
                 /\ flags = at_ (body st0) (pos stT - 1)
                 /\ List.length (tailBytes m)
                    = (if hasBit flags IDASIG_PARSE_READ_TAIL_BYTES
                       then if 8 <=? v
                            then Z.to_nat (at_ (body st0) (pos stT))
                            else 1%nat
                       else 0%nat)
                 /\ List.length (referencedFunctions m)
                    = (if hasBit flags IDASIG_PARSE_READ_REFERENCED_FUNCTIONS
                       then if 8 <=? v
                            then Z.to_nat (at_ (body st0) (pos stR))
                            else 1%nat
                       else 0%nat)
                 /\ (tailBytes m <> [] ->
                     hasBit flags IDASIG_PARSE_READ_TAIL_BYTES = true)
                 /\ (referencedFunctions m <> [] ->
                     hasBit flags IDASIG_PARSE_READ_REFERENCED_FUNCTIONS = true)
                 /\ (v < 8 ->
                     (tailBytes m <> []
                      <-> hasBit flags IDASIG_PARSE_READ_TAIL_BYTES = true)
                     /\ (referencedFunctions m <> []
                         <-> hasBit flags IDASIG_PARSE_READ_REFERENCED_FUNCTIONS
                             = true)))
         (parseTrace inflate data) (modules (parse inflate data)).
Proof.
  intros S.
  destruct (parse_success_walk inflate data S) as (st0 & T & V & M & F).
  destruct (treeStart_state inflate data st0 T) as (V0 & _ & _ & U).
  exists (at_ data 6), st0. split; [exact V|]. split; [exact T|].
  split; [exact U|]. rewrite M. apply emitted_each.
  eapply Forall_impl; [|exact F]. intros em (X & m & flags & st' & R).
  exists m, flags, st'. split; [exact R|].
  destruct (decoded_stages em m flags st' R)
    as (stT & stR & D & XT & XR & XE & PT & PE & FL & LT & LR).
  rewrite (ext_body _ _ X), (ext_version _ _ X), V0 in *.
  split; [reflexivity|]. split; [reflexivity|].
  split; [exact (ext_pos _ _ X)|].
  exists flags, stT, stR, st'. split; [exact D|]. split; [exact PT|].
  split; [exact (ext_pos _ _ XR)|]. split; [exact (ext_pos _ _ XE)|].
  split; [rewrite <- (extends_size _ _ X); exact PE|].
  split; [exact FL|]. split; [exact LT|]. split; [exact LR|].
  split; [|split].
  - intros Hn. destruct (hasBit flags IDASIG_PARSE_READ_TAIL_BYTES);
      [reflexivity|].
    destruct (tailBytes m); [congruence | discriminate].
  - intros Hn. destruct (hasBit flags IDASIG_PARSE_READ_REFERENCED_FUNCTIONS);
      [reflexivity|].
    destruct (referencedFunctions m); [congruence | discriminate].
  - intros Hv.
    assert (E : (8 <=? at_ data 6) = false) by (apply Z.leb_gt; exact Hv).
    rewrite E in LT, LR. split; split; intros Hn.
    + destruct (hasBit flags IDASIG_PARSE_READ_TAIL_BYTES); [reflexivity|].
      destruct (tailBytes m); [congruence | discriminate].
    + rewrite Hn in LT. destruct (tailBytes m); discriminate.
    + destruct (hasBit flags IDASIG_PARSE_READ_REFERENCED_FUNCTIONS);
        [reflexivity|].
      destruct (referencedFunctions m); [congruence | discriminate].
    + rewrite Hn in LR. destruct (referencedFunctions m); discriminate.
Qed.

Lemma flag_fidelity_witness :
  let data :=
    sigFile 8 [0; 4; 0x12; 0x34; 5; 8; 0x66; 0x6f; 0x6f; 6; 1; 3; 7; 1; 9; 2;
               0x41; 0] in
  Forall2
    (fun em m =>
       exists flags stT stR st',
         decodedAt em m flags stT stR st'
         /\ flags = at_ data (pos stT - 1)
         /\ List.length (tailBytes m)
            = (if hasBit flags IDASIG_PARSE_READ_TAIL_BYTES
               then Z.to_nat (at_ data (pos stT)) else 0%nat)
         /\ List.length (referencedFunctions m)
            = (if hasBit flags IDASIG_PARSE_READ_REFERENCED_FUNCTIONS
               then Z.to_nat (at_ data (pos stR)) else 0%nat))
    (parseTrace None data) (modules (parse None data)).
Proof.
  intros data.
  destruct (flag_fidelity None data) as (v & st0 & V & T & U & F);
    [vm_compute; reflexivity|].
  assert (E : v = 8) by (vm_compute in V; inversion V; reflexivity).
  subst v. rewrite (U eq_refl) in F. cbn [body] in F.
  eapply Forall2_impl; [|exact F].
  intros em m (_ & _ & _ & flags & stT & stR & st' & D & _ & _ & _ & _ & A & B & C & _).
  exists flags, stT, stR, st'. auto.
Defined.

(** ** Cumulative offsets, on the bytes of the input *)

(** C5, as the code has it.  A successful parse has read its tree from the
    state [st0] (the input after its header or, for a compressed input, the
    inflated bytes), and its modules are, one for one and in order, the
    modules decoded at the module starts of the walk of that body, at the
    version of the input.  For each of them let [ds] be the deltas written
    in that body from the start of the module's function list on, which is
    where the module's length field ends (each delta read by [readOffset]:
    [multi] from version 9 on, [max2] before).  The module has one function
    for each delta, and the offset of the i-th function is the sum of the
    first i+1 deltas reduced modulo 2^32, the running offset being a 32-bit
    unsigned integer that is never reset within the module.  When the sum
    of all the deltas of the module is below 2^32, the offsets are these
    sums themselves and they never decrease. *)
Theorem cumulative_offsets (inflate : Inflater) (data : list byte) :
  success (parse inflate data) = true ->
  exists v st0,
    versionByte data = Some v
    /\ treeStart inflate data = Some st0
    /\ (hasBit (le16 data 16) IDASIG_FEATURE_COMPRESSED = false ->
        st0 = mkState data (headerSize data) v false false)
    /\ Forall2
         (fun em m =>
            body (e_state em) = body st0 /\ version (e_state em) = v
            /\ pos st0 <= pos (e_state em)
            /\ (exists flags st',
                  parseModule (e_state em) (e_path em) (e_crcLength em)
                    (e_crc16 em) = Some (m, flags, st'))
            /\ let ds := publicDeltas (snd (readOffset (e_state em))) in
               Forall (fun d => 0 <= d < 2 ^ 32) ds
               /\ List.length (publicFunctions m) = List.length ds
               /\ map offset (publicFunctions m) = map u32 (runningSums 0 ds)
               /\ (fold_right Z.add 0 ds < 2 ^ 32 ->
                   map offset (publicFunctions m) = runningSums 0 ds
                   /\ nondecreasing (map offset (publicFunctions m))))
         (parseTrace inflate data) (modules (parse inflate data)).
Proof.
  intros S.
  destruct (parse_success_walk inflate data S) as (st0 & T & V & M & F).
  destruct (treeStart_state inflate data st0 T) as (V0 & _ & _ & U).
  exists (at_ data 6), st0. split; [exact V|]. split; [exact T|].
  split; [exact U|]. rewrite M. apply emitted_each.
  eapply Forall_impl; [|exact F]. intros em (X & m & flags & st' & R).
  exists m, flags, st'. split; [exact R|].
  split; [exact (ext_body _ _ X)|].
  split; [rewrite (ext_version _ _ X); exact V0|].
  split; [exact (ext_pos _ _ X)|]. split; [eauto|].
  destruct (parseModule_stages _ _ _ _ _ _ _ R) as [(stT & stR & MR) _].
  set (stF := snd (readOffset (e_state em))) in *.
  destruct (moduleRun_fields _ _ _ _ _ _ MR)
    as (_ & _ & _ & _ & _ & m0 & m1 & E0 & RF & EP).
  unfold readModulePublicFunctions in RF.
  destruct (publicFunctionsLoop (stepsFor stF) stF 0 m0) as [[m1' fl] s1| |] eqn:RL;
    try discriminate.
  inversion RF; subst m1' fl s1. clear RF.
  destruct (publicFunctionsLoop_offsets _ _ _ _ _ _ _ RL) as (fs & A & B & _).
  rewrite E0 in A. simpl in A. cbv zeta. rewrite EP, A.
  fold (publicDeltas stF) in B.
  pose proof (deltasLoop_range (stepsFor stF) stF) as Rg.
  fold (publicDeltas stF) in Rg.
  split; [exact Rg|]. split.
  { rewrite <- (length_map offset fs), B, length_map. apply runningSums_length. }
  split; [exact B|].
  intros Hs. rewrite B.
  rewrite runningSums_exact by (assumption || lia).
  split; [reflexivity|]. apply runningSums_nondecreasing. exact Rg.
Qed.

Lemma cumulative_offsets_witness :
  let data :=
    sigFile 5 [0; 4; 0x12; 0x34; 5; 8; 0x66; 0x6f; 0x6f; 1; 5; 0x62; 0x61;
               0x72; 0] in
  Forall2
    (fun em m =>
       body (e_state em) = data
       /\ map offset (publicFunctions m)
          = map u32 (runningSums 0 (publicDeltas (snd (readOffset (e_state em))))))
    (parseTrace None data) (modules (parse None data))
  /\ map (fun em => publicDeltas (snd (readOffset (e_state em))))
       (parseTrace None data) = [[8; 5]]
  /\ map (fun m => map offset (publicFunctions m)) (modules (parse None data))
     = [[8; 13]].
Proof.
  intros data. split; [|split; vm_compute; reflexivity].
  destruct (cumulative_offsets None data) as (v & st0 & V & T & U & F);
    [vm_compute; reflexivity|].
  assert (E : v = 5) by (vm_compute in V; inversion V; reflexivity).
  subst v. rewrite (U eq_refl) in F. cbn [body] in F.
  eapply Forall2_impl; [|exact F].
  intros em m (B & _ & _ & _ & _ & _ & O & _). auto.
Defined.

(** ** Failure, and what the result keeps *)

(** C7, as the code has it.  [parse] stops at the first failing step and a
    failed result always has a message.  When the failure is at the gate,
    in the header or in the decompression, no tree is walked: the message
    is not one of the tree walk and the modules list is empty.  When the
    tree walk fails, the message is "Unexpected EOF in tree" or "Parse
    error in signature tree", and the result keeps, in order, every module
    appended before the failing step: its modules are, one for one, the
    modules decoded at the module starts that the walk of the body had
    completed when it failed. *)
Theorem parse_failure (inflate : Inflater) (data : list byte) :
  success (parse inflate data) = false ->
  errorMessage (parse inflate data) <> ""%string
  /\ snd (parseWalk inflate data) = Failed
  /\ Forall2
       (fun em m =>
          exists flags st',
            parseModule (e_state em) (e_path em) (e_crcLength em) (e_crc16 em)
            = Some (m, flags, st'))
       (parseTrace inflate data) (modules (parse inflate data))
  /\ match treeStart inflate data with
     | None =>
         parseTrace inflate data = [] /\ modules (parse inflate data) = []
         /\ errorMessage (parse inflate data) <> "Unexpected EOF in tree"%string
         /\ errorMessage (parse inflate data)
            <> "Parse error in signature tree"%string
     | Some st0 =>
         (errorMessage (parse inflate data) = "Unexpected EOF in tree"%string
          \/ errorMessage (parse inflate data)
             = "Parse error in signature tree"%string)
         /\ (hasBit (le16 data 16) IDASIG_FEATURE_COMPRESSED = false ->
             st0 = mkState data (headerSize data) (at_ data 6) false false)
         /\ Forall
              (fun em =>
                 body (e_state em) = body st0
                 /\ version (e_state em) = at_ data 6
                 /\ pos st0 <= pos (e_state em))
              (parseTrace inflate data)
     end
  /\ (modules (parse inflate data) <> [] ->
      errorMessage (parse inflate data) = "Unexpected EOF in tree"%string
      \/ errorMessage (parse inflate data)
         = "Parse error in signature tree"%string).
Proof.
  intros S.
  pose proof (parse_walk inflate data) as W.
  pose proof (proj1 (parse_trace inflate data)) as M.
  pose proof (treeStart_state inflate data) as TS.
  unfold parseTrace, parseWalk in *.
  destruct (treeStart inflate data) as [st0|].
  - destruct (TS st0 eq_refl) as (V0 & _ & _ & U). clear TS.
    pose proof (proj1 (tree_started (stepsFor st0)) st0 []) as F.
    destruct (parseTree_trace st0 [] [] ""%string) as [_ D].
    pose proof (parseTree_runs st0 [] [] ""%string) as N.
    assert (E : t_end (parseTree st0 [] [] "") = Failed
                /\ (errorMessage (parse inflate data)
                    = "Unexpected EOF in tree"%string
                    \/ errorMessage (parse inflate data)
                       = "Parse error in signature tree"%string)).
    { rewrite W in S |- *. unfold afterTree in *.
      destruct (t_end (parseTree st0 [] [] "")) as [u s| |];
        [discriminate | | exfalso; apply N; reflexivity].
      split; [reflexivity|]. cbn [errorMessage].
      destruct (proj1 (tree_error (stepsFor st0)) st0 [] [] ""%string) as [X|X];
        fold (parseTree st0 [] [] "") in X; rewrite X; auto. }
    destruct E as [E1 E2].
    split; [destruct E2 as [X|X]; rewrite X; discriminate|].
    split; [rewrite <- D; exact E1|].
    split.
    { rewrite M. apply emitted_each. eapply Forall_impl; [|exact F].
      intros em (_ & m & fl & st' & R). exists m, fl, st'. eauto. }
    split; [|intros _; exact E2].
    split; [exact E2|]. split; [exact U|].
    eapply Forall_impl; [|exact F]. intros em (X & _).
    split; [exact (ext_body _ _ X)|].
    split; [rewrite (ext_version _ _ X); exact V0 | exact (ext_pos _ _ X)].
  - destruct W as (_ & M0 & E0 & E1 & E2).
    split; [exact E0|]. split; [reflexivity|].
    split; [rewrite M0; constructor|].
    split; [auto|]. intros N. congruence.
Qed.

Lemma parse_failure_witness :
  let data := sigFile 5 [0; 4; 0x12; 0x34; 5; 8; 0x66; 0x6f; 0x6f; 8] in
  errorMessage (parse None data) = "Parse error in signature tree"%string
  /\ List.length (parseTrace None data) = 1%nat
  /\ Forall2
       (fun em m =>
          exists flags st',
            parseModule (e_state em) (e_path em) (e_crcLength em) (e_crc16 em)
            = Some (m, flags, st'))
       (parseTrace None data) (modules (parse None data)).
Proof.
  intros data.
  destruct (parse_failure None data) as (_ & _ & F & _);
    [vm_compute; reflexivity|].
  split; [vm_compute; reflexivity|]. split; [vm_compute; reflexivity|].
  exact F.
Defined.

(** ** The rendered pattern path *)

Lemma concat_space_cons (x y : string) (l : list string) :
  String.concat " " (x :: y :: l)
  = (x ++ String " " (String.concat " " (y :: l)))%string.
Proof. reflexivity. Qed.

(** The string [patternPathHex] builds for a path of well-shaped nodes:
    the renderings of the nodes with one space between neighbours. *)
Lemma patternPathHex_spaced (m : FlirtModule) :
  Forall nodeShaped (patternPath m) ->
  patternPathHex m = String.concat " " (map toHexString (patternPath m)).
Proof.
  unfold patternPathHex. destruct (patternPath m) as [|n l]; [reflexivity|].
  intros F. inversion F as [|? ? [_ Hn] _]; subst.
  assert (Hb : patternBytes n <> []).
  { intros E. unfold nodeLen in Hn. rewrite E in Hn. simpl in Hn. lia. }
  cbn [fold_left isEmpty append map].
  rewrite patternPathHex_fold_join by (apply toHexString_nonempty; exact Hb).
  rewrite concat_space. reflexivity.
Qed.

(** Where the two characters of byte [i] of a node stand in the spaced
    rendering of a path: after two characters for each byte before it and
    one space for each node before its node. *)
Lemma spaced_cell (pre : list FlirtPatternNode) (n : FlirtPatternNode)
  (post : list FlirtPatternNode) (i : nat) :
  (i < nodeLen n)%nat ->
  substring (2 * (pathLen pre + i) + List.length pre) 2
    (String.concat " " (map toHexString (pre ++ n :: post)))
  = hexCell n i.
Proof.
  intros Hi. induction pre as [|a pre IH].
  - cbn [app map pathLen fold_right List.length].
    replace (2 * (0 + i) + 0)%nat with (2 * i)%nat by lia.
    rewrite concat_space.
    rewrite substring_append_l by (rewrite toHexString_length; lia).
    apply toHexString_cell. exact Hi.
  - assert (E : exists y l,
                 map toHexString (pre ++ n :: post) = y :: l).
    { destruct pre; cbn [app map]; eauto. }
    destruct E as (y & l & E).
    change (map toHexString ((a :: pre) ++ n :: post))
      with (toHexString a :: map toHexString (pre ++ n :: post)).
    rewrite E in IH |- *. rewrite concat_space_cons.
    replace (2 * (pathLen (a :: pre) + i) + List.length (a :: pre))%nat
      with (String.length (toHexString a)
            + S (2 * (pathLen pre + i) + List.length pre))%nat
      by (rewrite toHexString_length; simpl; lia).
    rewrite substring_append_r. exact IH.
Qed.

Lemma substring_0_0 (s : string) : substring 0 0 s = ""%string.
Proof. destruct s; reflexivity. Qed.

(** The space before the rendering of a node that is not the first. *)
Lemma spaced_separator (pre : list FlirtPatternNode) (n : FlirtPatternNode)
  (post : list FlirtPatternNode) :
  pre <> [] ->
  substring (2 * pathLen pre + List.length pre - 1) 1
    (String.concat " " (map toHexString (pre ++ n :: post)))
  = " "%string.
Proof.
  induction pre as [|a pre IH]; [congruence|]. intros _.
  assert (E : exists y l, map toHexString (pre ++ n :: post) = y :: l).
  { destruct pre; cbn [app map]; eauto. }
  destruct E as (y & l & E).
  change (map toHexString ((a :: pre) ++ n :: post))
    with (toHexString a :: map toHexString (pre ++ n :: post)).
  rewrite E in IH |- *. rewrite concat_space_cons.
  destruct pre as [|b pre].
  - replace (2 * pathLen [a] + List.length [a] - 1)%nat
      with (String.length (toHexString a) + 0)%nat
      by (rewrite toHexString_length; simpl; lia).
    rewrite substring_append_r. cbn [substring].
    rewrite substring_0_0. reflexivity.
  - replace (2 * pathLen (a :: b :: pre) + List.length (a :: b :: pre) - 1)%nat
      with (String.length (toHexString a)
            + S (2 * pathLen (b :: pre) + List.length (b :: pre) - 1))%nat
      by (rewrite toHexString_length; simpl; lia).
    rewrite substring_append_r. cbn [substring]. apply IH. discriminate.
Qed.

(** The claim that the rendered path has twice as many characters as the
    path has bytes fails for the string the program builds: in this
    version-7 input the module lies under two nodes, one of one byte (AA)
    and one of two bytes (BB and a variant byte); the parse succeeds, the
    rendered path is [AA BB..], and it has 7 characters for 3 bytes. *)
Lemma pattern_path_hex_counterexample :
  let data :=
    sigFile 7 [1; 1; 0; 0xaa; 1; 2; 1; 0xbb; 0; 4; 0x12; 0x34; 5; 8; 0x66;
               0x6f; 0x6f; 0] in
  exists m,
    success (parse None data) = true
    /\ modules (parse None data) = [m]
    /\ map nodeLen (patternPath m) = [1%nat; 2%nat]
    /\ patternPathHex m = "AA BB.."%string
    /\ String.length (patternPathHex m) = 7%nat
    /\ (2 * pathLen (patternPath m))%nat = 6%nat
    /\ String.length (patternPathHex m) <> (2 * pathLen (patternPath m))%nat.
Proof.
  intros data. eexists.
  split; [vm_compute; reflexivity|].
  split; [vm_compute; reflexivity|].
  split; [vm_compute; reflexivity|].
  split; [vm_compute; reflexivity|].
  split; [vm_compute; reflexivity|].
  split; [vm_compute; reflexivity|].
  vm_compute. discriminate.
Qed.

(** C9, as the code has it.  For a module emitted by a successful parse,
    [patternPathHex] is the renderings of the nodes of its path with one
    space between neighbours: with [k] nodes (k >= 1) it has twice as many
    characters as the path has bytes, and [k - 1] more.  Every node of the
    path has a mask as long as its bytes (1..63).  The rendering of a node
    that is not the first has a space before it, and the two characters of
    byte [i] of a node stand after two characters for each byte before
    them and one space for each node before their node; they are [..]
    exactly when the mask marks the byte variant, and otherwise the two
    uppercase hexadecimal digits of the byte, high digit first. *)
Theorem pattern_path_hex (inflate : Inflater) (data : list byte)
  (m : FlirtModule) :
  success (parse inflate data) = true -> In m (modules (parse inflate data)) ->
  patternPathHex m = String.concat " " (map toHexString (patternPath m))
  /\ String.length (patternPathHex m)
     = (2 * pathLen (patternPath m) + (List.length (patternPath m) - 1))%nat
  /\ forall pre n post,
       patternPath m = pre ++ n :: post ->
       nodeShaped n
       /\ (pre <> [] ->
           substring (2 * pathLen pre + List.length pre - 1) 1
             (patternPathHex m) = " "%string)
       /\ forall i, (i < nodeLen n)%nat ->
            let at_i := (2 * (pathLen pre + i) + List.length pre)%nat in
            isVariant n i = negb (at_ (variantMask n) (Z.of_nat i) =? 0)
            /\ (substring at_i 2 (patternPathHex m) = ".."%string
                <-> isVariant n i = true)
            /\ (isVariant n i = false ->
                exists a b,
                  substring at_i 2 (patternPathHex m)
                  = String a (String b EmptyString)
                  /\ hexDigitValue a
                     = Some (at_ (patternBytes n) (Z.of_nat i) / 16)
                  /\ hexDigitValue b
                     = Some (at_ (patternBytes n) (Z.of_nat i) mod 16)).
Proof.
  intros _ Hin.
  destruct (parse_modules_run inflate data) as (v & _ & F).
  rewrite Forall_forall in F. destruct (F m Hin) as (N & _).
  pose proof (patternPathHex_spaced m N) as J.
  split; [exact J|]. split.
  { destruct (patternPath m) as [|n0 l] eqn:P.
    - unfold patternPathHex. rewrite P. reflexivity.
    - rewrite <- P in *. apply patternPathHex_length; [exact N|].
      rewrite P. discriminate. }
  intros pre n post E.
  assert (Nn : nodeShaped n).
  { rewrite Forall_forall in N. apply N. rewrite E. apply in_elt. }
  split; [exact Nn|]. rewrite J, E.
  split; [apply spaced_separator|].
  intros i Hi. cbv zeta. rewrite (spaced_cell pre n post i Hi).
  split; [apply isVariant_mask; assumption|].
  split; [apply hexCell_dots|].
  intros Hv. unfold hexCell. rewrite Hv.
  apply hexByte_digits. apply at_range.
Qed.

Lemma pattern_path_hex_witness :
  let data :=
    sigFile 7 [1; 1; 0; 0xaa; 1; 2; 1; 0xbb; 0; 4; 0x12; 0x34; 5; 8; 0x66;
               0x6f; 0x6f; 0] in
  let m := nth 0 (modules (parse None data)) (mkModule [] 0 0 0 [] [] []) in
  patternPathHex m = "AA BB.."%string
  /\ String.length (patternPathHex m)
     = (2 * pathLen (patternPath m) + (List.length (patternPath m) - 1))%nat
  /\ List.length (patternPath m) = 2%nat.
Proof.
  intros data m.
  destruct (pattern_path_hex None data m) as (_ & A & _).
  - vm_compute. reflexivity.
  - vm_compute. left. reflexivity.
  - split; [vm_compute; reflexivity|]. split; [exact A|].
    vm_compute. reflexivity.
Defined.

(** ** The flags byte after a name that fills the cap *)


